(** * aws-ciem-tool: risk scoring engine, relationship graph builder, access-path query

    A shallow embedding of
      - [backend/src/analyzers/risk_analyzer.py]        (class RiskAnalyzer),
      - [backend/src/analyzers/relationship_builder.py] (class RelationshipBuilder),
      - [backend/src/api/routes/relationships.py]       (get_access_path and the
        read routes over a stored scan),
      - [backend/src/discoverers/resource_discoverer.py] (the functions that turn
        an AWS response item into a record),
      - [backend/src/api/routes/scan.py]                (perform_scan and the
        routes over the two stores),
      - [backend/src/api/routes/risks.py]               (calculate_blast_radius,
        get_risk_statistics),
    together with the properties stated about them.

    Python values are embedded as follows.
      - dict records coming from the discoverers become Rocq records; a key
        read with [d["k"]] is a plain field when every discoverer path sets
        it, and an [option] when a discoverer path can leave it out (reading
        it with [d["k"]] then raises KeyError, with [d.get("k")] gives None);
      - Python ints are [Z]; [len] is [Z.of_nat (length _)];
      - Python dicts used as maps keep insertion order, so they are
        association lists with in-place update ([dict_set]);
      - exceptions are the [Raise] case of [result];
      - instance attributes mutated across calls ([self.relationships],
        [self.risk_scores]) and the node dicts mutated by the path query are
        threaded explicitly as state. *)

From Stdlib Require Import List String Ascii ZArith Bool Arith Lia Permutation Sorted.
From Stdlib Require Import DecimalString.
Import ListNotations.
Local Open Scope string_scope.
Local Open Scope list_scope.
Local Open Scope Z_scope.

Set Implicit Arguments.

(** ** Python plumbing *)

Inductive py_exn : Type :=
| TypeError (msg : string)
| KeyError (key : string).

Inductive result (A : Type) : Type :=
| Ok (a : A)
| Raise (e : py_exn).
Arguments Ok {A} a.
Arguments Raise {A} e.

Definition len {A : Type} (l : list A) : Z := Z.of_nat (List.length l).

(** [str(n)] for an int. *)
Definition str_of_Z (n : Z) : string := NilZero.string_of_int (Z.to_int n).

(** [sum(1 for x in l if p x)] *)
Definition count_if {A : Type} (p : A -> bool) (l : list A) : Z :=
  len (filter p l).

(** [x in l] for a list or set of strings. *)
Definition str_in (x : string) (l : list string) : bool :=
  existsb (String.eqb x) l.

(** [l.sort(key=..., reverse=True)]: Python's sort is stable, and with
    [reverse=True] elements with equal keys keep their original order. *)
Section SortDesc.
Variable A : Type.
Variable key : A -> Z.

Fixpoint insert_desc (x : A) (l : list A) : list A :=
  match l with
  | [] => [x]
  | y :: l' => if key y <=? key x then x :: y :: l' else y :: insert_desc x l'
  end.

Definition sort_desc (l : list A) : list A := fold_right insert_desc [] l.
End SortDesc.

(** ** Discovery records (the inputs) *)

Record policy : Type := {
  policy_name : string;
  policy_arn : string
}.

Record role : Type := {
  role_name : string;
  role_arn : option string;      (* absent in the discoverer's error record *)
  role_type : option string;
  role_is_admin : bool;          (* [role.get("is_admin")], absent = falsy *)
  role_attached_policies : list policy
}.

Record access_key : Type := { key_status : string }.

Record user : Type := {
  username : string;
  user_arn : option string;
  mfa_enabled : bool;
  is_inactive : bool;
  (* key absent / present with None / present with an int *)
  days_since_login : option (option Z);
  access_keys : list access_key;
  user_attached_policies : list policy
}.

Record iam_data : Type := {
  account_id : option string;
  roles : list role;
  users : list user
}.

(** An element of an EC2 record's ["security_groups"] list.  The resource
    discoverer emits dicts [{"group_id", "group_name"}]; the relationship
    builder uses the element itself as a group id (a string).  Both shapes
    are kept so that each consumer can be followed on each. *)
Inductive sg_ref : Type :=
| SgId (group_id : string)
| SgRecord (group_id : string) (group_name : string).

Record ec2_instance : Type := {
  instance_id : string;
  ec2_name : string;
  ec2_is_public : bool;
  ec2_security_groups : list sg_ref;
  iam_instance_profile : option string;
  ec2_state : option string
}.

Record lambda_function : Type := {
  function_name : string;
  runtime : option string;
  lambda_role : option string;
  is_in_vpc : bool;
  lambda_security_groups : list string
}.

Record s3_bucket : Type := {
  bucket_name : string;
  s3_is_public : bool;
  encryption_enabled : bool
}.

Record rds_instance : Type := {
  db_instance_identifier : string;
  publicly_accessible : bool;
  encrypted : bool;
  rds_security_groups : list string
}.

Record sg_rule : Type := {
  protocol : string;
  from_port : option Z;
  to_port : option Z;
  cidr : string
}.

Record security_group : Type := {
  sg_group_id : string;
  sg_group_name : string;
  sg_vpc_id : option string;
  sg_has_internet_access : bool;
  sg_allows_all_traffic : bool;
  risky_rules : list sg_rule
}.

Record resource_data : Type := {
  region : option string;
  ec2_instances : list ec2_instance;
  lambda_functions : list lambda_function;
  s3_buckets : list s3_bucket;
  rds_instances : list rds_instance;
  security_groups : list security_group
}.

(** Process-wide settings read by the risk analyzer ([utils/config.py]). *)
Record Settings : Type := {
  risk_critical_threshold : Z;
  risk_high_threshold : Z;
  risk_medium_threshold : Z;
  enable_cis_benchmark : bool
}.

Definition default_settings : Settings :=
  {| risk_critical_threshold := 90;
     risk_high_threshold := 70;
     risk_medium_threshold := 40;
     enable_cis_benchmark := true |}.

(** ** Risk findings *)

Inductive risk_type : Type := identity | resource | network | compliance.
Inductive severity : Type := critical | high | medium | low.

(** The keys a finding carries besides the common ones. *)
Inductive finding_details : Type :=
| IdentityDetails (resource_arn : option string)
| Ec2Details (resource_name : string) (iam_role : option string)
             (security_group_ids : list string)
| SgDetails (resource_name : string) (vpc_id : option string)
            (rules : list sg_rule)
| NoDetails.

Record finding : Type := {
  risk_id : string;
  f_risk_type : risk_type;
  f_severity : severity;
  risk_score : Z;
  title : string;
  description : string;
  resource_type : string;
  resource_id : string;
  details : finding_details;
  remediation : string;
  compliance_frameworks : list string
}.

Definition severity_eqb (a b : severity) : bool :=
  match a, b with
  | critical, critical | high, high | medium, medium | low, low => true
  | _, _ => false
  end.

Module RiskAnalyzer.

(** [self.risk_scores] *)
Record risk_scores : Type := {
  rs_critical : list finding;
  rs_high : list finding;
  rs_medium : list finding;
  rs_low : list finding
}.

(** [__init__] *)
Definition init : risk_scores :=
  {| rs_critical := []; rs_high := []; rs_medium := []; rs_low := [] |}.

(** *** analyze_identity_risks *)

Definition mfa_finding (u : user) : finding :=
  {| risk_id := "IAM-USER-MFA-" ++ username u;
     f_risk_type := identity;
     f_severity := high;
     risk_score := 75;
     title := "User without MFA: " ++ username u;
     description := "IAM user does not have MFA enabled, increasing risk of credential compromise";
     resource_type := "iam_user";
     resource_id := username u;
     details := IdentityDetails (user_arn u);
     remediation := "Enable MFA for this user";
     compliance_frameworks := ["CIS-1.2"; "NIST-800-53"] |}.

Definition days_text (u : user) : string :=
  match days_since_login u with
  | None => "unknown"
  | Some None => "None"
  | Some (Some n) => str_of_Z n
  end.

Definition inactive_finding (u : user) : finding :=
  {| risk_id := "IAM-USER-INACTIVE-" ++ username u;
     f_risk_type := identity;
     f_severity := medium;
     risk_score := 60;
     title := "Inactive user: " ++ username u;
     description := "User has not logged in for " ++ days_text u ++ " days";
     resource_type := "iam_user";
     resource_id := username u;
     details := IdentityDetails (user_arn u);
     remediation := "Review and disable or delete inactive users";
     compliance_frameworks := ["CIS-1.3"] |}.

Definition admin_finding (r : role) : finding :=
  {| risk_id := "IAM-ROLE-ADMIN-" ++ role_name r;
     f_risk_type := identity;
     f_severity := high;
     risk_score := 80;
     title := "Admin role: " ++ role_name r;
     description := "Role has administrative access which should be carefully monitored";
     resource_type := "iam_role";
     resource_id := role_name r;
     details := IdentityDetails (role_arn r);
     remediation := "Review admin access and apply least privilege principle";
     compliance_frameworks := ["CIS-1.16"] |}.

Definition active_keys (u : user) : list access_key :=
  filter (fun k => key_status k =? "Active")%string (access_keys u).

Definition multikey_finding (u : user) : finding :=
  {| risk_id := "IAM-USER-MULTIKEY-" ++ username u;
     f_risk_type := identity;
     f_severity := medium;
     risk_score := 55;
     title := "Multiple active access keys: " ++ username u;
     description := "User has " ++ str_of_Z (len (active_keys u)) ++ " active access keys";
     resource_type := "iam_user";
     resource_id := username u;
     details := IdentityDetails (user_arn u);
     remediation := "Rotate and remove unnecessary access keys";
     compliance_frameworks := ["CIS-1.4"] |}.

Definition analyze_identity_risks (iam : iam_data) : list finding :=
  map mfa_finding (filter (fun u => negb (mfa_enabled u)) (users iam))
  ++ map inactive_finding (filter is_inactive (users iam))
  ++ map admin_finding (filter role_is_admin (roles iam))
  ++ map multikey_finding (filter (fun u => 1 <? len (active_keys u)) (users iam)).

(** *** analyze_resource_risks *)

(** [sg['group_id']]: subscripting a str with a str key raises; the
    message is the one of CPython 3.11 and later. *)
Definition ref_group_id (sg : sg_ref) : result string :=
  match sg with
  | SgRecord g _ => Ok g
  | SgId _ => Raise (TypeError "string indices must be integers, not 'str'")
  end.

(** [[sg['group_id'] for sg in refs]] *)
Fixpoint ref_group_ids (refs : list sg_ref) : result (list string) :=
  match refs with
  | [] => Ok []
  | sg :: refs' =>
      match ref_group_id sg with
      | Raise e => Raise e
      | Ok g =>
          match ref_group_ids refs' with
          | Raise e => Raise e
          | Ok gs => Ok (g :: gs)
          end
      end
  end.

(** The loop [for sg in ...: has_risky_sg = True] leaves the flag set as
    soon as the list has one element, whatever the element is. *)
Definition has_risky_sg (i : ec2_instance) : bool :=
  fold_left (fun (_ : bool) (_ : sg_ref) => true) (ec2_security_groups i) false.

Definition ec2_public_finding (i : ec2_instance) : result finding :=
  match ref_group_ids (ec2_security_groups i) with
  | Raise e => Raise e
  | Ok gs =>
      Ok {| risk_id := "EC2-PUBLIC-" ++ instance_id i;
            f_risk_type := resource;
            f_severity := if has_risky_sg i then critical else high;
            risk_score := if has_risky_sg i then 90 else 70;
            title := "Public EC2 instance: " ++ ec2_name i;
            description := "EC2 instance is publicly accessible from the Internet";
            resource_type := "ec2_instance";
            resource_id := instance_id i;
            details := Ec2Details (ec2_name i) (iam_instance_profile i) gs;
            remediation := "Review security groups and remove public access if not required";
            compliance_frameworks := ["CIS-5.1"] |}
  end.

Fixpoint ec2_public_findings (l : list ec2_instance) : result (list finding) :=
  match l with
  | [] => Ok []
  | i :: l' =>
      if ec2_is_public i then
        match ec2_public_finding i with
        | Raise e => Raise e
        | Ok f =>
            match ec2_public_findings l' with
            | Raise e => Raise e
            | Ok fs => Ok (f :: fs)
            end
        end
      else ec2_public_findings l'
  end.

Definition s3_public_finding (b : s3_bucket) : finding :=
  {| risk_id := "S3-PUBLIC-" ++ bucket_name b;
     f_risk_type := resource;
     f_severity := critical;
     risk_score := 95;
     title := "Public S3 bucket: " ++ bucket_name b;
     description := "S3 bucket is publicly accessible";
     resource_type := "s3_bucket";
     resource_id := bucket_name b;
     details := NoDetails;
     remediation := "Enable S3 Block Public Access and review bucket policies";
     compliance_frameworks := ["CIS-2.1.5"] |}.

Definition s3_unencrypted_finding (b : s3_bucket) : finding :=
  {| risk_id := "S3-UNENCRYPTED-" ++ bucket_name b;
     f_risk_type := resource;
     f_severity := high;
     risk_score := 75;
     title := "Unencrypted S3 bucket: " ++ bucket_name b;
     description := "S3 bucket does not have encryption enabled";
     resource_type := "s3_bucket";
     resource_id := bucket_name b;
     details := NoDetails;
     remediation := "Enable default encryption for the bucket";
     compliance_frameworks := ["CIS-2.1.1"] |}.

Definition rds_public_finding (d : rds_instance) : finding :=
  {| risk_id := "RDS-PUBLIC-" ++ db_instance_identifier d;
     f_risk_type := resource;
     f_severity := critical;
     risk_score := 90;
     title := "Public RDS instance: " ++ db_instance_identifier d;
     description := "RDS instance is publicly accessible from the Internet";
     resource_type := "rds_instance";
     resource_id := db_instance_identifier d;
     details := NoDetails;
     remediation := "Disable public accessibility and use VPC peering or VPN";
     compliance_frameworks := ["CIS-2.3.1"] |}.

Definition rds_unencrypted_finding (d : rds_instance) : finding :=
  {| risk_id := "RDS-UNENCRYPTED-" ++ db_instance_identifier d;
     f_risk_type := resource;
     f_severity := high;
     risk_score := 75;
     title := "Unencrypted RDS instance: " ++ db_instance_identifier d;
     description := "RDS instance does not have encryption enabled";
     resource_type := "rds_instance";
     resource_id := db_instance_identifier d;
     details := NoDetails;
     remediation := "Enable encryption for the RDS instance";
     compliance_frameworks := ["CIS-2.3.1"] |}.

Definition analyze_resource_risks (res : resource_data) : result (list finding) :=
  match ec2_public_findings (ec2_instances res) with
  | Raise e => Raise e
  | Ok ec2 =>
      Ok (ec2
          ++ map s3_public_finding (filter s3_is_public (s3_buckets res))
          ++ map s3_unencrypted_finding
               (filter (fun b => negb (encryption_enabled b)) (s3_buckets res))
          ++ map rds_public_finding (filter publicly_accessible (rds_instances res))
          ++ map rds_unencrypted_finding
               (filter (fun d => negb (encrypted d)) (rds_instances res)))
  end.

(** *** analyze_network_risks *)

Definition critical_ports : list Z := [22; 3389; 1433; 3306; 5432; 27017].

(** [rule.get('from_port') in critical_ports] *)
Definition port_is_critical (r : sg_rule) : bool :=
  match from_port r with
  | Some p => existsb (Z.eqb p) critical_ports
  | None => false
  end.

Definition sg_escalated (sg : security_group) : bool :=
  existsb port_is_critical (risky_rules sg).

Definition sg_internet_finding (sg : security_group) : finding :=
  {| risk_id := "SG-INTERNET-" ++ sg_group_id sg;
     f_risk_type := network;
     f_severity := if sg_escalated sg then critical else high;
     risk_score := if sg_escalated sg then 95 else 85;
     title := "Security group with Internet access: " ++ sg_group_name sg;
     description := "Security group allows inbound traffic from 0.0.0.0/0";
     resource_type := "security_group";
     resource_id := sg_group_id sg;
     details := SgDetails (sg_group_name sg) (sg_vpc_id sg) (risky_rules sg);
     remediation := "Restrict security group rules to specific IP ranges";
     compliance_frameworks := ["CIS-5.2"] |}.

Definition analyze_network_risks (res : resource_data) : list finding :=
  map sg_internet_finding (filter sg_has_internet_access (security_groups res)).

(** *** analyze_compliance_risks: both branches return the empty list. *)
Definition analyze_compliance_risks (cfg : Settings) (iam : iam_data)
           (res : resource_data) : list finding :=
  if negb (enable_cis_benchmark cfg) then [] else [].

(** *** analyze_all *)

Record risks : Type := {
  identity_risks : list finding;
  resource_risks : list finding;
  network_risks : list finding;
  compliance_risks : list finding
}.

Record risk_summary : Type := {
  total_risks : Z;
  n_critical : Z;
  n_high : Z;
  n_medium : Z;
  n_low : Z
}.

Record results : Type := {
  timestamp : string;
  r_account_id : option string;
  r_region : option string;
  r_risks : risks;
  r_risk_summary : risk_summary;
  top_risks : list finding
}.

(** The if/elif chain of the categorisation loop. *)
Definition bucket_of (cfg : Settings) (score : Z) : severity :=
  if risk_critical_threshold cfg <=? score then critical
  else if risk_high_threshold cfg <=? score then high
  else if risk_medium_threshold cfg <=? score then medium
  else low.

Definition categorize_one (cfg : Settings) (st : risk_scores) (f : finding)
  : risk_scores :=
  match bucket_of cfg (risk_score f) with
  | critical => {| rs_critical := rs_critical st ++ [f]; rs_high := rs_high st;
                   rs_medium := rs_medium st; rs_low := rs_low st |}
  | high => {| rs_critical := rs_critical st; rs_high := rs_high st ++ [f];
               rs_medium := rs_medium st; rs_low := rs_low st |}
  | medium => {| rs_critical := rs_critical st; rs_high := rs_high st;
                 rs_medium := rs_medium st ++ [f]; rs_low := rs_low st |}
  | low => {| rs_critical := rs_critical st; rs_high := rs_high st;
              rs_medium := rs_medium st; rs_low := rs_low st ++ [f] |}
  end.

Definition categorize (cfg : Settings) (st : risk_scores) (l : list finding)
  : risk_scores :=
  fold_left (categorize_one cfg) l st.

(** [for category, risks in results["risks"].items(): all_risks.extend(risks)] *)
Definition compile_all (r : risks) : list finding :=
  identity_risks r ++ resource_risks r ++ network_risks r ++ compliance_risks r.

(** [now] is [datetime.utcnow().isoformat()], read once per call. *)
Definition analyze_all (cfg : Settings) (now : string) (iam : iam_data)
           (res : resource_data) (st : risk_scores)
  : result results * risk_scores :=
  let ident := analyze_identity_risks iam in
  match analyze_resource_risks res with
  | Raise e => (Raise e, st)
  | Ok resr =>
      let rk := {| identity_risks := ident;
                   resource_risks := resr;
                   network_risks := analyze_network_risks res;
                   compliance_risks := analyze_compliance_risks cfg iam res |} in
      let all_risks := sort_desc risk_score (compile_all rk) in
      let st' := categorize cfg st all_risks in
      (Ok {| timestamp := now;
             r_account_id := account_id iam;
             r_region := region res;
             r_risks := rk;
             r_risk_summary :=
               {| total_risks := len all_risks;
                  n_critical := len (rs_critical st');
                  n_high := len (rs_high st');
                  n_medium := len (rs_medium st');
                  n_low := len (rs_low st') |};
             top_risks := firstn 10 all_risks |},
       st')
  end.

(** Every finding of a result, in category order. *)
Definition all_findings (r : results) : list finding := compile_all (r_risks r).

(** *** calculate_blast_radius *)

Inductive affected_resource : Type :=
| AffectedEc2 (resource_id : string) (resource_name : string) (is_public : bool)
| AffectedLambda (resource_id : string) (in_vpc : bool).

(** [r.get("is_public")]: the key exists on EC2 entries only. *)
Definition affected_is_public (r : affected_resource) : bool :=
  match r with
  | AffectedEc2 _ _ p => p
  | AffectedLambda _ _ => false
  end.

Record blast_radius : Type := {
  identity_arn : string;
  affected_resources : list affected_resource;
  permissions : list policy;
  br_risk_score : Z
}.

Inductive identity_match : Type :=
| IsRole (r : role)
| IsUser (u : user).

Definition arn_is (a : string) (o : option string) : bool :=
  match o with
  | Some x => (x =? a)%string
  | None => false
  end.

(** Roles are searched first; users only when no role matched. *)
Definition find_identity (arn : string) (iam : iam_data) : option identity_match :=
  match find (fun r => arn_is arn (role_arn r)) (roles iam) with
  | Some r => Some (IsRole r)
  | None =>
      match find (fun u => arn_is arn (user_arn u)) (users iam) with
      | Some u => Some (IsUser u)
      | None => None
      end
  end.

Definition role_affected (name : string) (res : resource_data)
  : list affected_resource :=
  map (fun i => AffectedEc2 (instance_id i) (ec2_name i) (ec2_is_public i))
      (filter (fun i => match iam_instance_profile i with
                        | Some p => (p =? name)%string
                        | None => false
                        end) (ec2_instances res))
  ++ map (fun f => AffectedLambda (function_name f) (is_in_vpc f))
      (filter (fun f => match lambda_role f with
                        | Some p => (p =? name)%string
                        | None => false
                        end) (lambda_functions res)).

Definition blast_score (affected : list affected_resource) (perms : list policy) : Z :=
  Z.min 100 (len affected * 10 + len perms * 5
             + count_if affected_is_public affected * 20).

Definition calculate_blast_radius (arn : string) (iam : iam_data)
           (res : resource_data) : blast_radius :=
  match find_identity arn iam with
  | None =>
      {| identity_arn := arn; affected_resources := [];
         permissions := []; br_risk_score := 0 |}
  | Some (IsRole r) =>
      let affected := role_affected (role_name r) res in
      {| identity_arn := arn; affected_resources := affected;
         permissions := role_attached_policies r;
         br_risk_score := blast_score affected (role_attached_policies r) |}
  | Some (IsUser u) =>
      {| identity_arn := arn; affected_resources := [];
         permissions := user_attached_policies u;
         br_risk_score := blast_score [] (user_attached_policies u) |}
  end.

End RiskAnalyzer.

(** ** Insertion-ordered dicts with string keys *)

Section Dict.
Variable V : Type.

Definition dict : Type := list (string * V).

(** [d.get(k)] *)
Fixpoint dict_get (k : string) (d : dict) : option V :=
  match d with
  | [] => None
  | (k', v) :: d' => if (k' =? k)%string then Some v else dict_get k d'
  end.

(** [k in d] *)
Definition dict_mem (k : string) (d : dict) : bool :=
  match dict_get k d with Some _ => true | None => false end.

(** [d[k] = v]: an existing key keeps its position, a new key goes last. *)
Fixpoint dict_set (k : string) (v : V) (d : dict) : dict :=
  match d with
  | [] => [(k, v)]
  | (k', v') :: d' =>
      if (k' =? k)%string then (k, v) :: d' else (k', v') :: dict_set k v d'
  end.

(** In-place mutation of the value stored under [k] (no effect when the
    key is absent; the callers test membership first). *)
Fixpoint dict_modify (k : string) (f : V -> V) (d : dict) : dict :=
  match d with
  | [] => []
  | (k', v') :: d' =>
      if (k' =? k)%string then (k', f v') :: d' else (k', v') :: dict_modify k f d'
  end.

Definition dict_values (d : dict) : list V := map snd d.
End Dict.

(** [s.split("/")] *)
Fixpoint split_slash (s : string) : list string :=
  match s with
  | EmptyString => [EmptyString]
  | String c s' =>
      if Ascii.eqb c "/"%char then EmptyString :: split_slash s'
      else match split_slash s' with
           | seg :: segs => String c seg :: segs
           | [] => [String c EmptyString]
           end
  end.

(** ["/" in s] *)
Fixpoint has_slash (s : string) : bool :=
  match s with
  | EmptyString => false
  | String c s' => Ascii.eqb c "/"%char || has_slash s'
  end.

(** ** Graph data (the builder's output, the path query's input) *)

(** Type-specific keys of a node dict. *)
Inductive node_extra : Type :=
| RoleNode (is_admin : bool) (resource_count : Z)
| SgNode (has_internet_access : bool) (resource_count : Z)
| Ec2Node (is_public : bool) (state : option string)
| LambdaNode (runtime : option string)
| S3Node (is_public : bool)
| RdsNode (publicly_accessible : bool)
| PlainNode.

Record node : Type := {
  id : string;
  label : string;
  ntype : option string;
  group : option string;
  extra : node_extra;
  (* key added by the path query; absent on a freshly built graph *)
  edge_to_next : option string
}.

Record edge : Type := {
  e_source : string;
  e_target : string;
  e_type : string
}.

Record node_types : Type := {
  nt_iam_roles : Z;
  nt_security_groups : Z;
  nt_ec2_instances : Z;
  nt_lambda_functions : Z;
  nt_s3_buckets : Z;
  nt_rds_instances : Z
}.

Record graph_stats : Type := {
  total_nodes : Z;
  total_edges : Z;
  stats_node_types : node_types
}.

Record graph_data : Type := {
  nodes : list node;
  edges : list edge;
  stats : graph_stats
}.

Module RelationshipBuilder.

Record relationship : Type := {
  source : string;
  source_type : string;
  target : string;
  target_type : string;
  relationship_type : string
}.

(** *** The builder's effects

    [self.relationships] is an instance attribute that every step appends
    to; a raised exception leaves what was appended so far.
    ([self.graph_data] is set by [__init__] and never read or written
    again, so it is not part of the state.) *)

Definition M (A : Type) : Type :=
  list relationship -> result A * list relationship.

Definition ret {A : Type} (a : A) : M A := fun st => (Ok a, st).

Definition bind {A B : Type} (c : M A) (k : A -> M B) : M B :=
  fun st =>
    match c st with
    | (Ok a, st') => k a st'
    | (Raise e, st') => (Raise e, st')
    end.

Definition raise {A : Type} (e : py_exn) : M A := fun st => (Raise e, st).

(** [self.relationships.append(rel)] *)
Definition emit (rel : relationship) : M unit := fun st => (Ok tt, st ++ [rel]).

(** reading [self.relationships] *)
Definition get_relationships : M (list relationship) := fun st => (Ok st, st).

Definition lift {A : Type} (r : result A) : M A := fun st => (r, st).

Notation "x <- c ;; k" := (bind c (fun x => k))
  (at level 61, c at next level, right associativity).
Notation "c ;;; k" := (bind c (fun _ => k))
  (at level 61, right associativity).

(** [for a in l: s = body(a, s)] *)
Fixpoint foreach {A S : Type} (l : list A) (body : A -> S -> M S) (s : S) : M S :=
  match l with
  | [] => ret s
  | a :: l' => s' <- body a s ;; foreach l' body s'
  end.

(** [__init__] *)
Definition init : list relationship := [].

(** *** _normalize_node_id *)

Definition type_prefix_map : dict string :=
  [("iam_role", "role"); ("iam_user", "user"); ("ec2_instance", "ec2");
   ("lambda_function", "lambda"); ("s3_bucket", "s3");
   ("rds_instance", "rds"); ("security_group", "sg")].

Definition _normalize_node_id (resource_type resource_id : string) : string :=
  let prefix := match dict_get resource_type type_prefix_map with
                | Some p => p
                | None => resource_type
                end in
  (prefix ++ "-" ++ resource_id)%string.

(** *** _build_role_resource_map *)

Inductive resource_info : Type :=
| Ec2Info (resource_id resource_name : string) (is_public : bool)
          (security_groups : list sg_ref)
| LambdaInfo (resource_id resource_name : string) (runtime : option string)
             (security_groups : list string).

Definition ri_resource_type (r : resource_info) : string :=
  match r with
  | Ec2Info _ _ _ _ => "ec2_instance"
  | LambdaInfo _ _ _ _ => "lambda_function"
  end.

(** [resource.get("is_public")]: the key exists on EC2 entries only. *)
Definition ri_is_public (r : resource_info) : bool :=
  match r with
  | Ec2Info _ _ p _ => p
  | LambdaInfo _ _ _ _ => false
  end.

Record role_entry : Type := {
  re_role_name : string;
  re_role_arn : string;
  re_role_type : option string;
  re_is_admin : bool;
  re_attached_policies : list policy;
  re_resources : list resource_info;
  (* while the map is being built: the elements added to the set, in the
     order they were added; in the returned map: [list(the set)] *)
  re_security_groups : list string
}.

Definition init_role (r : role) (role_map : dict role_entry)
  : M (dict role_entry) :=
  match role_arn r with
  | None => raise (KeyError "arn")
  | Some a =>
      ret (dict_set (role_name r)
             {| re_role_name := role_name r;
                re_role_arn := a;
                re_role_type := role_type r;
                re_is_admin := role_is_admin r;
                re_attached_policies := role_attached_policies r;
                re_resources := [];
                re_security_groups := [] |} role_map)
  end.

(** Using a value as a set element or as a dict key hashes it; a dict is
    unhashable. *)
Definition hash_key (sg : sg_ref) : result string :=
  match sg with
  | SgId g => Ok g
  | SgRecord _ _ => Raise (TypeError "unhashable type: 'dict'")
  end.

Fixpoint hash_keys (refs : list sg_ref) : result (list string) :=
  match refs with
  | [] => Ok []
  | sg :: refs' =>
      match hash_key sg with
      | Raise e => Raise e
      | Ok g =>
          match hash_keys refs' with
          | Raise e => Raise e
          | Ok gs => Ok (g :: gs)
          end
      end
  end.

Definition add_resource (info : resource_info) (sgs : list string)
           (e : role_entry) : role_entry :=
  {| re_role_name := re_role_name e;
     re_role_arn := re_role_arn e;
     re_role_type := re_role_type e;
     re_is_admin := re_is_admin e;
     re_attached_policies := re_attached_policies e;
     re_resources := re_resources e ++ [info];
     re_security_groups := re_security_groups e ++ sgs |}.

Definition map_ec2_to_role (i : ec2_instance) (role_map : dict role_entry)
  : M (dict role_entry) :=
  match iam_instance_profile i with
  | Some iam_profile =>
      if negb (iam_profile =? EmptyString)%string && dict_mem iam_profile role_map then
        let info := Ec2Info (instance_id i) (ec2_name i) (ec2_is_public i)
                            (ec2_security_groups i) in
        sgs <- lift (hash_keys (ec2_security_groups i)) ;;
        emit {| source := iam_profile; source_type := "iam_role";
                target := instance_id i; target_type := "ec2_instance";
                relationship_type := "assumes" |} ;;;
        ret (dict_modify iam_profile (add_resource info sgs) role_map)
      else ret role_map
  | None => ret role_map
  end.

(** [role_arn.split("/")[-1] if "/" in role_arn else role_arn] *)
Definition role_name_of_arn (role_arn : string) : string :=
  if has_slash role_arn then last (split_slash role_arn) role_arn else role_arn.

Definition map_lambda_to_role (f : lambda_function) (role_map : dict role_entry)
  : M (dict role_entry) :=
  match lambda_role f with
  | Some role_arn =>
      if negb (role_arn =? EmptyString)%string then
        let name := role_name_of_arn role_arn in
        if dict_mem name role_map then
          let info := LambdaInfo (function_name f) (function_name f) (runtime f)
                                 (lambda_security_groups f) in
          emit {| source := name; source_type := "iam_role";
                  target := function_name f; target_type := "lambda_function";
                  relationship_type := "assumes" |} ;;;
          ret (dict_modify name (add_resource info (lambda_security_groups f))
                           role_map)
        else ret role_map
      else ret role_map
  | None => ret role_map
  end.

Section HashOrder.
(** [list(s)] for a set of strings [s]: the order is fixed by the string
    hashes of the running interpreter.  [set_order l] is the list obtained
    from the set into which the elements of [l] were added in order. *)
Variable set_order : list string -> list string.

Definition finalize_role (e : role_entry) : role_entry :=
  {| re_role_name := re_role_name e;
     re_role_arn := re_role_arn e;
     re_role_type := re_role_type e;
     re_is_admin := re_is_admin e;
     re_attached_policies := re_attached_policies e;
     re_resources := re_resources e;
     re_security_groups := set_order (re_security_groups e) |}.

Definition _build_role_resource_map (iam : iam_data) (res : resource_data)
  : M (dict role_entry) :=
  role_map <- foreach (roles iam) init_role [] ;;
  role_map <- foreach (ec2_instances res) map_ec2_to_role role_map ;;
  role_map <- foreach (lambda_functions res) map_lambda_to_role role_map ;;
  ret (map (fun kv => (fst kv, finalize_role (snd kv))) role_map).
End HashOrder.

(** *** _build_security_group_map *)

Inductive sg_resource : Type :=
| SgEc2 (resource_id resource_name : string) (is_public : bool)
        (iam_role : option string)
| SgLambda (resource_id resource_name : string) (iam_role : option string)
| SgRds (resource_id resource_name : string) (publicly_accessible : bool).

Definition sr_resource_id (r : sg_resource) : string :=
  match r with
  | SgEc2 i _ _ _ => i
  | SgLambda i _ _ => i
  | SgRds i _ _ => i
  end.

Record sg_entry : Type := {
  se_group_id : string;
  se_group_name : string;
  se_vpc_id : option string;
  se_has_internet_access : bool;
  se_allows_all_traffic : bool;
  se_resources : list sg_resource
}.

Definition seed_sg (sg : security_group) (sg_map : dict sg_entry) : dict sg_entry :=
  dict_set (sg_group_id sg)
    {| se_group_id := sg_group_id sg;
       se_group_name := sg_group_name sg;
       se_vpc_id := sg_vpc_id sg;
       se_has_internet_access := sg_has_internet_access sg;
       se_allows_all_traffic := sg_allows_all_traffic sg;
       se_resources := [] |} sg_map.

(** The entry created for a group id that is only referenced. *)
Definition synthesized_sg (sg_id : string) : sg_entry :=
  {| se_group_id := sg_id;
     se_group_name := sg_id;
     se_vpc_id := None;
     se_has_internet_access := false;
     se_allows_all_traffic := false;
     se_resources := [] |}.

Definition sg_add_resource (r : sg_resource) (e : sg_entry) : sg_entry :=
  {| se_group_id := se_group_id e;
     se_group_name := se_group_name e;
     se_vpc_id := se_vpc_id e;
     se_has_internet_access := se_has_internet_access e;
     se_allows_all_traffic := se_allows_all_traffic e;
     se_resources := se_resources e ++ [r] |}.

(** The body shared by the three resource loops, once [sg_id] is known to
    be usable as a key. *)
Definition attach (r : sg_resource) (rtype : string) (sg_id : string)
           (sg_map : dict sg_entry) : M (dict sg_entry) :=
  let sg_map1 := if negb (dict_mem sg_id sg_map)
                 then dict_set sg_id (synthesized_sg sg_id) sg_map
                 else sg_map in
  emit {| source := sr_resource_id r; source_type := rtype;
          target := sg_id; target_type := "security_group";
          relationship_type := "protected_by" |} ;;;
  ret (dict_modify sg_id (sg_add_resource r) sg_map1).

Definition attach_ec2 (i : ec2_instance) (sg : sg_ref) (sg_map : dict sg_entry)
  : M (dict sg_entry) :=
  sg_id <- lift (hash_key sg) ;;
  attach (SgEc2 (instance_id i) (ec2_name i) (ec2_is_public i)
                (iam_instance_profile i))
         "ec2_instance" sg_id sg_map.

Definition attach_lambda (f : lambda_function) (sg_id : string)
           (sg_map : dict sg_entry) : M (dict sg_entry) :=
  attach (SgLambda (function_name f) (function_name f) (lambda_role f))
         "lambda_function" sg_id sg_map.

Definition attach_rds (d : rds_instance) (sg_id : string)
           (sg_map : dict sg_entry) : M (dict sg_entry) :=
  attach (SgRds (db_instance_identifier d) (db_instance_identifier d)
                (publicly_accessible d))
         "rds_instance" sg_id sg_map.

Definition _build_security_group_map (res : resource_data) : M (dict sg_entry) :=
  let sg_map := fold_left (fun m sg => seed_sg sg m) (security_groups res) [] in
  sg_map <- foreach (ec2_instances res)
              (fun i => foreach (ec2_security_groups i) (attach_ec2 i)) sg_map ;;
  sg_map <- foreach (lambda_functions res)
              (fun f => foreach (lambda_security_groups f) (attach_lambda f)) sg_map ;;
  foreach (rds_instances res)
    (fun d => foreach (rds_security_groups d) (attach_rds d)) sg_map.

(** *** _calculate_role_risk *)

Definition sg_has_internet (sg_mappings : dict sg_entry) (sg_id : string) : bool :=
  match dict_get sg_id sg_mappings with
  | Some e => se_has_internet_access e
  | None => false
  end.

Definition _calculate_role_risk (role_data : role_entry)
           (sg_mappings : dict sg_entry) : Z :=
  let risk_score := 0 in
  let risk_score := if re_is_admin role_data then risk_score + 50 else risk_score in
  let risk_score :=
    fold_left (fun acc r => if ri_is_public r then acc + 20 else acc)
              (re_resources role_data) risk_score in
  let risk_score :=
    fold_left (fun acc sg_id =>
                 if sg_has_internet sg_mappings sg_id then acc + 15 else acc)
              (re_security_groups role_data) risk_score in
  Z.min 100 risk_score.

(** *** _build_consolidated_view *)

Record sg_detail : Type := {
  sd_group_id : string;
  sd_group_name : string;
  sd_has_internet_access : bool;
  sd_resource_count : Z
}.

Record role_view : Type := {
  rv_role_name : string;
  rv_role_arn : string;
  rv_role_type : option string;
  rv_is_admin : bool;
  rv_resource_count : Z;
  rv_security_group_count : Z;
  rv_resources_by_type : dict (list resource_info);
  rv_security_groups : list sg_detail;
  rv_risk_level : Z
}.

Record consolidated_view : Type := {
  iam_roles : list role_view;
  orphaned_resources : list resource_info
}.

Definition group_by_type (resources : list resource_info)
  : dict (list resource_info) :=
  fold_left
    (fun by_type r =>
       let t := ri_resource_type r in
       let by_type1 := if negb (dict_mem t by_type)
                       then dict_set t [] by_type else by_type in
       dict_modify t (fun l => l ++ [r]) by_type1)
    resources [].

Definition sg_details (sg_ids : list string) (sg_mappings : dict sg_entry)
  : list sg_detail :=
  flat_map
    (fun sg_id =>
       match dict_get sg_id sg_mappings with
       | Some sg_data =>
           [{| sd_group_id := sg_id;
               sd_group_name := se_group_name sg_data;
               sd_has_internet_access := se_has_internet_access sg_data;
               sd_resource_count := len (se_resources sg_data) |}]
       | None => []
       end)
    sg_ids.

Definition build_role_view (role_name : string) (role_data : role_entry)
           (sg_mappings : dict sg_entry) : role_view :=
  {| rv_role_name := role_name;
     rv_role_arn := re_role_arn role_data;
     rv_role_type := re_role_type role_data;
     rv_is_admin := re_is_admin role_data;
     rv_resource_count := len (re_resources role_data);
     rv_security_group_count := len (re_security_groups role_data);
     rv_resources_by_type := group_by_type (re_resources role_data);
     rv_security_groups := sg_details (re_security_groups role_data) sg_mappings;
     rv_risk_level := _calculate_role_risk role_data sg_mappings |}.

Definition is_empty {A : Type} (l : list A) : bool :=
  match l with [] => true | _ => false end.

Definition role_views (role_mappings : dict role_entry)
           (sg_mappings : dict sg_entry) : list role_view :=
  flat_map
    (fun kv =>
       if is_empty (re_resources (snd kv)) then []
       else [build_role_view (fst kv) (snd kv) sg_mappings])
    role_mappings.

Definition _build_consolidated_view (role_mappings : dict role_entry)
           (sg_mappings : dict sg_entry) : consolidated_view :=
  {| iam_roles := sort_desc rv_risk_level (role_views role_mappings sg_mappings);
     orphaned_resources := [] |}.

(** *** _build_graph_data *)

(** The locals [nodes] and [node_ids] of the node-building part. *)
Definition node_acc : Type := (list node * list string)%type.

(** [if node_id not in node_ids: nodes.append(n); node_ids.add(node_id)] *)
Definition add_node (n : node) (acc : node_acc) : node_acc :=
  if negb (str_in (id n) (snd acc)) then (fst acc ++ [n], id n :: snd acc)
  else acc.

Definition role_node (role_name : string) (role_data : role_entry) : node :=
  {| id := _normalize_node_id "iam_role" role_name;
     label := role_name;
     ntype := Some "iam_role";
     group := Some "identity";
     extra := RoleNode (re_is_admin role_data) (len (re_resources role_data));
     edge_to_next := None |}.

Definition sg_node (sg_id : string) (sg_data : sg_entry) : node :=
  {| id := _normalize_node_id "security_group" sg_id;
     label := se_group_name sg_data;
     ntype := Some "security_group";
     group := Some "network";
     extra := SgNode (se_has_internet_access sg_data) (len (se_resources sg_data));
     edge_to_next := None |}.

Definition ec2_node (i : ec2_instance) : node :=
  {| id := _normalize_node_id "ec2_instance" (instance_id i);
     label := ec2_name i;
     ntype := Some "ec2_instance";
     group := Some "compute";
     extra := Ec2Node (ec2_is_public i) (ec2_state i);
     edge_to_next := None |}.

Definition lambda_node (f : lambda_function) : node :=
  {| id := _normalize_node_id "lambda_function" (function_name f);
     label := function_name f;
     ntype := Some "lambda_function";
     group := Some "compute";
     extra := LambdaNode (runtime f);
     edge_to_next := None |}.

Definition s3_node (b : s3_bucket) : node :=
  {| id := _normalize_node_id "s3_bucket" (bucket_name b);
     label := bucket_name b;
     ntype := Some "s3_bucket";
     group := Some "storage";
     extra := S3Node (s3_is_public b);
     edge_to_next := None |}.

Definition rds_node (d : rds_instance) : node :=
  {| id := _normalize_node_id "rds_instance" (db_instance_identifier d);
     label := db_instance_identifier d;
     ntype := Some "rds_instance";
     group := Some "database";
     extra := RdsNode (publicly_accessible d);
     edge_to_next := None |}.

Definition internet_node_id : string := "internet".

Definition internet_node : node :=
  {| id := internet_node_id;
     label := "Internet (0.0.0.0/0)";
     ntype := Some "internet";
     group := Some "external";
     extra := PlainNode;
     edge_to_next := None |}.

Definition graph_nodes (role_mappings : dict role_entry)
           (sg_mappings : dict sg_entry) (res : resource_data) : node_acc :=
  let acc : node_acc := ([], []) in
  let acc :=
    fold_left (fun acc kv =>
                 if negb (is_empty (re_resources (snd kv)))
                 then add_node (role_node (fst kv) (snd kv)) acc else acc)
              role_mappings acc in
  let acc :=
    fold_left (fun acc kv =>
                 if negb (is_empty (se_resources (snd kv)))
                 then add_node (sg_node (fst kv) (snd kv)) acc else acc)
              sg_mappings acc in
  let acc := fold_left (fun acc i => add_node (ec2_node i) acc)
                       (ec2_instances res) acc in
  let acc := fold_left (fun acc f => add_node (lambda_node f) acc)
                       (lambda_functions res) acc in
  let acc := fold_left (fun acc b => add_node (s3_node b) acc)
                       (s3_buckets res) acc in
  let acc := fold_left (fun acc d => add_node (rds_node d) acc)
                       (rds_instances res) acc in
  (* the Internet node is appended without the membership test *)
  (fst acc ++ [internet_node], internet_node_id :: snd acc).

(** The edge of a relationship, kept only if both normalized ids are nodes. *)
Definition relationship_edge (node_ids : list string) (rel : relationship)
  : list edge :=
  let source_id := _normalize_node_id (source_type rel) (source rel) in
  let target_id := _normalize_node_id (target_type rel) (target rel) in
  if str_in source_id node_ids && str_in target_id node_ids
  then [{| e_source := source_id; e_target := target_id;
           e_type := relationship_type rel |}]
  else [].

Definition internet_edge (node_ids : list string) (kv : string * sg_entry)
  : list edge :=
  if se_has_internet_access (snd kv) then
    let source_id := _normalize_node_id "security_group" (fst kv) in
    if str_in source_id node_ids
    then [{| e_source := source_id; e_target := internet_node_id;
             e_type := "allows_traffic_from" |}]
    else []
  else [].

Definition ntype_is (t : string) (n : node) : bool :=
  match ntype n with
  | Some t' => (t' =? t)%string
  | None => false
  end.

Definition _build_graph_data (role_mappings : dict role_entry)
           (sg_mappings : dict sg_entry) (res : resource_data)
           (relationships : list relationship) : graph_data :=
  let '(nodes, node_ids) := graph_nodes role_mappings sg_mappings res in
  let edges := flat_map (relationship_edge node_ids) relationships
               ++ flat_map (internet_edge node_ids) sg_mappings in
  {| nodes := nodes;
     edges := edges;
     stats :=
       {| total_nodes := len nodes;
          total_edges := len edges;
          stats_node_types :=
            {| nt_iam_roles := count_if (ntype_is "iam_role") nodes;
               nt_security_groups := count_if (ntype_is "security_group") nodes;
               nt_ec2_instances := count_if (ntype_is "ec2_instance") nodes;
               nt_lambda_functions := count_if (ntype_is "lambda_function") nodes;
               nt_s3_buckets := count_if (ntype_is "s3_bucket") nodes;
               nt_rds_instances := count_if (ntype_is "rds_instance") nodes |} |} |}.

(** *** build_relationships *)

Record summary : Type := {
  total_roles : Z;
  total_security_groups : Z;
  total_relationships : Z;
  roles_with_resources : Z;
  security_groups_with_internet : Z
}.

Record build_result : Type := {
  role_mappings : dict role_entry;
  security_group_mappings : dict sg_entry;
  consolidated : consolidated_view;
  graph : graph_data;
  build_summary : summary
}.

Section Build.
Variable set_order : list string -> list string.

Definition build_relationships (iam : iam_data) (res : resource_data)
  : M build_result :=
  role_mappings <- _build_role_resource_map set_order iam res ;;
  sg_mappings <- _build_security_group_map res ;;
  let consolidated_view := _build_consolidated_view role_mappings sg_mappings in
  relationships <- get_relationships ;;
  let graph_data := _build_graph_data role_mappings sg_mappings res relationships in
  ret {| role_mappings := role_mappings;
         security_group_mappings := sg_mappings;
         consolidated := consolidated_view;
         graph := graph_data;
         build_summary :=
           {| total_roles := len role_mappings;
              total_security_groups := len sg_mappings;
              total_relationships := len relationships;
              roles_with_resources :=
                count_if (fun e => negb (is_empty (re_resources e)))
                         (dict_values role_mappings);
              security_groups_with_internet :=
                count_if se_has_internet_access (dict_values sg_mappings) |} |}.
End Build.

End RelationshipBuilder.

(** ** The access-path query ([get_access_path], from the BFS on)

    The handler first resolves [scan_id] to the stored scan and takes its
    [graph_data]; what follows is the computation on that graph.  The node
    dicts of the stored graph are shared with the answer: annotating a path
    node writes the key ["edge_to_next"] into the stored node, so the query
    returns the graph it leaves behind together with its answer. *)

Module AccessPath.

(** [{node["id"]: node for node in nodes}] maps an id to the last node
    carrying it; a node object is identified by its position in the list. *)
Fixpoint last_index_from (i : nat) (node_id : string) (l : list node)
  : option nat :=
  match l with
  | [] => None
  | n :: l' =>
      match last_index_from (S i) node_id l' with
      | Some j => Some j
      | None => if (id n =? node_id)%string then Some i else None
      end
  end.

Definition node_index (nodes : list node) (node_id : string) : option nat :=
  last_index_from 0 node_id nodes.

(** Adjacency entries: [{"target": tgt, "type": type}] *)
Definition neighbor : Type := (string * string)%type.

(** The adjacency dict, built edge by edge. *)
Definition build_adjacency (edges : list edge) : dict (list neighbor) :=
  fold_left
    (fun adjacency e =>
       let adjacency1 := if negb (dict_mem (e_source e) adjacency)
                         then dict_set (e_source e) [] adjacency
                         else adjacency in
       dict_modify (e_source e) (fun l => l ++ [(e_target e, e_type e)]) adjacency1)
    edges [].

(** [adjacency.get(current, [])] *)
Definition neighbors (adjacency : dict (list neighbor)) (current : string)
  : list neighbor :=
  match dict_get current adjacency with
  | Some l => l
  | None => []
  end.

Definition queue_entry : Type := (string * list string)%type.

(** The [for neighbor in adjacency.get(current, [])] loop. *)
Fixpoint explore (nbrs : list neighbor) (path : list string)
         (queue : list queue_entry) (visited : list string)
  : list queue_entry * list string :=
  match nbrs with
  | [] => (queue, visited)
  | (neighbor_id, _) :: nbrs' =>
      if negb (str_in neighbor_id visited)
      then explore nbrs' path (queue ++ [(neighbor_id, path ++ [neighbor_id])])
                   (neighbor_id :: visited)
      else explore nbrs' path queue visited
  end.

Inductive bfs_outcome : Type :=
| Reached (path : list string)    (* [current == target] *)
| QueueEmpty                      (* the [while queue] loop ended *)
| OutOfFuel.                      (* artefact of the embedding, see [bfs_fuel] *)

(** The [while queue] loop; [fuel] bounds the number of iterations. *)
Fixpoint bfs (fuel : nat) (adjacency : dict (list neighbor)) (target : string)
         (queue : list queue_entry) (visited : list string) : bfs_outcome :=
  match fuel with
  | O => OutOfFuel
  | S fuel' =>
      match queue with
      | [] => QueueEmpty
      | (current, path) :: queue' =>
          if (current =? target)%string then Reached path
          else
            let '(queue'', visited') :=
              explore (neighbors adjacency current) path queue' visited in
            bfs fuel' adjacency target queue'' visited'
      end
  end.

(** Iterations granted to the loop: one per edge and two more.  The loop
    never needs them all (lemma [bfs_fuel_enough]). *)
Definition bfs_fuel (edges : list edge) : nat := S (S (List.length edges)).

(** [next((e["type"] for e in edges if ...), "connected_to")] *)
Definition edge_type_between (edges : list edge) (node_id next_node : string)
  : string :=
  match find (fun e => (e_source e =? node_id)%string
                       && (e_target e =? next_node)%string) edges with
  | Some e => e_type e
  | None => "connected_to"
  end.

(** An element of [path_details]: a stored node object or the dict made on
    the spot for an id that is not a node. *)
Inductive node_ref : Type :=
| Stored (index : nat)
| Fresh (n : node).

Definition default_node (node_id : string) : node :=
  {| id := node_id; label := node_id; ntype := None; group := None;
     extra := PlainNode; edge_to_next := None |}.

Definition set_edge_to_next (ty : string) (n : node) : node :=
  {| id := id n; label := label n; ntype := ntype n; group := group n;
     extra := extra n; edge_to_next := Some ty |}.

Fixpoint update_nth (i : nat) (f : node -> node) (l : list node) : list node :=
  match l, i with
  | [], _ => []
  | n :: l', O => f n :: l'
  | n :: l', S i' => n :: update_nth i' f l'
  end.

(** [nodes.get(node_id, {"id": node_id, "label": node_id})] *)
Definition node_info (store : list node) (node_id : string) : node_ref :=
  match node_index store node_id with
  | Some i => Stored i
  | None => Fresh (default_node node_id)
  end.

(** [path_details[-1]["edge_to_next"] = edge_type] *)
Definition annotate_ref (ty : string) (r : node_ref) (store : list node)
  : node_ref * list node :=
  match r with
  | Stored i => (Stored i, update_nth i (set_edge_to_next ty) store)
  | Fresh n => (Fresh (set_edge_to_next ty n), store)
  end.

(** The [for i, node_id in enumerate(path)] loop. *)
Fixpoint path_details (edges : list edge) (path : list string)
         (store : list node) : list node_ref * list node :=
  match path with
  | [] => ([], store)
  | node_id :: rest =>
      let r := node_info store node_id in
      match rest with
      | [] => ([r], store)
      | next_node :: _ =>
          let '(r', store') :=
            annotate_ref (edge_type_between edges node_id next_node) r store in
          let '(rs, store'') := path_details edges rest store' in
          (r' :: rs, store'')
      end
  end.

(** What a reference shows once the handler has returned. *)
Definition deref (store : list node) (r : node_ref) : node :=
  match r with
  | Stored i => nth i store (default_node EmptyString)
  | Fresh n => n
  end.

Inductive access_path : Type :=
| PathFound (source target : string) (path_length : Z) (path : list node)
| NoPathFound (source target : string) (message : string)
| DidNotTerminate.

Definition with_nodes (g : graph_data) (ns : list node) : graph_data :=
  {| nodes := ns; edges := edges g; stats := stats g |}.

Definition get_access_path (g : graph_data) (source target : string)
  : access_path * graph_data :=
  let adjacency := build_adjacency (edges g) in
  match bfs (bfs_fuel (edges g)) adjacency target [(source, [source])] [source] with
  | Reached path =>
      let '(refs, store) := path_details (edges g) path (nodes g) in
      (PathFound source target (len path - 1) (map (deref store) refs),
       with_nodes g store)
  | QueueEmpty =>
      (NoPathFound source target "No path found between source and target", g)
  | OutOfFuel => (DidNotTerminate, g)
  end.

End AccessPath.

(** ** Concrete inputs used by the examples below *)

Module Examples.

Definition no_iam : iam_data := {| account_id := None; roles := []; users := [] |}.

Definition no_resources : resource_data :=
  {| region := None; ec2_instances := []; lambda_functions := [];
     s3_buckets := []; rds_instances := []; security_groups := [] |}.

(** A public instance behind a security group that admits nothing from
    the Internet, in the shape the resource discoverer emits. *)
Definition closed_sg : security_group :=
  {| sg_group_id := "sg-1"; sg_group_name := "internal"; sg_vpc_id := None;
     sg_has_internet_access := false; sg_allows_all_traffic := false;
     risky_rules := [] |}.

Definition public_instance : ec2_instance :=
  {| instance_id := "i-1"; ec2_name := "web"; ec2_is_public := true;
     ec2_security_groups := [SgRecord "sg-1" "internal"];
     iam_instance_profile := None; ec2_state := Some "running" |}.

Definition public_behind_closed_sg : resource_data :=
  {| region := None; ec2_instances := [public_instance];
     lambda_functions := []; s3_buckets := []; rds_instances := [];
     security_groups := [closed_sg] |}.

Definition admin_role : role :=
  {| role_name := "ops"; role_arn := Some "arn:aws:iam::1:role/ops";
     role_type := Some "service"; role_is_admin := true;
     role_attached_policies :=
       [{| policy_name := "AdministratorAccess";
           policy_arn := "arn:aws:iam::aws:policy/AdministratorAccess" |}] |}.

Definition one_admin : iam_data :=
  {| account_id := Some "1"; roles := [admin_role]; users := [] |}.

(** The critical threshold lowered to the score of the admin-role rule. *)
Definition strict_settings : Settings :=
  {| risk_critical_threshold := 80; risk_high_threshold := 70;
     risk_medium_threshold := 40; enable_cis_benchmark := true |}.

Definition alice : user :=
  {| username := "alice"; user_arn := Some "arn:aws:iam::1:user/alice";
     mfa_enabled := false; is_inactive := false; days_since_login := Some (Some 3);
     access_keys := []; user_attached_policies := [] |}.

(** A user record whose arn equals the admin role's arn. *)
Definition shadow_user : user :=
  {| username := "shadow"; user_arn := Some "arn:aws:iam::1:role/ops";
     mfa_enabled := true; is_inactive := false; days_since_login := None;
     access_keys := []; user_attached_policies := [] |}.

Definition role_and_users : iam_data :=
  {| account_id := Some "1"; roles := [admin_role]; users := [shadow_user; alice] |}.

(** The graph of the path-finding scenario, with one node stored. *)
Definition chain_graph : graph_data :=
  {| nodes := [{| id := "sg-C"; label := "web-sg"; ntype := Some "security_group";
                  group := Some "network"; extra := SgNode true 1;
                  edge_to_next := None |}];
     edges := [{| e_source := "role-A"; e_target := "ec2-B"; e_type := "assumes" |};
               {| e_source := "ec2-B"; e_target := "sg-C"; e_type := "protected_by" |};
               {| e_source := "sg-C"; e_target := "internet";
                  e_type := "allows_traffic_from" |}];
     stats := {| total_nodes := 1; total_edges := 3;
                 stats_node_types :=
                   {| nt_iam_roles := 0; nt_security_groups := 1;
                      nt_ec2_instances := 0; nt_lambda_functions := 0;
                      nt_s3_buckets := 0; nt_rds_instances := 0 |} |} |}.

(** A Lambda function running as the admin role inside two security
    groups, [sg-1] enumerated and open to the Internet, [sg-2] only
    referenced; and a public instance of the same role behind [sg-1],
    with its group given as an id. *)
Definition open_sg : security_group :=
  {| sg_group_id := "sg-1"; sg_group_name := "web"; sg_vpc_id := Some "vpc-1";
     sg_has_internet_access := true; sg_allows_all_traffic := false;
     risky_rules := [{| protocol := "tcp"; from_port := Some 22;
                        to_port := Some 22; cidr := "0.0.0.0/0" |}] |}.

Definition ops_function : lambda_function :=
  {| function_name := "report"; runtime := Some "python3.12";
     lambda_role := Some "ops"; is_in_vpc := true;
     lambda_security_groups := ["sg-1"; "sg-2"] |}.

Definition ops_instance : ec2_instance :=
  {| instance_id := "i-2"; ec2_name := "bastion"; ec2_is_public := true;
     ec2_security_groups := [SgId "sg-1"];
     iam_instance_profile := Some "ops"; ec2_state := Some "running" |}.

Definition ops_resources : resource_data :=
  {| region := Some "us-east-1"; ec2_instances := [ops_instance];
     lambda_functions := [ops_function]; s3_buckets := []; rds_instances := [];
     security_groups := [open_sg] |}.

(** The orphaned-reference scenario with the instance record as the
    resource discoverer emits it: the group is a [{"group_id",
    "group_name"}] dict, and [sg-999] is not enumerated. *)
Definition orphan_instance : ec2_instance :=
  {| instance_id := "i-9"; ec2_name := "worker"; ec2_is_public := false;
     ec2_security_groups := [SgRecord "sg-999" "workers"];
     iam_instance_profile := None; ec2_state := Some "running" |}.

Definition orphan_reference : resource_data :=
  {| region := Some "us-east-1"; ec2_instances := [orphan_instance];
     lambda_functions := []; s3_buckets := []; rds_instances := [];
     security_groups := [] |}.

(** The same scenario on a Lambda function, whose groups are ids. *)
Definition orphan_function : lambda_function :=
  {| function_name := "job"; runtime := None; lambda_role := None;
     is_in_vpc := true; lambda_security_groups := ["sg-999"] |}.

Definition orphan_reference_lambda : resource_data :=
  {| region := Some "us-east-1"; ec2_instances := [];
     lambda_functions := [orphan_function]; s3_buckets := []; rds_instances := [];
     security_groups := [] |}.

(** Two roles that trust each other, and a bucket that nothing leads to. *)
Definition mutual_trust_graph : graph_data :=
  {| nodes := [];
     edges := [{| e_source := "role-A"; e_target := "role-B"; e_type := "assumes" |};
               {| e_source := "role-B"; e_target := "role-A"; e_type := "assumes" |}];
     stats := {| total_nodes := 0; total_edges := 2;
                 stats_node_types :=
                   {| nt_iam_roles := 0; nt_security_groups := 0;
                      nt_ec2_instances := 0; nt_lambda_functions := 0;
                      nt_s3_buckets := 0; nt_rds_instances := 0 |} |} |}.

(** [list(s)] listing a set in order of first insertion. *)
Definition insertion_order (l : list string) : list string := nodup string_dec l.

End Examples.

(** ** Vocabulary for the analyzer properties *)

Module AnalyzerSpec.
Import RiskAnalyzer.

(** The fixed (score, severity) table of the rules. *)
Definition rule_table : list (Z * severity) :=
  [(75, high); (60, medium); (80, high); (55, medium); (70, high);
   (90, critical); (95, critical); (85, high)].

Definition in_table (f : finding) : Prop :=
  In (risk_score f, f_severity f) rule_table.

(** Membership of a finding in one severity bucket. *)
Definition in_bucket (cfg : Settings) (b : severity) (f : finding) : bool :=
  severity_eqb (bucket_of cfg (risk_score f)) b.

End AnalyzerSpec.

(** ** Vocabulary for the path properties *)

Module PathSpec.

(** The targets of the edges leaving [a], in edge-list order. *)
Definition successors (es : list edge) (a : string) : list string :=
  map e_target (filter (fun e => (e_source e =? a)%string) es).

Definition has_edge (es : list edge) (a b : string) : Prop :=
  In b (successors es a).

(** [walk es s v p]: [p] lists the nodes of a walk from [s] to [v] that
    follows edges of [es] in their direction. *)
Inductive walk (es : list edge) (s : string) : string -> list string -> Prop :=
| walk_start : walk es s s [s]
| walk_step (u v : string) (p : list string) :
    walk es s u p -> has_edge es u v -> walk es s v (p ++ [v]).

(** Number of edges of a walk given by its node list. *)
Definition hops (p : list string) : nat := pred (List.length p).

(** Position of the first occurrence of [x] in [l] ([length l] if none). *)
Fixpoint index_of (x : string) (l : list string) : nat :=
  match l with
  | [] => O
  | y :: l' => if (y =? x)%string then O else S (index_of x l')
  end.

(** Discovery rank of the step [a -> b]: the position, among the edges
    leaving [a], of the first one that enters [b]. *)
Definition edge_rank (es : list edge) (a b : string) : nat :=
  index_of b (successors es a).

(** The ranks of the successive steps of a path. *)
Fixpoint ranks (es : list edge) (p : list string) : list nat :=
  match p with
  | a :: rest =>
      match rest with
      | b :: _ => edge_rank es a b :: ranks es rest
      | [] => []
      end
  | [] => []
  end.

(** Lexicographic order on rank sequences. *)
Fixpoint lex_lt (k1 k2 : list nat) : Prop :=
  match k1, k2 with
  | a :: k1', b :: k2' => (a < b)%nat \/ (a = b /\ lex_lt k1' k2')
  | [], _ :: _ => True
  | _, [] => False
  end.

Definition lex_le (k1 k2 : list nat) : Prop := lex_lt k1 k2 \/ k1 = k2.

(** The first edge from [a] to [b] in the edge list. *)
Definition first_edge (es : list edge) (a b : string) : option edge :=
  find (fun e => (e_source e =? a)%string && (e_target e =? b)%string) es.

(** Consecutive nodes of [p] are joined by an edge. *)
Fixpoint chain (es : list edge) (p : list string) : Prop :=
  match p with
  | a :: rest =>
      match rest with
      | b :: _ => has_edge es a b /\ chain es rest
      | [] => True
      end
  | [] => True
  end.

(** [annotated es p ns]: [ns] are node records for the ids [p], in order,
    and each one but the last carries, under ["edge_to_next"], the type of
    the first edge of the edge list that leads to its successor. *)
Fixpoint annotated (es : list edge) (p : list string) (ns : list node) : Prop :=
  match p, ns with
  | [], [] => True
  | a :: rest, n :: ns' =>
      id n = a
      /\ match rest with
         | b :: _ =>
             exists e, first_edge es a b = Some e
                       /\ edge_to_next n = Some (e_type e)
         | [] => True
         end
      /\ annotated es rest ns'
  | _, _ => False
  end.

(** *** Vocabulary of the search proof *)

(** One step of the loop that builds the adjacency dict. *)
Definition adjacency_step (adjacency : dict (list AccessPath.neighbor)) (e : edge)
  : dict (list AccessPath.neighbor) :=
  let adjacency1 := if negb (dict_mem (e_source e) adjacency)
                    then dict_set (e_source e) [] adjacency
                    else adjacency in
  dict_modify (e_source e) (fun l => l ++ [(e_target e, e_type e)]) adjacency1.

(** The order in which the search prefers paths: fewer hops first, then
    the smaller rank sequence. *)
Definition path_lt (es : list edge) (p q : list string) : Prop :=
  (List.length p < List.length q)%nat
  \/ (List.length p = List.length q /\ lex_lt (ranks es p) (ranks es q)).

Definition path_le (es : list edge) (p q : list string) : Prop :=
  (List.length p < List.length q)%nat
  \/ (List.length p = List.length q /\ lex_le (ranks es p) (ranks es q)).

(** The ids the neighbour loop enqueues: those not yet visited, each once,
    in the order met. *)
Fixpoint fresh (l visited : list string) : list string :=
  match l with
  | [] => []
  | n :: l' =>
      if str_in n visited then fresh l' visited else n :: fresh l' (n :: visited)
  end.

Definition entry_lt (es : list edge) (e1 e2 : AccessPath.queue_entry) : Prop :=
  path_lt es (snd e1) (snd e2).

(** What holds of the queue and the visited set at the top of the loop. *)
Record bfs_inv (es : list edge) (s t : string)
       (queue : list AccessPath.queue_entry) (visited : list string) : Prop := {
  inv_source : In s visited;
  inv_entries :
    forall n p, In (n, p) queue ->
      In n visited /\ walk es s n p /\ NoDup p /\ incl p visited
      /\ forall q, walk es s n q -> path_le es p q;
  inv_sorted : StronglySorted (entry_lt es) queue;
  inv_shape :
    forall h queue', queue = h :: queue' ->
      forall e, In e queue' ->
        List.length (snd e) = List.length (snd h)
        \/ exists pp x, snd e = pp ++ [x]
                        /\ List.length pp = List.length (snd h)
                        /\ lex_lt (ranks es pp) (ranks es (snd h));
  inv_closed :
    forall v, In v visited ->
      (exists p, In (v, p) queue)
      \/ (v <> t /\ forall w, has_edge es v w -> In w visited)
}.

(** Edge targets not yet visited (with multiplicity): the loop's variant. *)
Definition unvisited (es : list edge) (visited : list string) : nat :=
  List.length (filter (fun x => negb (str_in x visited)) (map e_target es)).

Definition dflt : node := AccessPath.default_node EmptyString.

(** The node a path id resolves to in a given store. *)
Definition lookup (store : list node) (node_id : string) : node :=
  AccessPath.deref store (AccessPath.node_info store node_id).

(** The nodes the answer shows when no id repeats on the path. *)
Fixpoint expected (es : list edge) (store : list node) (path : list string)
  : list node :=
  match path with
  | [] => []
  | a :: rest =>
      match rest with
      | [] => [lookup store a]
      | b :: _ =>
          AccessPath.set_edge_to_next (AccessPath.edge_type_between es a b)
                                      (lookup store a)
          :: expected es store rest
      end
  end.

End PathSpec.

(** ** Vocabulary for the builder properties *)

Module BuilderSpec.
Import RelationshipBuilder.

(** The group ids a resource entry of the role map refers to. *)
Definition ri_sg_ids (r : resource_info) : list string :=
  match r with
  | Ec2Info _ _ _ refs =>
      flat_map (fun sg => match hash_key sg with Ok g => [g] | Raise _ => [] end) refs
  | LambdaInfo _ _ _ sgs => sgs
  end.

(** The three loops of [_build_role_resource_map], before the sets are
    turned into lists. *)
Definition role_map_loops (iam : iam_data) (res : resource_data) : M (dict role_entry) :=
  role_map <- foreach (roles iam) init_role [] ;;
  role_map <- foreach (ec2_instances res) map_ec2_to_role role_map ;;
  foreach (lambda_functions res) map_lambda_to_role role_map.

Definition finalize_map (set_order : list string -> list string)
           (role_map : dict role_entry) : dict role_entry :=
  map (fun kv => (fst kv, finalize_role set_order (snd kv))) role_map.

(** Each entry's set holds exactly the group ids of its resources. *)
Definition sets_follow_resources (role_map : dict role_entry) : Prop :=
  forall k e, In (k, e) role_map ->
    re_security_groups e = flat_map ri_sg_ids (re_resources e).

(** The result [build_relationships] puts together from the two maps and
    the relationships accumulated so far. *)
Definition assemble (set_order : list string -> list string) (res : resource_data)
           (role_map : dict role_entry) (sg_map : dict sg_entry)
           (rels : list relationship) : build_result :=
  let role_mappings := finalize_map set_order role_map in
  {| role_mappings := role_mappings;
     security_group_mappings := sg_map;
     consolidated := _build_consolidated_view role_mappings sg_map;
     graph := _build_graph_data role_mappings sg_map res rels;
     build_summary :=
       {| total_roles := len role_mappings;
          total_security_groups := len sg_map;
          total_relationships := len rels;
          roles_with_resources :=
            count_if (fun e => negb (is_empty (re_resources e)))
                     (dict_values role_mappings);
          security_groups_with_internet :=
            count_if se_has_internet_access (dict_values sg_map) |} |}.

(** [node_ids] holds exactly the ids of [nodes]. *)
Definition ids_agree (acc : node_acc) : Prop :=
  forall x, In x (snd acc) <-> In x (map id (fst acc)).

(** The edge a relationship stands for, with normalized endpoint ids. *)
Definition edge_of (rel : relationship) : edge :=
  {| e_source := _normalize_node_id (source_type rel) (source rel);
     e_target := _normalize_node_id (target_type rel) (target rel);
     e_type := relationship_type rel |}.

(** Entries of the security-group map sit under their own id, and an
    entry for an id that is not enumerated has the defaults given to a
    group that is only referenced. *)
Definition well_formed (enumerated : list string) (sg_map : dict sg_entry) : Prop :=
  forall g e, dict_get g sg_map = Some e ->
    se_group_id e = g
    /\ (~ In g enumerated ->
        se_group_name e = g /\ se_has_internet_access e = false).

Definition attached (rg : sg_resource * string) (sg_map : dict sg_entry) : Prop :=
  exists e, dict_get (snd rg) sg_map = Some e /\ In (fst rg) (se_resources e).

Definition sg_inv (enumerated : list string) (K : list (sg_resource * string))
           (sg_map : dict sg_entry) : Prop :=
  well_formed enumerated sg_map /\ forall rg, In rg K -> attached rg sg_map.

Definition ec2_resource (i : ec2_instance) : sg_resource :=
  SgEc2 (instance_id i) (ec2_name i) (ec2_is_public i) (iam_instance_profile i).

Definition lambda_resource (f : lambda_function) : sg_resource :=
  SgLambda (function_name f) (function_name f) (lambda_role f).

Definition rds_resource (d : rds_instance) : sg_resource :=
  SgRds (db_instance_identifier d) (db_instance_identifier d) (publicly_accessible d).

(** The (resource, group id) pairs of the input, for references given as
    ids. *)
Definition ec2_pairs (i : ec2_instance) : list (sg_resource * string) :=
  flat_map (fun sg => match sg with
                      | SgId g => [(ec2_resource i, g)]
                      | SgRecord _ _ => []
                      end) (ec2_security_groups i).

Definition lambda_pairs (f : lambda_function) : list (sg_resource * string) :=
  flat_map (fun g => [(lambda_resource f, g)]) (lambda_security_groups f).

Definition rds_pairs (d : rds_instance) : list (sg_resource * string) :=
  flat_map (fun g => [(rds_resource d, g)]) (rds_security_groups d).

Definition references (res : resource_data) : list (sg_resource * string) :=
  flat_map ec2_pairs (ec2_instances res)
  ++ flat_map lambda_pairs (lambda_functions res)
  ++ flat_map rds_pairs (rds_instances res).

(** Every instance gives its security groups as ids. *)
Definition refs_are_ids (res : resource_data) : Prop :=
  forall i, In i (ec2_instances res) ->
    forall sg, In sg (ec2_security_groups i) -> exists g, sg = SgId g.

Definition roles_have_arn (iam : iam_data) : Prop :=
  forall r, In r (roles iam) -> role_arn r <> None.

End BuilderSpec.

(** ** Vocabulary for the further builder properties *)

Module BuilderVocabulary.
Import RelationshipBuilder BuilderSpec.

(** The exception raised when a dict is used as a set element or key. *)
Definition unhashable : py_exn := TypeError "unhashable type: 'dict'".

End BuilderVocabulary.

(** ** Vocabulary for the contents of the two maps *)

Module MapSpec.
Import RelationshipBuilder BuilderSpec.

(** [iam_profile and iam_profile == k] *)
Definition profile_is (k : string) (i : ec2_instance) : bool :=
  match iam_instance_profile i with
  | Some p => negb (p =? EmptyString)%string && (p =? k)%string
  | None => false
  end.

(** [role_arn and role_name == k], [role_name] being the last segment of
    the function's role arn. *)
Definition function_role_is (k : string) (f : lambda_function) : bool :=
  match lambda_role f with
  | Some arn => negb (arn =? EmptyString)%string && (role_name_of_arn arn =? k)%string
  | None => false
  end.

Definition ec2_info (i : ec2_instance) : resource_info :=
  Ec2Info (instance_id i) (ec2_name i) (ec2_is_public i) (ec2_security_groups i).

Definition lambda_info (f : lambda_function) : resource_info :=
  LambdaInfo (function_name f) (function_name f) (runtime f) (lambda_security_groups f).

(** The instances, then the functions, that run as the role named [k]. *)
Definition resources_of_role (k : string) (res : resource_data) : list resource_info :=
  map ec2_info (filter (profile_is k) (ec2_instances res))
  ++ map lambda_info (filter (function_role_is k) (lambda_functions res)).

(** [e'] is [e] with [rs] appended to its resources (the set of group ids
    is not constrained here). *)
Definition grown (rs : list resource_info) (e e' : role_entry) : Prop :=
  re_role_name e' = re_role_name e
  /\ re_role_arn e' = re_role_arn e
  /\ re_role_type e' = re_role_type e
  /\ re_is_admin e' = re_is_admin e
  /\ re_attached_policies e' = re_attached_policies e
  /\ re_resources e' = re_resources e ++ rs.

(** The map [rm] has the keys of [rm0], each entry grown by [rs k]. *)
Definition tracks (rs : string -> list resource_info)
           (rm0 rm : dict role_entry) : Prop :=
  forall k, match dict_get k rm0 with
            | None => dict_get k rm = None
            | Some e => exists e', dict_get k rm = Some e' /\ grown (rs k) e e'
            end.

(** The entry [e] carries the fields of the role record [r]. *)
Definition entry_from (r : role) (e : role_entry) : Prop :=
  re_role_name e = role_name r
  /\ role_arn r = Some (re_role_arn e)
  /\ re_role_type e = role_type r
  /\ re_is_admin e = role_is_admin r
  /\ re_attached_policies e = role_attached_policies r.

(** The relationship recorded for an instance whose profile names a role
    of [names]. *)
Definition assumes_ec2 (names : list string) (i : ec2_instance) : list relationship :=
  match iam_instance_profile i with
  | Some p =>
      if negb (p =? EmptyString)%string && str_in p names
      then [{| source := p; source_type := "iam_role";
               target := instance_id i; target_type := "ec2_instance";
               relationship_type := "assumes" |}]
      else []
  | None => []
  end.

Definition assumes_lambda (names : list string) (f : lambda_function)
  : list relationship :=
  match lambda_role f with
  | Some arn =>
      if negb (arn =? EmptyString)%string && str_in (role_name_of_arn arn) names
      then [{| source := role_name_of_arn arn; source_type := "iam_role";
               target := function_name f; target_type := "lambda_function";
               relationship_type := "assumes" |}]
      else []
  | None => []
  end.

Definition sr_type (r : sg_resource) : string :=
  match r with
  | SgEc2 _ _ _ _ => "ec2_instance"
  | SgLambda _ _ _ => "lambda_function"
  | SgRds _ _ _ => "rds_instance"
  end.

(** The relationship recorded for a resource and a group id it lists. *)
Definition protected_by (rg : sg_resource * string) : relationship :=
  {| source := sr_resource_id (fst rg); source_type := sr_type (fst rg);
     target := snd rg; target_type := "security_group";
     relationship_type := "protected_by" |}.

(** The resources that list the group id [g], in the order of [K]. *)
Definition refs_to (g : string) (K : list (sg_resource * string)) : list sg_resource :=
  map fst (filter (fun rg => (snd rg =? g)%string) K).

(** The entry a resource is attached to: the stored one, or the one
    created for an id that has none. *)
Definition base_entry (sg_map : dict sg_entry) (g : string) : sg_entry :=
  match dict_get g sg_map with
  | Some e => e
  | None => synthesized_sg g
  end.

Definition sg_with (e : sg_entry) (rs : list sg_resource) : sg_entry :=
  {| se_group_id := se_group_id e;
     se_group_name := se_group_name e;
     se_vpc_id := se_vpc_id e;
     se_has_internet_access := se_has_internet_access e;
     se_allows_all_traffic := se_allows_all_traffic e;
     se_resources := se_resources e ++ rs |}.

(** Lookup in the map obtained from [sg_map0] by attaching the pairs [K]. *)
Definition sg_lookup (sg_map0 : dict sg_entry) (K : list (sg_resource * string))
           (g : string) : option sg_entry :=
  match dict_get g sg_map0, refs_to g K with
  | None, [] => None
  | _, rs => Some (sg_with (base_entry sg_map0 g) rs)
  end.

(** The map after the loop over the enumerated groups. *)
Definition seeded (res : resource_data) : dict sg_entry :=
  fold_left (fun m sg => seed_sg sg m) (security_groups res) [].

(** The entry [e] carries the fields of the group record [sg]. *)
Definition seeded_from (sg : security_group) (e : sg_entry) : Prop :=
  se_group_id e = sg_group_id sg
  /\ se_group_name e = sg_group_name sg
  /\ se_vpc_id e = sg_vpc_id sg
  /\ se_has_internet_access e = sg_has_internet_access sg
  /\ se_allows_all_traffic e = sg_allows_all_traffic sg.

End MapSpec.

(** ** Vocabulary for the graph properties *)

Module GraphSpec.
Import RelationshipBuilder BuilderSpec.

(** The accumulator of the node-building part before the Internet node is
    appended. *)
Definition entity_nodes (role_mappings : dict role_entry)
           (sg_mappings : dict sg_entry) (res : resource_data) : node_acc :=
  let acc : node_acc := ([], []) in
  let acc :=
    fold_left (fun acc kv =>
                 if negb (is_empty (re_resources (snd kv)))
                 then add_node (role_node (fst kv) (snd kv)) acc else acc)
              role_mappings acc in
  let acc :=
    fold_left (fun acc kv =>
                 if negb (is_empty (se_resources (snd kv)))
                 then add_node (sg_node (fst kv) (snd kv)) acc else acc)
              sg_mappings acc in
  let acc := fold_left (fun acc i => add_node (ec2_node i) acc)
                       (ec2_instances res) acc in
  let acc := fold_left (fun acc f => add_node (lambda_node f) acc)
                       (lambda_functions res) acc in
  let acc := fold_left (fun acc b => add_node (s3_node b) acc)
                       (s3_buckets res) acc in
  fold_left (fun acc d => add_node (rds_node d) acc) (rds_instances res) acc.

(** A node that stands for a role with resources, a group with resources,
    or a resource of the input. *)
Definition entity_node (role_mappings : dict role_entry) (sg_mappings : dict sg_entry)
           (res : resource_data) (n : node) : Prop :=
  (exists k e, In (k, e) role_mappings /\ re_resources e <> [] /\ n = role_node k e)
  \/ (exists k e, In (k, e) sg_mappings /\ se_resources e <> [] /\ n = sg_node k e)
  \/ (exists i, In i (ec2_instances res) /\ n = ec2_node i)
  \/ (exists f, In f (lambda_functions res) /\ n = lambda_node f)
  \/ (exists b, In b (s3_buckets res) /\ n = s3_node b)
  \/ (exists d, In d (rds_instances res) /\ n = rds_node d).

(** The resource types that have a prefix of their own. *)
Definition known_types : list string := map fst type_prefix_map.

(** The node-type counters of the statistics, added up. *)
Definition typed_nodes (t : node_types) : Z :=
  nt_iam_roles t + nt_security_groups t + nt_ec2_instances t
  + nt_lambda_functions t + nt_s3_buckets t + nt_rds_instances t.

End GraphSpec.

(** ** Vocabulary for the order of the graph nodes *)

Module GraphOrderSpec.
Import RelationshipBuilder BuilderSpec.

(** The nodes that the six loops of [_build_graph_data] try to add, in
    the order in which they try. *)
Definition candidates (role_mappings : dict role_entry) (sg_mappings : dict sg_entry)
           (res : resource_data) : list node :=
  map (fun kv => role_node (fst kv) (snd kv))
      (filter (fun kv => negb (is_empty (re_resources (snd kv)))) role_mappings)
  ++ map (fun kv => sg_node (fst kv) (snd kv))
         (filter (fun kv => negb (is_empty (se_resources (snd kv)))) sg_mappings)
  ++ map ec2_node (ec2_instances res)
  ++ map lambda_node (lambda_functions res)
  ++ map s3_node (s3_buckets res)
  ++ map rds_node (rds_instances res).

(** Two instance records with one id. *)
Definition first_record : ec2_instance :=
  {| instance_id := "i-1"; ec2_name := "first"; ec2_is_public := true;
     ec2_security_groups := []; iam_instance_profile := None;
     ec2_state := Some "running" |}.

Definition second_record : ec2_instance :=
  {| instance_id := "i-1"; ec2_name := "second"; ec2_is_public := false;
     ec2_security_groups := []; iam_instance_profile := None;
     ec2_state := Some "stopped" |}.

Definition repeated_id : resource_data :=
  {| region := None; ec2_instances := [first_record; second_record];
     lambda_functions := []; s3_buckets := []; rds_instances := [];
     security_groups := [] |}.

End GraphOrderSpec.

(** ** Vocabulary for the consolidated view *)

Module ViewSpec.
Import RelationshipBuilder BuilderSpec.

(** A dict of lists has no key for an empty list. *)
Definition nonempty {A : Type} (l : list A) : option (list A) :=
  match l with
  | [] => None
  | _ => Some l
  end.

Definition of_type (t : string) (r : resource_info) : bool :=
  (ri_resource_type r =? t)%string.

End ViewSpec.

(** ** Vocabulary for the further path properties *)

Module PathVocabulary.
Import AccessPath PathSpec.

(** Two node records that differ at most in the annotation the path query
    writes. *)
Definition same_but_edge (n n' : node) : Prop :=
  id n' = id n /\ label n' = label n /\ ntype n' = ntype n
  /\ group n' = group n /\ extra n' = extra n.

End PathVocabulary.

(** ** Vocabulary for the layers of a built graph *)

Module LayerSpec.

(** [s.startswith(pre)] *)
Fixpoint starts_with (pre s : string) : bool :=
  match pre with
  | EmptyString => true
  | String a pre' =>
      match s with
      | String b s' => Ascii.eqb a b && starts_with pre' s'
      | EmptyString => false
      end
  end.

(** The layer of a node id of a built graph: roles, then resources, then
    security groups, then the Internet. *)
Definition tier (x : string) : nat :=
  if starts_with "role-" x then 0%nat
  else if starts_with "sg-" x then 2%nat
  else if (x =? "internet")%string then 3%nat
  else 1%nat.

End LayerSpec.

(** ** The resource discoverer (the functions that turn an AWS response
    item into a record; the calls to AWS themselves are not modelled)

    Of the keys of each record, those that the analyzers read are kept.
    A response key read with [.get(key, [])] is a list, empty when absent. *)

Module ResourceDiscoverer.

(** An element of [IpPermissions].  A range is given by its [CidrIp]
    (resp. [CidrIpv6]), [None] when the range has no such key. *)
Record ip_permission : Type := {
  IpProtocol : option string;
  FromPort : option Z;
  ToPort : option Z;
  IpRanges : list (option string);
  Ipv6Ranges : list (option string)
}.

Record raw_security_group : Type := {
  GroupId : string;
  GroupName : string;
  VpcId : option string;
  IpPermissions : list ip_permission
}.

(** [x.get(key) == s] *)
Definition get_is (x : option string) (s : string) : bool :=
  match x with
  | Some v => (v =? s)%string
  | None => false
  end.

Definition risky_rule (rule : ip_permission) (open_cidr : string) : sg_rule :=
  {| protocol := match IpProtocol rule with Some p => p | None => "all" end;
     from_port := FromPort rule;
     to_port := ToPort rule;
     cidr := open_cidr |}.

(** One of the two inner loops: the locals [has_internet_access] and
    [risky_rules] are threaded through. *)
Definition scan_ranges (rule : ip_permission) (open_cidr : string)
           (ranges : list (option string)) (acc : bool * list sg_rule)
  : bool * list sg_rule :=
  fold_left
    (fun acc ip_range =>
       if get_is ip_range open_cidr
       then (true, snd acc ++ [risky_rule rule open_cidr])
       else acc)
    ranges acc.

(** [_get_security_group_details].  The record has no
    ["allows_all_traffic"] key, which its readers take as [False]. *)
Definition _get_security_group_details (sg : raw_security_group) : security_group :=
  let acc :=
    fold_left
      (fun acc rule =>
         let acc := scan_ranges rule "0.0.0.0/0" (IpRanges rule) acc in
         scan_ranges rule "::/0" (Ipv6Ranges rule) acc)
      (IpPermissions sg) (false, []) in
  {| sg_group_id := GroupId sg;
     sg_group_name := GroupName sg;
     sg_vpc_id := VpcId sg;
     sg_has_internet_access := fst acc;
     sg_allows_all_traffic := false;
     risky_rules := snd acc |}.

(** An item of [Reservations[].Instances].  [IamInstanceProfile] is the
    profile dict, given by its [Arn] if it has one; [SecurityGroups] are
    (GroupId, GroupName) pairs; [Tags] are (Key, Value) pairs. *)
Record raw_instance : Type := {
  InstanceId : string;
  Tags : list (string * string);
  IamInstanceProfile : option (option string);
  PublicIpAddress : option string;
  StateName : string;
  SecurityGroups : list (string * string)
}.

(** [s.split('/')[-1]] *)
Definition last_segment (s : string) : string := last (split_slash s) EmptyString.

(** [bool(x.get(key))] for a string value *)
Definition truthy (x : option string) : bool :=
  match x with
  | Some v => negb (v =? EmptyString)%string
  | None => false
  end.

Definition _get_ec2_details (instance : raw_instance) : ec2_instance :=
  {| instance_id := InstanceId instance;
     ec2_name :=
       match find (fun tag => (fst tag =? "Name")%string) (Tags instance) with
       | Some tag => snd tag
       | None => InstanceId instance
       end;
     ec2_is_public := truthy (PublicIpAddress instance);
     ec2_security_groups :=
       map (fun sg => SgRecord (fst sg) (snd sg)) (SecurityGroups instance);
     iam_instance_profile :=
       match IamInstanceProfile instance with
       | Some profile =>
           Some (last_segment (match profile with Some arn => arn | None => EmptyString end))
       | None => None
       end;
     ec2_state := Some (StateName instance) |}.

(** An item of [Functions]; [VpcConfig] is flattened. *)
Record raw_function : Type := {
  FunctionName : string;
  Runtime : option string;
  Role : option string;
  VpcConfigVpcId : option string;
  SecurityGroupIds : list string
}.

Definition _get_lambda_details (function : raw_function) : lambda_function :=
  {| function_name := FunctionName function;
     runtime := Runtime function;
     lambda_role :=
       Some (last_segment (match Role function with
                           | Some arn => arn
                           | None => EmptyString
                           end));
     is_in_vpc := truthy (VpcConfigVpcId function);
     lambda_security_groups := SecurityGroupIds function |}.

End ResourceDiscoverer.

(** ** Vocabulary for the discoverer properties *)

Module DiscovererSpec.
Import ResourceDiscoverer.

(** The rule admits traffic from every IPv4 or every IPv6 address. *)
Definition open_to_world (rule : ip_permission) : Prop :=
  In (Some "0.0.0.0/0") (IpRanges rule) \/ In (Some "::/0") (Ipv6Ranges rule).

(** The rules recorded for one permission: one per IPv4 range open to the
    world, then one per such IPv6 range. *)
Definition rules_of (rule : ip_permission) : list sg_rule :=
  map (fun _ => risky_rule rule "0.0.0.0/0")
      (filter (fun r => get_is r "0.0.0.0/0") (IpRanges rule))
  ++ map (fun _ => risky_rule rule "::/0")
         (filter (fun r => get_is r "::/0") (Ipv6Ranges rule)).

(** An instance as [describe_instances] reports it, in one security
    group, and the inventory made of its record. *)
Definition raw_worker : raw_instance :=
  {| InstanceId := "i-9"; Tags := [("Name", "worker")];
     IamInstanceProfile := None; PublicIpAddress := None;
     StateName := "running"; SecurityGroups := [("sg-999", "workers")] |}.

Definition discovered_inventory : resource_data :=
  {| region := None; ec2_instances := map _get_ec2_details [raw_worker];
     lambda_functions := []; s3_buckets := []; rds_instances := [];
     security_groups := [] |}.

End DiscovererSpec.

(** ** The scan routes ([api/routes/scan.py])

    The two module-level dicts are the state.  What AWS and the clock
    answer during a scan is given from outside: a discovery either returns
    its list or raises, and the exception is known by its [str(e)]. *)

(** [del d[k]] *)
Fixpoint dict_del {V : Type} (k : string) (d : dict V) : dict V :=
  match d with
  | [] => []
  | (k', v) :: d' =>
      if (k' =? k)%string then dict_del k d' else (k', v) :: dict_del k d'
  end.

Module Scan.

(** The answer of a route: the returned value, or the HTTPException
    raised. *)
Inductive http (A : Type) : Type :=
| Respond (a : A)
| HTTPException (status_code : Z) (detail : string).
Arguments Respond {A} a.
Arguments HTTPException {A} status_code detail.

(** The outcome of a call that talks to AWS. *)
Inductive outcome (A : Type) : Type :=
| Done (a : A)
| Failed (message : string).
Arguments Done {A} a.
Arguments Failed {A} message.

(** [str(e)] *)
Definition exn_message (e : py_exn) : string :=
  match e with
  | TypeError msg => msg
  | KeyError key => ("'" ++ key ++ "'")%string
  end.

Definition of_result {A : Type} (r : result A) : outcome A :=
  match r with
  | Ok a => Done a
  | Raise e => Failed (exn_message e)
  end.

Record ScanConfig : Type := {
  scan_iam : bool;
  scan_ec2 : bool;
  scan_lambda : bool;
  scan_s3 : bool;
  scan_rds : bool;
  scan_security_groups : bool
}.

(** A value of [scan_status]. *)
Record status_entry : Type := {
  status : string;
  progress : Z;
  current_step : string;
  started_at : string;
  completed_at : option string;
  error : option string;
  failed_at : option string
}.

(** A value of [all_results["resource_data"]]: a key is present only if
    its discovery was asked for. *)
Record region_data : Type := {
  rd_ec2_instances : option (list ec2_instance);
  rd_lambda_functions : option (list lambda_function);
  rd_s3_buckets : option (list s3_bucket);
  rd_rds_instances : option (list rds_instance);
  rd_security_groups : option (list security_group)
}.

(** A value of [scan_results]: [all_results] as stored, that is with
    ["risk_analysis"], ["relationships"] and ["completed_at"] set. *)
Record scan_data : Type := {
  sd_scan_id : string;
  sd_regions : list string;
  sd_started_at : string;
  sd_iam_data : option iam_data;
  sd_resource_data : dict region_data;
  sd_risk_analysis : RiskAnalyzer.results;
  sd_relationships : RelationshipBuilder.build_result;
  sd_completed_at : string
}.

Record store : Type := {
  scan_results : dict scan_data;
  scan_status : dict status_entry
}.

(** *** perform_scan *)

(** The body of the [try]: each step sees and updates [scan_status], and
    may end the body with an exception. *)
Definition T (A : Type) : Type :=
  dict status_entry -> outcome A * dict status_entry.

Definition ret {A : Type} (a : A) : T A := fun st => (Done a, st).

Definition bind {A B : Type} (c : T A) (k : A -> T B) : T B :=
  fun st =>
    match c st with
    | (Done a, st') => k a st'
    | (Failed m, st') => (Failed m, st')
    end.

Definition io {A : Type} (o : outcome A) : T A := fun st => (o, st).

(** [scan_status[scan_id][...] = ...] *)
Definition update (scan_id : string) (f : status_entry -> status_entry) : T unit :=
  fun st => (Done tt, dict_modify scan_id f st).

Notation "x <- c ;; k" := (bind c (fun x => k))
  (at level 61, c at next level, right associativity).
Notation "c ;;; k" := (bind c (fun _ => k))
  (at level 61, right associativity).

Definition set_step (step : string) (p : Z) (e : status_entry) : status_entry :=
  {| status := status e; progress := p; current_step := step;
     started_at := started_at e; completed_at := completed_at e;
     error := error e; failed_at := failed_at e |}.

Definition set_progress (p : Z) (e : status_entry) : status_entry :=
  {| status := status e; progress := p; current_step := current_step e;
     started_at := started_at e; completed_at := completed_at e;
     error := error e; failed_at := failed_at e |}.

Definition set_completed (now : string) (e : status_entry) : status_entry :=
  {| status := "completed"; progress := 100; current_step := "Completed";
     started_at := started_at e; completed_at := Some now;
     error := error e; failed_at := failed_at e |}.

Definition set_failed (message now : string) (e : status_entry) : status_entry :=
  {| status := "failed"; progress := progress e; current_step := current_step e;
     started_at := started_at e; completed_at := completed_at e;
     error := Some message; failed_at := Some now |}.

(** [combined_resources[key].extend(data[key])] over the regions, for one
    key. *)
Definition extend_all {A : Type} (key : region_data -> option (list A))
           (by_region : dict region_data) : list A :=
  flat_map (fun kv => match key (snd kv) with Some l => l | None => [] end)
           by_region.

(** [combined_resources]; it has no ["region"] key. *)
Definition combine (by_region : dict region_data) : resource_data :=
  {| region := None;
     ec2_instances := extend_all rd_ec2_instances by_region;
     lambda_functions := extend_all rd_lambda_functions by_region;
     s3_buckets := extend_all rd_s3_buckets by_region;
     rds_instances := extend_all rd_rds_instances by_region;
     security_groups := extend_all rd_security_groups by_region |}.

(** What the clock and AWS answer during one scan, and the process-wide
    settings. *)
Record world : Type := {
  (* the readings of [datetime.utcnow().isoformat()], in the order of the
     source text *)
  now_status : string;
  now_results : string;
  now_analysis : string;
  now_completed : string;
  now_results_completed : string;
  now_failed : string;
  (* [IAMDiscoverer().discover_all()] *)
  iam_discover_all : outcome iam_data;
  (* [ResourceDiscoverer(region=region)] and its [discover_*] methods *)
  new_resource_discoverer : string -> outcome unit;
  discover_ec2_instances : string -> outcome (list ec2_instance);
  discover_lambda_functions : string -> outcome (list lambda_function);
  discover_s3_buckets : string -> outcome (list s3_bucket);
  discover_rds_instances : string -> outcome (list rds_instance);
  discover_security_groups : string -> outcome (list security_group);
  (* [int((idx + 1) / len(regions) * 30)], a floating-point computation *)
  region_progress : nat -> nat -> Z;
  (* the process-wide [settings], and the set order of the interpreter *)
  settings : Settings;
  set_order : list string -> list string
}.

Section World.
Variable w : world.

(** [if flag: region_data[key] = discover()] *)
Definition when {A : Type} (flag : bool) (o : outcome A) : T (option A) :=
  if flag then (x <- io o ;; ret (Some x)) else ret None.

Definition discover_region (config : ScanConfig) (region : string) : T region_data :=
  resource_discoverer <- io (new_resource_discoverer w region) ;;
  ec2 <- when (scan_ec2 config) (discover_ec2_instances w region) ;;
  lam <- when (scan_lambda config) (discover_lambda_functions w region) ;;
  s3 <- when (scan_s3 config && (region =? "us-east-1")%string)
             (discover_s3_buckets w region) ;;
  rds <- when (scan_rds config) (discover_rds_instances w region) ;;
  sgs <- when (scan_security_groups config) (discover_security_groups w region) ;;
  ret {| rd_ec2_instances := ec2; rd_lambda_functions := lam; rd_s3_buckets := s3;
         rd_rds_instances := rds; rd_security_groups := sgs |}.

(** [for idx, region in enumerate(regions)] *)
Fixpoint discover_regions (scan_id : string) (config : ScanConfig) (n idx : nat)
         (regions : list string) (by_region : dict region_data)
  : T (dict region_data) :=
  match regions with
  | [] => ret by_region
  | region :: rest =>
      rd <- discover_region config region ;;
      update scan_id (set_progress (30 + region_progress w idx n)) ;;;
      discover_regions scan_id config n (S idx) rest (dict_set region rd by_region)
  end.

(** [risk_analyzer.analyze_all(all_results["iam_data"], combined_resources)]
    on a new analyzer; [iam_data] is [None] when IAM was not scanned. *)
Definition run_risk_analysis (iam : option iam_data) (combined : resource_data)
  : outcome RiskAnalyzer.results :=
  match iam with
  | None => Failed "'NoneType' object has no attribute 'get'"
  | Some d =>
      of_result (fst (RiskAnalyzer.analyze_all (settings w) (now_analysis w) d combined
                                               RiskAnalyzer.init))
  end.

(** [relationship_builder.build_relationships(...)] on a new builder. *)
Definition run_relationships (iam : option iam_data) (combined : resource_data)
  : outcome RelationshipBuilder.build_result :=
  match iam with
  | None => Failed "'NoneType' object has no attribute 'get'"
  | Some d =>
      of_result (fst (RelationshipBuilder.build_relationships (set_order w) d combined
                        RelationshipBuilder.init))
  end.

Definition scan_body (scan_id : string) (regions : list string) (config : ScanConfig)
  : T scan_data :=
  iam <- (if scan_iam config
          then update scan_id (set_step "Discovering IAM" 10) ;;;
               d <- io (iam_discover_all w) ;; ret (Some d)
          else ret None) ;;
  update scan_id (set_step "Discovering Resources" 30) ;;;
  by_region <- discover_regions scan_id config (List.length regions) 0 regions [] ;;
  update scan_id (set_step "Analyzing Risks" 70) ;;;
  let combined_resources := combine by_region in
  risk_analysis <- io (run_risk_analysis iam combined_resources) ;;
  update scan_id (set_step "Building Relationships" 85) ;;;
  relationships <- io (run_relationships iam combined_resources) ;;
  update scan_id (set_completed (now_completed w)) ;;;
  ret {| sd_scan_id := scan_id; sd_regions := regions; sd_started_at := now_results w;
         sd_iam_data := iam; sd_resource_data := by_region;
         sd_risk_analysis := risk_analysis; sd_relationships := relationships;
         sd_completed_at := now_results_completed w |}.

Definition perform_scan (scan_id : string) (regions : list string)
           (config : ScanConfig) (s : store) : store :=
  let st := dict_set scan_id
              {| status := "running"; progress := 0; current_step := "Initializing";
                 started_at := now_status w; completed_at := None; error := None;
                 failed_at := None |} (scan_status s) in
  match scan_body scan_id regions config st with
  | (Done all_results, st') =>
      {| scan_results := dict_set scan_id all_results (scan_results s);
         scan_status := st' |}
  | (Failed message, st') =>
      {| scan_results := scan_results s;
         scan_status := dict_modify scan_id (set_failed message (now_failed w)) st' |}
  end.

(** *** start_scan; the background task runs later. *)
Definition start_scan (scan_id : string) (s : store) : store :=
  {| scan_results := scan_results s;
     scan_status :=
       dict_set scan_id
         {| status := "queued"; progress := 0; current_step := "Queued";
            started_at := now_status w; completed_at := None; error := None;
            failed_at := None |} (scan_status s) |}.

End World.

(** *** get_scan_status *)
Definition get_scan_status (s : store) (scan_id : string) : http status_entry :=
  match dict_get scan_id (scan_status s) with
  | None => HTTPException 404 "Scan not found"
  | Some e => Respond e
  end.

(** *** get_scan_results *)
Definition get_scan_results (s : store) (scan_id : string) : http scan_data :=
  match dict_get scan_id (scan_results s) with
  | Some r => Respond r
  | None =>
      match dict_get scan_id (scan_status s) with
      | Some e =>
          if (status e =? "running")%string || (status e =? "queued")%string then
            HTTPException 202
              ("Scan is still " ++ status e ++ ". Check status endpoint for progress.")
          else if (status e =? "failed")%string then
            HTTPException 500
              ("Scan failed: " ++ match error e with
                                  | Some m => m
                                  | None => "Unknown error"
                                  end)
          else HTTPException 404 "Scan results not found"
      | None => HTTPException 404 "Scan results not found"
      end
  end.

(** *** delete_scan *)
Definition delete_scan (s : store) (scan_id : string) : http string * store :=
  if negb (dict_mem scan_id (scan_status s)) then
    (HTTPException 404 "Scan not found", s)
  else
    (Respond "Scan deleted successfully",
     {| scan_results := if dict_mem scan_id (scan_results s)
                        then dict_del scan_id (scan_results s)
                        else scan_results s;
        scan_status := dict_del scan_id (scan_status s) |}).

End Scan.

(** ** Vocabulary for the scan properties *)

Module ScanSpec.
Import Scan.

(** The fields of a status entry that only the end of a scan changes. *)
Definition keeps (e e' : status_entry) : Prop :=
  status e' = status e /\ started_at e' = started_at e
  /\ completed_at e' = completed_at e /\ error e' = error e
  /\ failed_at e' = failed_at e.

(** [st'] differs from [st] at most under [scan_id], where the entry, if
    there is one, has changed as [R] allows. *)
Definition upd (scan_id : string) (R : status_entry -> status_entry -> Prop)
           (st st' : dict status_entry) : Prop :=
  (forall other, other <> scan_id -> dict_get other st' = dict_get other st)
  /\ match dict_get scan_id st with
     | Some e => exists e', dict_get scan_id st' = Some e' /\ R e e'
     | None => dict_get scan_id st' = None
     end.

(** The region record made when every discovery of the region returns. *)
Definition region_record (config : ScanConfig)
           (ec2 : list ec2_instance) (lam : list lambda_function)
           (s3 : list s3_bucket) (rds : list rds_instance)
           (sgs : list security_group) (region : string) : region_data :=
  {| rd_ec2_instances := if scan_ec2 config then Some ec2 else None;
     rd_lambda_functions := if scan_lambda config then Some lam else None;
     rd_s3_buckets := if scan_s3 config && (region =? "us-east-1")%string
                      then Some s3 else None;
     rd_rds_instances := if scan_rds config then Some rds else None;
     rd_security_groups := if scan_security_groups config then Some sgs else None |}.

(** The discovery of [region] raised an exception with message [m]. *)
Definition discovery_failed (w : world) (config : ScanConfig) (region m : string)
  : Prop :=
  new_resource_discoverer w region = Failed m
  \/ (scan_ec2 config = true /\ discover_ec2_instances w region = Failed m)
  \/ (scan_lambda config = true /\ discover_lambda_functions w region = Failed m)
  \/ (scan_s3 config = true /\ region = "us-east-1"
      /\ discover_s3_buckets w region = Failed m)
  \/ (scan_rds config = true /\ discover_rds_instances w region = Failed m)
  \/ (scan_security_groups config = true
      /\ discover_security_groups w region = Failed m).

(** Every discovery of [region] returned; the instances are those of
    [raws], as [_get_ec2_details] records them. *)
Definition discovery_returned (w : world) (region : string)
           (raws : list ResourceDiscoverer.raw_instance) : Prop :=
  new_resource_discoverer w region = Done tt
  /\ discover_ec2_instances w region
     = Done (map ResourceDiscoverer._get_ec2_details raws)
  /\ (exists l, discover_lambda_functions w region = Done l)
  /\ (exists l, discover_s3_buckets w region = Done l)
  /\ (exists l, discover_rds_instances w region = Done l)
  /\ (exists l, discover_security_groups w region = Done l).

(** A world in which the account has the admin role, and each region the
    given instances and nothing else. *)
Definition world_with (raws : list ResourceDiscoverer.raw_instance) : world :=
  {| now_status := "t0"; now_results := "t1"; now_analysis := "t2";
     now_completed := "t3"; now_results_completed := "t4"; now_failed := "t5";
     iam_discover_all := Done Examples.one_admin;
     new_resource_discoverer := fun _ => Done tt;
     discover_ec2_instances :=
       fun _ => Done (map ResourceDiscoverer._get_ec2_details raws);
     discover_lambda_functions := fun _ => Done [];
     discover_s3_buckets := fun _ => Done [];
     discover_rds_instances := fun _ => Done [];
     discover_security_groups := fun _ => Done [];
     region_progress := fun _ _ => 30;
     settings := default_settings;
     set_order := Examples.insertion_order |}.

Definition scan_everything : ScanConfig :=
  {| scan_iam := true; scan_ec2 := true; scan_lambda := true; scan_s3 := true;
     scan_rds := true; scan_security_groups := true |}.

Definition scan_without_iam : ScanConfig :=
  {| scan_iam := false; scan_ec2 := true; scan_lambda := true; scan_s3 := true;
     scan_rds := true; scan_security_groups := true |}.

Definition empty_store : store := {| scan_results := []; scan_status := [] |}.

End ScanSpec.

(** ** The read routes over a stored scan ([api/routes/relationships.py])

    Each handler looks the scan up in [scan_results] and reads its
    ["relationships"].  On a stored scan no statement of these handlers
    raises, so the [except Exception] branch (status 500) is not reached
    and the answers are the returned value or the 404 raised by hand. *)

Module RelationshipRoutes.
Import RelationshipBuilder.

(** [resource.get("resource_id")] on an element of a role's
    ["resources"]. *)
Definition ri_resource_id (r : resource_info) : string :=
  match r with
  | Ec2Info i _ _ _ => i
  | LambdaInfo i _ _ _ => i
  end.

(** [resource.get("resource_name")] on an element of a group's
    ["resources"]. *)
Definition sr_resource_name (r : sg_resource) : string :=
  match r with
  | SgEc2 _ n _ _ => n
  | SgLambda _ n _ => n
  | SgRds _ n _ => n
  end.

(** [resource.get("resource_type")] *)
Definition sr_resource_type (r : sg_resource) : string :=
  match r with
  | SgEc2 _ _ _ _ => "ec2_instance"
  | SgLambda _ _ _ => "lambda_function"
  | SgRds _ _ _ => "rds_instance"
  end.

(** [resource.get("iam_role")]: the entries of RDS instances have no such
    key. *)
Definition sr_iam_role (r : sg_resource) : option string :=
  match r with
  | SgEc2 _ _ _ p => p
  | SgLambda _ _ p => p
  | SgRds _ _ _ => None
  end.

(** *** get_security_group_relationships *)
Definition get_security_group_relationships (s : Scan.store) (group_id scan_id : string)
  : Scan.http sg_entry :=
  match dict_get scan_id (Scan.scan_results s) with
  | None => Scan.HTTPException 404 "Scan not found"
  | Some scan_data =>
      let sg_mappings := security_group_mappings (Scan.sd_relationships scan_data) in
      match dict_get group_id sg_mappings with
      | None => Scan.HTTPException 404 "Security group not found"
      | Some sg_data => Scan.Respond sg_data
      end
  end.

(** *** get_resource_relationships *)

Record role_ref : Type := {
  rr_role_name : string;
  rr_role_arn : string;
  rr_role_type : option string
}.

Record group_ref : Type := {
  gr_group_id : string;
  gr_group_name : string;
  gr_has_internet_access : bool
}.

Record resource_relationships : Type := {
  ra_resource_id : string;
  ra_iam_roles : list role_ref;
  ra_security_groups : list group_ref;
  ra_resource_details : resource_info
}.

(** The loop over [role_mappings.items()]: the locals are
    [resource_info["iam_roles"]] and [resource_info["resource_details"]]. *)
Definition find_in_roles (resource_id : string) (role_mappings : dict role_entry)
  : list role_ref * option resource_info :=
  fold_left
    (fun acc kv =>
       fold_left
         (fun acc resource =>
            if (ri_resource_id resource =? resource_id)%string
            then (fst acc ++ [{| rr_role_name := fst kv;
                                 rr_role_arn := re_role_arn (snd kv);
                                 rr_role_type := re_role_type (snd kv) |}],
                  Some resource)
            else acc)
         (re_resources (snd kv)) acc)
    role_mappings ([], None).

(** The loop over [sg_mappings.items()]. *)
Definition find_in_groups (resource_id : string) (sg_mappings : dict sg_entry)
  : list group_ref :=
  fold_left
    (fun acc kv =>
       fold_left
         (fun acc resource =>
            if (sr_resource_id resource =? resource_id)%string
            then acc ++ [{| gr_group_id := fst kv;
                            gr_group_name := se_group_name (snd kv);
                            gr_has_internet_access :=
                              se_has_internet_access (snd kv) |}]
            else acc)
         (se_resources (snd kv)) acc)
    sg_mappings [].

Definition get_resource_relationships (s : Scan.store) (resource_id scan_id : string)
  : Scan.http resource_relationships :=
  match dict_get scan_id (Scan.scan_results s) with
  | None => Scan.HTTPException 404 "Scan not found"
  | Some scan_data =>
      let relationships := Scan.sd_relationships scan_data in
      let '(iam_roles, resource_details) :=
        find_in_roles resource_id (role_mappings relationships) in
      let security_groups :=
        find_in_groups resource_id (security_group_mappings relationships) in
      match resource_details with
      | None => Scan.HTTPException 404 "Resource not found"
      | Some details =>
          Scan.Respond {| ra_resource_id := resource_id;
                          ra_iam_roles := iam_roles;
                          ra_security_groups := security_groups;
                          ra_resource_details := details |}
      end
  end.

(** *** get_internet_exposed_resources *)

Record exposed_resource : Type := {
  er_resource_id : string;
  er_resource_name : string;
  er_resource_type : string;
  er_security_group_id : string;
  er_security_group_name : string;
  er_risky_rules : list sg_rule;
  er_iam_role : option string
}.

Record exposed_answer : Type := {
  total_exposed : Z;
  resources : list exposed_resource
}.

(** The dict appended for [resource] of the group [sg_id];
    [sg_data.get("risky_rules", [])] gives the default, the entries of
    [security_group_mappings] having no such key. *)
Definition exposed_entry (sg_id : string) (sg_data : sg_entry) (resource : sg_resource)
  : exposed_resource :=
  {| er_resource_id := sr_resource_id resource;
     er_resource_name := sr_resource_name resource;
     er_resource_type := sr_resource_type resource;
     er_security_group_id := sg_id;
     er_security_group_name := se_group_name sg_data;
     er_risky_rules := [];
     er_iam_role := sr_iam_role resource |}.

Definition get_internet_exposed_resources (s : Scan.store) (scan_id : string)
  : Scan.http exposed_answer :=
  match dict_get scan_id (Scan.scan_results s) with
  | None => Scan.HTTPException 404 "Scan not found"
  | Some scan_data =>
      let sg_mappings := security_group_mappings (Scan.sd_relationships scan_data) in
      let exposed_resources :=
        flat_map
          (fun kv =>
             if se_has_internet_access (snd kv)
             then map (exposed_entry (fst kv) (snd kv)) (se_resources (snd kv))
             else [])
          sg_mappings in
      Scan.Respond {| total_exposed := len exposed_resources;
                      resources := exposed_resources |}
  end.

End RelationshipRoutes.

(** ** Vocabulary for the route properties *)

Module RouteSpec.
Import RelationshipBuilder BuilderSpec RelationshipRoutes.

(** The record of the enumerated group [g] that the builder's map keeps:
    of several records with one id, the last. *)
Definition group_record (res : resource_data) (g : string) : option security_group :=
  find (fun sg => (sg_group_id sg =? g)%string) (rev (security_groups res)).

(** The entry that the first loop of [_build_security_group_map] stores
    for a group record. *)
Definition seed_entry (sg : security_group) : sg_entry :=
  {| se_group_id := sg_group_id sg;
     se_group_name := sg_group_name sg;
     se_vpc_id := sg_vpc_id sg;
     se_has_internet_access := sg_has_internet_access sg;
     se_allows_all_traffic := sg_allows_all_traffic sg;
     se_resources := [] |}.

(** What one (resource, group id) reference contributes to the list of
    exposed resources. *)
Definition exposed_through (res : resource_data) (rg : sg_resource * string)
  : list exposed_resource :=
  match group_record res (snd rg) with
  | Some sg =>
      if sg_has_internet_access sg
      then [{| er_resource_id := sr_resource_id (fst rg);
               er_resource_name := sr_resource_name (fst rg);
               er_resource_type := sr_resource_type (fst rg);
               er_security_group_id := snd rg;
               er_security_group_name := sg_group_name sg;
               er_risky_rules := [];
               er_iam_role := sr_iam_role (fst rg) |}]
      else []
  | None => []
  end.

(** A world in which the account and every region hold the given
    records. *)
Definition world_of (iam : iam_data) (res : resource_data) : Scan.world :=
  {| Scan.now_status := "t0"; Scan.now_results := "t1"; Scan.now_analysis := "t2";
     Scan.now_completed := "t3"; Scan.now_results_completed := "t4";
     Scan.now_failed := "t5";
     Scan.iam_discover_all := Scan.Done iam;
     Scan.new_resource_discoverer := fun _ => Scan.Done tt;
     Scan.discover_ec2_instances := fun _ => Scan.Done (ec2_instances res);
     Scan.discover_lambda_functions := fun _ => Scan.Done (lambda_functions res);
     Scan.discover_s3_buckets := fun _ => Scan.Done (s3_buckets res);
     Scan.discover_rds_instances := fun _ => Scan.Done (rds_instances res);
     Scan.discover_security_groups := fun _ => Scan.Done (security_groups res);
     Scan.region_progress := fun _ _ => 30;
     Scan.settings := default_settings;
     Scan.set_order := Examples.insertion_order |}.

(** A function of the role [ops] and a database, both behind the open
    group [sg-1]; the database runs under no role. *)
Definition billing_db : rds_instance :=
  {| db_instance_identifier := "billing"; publicly_accessible := true;
     encrypted := true; rds_security_groups := ["sg-1"; "sg-7"] |}.

Definition db_resources : resource_data :=
  {| region := None; ec2_instances := [];
     lambda_functions := [Examples.ops_function]; s3_buckets := [];
     rds_instances := [billing_db];
     security_groups := [Examples.open_sg] |}.

(** The store after one scan of [us-east-1] in that world. *)
Definition db_store : Scan.store :=
  Scan.perform_scan (world_of Examples.one_admin db_resources) "scan-1" ["us-east-1"]
                    ScanSpec.scan_everything ScanSpec.empty_store.

End RouteSpec.

(** ** The risk routes over the stored scans ([api/routes/risks.py])

    Of the handlers, the two that leave the stored findings as they are. *)

Module RiskRoutes.
Import RiskAnalyzer.

(** *** calculate_blast_radius (the route)

    [iam_data] is [None] in a scan stored without IAM data; the call of
    [iam_data.get] in the analyzer then raises, and the handler answers
    500 with the message. *)
Definition calculate_blast_radius (s : Scan.store) (identity_arn scan_id : string)
  : Scan.http blast_radius :=
  match dict_get scan_id (Scan.scan_results s) with
  | None => Scan.HTTPException 404 "Scan not found"
  | Some scan_data =>
      let combined_resources := Scan.combine (Scan.sd_resource_data scan_data) in
      match Scan.sd_iam_data scan_data with
      | None => Scan.HTTPException 500 "'NoneType' object has no attribute 'get'"
      | Some iam_data =>
          Scan.Respond (RiskAnalyzer.calculate_blast_radius identity_arn iam_data
                                                            combined_resources)
      end
  end.

(** *** get_risk_statistics *)

(** [stats["by_severity"]] and [stats["by_type"]]: dicts that start with
    the four keys and get no other, every finding having one of the four
    severities and one of the four types. *)
Record by_severity : Type := {
  bs_critical : Z;
  bs_high : Z;
  bs_medium : Z;
  bs_low : Z
}.

Record by_type : Type := {
  bt_identity : Z;
  bt_resource : Z;
  bt_network : Z;
  bt_compliance : Z
}.

Record statistics : Type := {
  st_by_severity : by_severity;
  st_by_type : by_type;
  by_resource_type : dict Z;
  st_total_risks : Z
}.

(** [d[k] = d.get(k, 0) + 1] *)
Definition bump_severity (k : severity) (d : by_severity) : by_severity :=
  match k with
  | critical => {| bs_critical := bs_critical d + 1; bs_high := bs_high d;
                   bs_medium := bs_medium d; bs_low := bs_low d |}
  | high => {| bs_critical := bs_critical d; bs_high := bs_high d + 1;
               bs_medium := bs_medium d; bs_low := bs_low d |}
  | medium => {| bs_critical := bs_critical d; bs_high := bs_high d;
                 bs_medium := bs_medium d + 1; bs_low := bs_low d |}
  | low => {| bs_critical := bs_critical d; bs_high := bs_high d;
              bs_medium := bs_medium d; bs_low := bs_low d + 1 |}
  end.

Definition bump_type (k : risk_type) (d : by_type) : by_type :=
  match k with
  | identity => {| bt_identity := bt_identity d + 1; bt_resource := bt_resource d;
                   bt_network := bt_network d; bt_compliance := bt_compliance d |}
  | resource => {| bt_identity := bt_identity d; bt_resource := bt_resource d + 1;
                   bt_network := bt_network d; bt_compliance := bt_compliance d |}
  | network => {| bt_identity := bt_identity d; bt_resource := bt_resource d;
                  bt_network := bt_network d + 1; bt_compliance := bt_compliance d |}
  | compliance => {| bt_identity := bt_identity d; bt_resource := bt_resource d;
                     bt_network := bt_network d; bt_compliance := bt_compliance d + 1 |}
  end.

Definition bump (k : string) (d : dict Z) : dict Z :=
  dict_set k (match dict_get k d with Some n => n | None => 0 end + 1) d.

(** The body of the innermost loop. *)
Definition count_risk (stats : statistics) (risk : finding) : statistics :=
  {| st_by_severity := bump_severity (f_severity risk) (st_by_severity stats);
     st_by_type := bump_type (f_risk_type risk) (st_by_type stats);
     by_resource_type := bump (resource_type risk) (by_resource_type stats);
     st_total_risks := st_total_risks stats + 1 |}.

Definition no_statistics : statistics :=
  {| st_by_severity := {| bs_critical := 0; bs_high := 0; bs_medium := 0; bs_low := 0 |};
     st_by_type := {| bt_identity := 0; bt_resource := 0; bt_network := 0;
                      bt_compliance := 0 |};
     by_resource_type := [];
     st_total_risks := 0 |}.

(** [if scan_id:] holds for a given, non-empty id. *)
Definition get_risk_statistics (s : Scan.store) (scan_id : option string)
  : Scan.http statistics :=
  let scans_to_process :=
    match scan_id with
    | Some sid =>
        if negb (sid =? EmptyString)%string then
          match dict_get sid (Scan.scan_results s) with
          | None => Scan.HTTPException 404 "Scan not found"
          | Some scan_data => Scan.Respond [(sid, scan_data)]
          end
        else Scan.Respond (Scan.scan_results s)
    | None => Scan.Respond (Scan.scan_results s)
    end in
  match scans_to_process with
  | Scan.HTTPException code detail => Scan.HTTPException code detail
  | Scan.Respond scans =>
      Scan.Respond
        (fold_left
           (fun stats kv =>
              fold_left count_risk
                        (compile_all (r_risks (Scan.sd_risk_analysis (snd kv)))) stats)
           scans no_statistics)
  end.

End RiskRoutes.

(** ** Vocabulary for the risk route properties *)

Module RiskRouteSpec.
Import RiskAnalyzer RelationshipBuilder RiskRoutes.

(** The thresholds under which every rule's score falls into the bucket
    named by the rule's severity. *)
Definition labels_match_buckets (cfg : Settings) : Prop :=
  85 < risk_critical_threshold cfg <= 90
  /\ 60 < risk_high_threshold cfg <= 70
  /\ risk_medium_threshold cfg <= 55.

Definition risk_type_eqb (a b : risk_type) : bool :=
  match a, b with
  | identity, identity | resource, resource
  | network, network | compliance, compliance => true
  | _, _ => false
  end.

Definition affected_id (a : affected_resource) : string :=
  match a with
  | AffectedEc2 i _ _ => i
  | AffectedLambda i _ => i
  end.

Definition affected_type (a : affected_resource) : string :=
  match a with
  | AffectedEc2 _ _ _ => "ec2_instance"
  | AffectedLambda _ _ => "lambda_function"
  end.

(** What the API reports for a function and for an instance of the role
    [ops]: the function's role and the instance profile are ARNs. *)
Definition export_function : ResourceDiscoverer.raw_function :=
  {| ResourceDiscoverer.FunctionName := "export";
     ResourceDiscoverer.Runtime := Some "python3.12";
     ResourceDiscoverer.Role := Some "arn:aws:iam::1:role/ops";
     ResourceDiscoverer.VpcConfigVpcId := None;
     ResourceDiscoverer.SecurityGroupIds := [] |}.

Definition batch_instance : ResourceDiscoverer.raw_instance :=
  {| ResourceDiscoverer.InstanceId := "i-5";
     ResourceDiscoverer.Tags := [("Name", "batch")];
     ResourceDiscoverer.IamInstanceProfile :=
       Some (Some "arn:aws:iam::1:instance-profile/ops");
     ResourceDiscoverer.PublicIpAddress := Some "203.0.113.5";
     ResourceDiscoverer.StateName := "running";
     ResourceDiscoverer.SecurityGroups := [] |}.

Definition discovered_resources : resource_data :=
  {| region := None;
     ec2_instances := [ResourceDiscoverer._get_ec2_details batch_instance];
     lambda_functions := [ResourceDiscoverer._get_lambda_details export_function];
     s3_buckets := []; rds_instances := [];
     security_groups := [Examples.open_sg] |}.

Definition discovered_store : Scan.store :=
  Scan.perform_scan (RouteSpec.world_of Examples.one_admin discovered_resources)
                    "scan-1" ["us-east-1"] ScanSpec.scan_everything
                    ScanSpec.empty_store.

End RiskRouteSpec.

(** ** Vocabulary for the routes after a scan *)

Module ScanRouteSpec.
Import ResourceDiscoverer.

(** Every list of instances that a discovery returns is made of the
    records of [_get_ec2_details]. *)
Definition instances_are_records (w : Scan.world) : Prop :=
  forall region l, Scan.discover_ec2_instances w region = Scan.Done l ->
    exists raws, l = map _get_ec2_details raws.

(** An instance that the API reports without security groups. *)
Definition bare_instance : raw_instance :=
  {| InstanceId := "i-7"; Tags := [("Name", "probe")];
     IamInstanceProfile := None; PublicIpAddress := None;
     StateName := "running"; SecurityGroups := [] |}.

Definition mixed_resources : resource_data :=
  {| region := None; ec2_instances := [_get_ec2_details bare_instance];
     lambda_functions := [Examples.ops_function]; s3_buckets := [];
     rds_instances := [RouteSpec.billing_db];
     security_groups := [Examples.open_sg] |}.

Definition mixed_store : Scan.store :=
  Scan.perform_scan (RouteSpec.world_of Examples.one_admin mixed_resources) "scan-1"
                    ["us-east-1"] ScanSpec.scan_everything ScanSpec.empty_store.

End ScanRouteSpec.

(** * Properties *)

(** ** Generic facts *)

Lemma len_nonneg {A : Type} (l : list A) : 0 <= len l.
Proof. unfold len. lia. Qed.

Lemma count_if_bounds {A : Type} (p : A -> bool) (l : list A) :
  0 <= count_if p l <= len l.
Proof.
  unfold count_if, len. split; [lia|].
  apply inj_le. apply filter_length_le.
Qed.

Lemma str_in_In (x : string) (l : list string) : str_in x l = true <-> In x l.
Proof.
  unfold str_in. rewrite existsb_exists. split.
  - intros [y [Hy Heq]]. apply String.eqb_eq in Heq. now subst.
  - intros H. exists x. split; [assumption | apply String.eqb_refl].
Qed.

Lemma str_in_not_In (x : string) (l : list string) : str_in x l = false <-> ~ In x l.
Proof.
  rewrite <- str_in_In. destruct (str_in x l); split; congruence.
Qed.

Section SortFacts.
Variable A : Type.
Variable key : A -> Z.

Lemma insert_desc_perm (x : A) (l : list A) :
  Permutation (insert_desc key x l) (x :: l).
Proof.
  induction l as [|y l IH]; simpl.
  - apply Permutation_refl.
  - destruct (key y <=? key x).
    + apply Permutation_refl.
    + eapply Permutation_trans; [apply perm_skip, IH | apply perm_swap].
Qed.

Lemma sort_desc_perm (l : list A) : Permutation (sort_desc key l) l.
Proof.
  induction l as [|x l IH]; simpl.
  - apply Permutation_refl.
  - eapply Permutation_trans; [apply insert_desc_perm | now apply perm_skip].
Qed.

Lemma sort_desc_In (l : list A) (x : A) : In x (sort_desc key l) <-> In x l.
Proof.
  split; apply Permutation_in;
    [apply sort_desc_perm | apply Permutation_sym, sort_desc_perm].
Qed.
End SortFacts.

(** ** Risk analyzer *)

Module RiskAnalyzerFacts.
Import RiskAnalyzer AnalyzerSpec.

Lemma has_risky_sg_nonempty (i : ec2_instance) :
  has_risky_sg i = negb (RelationshipBuilder.is_empty (ec2_security_groups i)).
Proof.
  unfold has_risky_sg. destruct (ec2_security_groups i) as [|sg l]; simpl; [reflexivity|].
  induction l as [|sg' l IH]; simpl; auto.
Qed.

Lemma ec2_public_finding_table (i : ec2_instance) (f : finding) :
  ec2_public_finding i = Ok f -> in_table f.
Proof.
  unfold ec2_public_finding, in_table.
  destruct (ref_group_ids (ec2_security_groups i)); [|discriminate].
  intros H. injection H as <-. simpl.
  destruct (has_risky_sg i); simpl; tauto.
Qed.

Lemma ec2_public_findings_inv (l : list ec2_instance) (fs : list finding) :
  ec2_public_findings l = Ok fs ->
  forall f, In f fs ->
    exists i, In i l /\ ec2_is_public i = true /\ ec2_public_finding i = Ok f.
Proof.
  revert fs. induction l as [|i l IH]; simpl; intros fs H f Hf.
  - injection H as <-. contradiction.
  - destruct (ec2_is_public i) eqn:Hpub.
    + destruct (ec2_public_finding i) as [f0|] eqn:Hf0; [|discriminate].
      destruct (ec2_public_findings l) as [fs0|]; [|discriminate].
      injection H as <-. destruct Hf as [<-|Hf].
      * exists i. auto.
      * destruct (IH _ eq_refl _ Hf) as [j [Hj Hj']]. exists j. auto.
    + destruct (IH _ H _ Hf) as [j [Hj Hj']]. exists j. auto.
Qed.

Lemma in_map_table {A : Type} (mk : A -> finding) (l : list A) (f : finding) :
  (forall a, in_table (mk a)) -> In f (map mk l) -> in_table f.
Proof.
  intros Hmk Hf. apply in_map_iff in Hf. destruct Hf as [a [<- _]]. apply Hmk.
Qed.

Lemma identity_risks_table (iam : iam_data) (f : finding) :
  In f (analyze_identity_risks iam) -> in_table f.
Proof.
  unfold analyze_identity_risks. rewrite !in_app_iff.
  intros [H|[H|[H|H]]]; revert H; apply in_map_table; intros a;
    unfold in_table; simpl; tauto.
Qed.

Lemma resource_risks_table (res : resource_data) (fs : list finding) (f : finding) :
  analyze_resource_risks res = Ok fs -> In f fs -> in_table f.
Proof.
  unfold analyze_resource_risks.
  destruct (ec2_public_findings (ec2_instances res)) as [ec2|] eqn:Hec2; [|discriminate].
  intros H. injection H as <-. rewrite !in_app_iff.
  intros [H|[H|[H|[H|H]]]].
  - destruct (ec2_public_findings_inv _ Hec2 _ H) as [i [_ [_ Hi]]].
    eapply ec2_public_finding_table; eassumption.
  - revert H. apply in_map_table. intros a. unfold in_table. simpl. tauto.
  - revert H. apply in_map_table. intros a. unfold in_table. simpl. tauto.
  - revert H. apply in_map_table. intros a. unfold in_table. simpl. tauto.
  - revert H. apply in_map_table. intros a. unfold in_table. simpl. tauto.
Qed.

Lemma network_risks_table (res : resource_data) (f : finding) :
  In f (analyze_network_risks res) -> in_table f.
Proof.
  unfold analyze_network_risks. apply in_map_table. intros sg.
  unfold in_table. simpl. destruct (sg_escalated sg); simpl; tauto.
Qed.

Lemma compliance_risks_nil (cfg : Settings) (iam : iam_data) (res : resource_data) :
  analyze_compliance_risks cfg iam res = [].
Proof. unfold analyze_compliance_risks. now destruct (negb _). Qed.

(** What a successful [analyze_all] returns, spelled out. *)
Lemma analyze_all_ok cfg now iam res st out st' :
  analyze_all cfg now iam res st = (Ok out, st') ->
  exists resr,
    analyze_resource_risks res = Ok resr /\
    all_findings out
      = analyze_identity_risks iam ++ resr ++ analyze_network_risks res ++ [] /\
    st' = categorize cfg st (sort_desc risk_score (all_findings out)) /\
    top_risks out = firstn 10 (sort_desc risk_score (all_findings out)) /\
    r_risk_summary out
      = {| total_risks := len (sort_desc risk_score (all_findings out));
           n_critical := len (rs_critical st');
           n_high := len (rs_high st');
           n_medium := len (rs_medium st');
           n_low := len (rs_low st') |}.
Proof.
  unfold analyze_all.
  destruct (analyze_resource_risks res) as [resr|] eqn:Hres; [|discriminate].
  intros H. injection H as <- <-. exists resr.
  unfold all_findings, compile_all. simpl.
  rewrite compliance_risks_nil. repeat split; reflexivity.
Qed.

Lemma all_findings_table cfg now iam res st out st' :
  analyze_all cfg now iam res st = (Ok out, st') ->
  forall f, In f (all_findings out) -> in_table f.
Proof.
  intros H f Hf. destruct (analyze_all_ok _ _ _ _ _ H) as [resr [Hres [Hall _]]].
  rewrite Hall in Hf. rewrite !in_app_iff in Hf.
  destruct Hf as [Hf|[Hf|[Hf|[]]]].
  - eapply identity_risks_table; eassumption.
  - eapply resource_risks_table; eassumption.
  - eapply network_risks_table; eassumption.
Qed.

Lemma in_table_cases (f : finding) :
  in_table f ->
  (f_severity f = critical /\ 90 <= risk_score f <= 100)
  \/ (f_severity f <> critical /\ 0 <= risk_score f <= 85).
Proof.
  unfold in_table, rule_table. simpl.
  intros H.
  repeat (destruct H as [H|H];
          [injection H as <- <-; (left; split; [reflexivity|lia])
                                 || (right; split; [discriminate|lia])|]).
  contradiction.
Qed.

Lemma categorize_filter cfg (l : list finding) (st : risk_scores) :
  categorize cfg st l =
  {| rs_critical := rs_critical st ++ filter (in_bucket cfg critical) l;
     rs_high := rs_high st ++ filter (in_bucket cfg high) l;
     rs_medium := rs_medium st ++ filter (in_bucket cfg medium) l;
     rs_low := rs_low st ++ filter (in_bucket cfg low) l |}.
Proof.
  unfold categorize. revert st.
  induction l as [|f l IH]; intros st; simpl.
  - rewrite !app_nil_r. now destruct st.
  - rewrite IH. unfold categorize_one, in_bucket.
    destruct (bucket_of cfg (risk_score f)); simpl;
      rewrite <- ?app_assoc; reflexivity.
Qed.

Lemma bucket_partition cfg (l : list finding) :
  Permutation l (filter (in_bucket cfg critical) l ++ filter (in_bucket cfg high) l
                 ++ filter (in_bucket cfg medium) l ++ filter (in_bucket cfg low) l).
Proof.
  induction l as [|f l IH]; [constructor|].
  cbn [filter].
  change (in_bucket cfg critical f)
    with (severity_eqb (bucket_of cfg (risk_score f)) critical).
  change (in_bucket cfg high f)
    with (severity_eqb (bucket_of cfg (risk_score f)) high).
  change (in_bucket cfg medium f)
    with (severity_eqb (bucket_of cfg (risk_score f)) medium).
  change (in_bucket cfg low f)
    with (severity_eqb (bucket_of cfg (risk_score f)) low).
  set (C := filter (in_bucket cfg critical) l) in *.
  set (H := filter (in_bucket cfg high) l) in *.
  set (M := filter (in_bucket cfg medium) l) in *.
  set (L := filter (in_bucket cfg low) l) in *.
  destruct (bucket_of cfg (risk_score f)); simpl.
  - apply perm_skip. exact IH.
  - eapply Permutation_trans; [apply (perm_skip f IH) | apply Permutation_middle].
  - eapply Permutation_trans; [apply (perm_skip f IH) |].
    rewrite (app_assoc C H (f :: M ++ L)), (app_assoc C H (M ++ L)).
    apply Permutation_middle.
  - eapply Permutation_trans; [apply (perm_skip f IH) |].
    rewrite (app_assoc H M (f :: L)), (app_assoc H M L).
    rewrite (app_assoc C (H ++ M) (f :: L)), (app_assoc C (H ++ M) L).
    apply Permutation_middle.
Qed.

End RiskAnalyzerFacts.

Module RiskAnalyzerClaims.
Import RiskAnalyzer AnalyzerSpec RiskAnalyzerFacts.

(** What the public-instance rule computes, for any instance: the score
    and severity follow the mere presence of a security-group reference. *)
Lemma ec2_public_finding_score (i : ec2_instance) (f : finding) :
  ec2_public_finding i = Ok f ->
  (ec2_security_groups i = [] -> risk_score f = 70 /\ f_severity f = high)
  /\ (ec2_security_groups i <> [] -> risk_score f = 90 /\ f_severity f = critical).
Proof.
  unfold ec2_public_finding.
  destruct (ref_group_ids (ec2_security_groups i)); [|discriminate].
  intros H. injection H as <-. simpl. rewrite has_risky_sg_nonempty.
  destruct (ec2_security_groups i); simpl; split; intros; try congruence; auto.
Qed.

(** One finding per public instance, in input order. *)
Lemma ec2_public_findings_one_each (l : list ec2_instance) (fs : list finding) :
  ec2_public_findings l = Ok fs ->
  Forall2 (fun i f => ec2_public_finding i = Ok f) (filter ec2_is_public l) fs.
Proof.
  revert fs. induction l as [|i l IH]; simpl; intros fs H.
  - injection H as <-. constructor.
  - destruct (ec2_is_public i).
    + destruct (ec2_public_finding i) as [f0|] eqn:Hf0; [|discriminate].
      destruct (ec2_public_findings l) as [fs0|]; [|discriminate].
      injection H as <-. constructor; auto.
    + auto.
Qed.

(** C1 (evaluation at the failing input).  A public instance whose only
    security group admits nothing from the Internet (no Internet access,
    no risky rule) still gets the escalated finding: score 90, severity
    critical, where the claim says 70 and high. *)
Theorem C1_escalated_without_unrestricted_ingress :
  (forall sg, In sg (security_groups Examples.public_behind_closed_sg) ->
              sg_has_internet_access sg = false /\ risky_rules sg = [])
  /\ exists f,
      analyze_resource_risks Examples.public_behind_closed_sg = Ok [f]
      /\ risk_score f = 90 /\ f_severity f = critical.
Proof.
  split.
  - intros sg [<-|[]]. split; reflexivity.
  - eexists. repeat split; reflexivity.
Qed.

(** C2 (counterexample).  With the critical threshold configured to 80,
    the admin-role finding has score 80, which reaches the threshold, and
    severity high. *)
Lemma C2_threshold_counterexample :
  exists out st',
    analyze_all Examples.strict_settings "t" Examples.one_admin
                Examples.no_resources init = (Ok out, st')
    /\ ~ (forall f, In f (all_findings out) ->
            (f_severity f = critical
             <-> risk_critical_threshold Examples.strict_settings <= risk_score f)).
Proof.
  eexists. eexists. split; [reflexivity|].
  intros H.
  specialize (H (admin_finding Examples.admin_role) (or_introl eq_refl)).
  simpl in H. destruct H as [_ H].
  assert (Hle : 80 <= 80) by lia. specialize (H Hle). discriminate.
Qed.

(** The if/elif chain of the categorisation loop, as score ranges. *)
Lemma bucket_of_ranges cfg (s : Z) :
  (bucket_of cfg s = critical <-> risk_critical_threshold cfg <= s)
  /\ (bucket_of cfg s = high
      <-> s < risk_critical_threshold cfg /\ risk_high_threshold cfg <= s)
  /\ (bucket_of cfg s = medium
      <-> s < risk_critical_threshold cfg /\ s < risk_high_threshold cfg
          /\ risk_medium_threshold cfg <= s)
  /\ (bucket_of cfg s = low
      <-> s < risk_critical_threshold cfg /\ s < risk_high_threshold cfg
          /\ s < risk_medium_threshold cfg).
Proof.
  unfold bucket_of.
  destruct (Z.leb_spec (risk_critical_threshold cfg) s);
    [|destruct (Z.leb_spec (risk_high_threshold cfg) s);
      [|destruct (Z.leb_spec (risk_medium_threshold cfg) s)]];
    repeat split; intros; try discriminate; try lia; try reflexivity.
Qed.

(** C2 (amended).  For every finding produced by [analyze_all], severity
    is critical exactly when the score is at least 90, the default
    critical threshold (hence exactly when it reaches the configured
    threshold, as long as that lies in (85, 90]).  Each call appends
    every one of its findings to exactly one of the four bucket
    accumulators, the one picked by comparing the score with the three
    configured thresholds: critical from the critical threshold up, high
    below it from the high threshold up, medium below both from the medium
    threshold up, low below all three; the same score always gives the
    same bucket. *)
Theorem C2_severity_and_buckets cfg now iam res st out st' :
  analyze_all cfg now iam res st = (Ok out, st') ->
  (forall f, In f (all_findings out) ->
     (f_severity f = critical <-> 90 <= risk_score f))
  /\ (85 < risk_critical_threshold cfg <= 90 ->
      forall f, In f (all_findings out) ->
        (f_severity f = critical <-> risk_critical_threshold cfg <= risk_score f))
  /\ (exists c h m l,
        rs_critical st' = rs_critical st ++ c
        /\ rs_high st' = rs_high st ++ h
        /\ rs_medium st' = rs_medium st ++ m
        /\ rs_low st' = rs_low st ++ l
        /\ Permutation (all_findings out) (c ++ h ++ m ++ l)
        /\ Forall (fun f => risk_critical_threshold cfg <= risk_score f) c
        /\ Forall (fun f => risk_score f < risk_critical_threshold cfg
                            /\ risk_high_threshold cfg <= risk_score f) h
        /\ Forall (fun f => risk_score f < risk_critical_threshold cfg
                            /\ risk_score f < risk_high_threshold cfg
                            /\ risk_medium_threshold cfg <= risk_score f) m
        /\ Forall (fun f => risk_score f < risk_critical_threshold cfg
                            /\ risk_score f < risk_high_threshold cfg
                            /\ risk_score f < risk_medium_threshold cfg) l
        /\ Forall (fun f => bucket_of cfg (risk_score f) = critical) c
        /\ Forall (fun f => bucket_of cfg (risk_score f) = high) h
        /\ Forall (fun f => bucket_of cfg (risk_score f) = medium) m
        /\ Forall (fun f => bucket_of cfg (risk_score f) = low) l)
  /\ (forall s,
        (bucket_of cfg s = critical <-> risk_critical_threshold cfg <= s)
        /\ (bucket_of cfg s = high
            <-> s < risk_critical_threshold cfg /\ risk_high_threshold cfg <= s)
        /\ (bucket_of cfg s = medium
            <-> s < risk_critical_threshold cfg /\ s < risk_high_threshold cfg
                /\ risk_medium_threshold cfg <= s)
        /\ (bucket_of cfg s = low
            <-> s < risk_critical_threshold cfg /\ s < risk_high_threshold cfg
                /\ s < risk_medium_threshold cfg))
  /\ (forall f g : finding, risk_score f = risk_score g ->
        bucket_of cfg (risk_score f) = bucket_of cfg (risk_score g)).
Proof.
  intros Hrun.
  assert (Htab := all_findings_table _ _ _ _ _ Hrun).
  destruct (analyze_all_ok _ _ _ _ _ Hrun) as [resr [_ [_ [Hst _]]]].
  assert (Hin : forall b srt f, In f (filter (in_bucket cfg b) srt) ->
                  bucket_of cfg (risk_score f) = b).
  { intros b srt f Hf. apply filter_In in Hf. destruct Hf as [_ Hf].
    unfold in_bucket in Hf.
    destruct (bucket_of cfg (risk_score f)), b; simpl in Hf; congruence. }
  split; [|split; [|split; [|split]]].
  - intros f Hf. destruct (in_table_cases (Htab f Hf)) as [[Hs Hb]|[Hs Hb]];
      split; intros; try assumption; try lia; congruence.
  - intros Hthr f Hf. destruct (in_table_cases (Htab f Hf)) as [[Hs Hb]|[Hs Hb]];
      split; intros; try assumption; try lia; congruence.
  - rewrite categorize_filter in Hst.
    set (srt := sort_desc risk_score (all_findings out)) in *.
    exists (filter (in_bucket cfg critical) srt), (filter (in_bucket cfg high) srt),
           (filter (in_bucket cfg medium) srt), (filter (in_bucket cfg low) srt).
    subst st'. cbn [rs_critical rs_high rs_medium rs_low].
    split; [reflexivity|]. split; [reflexivity|]. split; [reflexivity|].
    split; [reflexivity|]. split.
    { eapply Permutation_trans; [apply Permutation_sym, sort_desc_perm|].
      apply bucket_partition. }
    split.
    { apply Forall_forall. intros f Hf.
      apply (proj1 (bucket_of_ranges cfg (risk_score f))). exact (Hin _ _ _ Hf). }
    split.
    { apply Forall_forall. intros f Hf.
      apply (proj1 (proj2 (bucket_of_ranges cfg (risk_score f)))). exact (Hin _ _ _ Hf). }
    split.
    { apply Forall_forall. intros f Hf.
      apply (proj1 (proj2 (proj2 (bucket_of_ranges cfg (risk_score f))))).
      exact (Hin _ _ _ Hf). }
    split.
    { apply Forall_forall. intros f Hf.
      apply (proj2 (proj2 (proj2 (bucket_of_ranges cfg (risk_score f))))).
      exact (Hin _ _ _ Hf). }
    repeat split; apply Forall_forall; intros f Hf; exact (Hin _ _ _ Hf).
  - intros s. apply bucket_of_ranges.
  - intros f g ->. reflexivity.
Qed.

Lemma C2_severity_and_buckets_witness :
  exists out st',
    analyze_all default_settings "t" Examples.role_and_users
                Examples.public_behind_closed_sg init = (Ok out, st')
    /\ (forall f, In f (all_findings out) ->
          (f_severity f = critical <-> 90 <= risk_score f))
    /\ Permutation (all_findings out)
         (rs_critical st' ++ rs_high st' ++ rs_medium st' ++ rs_low st')
    /\ Forall (fun f => risk_score f < 90 /\ 70 <= risk_score f) (rs_high st')
    /\ map risk_score (rs_critical st') = [90]
    /\ map risk_score (rs_high st') = [80; 75]
    /\ rs_medium st' = [] /\ rs_low st' = [].
Proof.
  eexists. eexists. split; [reflexivity|].
  destruct (@C2_severity_and_buckets default_settings "t" Examples.role_and_users
              Examples.public_behind_closed_sg init _ _ eq_refl)
    as [H1 [_ [[c [h [m [l [Hc [Hh [Hm [Hl [Hp [_ [Hhr _]]]]]]]]]]] _]]].
  split; [exact H1|]. split.
  - rewrite Hc, Hh, Hm, Hl. exact Hp.
  - split.
    + rewrite Hh. exact Hhr.
    + repeat split; reflexivity.
Defined.

Lemma find_none_iff {A : Type} (p : A -> bool) (l : list A) :
  find p l = None <-> forall a, In a l -> p a = false.
Proof.
  split.
  - intros H a Ha. eapply find_none; eassumption.
  - induction l as [|a l IH]; simpl; intros H; [reflexivity|].
    rewrite (H a (or_introl eq_refl)). apply IH. intros b Hb. apply H. now right.
Qed.

Lemma arn_is_true (a : string) (o : option string) : arn_is a o = true <-> o = Some a.
Proof.
  destruct o as [x|]; simpl; [|split; discriminate].
  rewrite String.eqb_eq. split; congruence.
Qed.

Lemma arn_is_false (a : string) (o : option string) : arn_is a o = false <-> o <> Some a.
Proof.
  rewrite <- arn_is_true. destruct (arn_is a o); split; congruence.
Qed.

(** C4.  An ARN that is the arn of no role and of no user gives the empty
    result (no affected resources, no permissions, score 0), as a value;
    an ARN that some role carries is resolved to a role carrying it, whatever
    the users are. *)
Theorem C4_blast_radius_lookup arn iam res :
  ((forall r, In r (roles iam) -> role_arn r <> Some arn) ->
   (forall u, In u (users iam) -> user_arn u <> Some arn) ->
   calculate_blast_radius arn iam res
   = {| identity_arn := arn; affected_resources := [];
        permissions := []; br_risk_score := 0 |})
  /\ (forall r, In r (roles iam) -> role_arn r = Some arn ->
      exists r0,
        find (fun r => arn_is arn (role_arn r)) (roles iam) = Some r0
        /\ In r0 (roles iam) /\ role_arn r0 = Some arn
        /\ affected_resources (calculate_blast_radius arn iam res)
           = role_affected (role_name r0) res
        /\ permissions (calculate_blast_radius arn iam res)
           = role_attached_policies r0).
Proof.
  split.
  - intros Hr Hu. unfold calculate_blast_radius, find_identity.
    replace (find (fun r => arn_is arn (role_arn r)) (roles iam)) with (@None role).
    + replace (find (fun u => arn_is arn (user_arn u)) (users iam)) with (@None user).
      * reflexivity.
      * symmetry. apply find_none_iff. intros u Hin. apply arn_is_false. auto.
    + symmetry. apply find_none_iff. intros r Hin. apply arn_is_false. auto.
  - intros r Hin Harn. unfold calculate_blast_radius, find_identity.
    destruct (find (fun r => arn_is arn (role_arn r)) (roles iam)) as [r0|] eqn:Hfind.
    + exists r0. apply find_some in Hfind as Hsome. destruct Hsome as [Hin0 Harn0].
      apply arn_is_true in Harn0. repeat split; auto.
    + exfalso. rewrite find_none_iff in Hfind. specialize (Hfind r Hin).
      apply arn_is_false in Hfind. contradiction.
Qed.

Lemma C4_blast_radius_lookup_witness :
  calculate_blast_radius "arn:aws:iam::1:user/nobody" Examples.role_and_users
                         Examples.no_resources
  = {| identity_arn := "arn:aws:iam::1:user/nobody"; affected_resources := [];
       permissions := []; br_risk_score := 0 |}
  /\ permissions (calculate_blast_radius "arn:aws:iam::1:role/ops"
                    Examples.role_and_users Examples.no_resources)
     = role_attached_policies Examples.admin_role.
Proof.
  split.
  - apply (proj1 (C4_blast_radius_lookup "arn:aws:iam::1:user/nobody"
                    Examples.role_and_users Examples.no_resources)).
    + intros r [<-|[]]. discriminate.
    + intros u [<-|[<-|[]]]; discriminate.
  - destruct (proj2 (C4_blast_radius_lookup "arn:aws:iam::1:role/ops"
                       Examples.role_and_users Examples.no_resources)
                    Examples.admin_role (or_introl eq_refl) eq_refl)
      as [r0 [Hfind [_ [_ [_ Hperm]]]]].
    simpl in Hfind. injection Hfind as <-. exact Hperm.
Defined.

Lemma blast_score_bounds (affected : list affected_resource) (perms : list policy) :
  0 <= blast_score affected perms <= 100.
Proof.
  unfold blast_score.
  pose proof (len_nonneg affected). pose proof (len_nonneg perms).
  pose proof (count_if_bounds affected_is_public affected). lia.
Qed.

(** C9.  For an identity resolved to a role (the first role record that
    carries the arn), the blast-radius score is min(100, resources*10 +
    policies*5 + public resources*20), where the resources are the
    instances whose profile and the functions whose role equal the role's
    name, the policies are the role's attached policies and the public
    resources are the public ones among those instances; for an identity
    resolved to a user (no role carries the arn) it is min(100,
    policies*5) of the user's attached policies.  The score of every
    result and of every finding lies in [0, 100]. *)
Theorem C9_scores_clamped :
  (forall arn iam res,
      let b := calculate_blast_radius arn iam res in
      br_risk_score b
      = Z.min 100 (len (affected_resources b) * 10 + len (permissions b) * 5
                   + count_if affected_is_public (affected_resources b) * 20)
      /\ 0 <= br_risk_score b <= 100)
  /\ (forall arn iam res pre r post,
        roles iam = pre ++ r :: post ->
        role_arn r = Some arn ->
        (forall r', In r' pre -> role_arn r' <> Some arn) ->
        let instances :=
          filter (fun i => match iam_instance_profile i with
                           | Some p => (p =? role_name r)%string
                           | None => false
                           end) (ec2_instances res) in
        let functions :=
          filter (fun f => match lambda_role f with
                           | Some p => (p =? role_name r)%string
                           | None => false
                           end) (lambda_functions res) in
        let b := calculate_blast_radius arn iam res in
        br_risk_score b
        = Z.min 100 ((len instances + len functions) * 10
                     + len (role_attached_policies r) * 5
                     + count_if ec2_is_public instances * 20)
        /\ len (affected_resources b) = len instances + len functions
        /\ permissions b = role_attached_policies r)
  /\ (forall arn iam res pre u post,
        (forall r, In r (roles iam) -> role_arn r <> Some arn) ->
        users iam = pre ++ u :: post ->
        user_arn u = Some arn ->
        (forall u', In u' pre -> user_arn u' <> Some arn) ->
        let b := calculate_blast_radius arn iam res in
        br_risk_score b = Z.min 100 (len (user_attached_policies u) * 5)
        /\ affected_resources b = []
        /\ permissions b = user_attached_policies u)
  /\ (forall cfg now iam res st out st',
        analyze_all cfg now iam res st = (Ok out, st') ->
        forall f, In f (all_findings out) -> 0 <= risk_score f <= 100).
Proof.
  assert (Hfind : forall (A : Type) (p : A -> bool) (pre : list A) (x : A) (post : list A),
            p x = true -> (forall y, In y pre -> p y = false) ->
            find p (pre ++ x :: post) = Some x).
  { intros A p pre x post Hx. induction pre as [|y pre IH]; intros Hpre; simpl.
    - now rewrite Hx.
    - rewrite (Hpre y (or_introl eq_refl)). apply IH. intros z Hz. apply Hpre. now right. }
  assert (Harn : forall arn o, arn_is arn o = true <-> o = Some arn).
  { intros arn [x|]; simpl; [|split; discriminate].
    rewrite String.eqb_eq. split; congruence. }
  assert (Hnarn : forall arn o, o <> Some arn -> arn_is arn o = false).
  { intros arn o Hne. destruct (arn_is arn o) eqn:E; [|reflexivity].
    apply Harn in E. contradiction. }
  split; [|split; [|split]].
  - intros arn iam res. unfold calculate_blast_radius.
    destruct (find_identity arn iam) as [[r|u]|]; simpl.
    + split; [reflexivity | apply blast_score_bounds].
    + split; [reflexivity | apply blast_score_bounds].
    + split; [reflexivity | lia].
  - intros arn iam res pre r post Hroles Hr Hpre. cbv zeta.
    unfold calculate_blast_radius, find_identity. rewrite Hroles.
    rewrite (@Hfind _ (fun r0 => arn_is arn (role_arn r0)) pre r post).
    2:{ now apply Harn. }
    2:{ intros y Hy. apply Hnarn. now apply Hpre. }
    cbn [br_risk_score affected_resources permissions].
    unfold blast_score, role_affected, count_if, len.
    rewrite filter_app, !length_app, !length_map.
    set (pi := fun i : ec2_instance => match iam_instance_profile i with
                                       | Some p => (p =? role_name r)%string
                                       | None => false
                                       end).
    set (pf := fun f : lambda_function => match lambda_role f with
                                          | Some p => (p =? role_name r)%string
                                          | None => false
                                          end).
    assert (He : List.length (filter affected_is_public
                   (map (fun i => AffectedEc2 (instance_id i) (ec2_name i) (ec2_is_public i))
                        (filter pi (ec2_instances res))))
                 = List.length (filter ec2_is_public (filter pi (ec2_instances res)))).
    { induction (filter pi (ec2_instances res)) as [|i l IH]; [reflexivity|].
      cbn [map filter affected_is_public]. destruct (ec2_is_public i); simpl; now rewrite IH. }
    assert (Hl : filter affected_is_public
                   (map (fun f => AffectedLambda (function_name f) (is_in_vpc f))
                        (filter pf (lambda_functions res))) = []).
    { induction (filter pf (lambda_functions res)) as [|f l IH]; [reflexivity|].
      cbn [map filter affected_is_public]. exact IH. }
    rewrite He, Hl. cbn [List.length]. rewrite Nat.add_0_r.
    split; [|split; [|reflexivity]].
    + f_equal. lia.
    + lia.
  - intros arn iam res pre u post Hnone Husers Hu Hpre. cbv zeta.
    unfold calculate_blast_radius, find_identity.
    replace (find (fun r => arn_is arn (role_arn r)) (roles iam)) with (@None role).
    2:{ symmetry. apply find_none_iff. intros r Hin. apply Hnarn. now apply Hnone. }
    rewrite Husers.
    rewrite (@Hfind _ (fun u0 => arn_is arn (user_arn u0)) pre u post).
    2:{ now apply Harn. }
    2:{ intros y Hy. apply Hnarn. now apply Hpre. }
    cbn [br_risk_score affected_resources permissions].
    unfold blast_score, count_if, len. cbn [filter List.length].
    split; [|split; reflexivity]. f_equal. lia.
  - intros cfg now iam res st out st' Hrun f Hf.
    destruct (in_table_cases (all_findings_table _ _ _ _ _ Hrun f Hf))
      as [[_ Hb]|[_ Hb]]; lia.
Qed.

Lemma C9_scores_clamped_witness :
  br_risk_score (calculate_blast_radius "arn:aws:iam::1:role/ops"
                   Examples.role_and_users Examples.ops_resources) = 45
  /\ br_risk_score (calculate_blast_radius "arn:aws:iam::1:user/alice"
                      Examples.role_and_users Examples.ops_resources) = 0
  /\ exists out st',
       analyze_all default_settings "t" Examples.role_and_users
                   Examples.public_behind_closed_sg init = (Ok out, st')
       /\ forall f, In f (all_findings out) -> 0 <= risk_score f <= 100.
Proof.
  split; [|split].
  - exact (proj1 (proj1 (proj2 C9_scores_clamped)
             "arn:aws:iam::1:role/ops" Examples.role_and_users Examples.ops_resources
             [] Examples.admin_role [] eq_refl eq_refl (fun r' (H : In r' []) => match H with end))).
  - refine (proj1 (proj1 (proj2 (proj2 C9_scores_clamped))
             "arn:aws:iam::1:user/alice" Examples.role_and_users Examples.ops_resources
             [Examples.shadow_user] Examples.alice [] _ eq_refl eq_refl _)).
    + intros r [<-|[]]. discriminate.
    + intros u' [<-|[]]. discriminate.
  - eexists. eexists. split; [reflexivity|].
    exact (proj2 (proj2 (proj2 C9_scores_clamped)) default_settings "t"
             Examples.role_and_users Examples.public_behind_closed_sg init _ _ eq_refl).
Defined.

End RiskAnalyzerClaims.

(** ** Dicts *)

Section DictFacts.
Variable V : Type.
Implicit Types (d : dict V) (k : string).

Lemma dict_get_set_eq k (v : V) d : dict_get k (dict_set k v d) = Some v.
Proof.
  induction d as [|[k' v'] d IH]; simpl.
  - now rewrite String.eqb_refl.
  - destruct (k' =? k)%string eqn:E; simpl.
    + now rewrite String.eqb_refl.
    + now rewrite E.
Qed.

Lemma dict_get_set_neq k k' (v : V) d :
  k' <> k -> dict_get k' (dict_set k v d) = dict_get k' d.
Proof.
  intros Hne. induction d as [|[k0 v0] d IH]; simpl.
  - apply String.eqb_neq in Hne. rewrite String.eqb_sym. now rewrite Hne.
  - destruct (k0 =? k)%string eqn:E; simpl.
    + apply String.eqb_eq in E. subst k0.
      apply String.eqb_neq in Hne. rewrite String.eqb_sym in Hne. now rewrite !Hne.
    + destruct (k0 =? k')%string; auto.
Qed.

Lemma dict_get_modify_eq k (f : V -> V) d :
  dict_get k (dict_modify k f d) = option_map f (dict_get k d).
Proof.
  induction d as [|[k' v'] d IH]; simpl; [reflexivity|].
  destruct (k' =? k)%string eqn:E; simpl; rewrite E; auto.
Qed.

Lemma dict_get_modify_neq k k' (f : V -> V) d :
  k' <> k -> dict_get k' (dict_modify k f d) = dict_get k' d.
Proof.
  intros Hne. induction d as [|[k0 v0] d IH]; simpl; [reflexivity|].
  destruct (k0 =? k)%string eqn:E; simpl.
  - apply String.eqb_eq in E. subst k0.
    apply String.eqb_neq in Hne. rewrite String.eqb_sym in Hne. now rewrite Hne.
  - destruct (k0 =? k')%string; auto.
Qed.

End DictFacts.

(** ** The access-path query *)

Module AccessPathFacts.
Import AccessPath PathSpec.

(** *** The adjacency dict lists, per source, the edges in edge order *)

Lemma neighbors_step adjacency e u :
  neighbors (adjacency_step adjacency e) u
  = neighbors adjacency u
    ++ (if (e_source e =? u)%string then [(e_target e, e_type e)] else []).
Proof.
  unfold neighbors, adjacency_step, neighbor in *.
  destruct (e_source e =? u)%string eqn:E.
  - apply String.eqb_eq in E. subst u.
    rewrite dict_get_modify_eq. unfold dict_mem.
    destruct (dict_get (e_source e) adjacency) as [l|] eqn:G; simpl.
    + rewrite ?G. reflexivity.
    + now rewrite dict_get_set_eq.
  - apply String.eqb_neq in E.
    rewrite dict_get_modify_neq by congruence.
    destruct (negb (dict_mem (e_source e) adjacency)).
    + rewrite dict_get_set_neq by congruence. now rewrite app_nil_r.
    + now rewrite app_nil_r.
Qed.

Lemma neighbors_fold es adjacency u :
  neighbors (fold_left adjacency_step es adjacency) u
  = neighbors adjacency u
    ++ map (fun e => (e_target e, e_type e))
           (filter (fun e => (e_source e =? u)%string) es).
Proof.
  revert adjacency. induction es as [|e es IH]; intros adjacency; simpl.
  - now rewrite app_nil_r.
  - rewrite IH, neighbors_step. rewrite <- app_assoc. f_equal.
    destruct (e_source e =? u)%string; reflexivity.
Qed.

Lemma neighbors_adjacency es u :
  map fst (neighbors (build_adjacency es) u) = successors es u.
Proof.
  unfold build_adjacency.
  change (fold_left _ es []) with (fold_left adjacency_step es []).
  rewrite neighbors_fold. unfold neighbors at 1. simpl.
  unfold successors. rewrite map_map. reflexivity.
Qed.

End AccessPathFacts.

Module BfsFacts.
Import AccessPath PathSpec AccessPathFacts.

Local Open Scope nat_scope.
Local Open Scope string_scope.
Local Open Scope list_scope.

(** *** Rank sequences *)

Lemma lex_lt_trans (k1 k2 k3 : list nat) :
  lex_lt k1 k2 -> lex_lt k2 k3 -> lex_lt k1 k3.
Proof.
  revert k2 k3. induction k1 as [|a k1 IH]; intros [|b k2] [|c k3]; simpl; try tauto.
  intros [H1|[-> H1]] [H2|[-> H2]]; try (left; lia).
  right. split; [reflexivity | eauto].
Qed.

Lemma lex_lt_snoc (k1 k2 : list nat) (a b : nat) :
  List.length k1 = List.length k2 -> lex_lt k1 k2 -> lex_lt (k1 ++ [a]) (k2 ++ [b]).
Proof.
  revert k2. induction k1 as [|x k1 IH]; intros [|y k2]; simpl; try discriminate; try tauto.
  intros Hlen [H|[-> H]]; [now left|].
  right. split; [reflexivity|]. apply IH; [lia | assumption].
Qed.

Lemma lex_lt_snoc_same (k : list nat) (a b : nat) :
  (a < b)%nat -> lex_lt (k ++ [a]) (k ++ [b]).
Proof.
  intros Hab. induction k as [|x k IH]; simpl; [now left | now right].
Qed.

Lemma index_of_inj (x y : string) (l : list string) :
  In x l -> index_of x l = index_of y l -> x = y.
Proof.
  induction l as [|z l IH]; simpl; [tauto|].
  intros Hin.
  destruct (z =? x) eqn:Ex; destruct (z =? y) eqn:Ey; try discriminate.
  - apply String.eqb_eq in Ex, Ey. congruence.
  - intros H. injection H as H. apply IH; [|assumption].
    destruct Hin as [->|Hin]; [|assumption].
    rewrite String.eqb_refl in Ex. discriminate.
Qed.

Section Ranks.
Variable es : list edge.

Lemma ranks_snoc (p : list string) (v : string) :
  p <> [] -> ranks es (p ++ [v]) = ranks es p ++ [edge_rank es (last p EmptyString) v].
Proof.
  induction p as [|a p IH]; [congruence|]. intros _.
  destruct p as [|b p].
  - reflexivity.
  - change (ranks es ((a :: b :: p) ++ [v]))
      with (edge_rank es a b :: ranks es ((b :: p) ++ [v])).
    rewrite IH by discriminate. reflexivity.
Qed.

Lemma ranks_length (p : list string) : List.length (ranks es p) = hops p.
Proof.
  unfold hops. induction p as [|a p IH]; [reflexivity|].
  destruct p as [|b p]; [reflexivity|].
  change (ranks es (a :: b :: p)) with (edge_rank es a b :: ranks es (b :: p)).
  cbn [List.length Nat.pred] in *. rewrite IH. reflexivity.
Qed.

Variable s : string.

Lemma walk_last (v : string) (p : list string) :
  walk es s v p -> p <> [] /\ last p EmptyString = v.
Proof.
  intros H. destruct H as [|u v p H He].
  - split; [discriminate | reflexivity].
  - split; [now destruct p | apply last_last].
Qed.

Lemma walk_length (v : string) (p : list string) :
  walk es s v p -> (1 <= List.length p)%nat.
Proof.
  intros H. apply walk_last in H. destruct H as [H _].
  destruct p; [congruence | simpl; lia].
Qed.

Lemma ranks_inj (u u' : string) (p q : list string) :
  walk es s u p -> walk es s u' q -> ranks es p = ranks es q -> p = q.
Proof.
  intros Hp. revert u' q. induction Hp as [|u v p Hp IH He]; intros u' q Hq Heq.
  - destruct Hq as [|u1 v1 q Hq He1]; [reflexivity|].
    exfalso. rewrite ranks_snoc in Heq by (apply (walk_last Hq)).
    simpl in Heq. destruct (ranks es q); discriminate.
  - destruct Hq as [|u1 v1 q Hq He1].
    + exfalso. rewrite ranks_snoc in Heq by (apply (walk_last Hp)).
      simpl in Heq. destruct (ranks es p); discriminate.
    + rewrite !ranks_snoc in Heq by (apply (walk_last Hp) || apply (walk_last Hq)).
      apply app_inj_tail in Heq. destruct Heq as [Hr Hlast].
      specialize (IH _ _ Hq Hr). subst q.
      assert (u1 = u).
      { apply walk_last in Hp, Hq. destruct Hp as [_ Hp], Hq as [_ Hq]. congruence. }
      subst u1. f_equal. f_equal.
      apply walk_last in Hp. destruct Hp as [_ Hp]. rewrite Hp in Hlast.
      unfold edge_rank in Hlast. eapply index_of_inj; [exact He | exact Hlast].
Qed.

Lemma path_lt_le (p q : list string) : path_lt es p q -> path_le es p q.
Proof. intros [H|[H1 H2]]; [now left | right; split; [assumption | now left]]. Qed.

Lemma path_le_length (p q : list string) :
  path_le es p q -> (List.length p <= List.length q)%nat.
Proof. intros [H|[H _]]; lia. Qed.

Lemma path_lt_length (p q : list string) :
  path_lt es p q -> (List.length p <= List.length q)%nat.
Proof. intros [H|[H _]]; lia. Qed.

Lemma path_lt_le_trans (p q r : list string) :
  path_lt es p q -> path_le es q r -> path_lt es p r.
Proof.
  intros [H1|[H1 L1]] [H2|[H2 L2]]; try (left; lia).
  right. split; [lia|]. destruct L2 as [L2|L2].
  - eapply lex_lt_trans; eassumption.
  - now rewrite <- L2.
Qed.

Lemma path_le_refl (p : list string) : path_le es p p.
Proof. right. split; [reflexivity | now right]. Qed.

End Ranks.

(** *** The neighbour loop *)

Lemma explore_spec nbrs path queue visited :
  explore nbrs path queue visited
  = (queue ++ map (fun n => (n, path ++ [n])) (fresh (map fst nbrs) visited),
     rev (fresh (map fst nbrs) visited) ++ visited).
Proof.
  revert queue visited. induction nbrs as [|[n ty] nbrs IH]; intros queue visited; simpl.
  - now rewrite app_nil_r.
  - destruct (str_in n visited); simpl.
    + apply IH.
    + rewrite IH. rewrite <- !app_assoc. reflexivity.
Qed.

Lemma fresh_In l visited n :
  In n (fresh l visited) -> In n l /\ ~ In n visited.
Proof.
  revert visited. induction l as [|x l IH]; intros visited; simpl; [tauto|].
  destruct (str_in x visited) eqn:E.
  - intros H. apply IH in H. tauto.
  - apply str_in_not_In in E. intros [->|H]; [tauto|].
    apply IH in H. simpl in H. tauto.
Qed.

Lemma fresh_complete l visited n :
  In n l -> In n visited \/ In n (fresh l visited).
Proof.
  revert visited. induction l as [|x l IH]; intros visited; simpl; [tauto|].
  destruct (str_in x visited) eqn:E.
  - apply str_in_In in E. intros [->|H]; [now left | now apply IH].
  - intros [->|H]; [right; now left|].
    destruct (IH (x :: visited) H) as [[->|H']|H']; simpl; auto.
Qed.

Lemma fresh_sorted l visited :
  StronglySorted (fun a b => (index_of a l < index_of b l)%nat) (fresh l visited).
Proof.
  revert visited. induction l as [|x l IH]; intros visited; simpl; [constructor|].
  assert (Hshift : forall V,
    (forall a, In a (fresh l V) -> a <> x) ->
    StronglySorted
      (fun a b => ((if (x =? a)%string then 0 else S (index_of a l))
                   < (if (x =? b)%string then 0 else S (index_of b l)))%nat) (fresh l V)).
  { intros V Hne. specialize (IH V). revert Hne.
    induction IH as [|a rest Hs IHs Hall]; intros Hne; constructor.
    - apply IHs. intros b Hb. apply Hne. now right.
    - rewrite Forall_forall in *. intros b Hb.
      assert (Ha : (x =? a) = false) by (apply String.eqb_neq; intros ->; now apply (Hne a); [left|]).
      assert (Hb' : (x =? b) = false) by (apply String.eqb_neq; intros ->; now apply (Hne b); [right|]).
      rewrite Ha, Hb'. specialize (Hall b Hb). lia. }
  destruct (str_in x visited) eqn:E.
  - apply Hshift. intros a Ha ->. apply fresh_In in Ha. apply str_in_In in E. tauto.
  - constructor.
    + apply Hshift. intros a Ha ->. apply fresh_In in Ha. simpl in Ha. tauto.
    + rewrite Forall_forall. intros b Hb. rewrite String.eqb_refl.
      assert (Hb' : (x =? b) = false).
      { apply String.eqb_neq. intros ->. apply fresh_In in Hb. simpl in Hb. tauto. }
      rewrite Hb'. lia.
Qed.

(** *** The search loop *)

Section Search.
Variable es : list edge.
Variable s t : string.

Lemma bfs_inv_init : bfs_inv es s t [(s, [s])] [s].
Proof.
  constructor.
  - now left.
  - intros n p [H|[]]. injection H as <- <-.
    split; [now left|]. split; [constructor|].
    split; [repeat constructor; simpl; tauto|].
    split; [intros x Hx; exact Hx|].
    intros q Hq. destruct Hq as [|u v q Hq He].
    + apply path_le_refl.
    + left. rewrite length_app. pose proof (walk_length Hq). simpl. lia.
  - repeat constructor.
  - intros h queue' H e He. injection H as <- <-. contradiction.
  - intros v [<-|[]]. left. exists [s]. now left.
Qed.

(** Every node that a walk no longer than the queued paths reaches has
    been visited. *)
Lemma visited_below queue visited :
  bfs_inv es s t queue visited ->
  forall v q, walk es s v q ->
    (forall e, In e queue -> (List.length q <= List.length (snd e))%nat) ->
    In v visited.
Proof.
  intros Hinv v q Hq. induction Hq as [|u v q Hq IH He]; intros Hbound.
  - apply (inv_source Hinv).
  - assert (Hu : In u visited).
    { apply IH. intros e Hin. specialize (Hbound e Hin).
      rewrite length_app in Hbound. simpl in Hbound. lia. }
    destruct (inv_closed Hinv u Hu) as [[p Hp]|[_ Hsucc]].
    + exfalso. destruct (inv_entries Hinv _ _ Hp) as [_ [_ [_ [_ Hmin]]]].
      specialize (Hmin q Hq). apply path_le_length in Hmin.
      specialize (Hbound _ Hp). rewrite length_app in Hbound. simpl in Hbound. lia.
    + now apply Hsucc.
Qed.

Lemma head_shortest h queue' visited :
  bfs_inv es s t (h :: queue') visited ->
  forall e, In e (h :: queue') -> (List.length (snd h) <= List.length (snd e))%nat.
Proof.
  intros Hinv e [<-|He]; [lia|].
  pose proof (inv_sorted Hinv) as Hs. apply StronglySorted_inv in Hs.
  destruct Hs as [_ Hall]. rewrite Forall_forall in Hall.
  apply path_lt_length with (es := es). apply (Hall e He).
Qed.

Lemma sorted_app (A : Type) (R : A -> A -> Prop) (l1 l2 : list A) :
  StronglySorted R l1 -> StronglySorted R l2 ->
  (forall a b, In a l1 -> In b l2 -> R a b) ->
  StronglySorted R (l1 ++ l2).
Proof.
  intros H1 H2 Hcross. induction H1 as [|a l1 Hs IH Hall]; simpl; [assumption|].
  constructor.
  - apply IH. intros x y Hx Hy. apply Hcross; [now right | assumption].
  - rewrite Forall_forall in *. intros x Hx. apply in_app_iff in Hx.
    destruct Hx as [Hx|Hx]; [now apply Hall | apply Hcross; [now left | assumption]].
Qed.

(** One iteration that does not hit the target keeps the invariant. *)
Lemma bfs_inv_step u pu queue' visited :
  bfs_inv es s t ((u, pu) :: queue') visited ->
  u <> t ->
  let news := fresh (successors es u) visited in
  bfs_inv es s t (queue' ++ map (fun n => (n, pu ++ [n])) news) (rev news ++ visited).
Proof.
  intros Hinv Hut news.
  destruct (inv_entries Hinv u pu (or_introl eq_refl))
    as [Huv [Hwu [Hndu [Hinclu Hminu]]]].
  pose proof (walk_last Hwu) as [Hpu_ne Hpu_last].
  assert (Hnew : forall n, In n news -> has_edge es u n /\ ~ In n visited).
  { intros n Hn. apply fresh_In in Hn. exact Hn. }
  assert (Hsub : forall x, In x visited -> In x (rev news ++ visited)).
  { intros x Hx. apply in_app_iff. now right. }
  assert (Htail : StronglySorted (entry_lt es) queue'
                  /\ Forall (entry_lt es (u, pu)) queue').
  { pose proof (inv_sorted Hinv) as Hs. apply StronglySorted_inv in Hs. exact Hs. }
  destruct Htail as [Hsorted' Hhead].
  rewrite Forall_forall in Hhead.
  (* the shape of the old entries relative to the head that is leaving *)
  assert (Hshape : forall e, In e queue' ->
            List.length (snd e) = List.length pu
            \/ exists pp x, snd e = pp ++ [x] /\ List.length pp = List.length pu
                            /\ lex_lt (ranks es pp) (ranks es pu)).
  { intros e He. exact (inv_shape Hinv eq_refl e He). }
  (* new paths are minimal *)
  assert (Hmin_new : forall n, In n news ->
            forall q, walk es s n q -> path_le es (pu ++ [n]) q).
  { intros n Hn q Hq. destruct (Hnew n Hn) as [Hen Hnv].
    destruct Hq as [|u' n q' Hq' He'].
    { exfalso. apply Hnv. apply (inv_source Hinv). }
    destruct (Nat.lt_ge_cases (List.length pu) (List.length q')) as [Hlt|Hge].
    { left. rewrite !length_app. simpl. lia. }
    assert (Hu'v : In u' visited).
    { eapply visited_below; [exact Hinv | exact Hq' |].
      intros e He. pose proof (head_shortest Hinv He) as Hh. simpl in Hh. lia. }
    destruct (inv_closed Hinv u' Hu'v) as [[p' Hp']|[_ Hsucc]];
      [|exfalso; apply Hnv; now apply Hsucc].
    destruct (inv_entries Hinv _ _ Hp') as [_ [Hwp' [_ [_ Hminp']]]].
    assert (Hle : path_le es pu q').
    { destruct Hp' as [Heq|Hin].
      - injection Heq as <- <-. now apply Hminu.
      - apply path_lt_le. eapply path_lt_le_trans; [apply (Hhead _ Hin) | now apply Hminp']. }
    destruct Hle as [Hlen|[Hlen [Hlex|Heq]]]; [lia| |].
    - right. split; [rewrite !length_app; simpl; lia|]. left.
      pose proof (walk_last Hq') as [Hq'_ne _].
      rewrite !ranks_snoc by assumption.
      apply lex_lt_snoc; [rewrite !ranks_length; unfold hops; lia | assumption].
    - assert (pu = q') by (eapply ranks_inj; eassumption). subst q'.
      apply path_le_refl. }
  constructor.
  - apply Hsub, (inv_source Hinv).
  - intros n p Hin. apply in_app_iff in Hin. destruct Hin as [Hin|Hin].
    + destruct (inv_entries Hinv n p (or_intror Hin)) as [H1 [H2 [H3 [H4 H5]]]].
      repeat split; auto. intros x Hx. apply Hsub, H4, Hx.
    + apply in_map_iff in Hin. destruct Hin as [n' [Heq Hn']].
      injection Heq as <- <-. destruct (Hnew _ Hn') as [Hen Hnv].
      split; [apply in_app_iff; left; now apply in_rev in Hn'|].
      split; [econstructor; eassumption|].
      split.
      { apply NoDup_app; [assumption | repeat constructor; simpl; tauto |].
        intros x Hx [<-|[]]. auto. }
      split.
      { intros x Hx. apply in_app_iff in Hx. destruct Hx as [Hx|[<-|[]]].
        - apply Hsub, Hinclu, Hx.
        - apply in_app_iff. left. now apply in_rev in Hn'. }
      now apply Hmin_new.
  - apply sorted_app.
    + exact Hsorted'.
    + pose proof (fresh_sorted (successors es u) visited) as Hfs.
      fold news in Hfs. clear - Hfs Hpu_ne Hpu_last.
      induction Hfs as [|a rest Hs IH Hall]; simpl; constructor; [assumption|].
      rewrite Forall_forall in *. intros e He. apply in_map_iff in He.
      destruct He as [b [<- Hb]]. right. simpl.
      split; [rewrite !length_app; reflexivity|].
      rewrite !ranks_snoc by assumption. apply lex_lt_snoc_same.
      rewrite Hpu_last. apply (Hall b Hb).
    + intros e e' He He'. apply in_map_iff in He'. destruct He' as [n [<- Hn]].
      unfold entry_lt. simpl.
      destruct (Hshape e He) as [Hlen|[pp [x [Heq [Hlen Hlex]]]]].
      * left. rewrite length_app. simpl. lia.
      * right. rewrite Heq. split; [rewrite !length_app; simpl; lia|].
        assert (pp <> []) by (destruct pp; [destruct pu; simpl in *; congruence | discriminate]).
        rewrite !ranks_snoc by assumption.
        apply lex_lt_snoc; [rewrite !ranks_length; unfold hops; lia | assumption].
  - intros h rest Heq e He.
    assert (Hnewlen : forall e', In e' (map (fun n => (n, pu ++ [n])) news) ->
              List.length (snd e') = S (List.length pu)
              /\ exists x, snd e' = pu ++ [x]).
    { intros e' He'. apply in_map_iff in He'. destruct He' as [n [<- _]]. simpl.
      split; [rewrite length_app; simpl; lia | now exists n]. }
    destruct queue' as [|h' queue''].
    + (* the queue was a singleton: the new entries are all one level down *)
      simpl in Heq. left.
      destruct (Hnewlen h) as [Hh _]; [rewrite Heq; now left|].
      destruct (Hnewlen e) as [He' _]; [rewrite Heq; now right|]. lia.
    + simpl in Heq. injection Heq as Eh Er. subst h' rest.
      assert (Hh'lt : path_lt es pu (snd h)) by (apply (Hhead h); now left).
      destruct (Hshape h (or_introl eq_refl)) as [Hhlen|[pph [xh [Hheq [Hhlen Hhlex]]]]].
      * (* the next head is on the level of the old one *)
        assert (Hlexh : lex_lt (ranks es pu) (ranks es (snd h))).
        { destruct Hh'lt as [?|[_ ?]]; [lia | assumption]. }
        apply in_app_iff in He. destruct He as [He|He].
        -- destruct (Hshape e (or_intror He)) as [Hl|[pp [x [Hpe [Hl Hlex]]]]].
           ++ left. lia.
           ++ right. exists pp, x. split; [assumption|]. split; [lia|].
              eapply lex_lt_trans; eassumption.
        -- destruct (Hnewlen e He) as [_ [x Hx]].
           right. exists pu, x. split; [assumption|]. split; [lia | assumption].
      * (* the next head is one level down: so is everything behind it *)
        assert (Hhl : List.length (snd h) = S (List.length pu)).
        { rewrite Hheq, length_app. simpl. lia. }
        left. apply in_app_iff in He. destruct He as [He|He].
        -- assert (Hge : (List.length (snd h) <= List.length (snd e))%nat).
           { apply StronglySorted_inv in Hsorted'. destruct Hsorted' as [_ Hall].
             rewrite Forall_forall in Hall. apply path_lt_length with (es := es).
             apply (Hall e He). }
           destruct (Hshape e (or_intror He)) as [Hl|[pp [x [Hpe [Hl _]]]]]; [lia|].
           rewrite Hpe, length_app. simpl. lia.
        -- destruct (Hnewlen e He) as [Hl _]. lia.
  - intros v Hv. apply in_app_iff in Hv. destruct Hv as [Hv|Hv].
    + left. exists (pu ++ [v]). apply in_app_iff. right.
      apply in_map_iff. exists v. split; [reflexivity | now apply in_rev].
    + destruct (inv_closed Hinv v Hv) as [[p [Heq|Hin]]|[Hvt Hsucc]].
      * injection Heq as <- <-. right. split; [assumption|].
        intros w Hw. apply in_app_iff.
        destruct (fresh_complete (successors es u) visited w Hw) as [H|H];
          [now right | left; now apply in_rev in H].
      * left. exists p. apply in_app_iff. now left.
      * right. split; [assumption|]. intros w Hw. apply Hsub, Hsucc, Hw.
Qed.

End Search.

(** *** Termination *)

Section Termination.
Variable es : list edge.

Lemma filter_unvisited_cons (l : list string) (n : string) (visited : list string) :
  (List.length (filter (fun x => negb (str_in x (n :: visited))) l)
   <= List.length (filter (fun x => negb (str_in x visited)) l))%nat
  /\ (In n l -> ~ In n visited ->
      (S (List.length (filter (fun x => negb (str_in x (n :: visited))) l))
       <= List.length (filter (fun x => negb (str_in x visited)) l))%nat).
Proof.
  induction l as [|x l [IH1 IH2]]; [simpl; split; [lia | tauto]|].
  cbn [filter].
  change (str_in x (n :: visited)) with ((x =? n) || str_in x visited).
  destruct (str_in x visited) eqn:Ev.
  - rewrite orb_true_r. cbn [negb]. split; [assumption|].
    intros [->|Hin] Hnv; [|auto].
    apply str_in_In in Ev. contradiction.
  - rewrite orb_false_r. destruct (x =? n) eqn:En; cbn [negb List.length].
    + split; [lia|]. intros _ _. lia.
    + split; [lia|]. intros [->|Hin] Hnv.
      * rewrite String.eqb_refl in En. discriminate.
      * specialize (IH2 Hin Hnv). lia.
Qed.

Lemma fresh_measure (l visited : list string) :
  incl l (map e_target es) ->
  (List.length (fresh l visited) + unvisited es (rev (fresh l visited) ++ visited)
   <= unvisited es visited)%nat.
Proof.
  revert visited. induction l as [|x l IH]; intros visited Hincl; simpl; [lia|].
  assert (Hl : incl l (map e_target es)) by (intros y Hy; apply Hincl; now right).
  destruct (str_in x visited) eqn:E.
  - now apply IH.
  - apply str_in_not_In in E. simpl. rewrite <- app_assoc. simpl.
    specialize (IH (x :: visited) Hl).
    pose proof (proj2 (filter_unvisited_cons (map e_target es) x visited)
                  (Hincl x (or_introl eq_refl)) E) as Hdec.
    unfold unvisited in *. lia.
Qed.

Lemma successors_targets (u : string) : incl (successors es u) (map e_target es).
Proof.
  intros x Hx. unfold successors in Hx. apply in_map_iff in Hx.
  destruct Hx as [e [<- He]]. apply filter_In in He. apply in_map. tauto.
Qed.

Lemma bfs_fuel_enough (t : string) (fuel : nat) queue visited :
  (List.length queue + unvisited es visited < fuel)%nat ->
  bfs fuel (build_adjacency es) t queue visited <> OutOfFuel.
Proof.
  revert queue visited. induction fuel as [|fuel IH]; intros queue visited Hlt; [lia|].
  simpl. destruct queue as [|[u p] queue']; [discriminate|].
  destruct (u =? t); [discriminate|].
  rewrite explore_spec, neighbors_adjacency. apply IH.
  rewrite length_app, length_map.
  pose proof (fresh_measure visited (successors_targets u)). simpl in Hlt. lia.
Qed.

Lemma unvisited_le (visited : list string) : (unvisited es visited <= List.length es)%nat.
Proof.
  unfold unvisited. etransitivity; [apply filter_length_le|]. now rewrite length_map.
Qed.

End Termination.

(** *** What the loop returns *)

Lemma bfs_correct (es : list edge) (s t : string) (fuel : nat) queue visited :
  bfs_inv es s t queue visited ->
  match bfs fuel (build_adjacency es) t queue visited with
  | Reached p =>
      walk es s t p /\ NoDup p /\ forall q, walk es s t q -> path_le es p q
  | QueueEmpty => forall q, ~ walk es s t q
  | OutOfFuel => True
  end.
Proof.
  revert queue visited. induction fuel as [|fuel IH]; intros queue visited Hinv;
    simpl; [exact I|].
  destruct queue as [|[u p] queue'].
  - intros q Hq.
    assert (Ht : In t visited).
    { eapply visited_below; [exact Hinv | exact Hq | intros e []]. }
    destruct (inv_closed Hinv t Ht) as [[p []]|[Hne _]]. congruence.
  - destruct (u =? t) eqn:E.
    + apply String.eqb_eq in E. subst u.
      destruct (inv_entries Hinv t p (or_introl eq_refl)) as [_ [H1 [H2 [_ H3]]]].
      auto.
    + apply String.eqb_neq in E.
      rewrite explore_spec, neighbors_adjacency. apply IH.
      now apply bfs_inv_step.
Qed.

(** *** Path details: the stored nodes and their annotation *)

Section Details.
Variable es : list edge.

Lemma last_index_from_bounds (i : nat) (a : string) (l : list node) (j : nat) :
  last_index_from i a l = Some j ->
  (i <= j < i + List.length l)%nat /\ id (nth (j - i) l dflt) = a.
Proof.
  revert i. induction l as [|n l IH]; intros i; simpl; [discriminate|].
  destruct (last_index_from (S i) a l) as [k|] eqn:E.
  - intros H. injection H as <-. destruct (IH _ E) as [Hb Hid].
    split; [lia|]. destruct (k - i)%nat as [|m] eqn:Em; [lia|].
    replace m with (k - S i)%nat by lia. exact Hid.
  - destruct (id n =? a) eqn:En; [|discriminate].
    intros H. injection H as <-. apply String.eqb_eq in En.
    split; [lia|]. now rewrite Nat.sub_diag.
Qed.

Lemma node_index_some (store : list node) (a : string) (i : nat) :
  node_index store a = Some i ->
  (i < List.length store)%nat /\ id (nth i store dflt) = a.
Proof.
  unfold node_index. intros H. apply last_index_from_bounds in H.
  rewrite Nat.sub_0_r in H. destruct H as [H1 H2]. split; [lia | assumption].
Qed.

Lemma last_index_from_ids (i : nat) (a : string) (l l' : list node) :
  map id l = map id l' -> last_index_from i a l = last_index_from i a l'.
Proof.
  revert i l'. induction l as [|n l IH]; intros i [|n' l'] H; simpl in *;
    try discriminate; [reflexivity|].
  injection H as Hn Hl. rewrite (IH (S i) l' Hl), Hn. reflexivity.
Qed.

Lemma update_nth_ids (i : nat) (f : node -> node) (l : list node) :
  (forall n, id (f n) = id n) -> map id (update_nth i f l) = map id l.
Proof.
  intros Hf. revert i. induction l as [|n l IH]; intros [|i]; simpl;
    rewrite ?Hf, ?IH; reflexivity.
Qed.

Lemma nth_update_nth_eq (i : nat) (f : node -> node) (l : list node) :
  (i < List.length l)%nat -> nth i (update_nth i f l) dflt = f (nth i l dflt).
Proof.
  revert i. induction l as [|n l IH]; intros [|i] H; simpl in *; try lia.
  - reflexivity.
  - apply IH. lia.
Qed.

Lemma nth_update_nth_neq (i j : nat) (f : node -> node) (l : list node) :
  j <> i -> nth j (update_nth i f l) dflt = nth j l dflt.
Proof.
  revert i j. induction l as [|n l IH]; intros [|i] [|j] H; simpl; try reflexivity.
  - congruence.
  - apply IH. congruence.
Qed.

Lemma lookup_id (store : list node) (a : string) : id (lookup store a) = a.
Proof.
  unfold lookup, node_info. destruct (node_index store a) as [i|] eqn:E; simpl.
  - apply (node_index_some _ _ E).
  - reflexivity.
Qed.

Lemma lookup_ids (store store' : list node) (a : string) :
  map id store = map id store' -> node_index store a = node_index store' a.
Proof. apply last_index_from_ids. Qed.

(** Annotating the node of [a] changes what [a] resolves to and nothing
    else. *)
Lemma annotate_ref_spec (ty : string) (store : list node) (a : string) r store1 :
  annotate_ref ty (node_info store a) store = (r, store1) ->
  map id store1 = map id store
  /\ deref store1 r = set_edge_to_next ty (lookup store a)
  /\ (forall store2, map id store2 = map id store1 ->
        lookup store2 a = lookup store1 a -> deref store2 r = deref store1 r)
  /\ (forall b, b <> a -> lookup store1 b = lookup store b).
Proof.
  unfold lookup, node_info.
  destruct (node_index store a) as [i|] eqn:E; simpl; intros H; injection H as <- <-.
  - destruct (node_index_some _ _ E) as [Hi Hid].
    assert (Hids : map id (update_nth i (set_edge_to_next ty) store) = map id store)
      by (now apply update_nth_ids).
    split; [assumption|]. split; [simpl; now apply nth_update_nth_eq|].
    split.
    + intros store2 Hids2 Hlk. simpl.
      rewrite (lookup_ids _ _ a Hids2), (lookup_ids _ _ a Hids), E in Hlk.
      exact Hlk.
    + intros b Hb. rewrite (lookup_ids _ _ b Hids).
      destruct (node_index store b) as [j|] eqn:Ej; simpl; [|reflexivity].
      apply nth_update_nth_neq. intros ->.
      destruct (node_index_some _ _ Ej) as [_ Hj]. congruence.
  - split; [reflexivity|]. split; [reflexivity|]. split; [reflexivity|]. reflexivity.
Qed.

Lemma expected_ext (store store' : list node) (path : list string) :
  (forall a, In a path -> lookup store' a = lookup store a) ->
  expected es store' path = expected es store path.
Proof.
  induction path as [|a rest IH]; intros H; [reflexivity|].
  destruct rest as [|b rest].
  - simpl. now rewrite H by (now left).
  - change (expected es store' (a :: b :: rest))
      with (set_edge_to_next (edge_type_between es a b) (lookup store' a)
            :: expected es store' (b :: rest)).
    change (expected es store (a :: b :: rest))
      with (set_edge_to_next (edge_type_between es a b) (lookup store a)
            :: expected es store (b :: rest)).
    rewrite H by (now left). rewrite IH; [reflexivity|].
    intros c Hc. apply H. now right.
Qed.

Lemma path_details_spec (path : list string) :
  NoDup path ->
  forall store refs store',
    path_details es path store = (refs, store') ->
    map id store' = map id store
    /\ (forall c, ~ In c path -> lookup store' c = lookup store c)
    /\ (forall c, last path c = c -> lookup store' c = lookup store c)
    /\ map (deref store') refs = expected es store path.
Proof.
  induction path as [|a rest IH]; intros Hnd store refs store' H.
  - simpl in H. injection H as <- <-. repeat split; reflexivity.
  - destruct rest as [|b rest].
    + simpl in H. injection H as <- <-. repeat split; reflexivity.
    + change (path_details es (a :: b :: rest) store)
        with (let '(r', store1) :=
                annotate_ref (edge_type_between es a b) (node_info store a) store in
              let '(rs, store2) := path_details es (b :: rest) store1 in
              (r' :: rs, store2)) in H.
      destruct (annotate_ref (edge_type_between es a b) (node_info store a) store)
        as [r' store1] eqn:Ea.
      destruct (path_details es (b :: rest) store1) as [rs store2] eqn:Ep.
      injection H as <- <-.
      apply NoDup_cons_iff in Hnd. destruct Hnd as [Hna Hnd].
      destruct (IH Hnd _ _ _ Ep) as [Hids2 [Hframe2 [Hlast2 Hexp2]]].
      destruct (annotate_ref_spec _ _ _ Ea) as [Hids1 [Hderef1 [Hstable Hother]]].
      split; [congruence|].
      split.
      { intros c Hc. rewrite Hframe2 by (intros Hin; apply Hc; now right).
        apply Hother. intros ->. apply Hc. now left. }
      split.
      { intros c Hc. change (last (a :: b :: rest) c) with (last (b :: rest) c) in Hc.
        rewrite Hlast2 by assumption. apply Hother. intros ->.
        apply Hna. rewrite <- Hc. destruct (exists_last (l := b :: rest)) as [l' [x Hx]];
          [discriminate|]. rewrite Hx, last_last. apply in_app_iff. right. now left. }
      change (expected es store (a :: b :: rest))
        with (set_edge_to_next (edge_type_between es a b) (lookup store a)
              :: expected es store (b :: rest)).
      simpl map. f_equal.
      * rewrite (Hstable store2 Hids2 (Hframe2 a Hna)). exact Hderef1.
      * rewrite Hexp2. apply expected_ext. intros c Hc. apply Hother.
        intros ->. contradiction.
Qed.

Lemma first_edge_some (a b : string) :
  has_edge es a b ->
  exists e, first_edge es a b = Some e /\ In e es
            /\ e_source e = a /\ e_target e = b.
Proof.
  unfold has_edge, successors, first_edge. intros H.
  apply in_map_iff in H. destruct H as [e0 [Ht Hf]]. apply filter_In in Hf.
  destruct Hf as [Hin Hs].
  destruct (find (fun e => (e_source e =? a) && (e_target e =? b)) es) as [e|] eqn:E.
  - exists e. apply find_some in E. destruct E as [He Hb].
    apply andb_true_iff in Hb. destruct Hb as [H1 H2].
    apply String.eqb_eq in H1, H2. auto.
  - exfalso. apply (find_none _ _ E) in Hin. rewrite Hs, Ht, String.eqb_refl in Hin.
    discriminate.
Qed.

Lemma edge_type_first (a b : string) (e : edge) :
  first_edge es a b = Some e -> edge_type_between es a b = e_type e.
Proof. unfold first_edge, edge_type_between. now intros ->. Qed.

Lemma expected_annotated (store : list node) (path : list string) :
  chain es path -> annotated es path (expected es store path).
Proof.
  induction path as [|a rest IH]; intros Hc; [exact I|].
  destruct rest as [|b rest].
  - simpl. split; [apply lookup_id | tauto].
  - destruct Hc as [He Hc].
    change (expected es store (a :: b :: rest))
      with (set_edge_to_next (edge_type_between es a b) (lookup store a)
            :: expected es store (b :: rest)).
    split; [apply lookup_id|]. split; [|now apply IH].
    destruct (first_edge_some a b He) as [e [Hfe _]].
    exists e. split; [assumption|]. simpl. f_equal. now apply edge_type_first with (b := b).
Qed.

Lemma expected_ids (store : list node) (path : list string) :
  map id (expected es store path) = path.
Proof.
  induction path as [|a rest IH]; [reflexivity|].
  destruct rest as [|b rest].
  - simpl. now rewrite lookup_id.
  - change (expected es store (a :: b :: rest))
      with (set_edge_to_next (edge_type_between es a b) (lookup store a)
            :: expected es store (b :: rest)).
    cbn [map]. rewrite IH. f_equal. apply lookup_id.
Qed.

Lemma chain_snoc (p : list string) (v : string) :
  p <> [] -> chain es p -> has_edge es (last p EmptyString) v -> chain es (p ++ [v]).
Proof.
  induction p as [|a p IH]; [congruence|]. intros _ Hc He.
  destruct p as [|b p].
  - simpl in *. tauto.
  - destruct Hc as [Hab Hc]. split; [assumption|].
    apply IH; [discriminate | assumption | exact He].
Qed.

Lemma walk_chain (s v : string) (p : list string) : walk es s v p -> chain es p.
Proof.
  induction 1 as [|u v p Hw IH He]; [exact I|].
  destruct (walk_last Hw) as [Hne Hlast].
  apply chain_snoc; [assumption | assumption | now rewrite Hlast].
Qed.

End Details.

Lemma last_index_from_none (i : nat) (a : string) (l : list node) :
  (forall m, In m l -> id m <> a) -> last_index_from i a l = None.
Proof.
  revert i. induction l as [|n l IH]; intros i H; simpl; [reflexivity|].
  rewrite IH by (intros m Hm; apply H; now right).
  destruct (id n =? a) eqn:E; [|reflexivity].
  apply String.eqb_eq in E. exfalso. apply (H n); [now left | assumption].
Qed.

End BfsFacts.

Module AccessPathClaims.
Import AccessPath PathSpec AccessPathFacts BfsFacts.

Local Open Scope Z_scope.

(** C5.  On every graph and for every pair of ids the query returns a
    found path or the no-path answer, never running out of loop
    iterations.  A found path is a walk from source to target along the
    directed edges; [path_length] is its number of hops; no walk from
    source to target has fewer hops; among the walks with as few hops its
    sequence of edge discovery ranks is the lexicographically least; its
    nodes come in order and each but the last carries the type of the
    first edge to its successor.  The no-path answer is given only when no
    walk from source to target exists. *)
Theorem C5_access_path_is_shortest (g : graph_data) (source target : string) :
  match fst (get_access_path g source target) with
  | PathFound src tgt path_length path =>
      let p := map id path in
      src = source /\ tgt = target
      /\ walk (edges g) source target p
      /\ path_length = Z.of_nat (hops p)
      /\ (forall q, walk (edges g) source target q -> (hops p <= hops q)%nat)
      /\ (forall q, walk (edges g) source target q -> hops q = hops p ->
            lex_le (ranks (edges g) p) (ranks (edges g) q))
      /\ annotated (edges g) p path
  | NoPathFound src tgt _ =>
      src = source /\ tgt = target /\ forall q, ~ walk (edges g) source target q
  | DidNotTerminate => False
  end.
Proof.
  unfold get_access_path.
  pose proof (bfs_correct (bfs_fuel (edges g)) (bfs_inv_init (edges g) source target))
    as Hcorrect.
  pose proof (@bfs_fuel_enough (edges g) target (bfs_fuel (edges g))
                [(source, [source])] [source]) as Hfuel.
  destruct (bfs (bfs_fuel (edges g)) (build_adjacency (edges g)) target
              [(source, [source])] [source]) as [path| |].
  - destruct Hcorrect as [Hwalk [Hnd Hmin]].
    destruct (path_details (edges g) path (nodes g)) as [refs store] eqn:Hpd.
    destruct (@path_details_spec (edges g) path Hnd _ _ _ Hpd) as [_ [_ [_ Hexp]]].
    cbn [fst]. cbv zeta. rewrite Hexp, expected_ids.
    pose proof (walk_length Hwalk) as Hlen.
    split; [reflexivity|]. split; [reflexivity|]. split; [assumption|].
    split; [unfold len, hops; lia|].
    split; [|split].
    + intros q Hq. apply Hmin in Hq. apply path_le_length in Hq. unfold hops. lia.
    + intros q Hq Hh. pose proof (walk_length Hq) as Hlq.
      destruct (Hmin q Hq) as [Hlt|[_ Hle]]; [unfold hops in Hh; lia | assumption].
    + apply expected_annotated. eapply walk_chain. eassumption.
  - cbn [fst]. auto.
  - exfalso. apply Hfuel; [|reflexivity].
    pose proof (unvisited_le (edges g) [source]). unfold bfs_fuel. simpl. lia.
Qed.

Lemma C5_access_path_is_shortest_witness :
  (exists path,
      fst (get_access_path Examples.chain_graph "role-A" "internet")
      = PathFound "role-A" "internet" 3 path)
  /\ (forall q, walk (edges Examples.chain_graph) "role-A" "internet" q ->
        (3 <= hops q)%nat)
  /\ (forall q, ~ walk (edges Examples.chain_graph) "internet" "role-A" q).
Proof.
  pose proof (C5_access_path_is_shortest Examples.chain_graph "role-A" "internet")
    as Hfwd.
  pose proof (C5_access_path_is_shortest Examples.chain_graph "internet" "role-A")
    as Hbwd.
  destruct (fst (get_access_path Examples.chain_graph "role-A" "internet"))
    as [src tgt n path|src tgt msg|] eqn:Efwd; try discriminate Efwd.
  destruct (fst (get_access_path Examples.chain_graph "internet" "role-A"))
    as [src' tgt' n' path'|src' tgt' msg'|] eqn:Ebwd; try discriminate Ebwd.
  injection Efwd as <- <- <- <-.
  destruct Hfwd as [_ [_ [_ [_ [Hmin _]]]]].
  destruct Hbwd as [_ [_ Hnone]].
  split; [eexists; reflexivity|]. split; [exact Hmin | exact Hnone].
Defined.

(** C10.  Asking for the path from an id to itself always gives a found
    path of length 0 whose only node is the record of that id: the stored
    node of that id if there is one, otherwise the two-key record made from
    the id alone.  The graph is left as it was. *)
Theorem C10_access_path_to_itself (g : graph_data) (s : string) :
  exists n,
    get_access_path g s s = (PathFound s s 0 [n], g)
    /\ id n = s
    /\ n = lookup (nodes g) s
    /\ ((forall m, In m (nodes g) -> id m <> s) -> n = default_node s).
Proof.
  exists (lookup (nodes g) s).
  split; [|split; [apply lookup_id | split; [reflexivity|]]].
  - unfold get_access_path, bfs_fuel. simpl. rewrite String.eqb_refl. simpl.
    destruct g. reflexivity.
  - intros H. unfold lookup, node_info, node_index.
    now rewrite last_index_from_none.
Qed.

(** The chain of the path-finding scenario: role-A -> ec2-B -> sg-C ->
    internet, queried forwards and backwards. *)
Example chain_forward :
  exists path,
    fst (get_access_path Examples.chain_graph "role-A" "internet")
    = PathFound "role-A" "internet" 3 path
    /\ map id path = ["role-A"; "ec2-B"; "sg-C"; "internet"]
    /\ map edge_to_next path
       = [Some "assumes"; Some "protected_by"; Some "allows_traffic_from"; None].
Proof. eexists. repeat split; reflexivity. Qed.

Example chain_backward :
  exists msg,
    fst (get_access_path Examples.chain_graph "internet" "role-A")
    = NoPathFound "internet" "role-A" msg.
Proof. eexists. reflexivity. Qed.

(** A cycle does not keep the search going. *)
Example cycle_no_path :
  exists msg,
    fst (get_access_path Examples.mutual_trust_graph "role-A" "s3-logs")
    = NoPathFound "role-A" "s3-logs" msg.
Proof. eexists. reflexivity. Qed.

(** The annotation is written into the stored node: a later query that
    ends at that node shows it again. *)
Example annotation_is_kept :
  let g1 := snd (get_access_path Examples.chain_graph "sg-C" "internet") in
  exists n,
    fst (get_access_path g1 "sg-C" "sg-C") = PathFound "sg-C" "sg-C" 0 [n]
    /\ edge_to_next n = Some "allows_traffic_from".
Proof. eexists. split; reflexivity. Qed.

End AccessPathClaims.

(** ** Relationship builder *)

Module BuilderFacts.
Import RelationshipBuilder BuilderSpec.

(** *** Loops in the builder's monad *)

Lemma foreach_inv (A S : Type) (P : S -> Prop) (body : A -> S -> M S) (l : list A) :
  (forall a s st s' st', In a l -> P s -> body a s st = (Ok s', st') -> P s') ->
  forall s st s' st', P s -> foreach l body s st = (Ok s', st') -> P s'.
Proof.
  induction l as [|a l IH]; intros Hbody s st s' st' Hs Hrun; simpl in Hrun.
  - unfold ret in Hrun. injection Hrun as <- <-. exact Hs.
  - unfold bind in Hrun. destruct (body a s st) as [[s1|e] st1] eqn:Hb; [|discriminate].
    eapply IH; [|eapply Hbody; [now left | exact Hs | exact Hb] | exact Hrun].
    intros a0 s0 st0 s0' st0' Hin. apply Hbody. now right.
Qed.

Lemma foreach_total (A S : Type) (body : A -> S -> M S) (l : list A) :
  (forall a s st, In a l -> exists s' st', body a s st = (Ok s', st')) ->
  forall s st, exists s' st', foreach l body s st = (Ok s', st').
Proof.
  induction l as [|a l IH]; intros Hbody s st; simpl.
  - now exists s, st.
  - unfold bind. destruct (Hbody a s st (or_introl eq_refl)) as [s1 [st1 ->]].
    apply IH. intros a0 s0 st0 Hin. apply Hbody. now right.
Qed.

(** *** Dict entries under the two updates *)

Lemma In_dict_set (V : Type) (k k0 : string) (v v0 : V) (d : dict V) :
  In (k, v) (dict_set k0 v0 d) -> (k, v) = (k0, v0) \/ In (k, v) d.
Proof.
  induction d as [|[k' v'] d IH]; simpl.
  - intros [H|[]]. left. now symmetry.
  - destruct (k' =? k0)%string; simpl.
    + intros [H|H]; [left; now symmetry | right; now right].
    + intros [H|H]; [right; now left|]. destruct (IH H); auto.
Qed.

Lemma In_dict_modify (V : Type) (k k0 : string) (v : V) (f : V -> V) (d : dict V) :
  In (k, v) (dict_modify k0 f d) ->
  In (k, v) d \/ exists v0, In (k, v0) d /\ v = f v0.
Proof.
  induction d as [|[k' v'] d IH]; simpl; [tauto|].
  destruct (k' =? k0)%string; simpl.
  - intros [H|H]; [|left; now right].
    injection H as <- <-. right. exists v'. split; [now left | reflexivity].
  - intros [H|H]; [left; now left|].
    destruct (IH H) as [H'|[v0 [H1 H2]]]; [left; now right|].
    right. exists v0. split; [now right | assumption].
Qed.

(** *** The role map *)

Lemma hash_keys_ok (refs : list sg_ref) (gs : list string) :
  hash_keys refs = Ok gs ->
  gs = flat_map (fun sg => match hash_key sg with Ok g => [g] | Raise _ => [] end) refs.
Proof.
  revert gs. induction refs as [|sg refs IH]; simpl; intros gs H.
  - now injection H as <-.
  - destruct (hash_key sg) as [g|]; [|discriminate].
    destruct (hash_keys refs) as [gs0|]; [|discriminate].
    injection H as <-. simpl. f_equal. now apply IH.
Qed.

Lemma build_role_resource_map_loops set_order iam res st :
  _build_role_resource_map set_order iam res st
  = match role_map_loops iam res st with
    | (Ok role_map, st') => (Ok (finalize_map set_order role_map), st')
    | (Raise e, st') => (Raise e, st')
    end.
Proof.
  unfold _build_role_resource_map, role_map_loops, bind.
  destruct (foreach (roles iam) init_role [] st) as [[rm1|e1] st1]; [|reflexivity].
  destruct (foreach (ec2_instances res) map_ec2_to_role rm1 st1) as [[rm2|e2] st2];
    [|reflexivity].
  destruct (foreach (lambda_functions res) map_lambda_to_role rm2 st2)
    as [[rm3|e3] st3]; reflexivity.
Qed.

Lemma role_map_loops_sets iam res st role_map st' :
  role_map_loops iam res st = (Ok role_map, st') -> sets_follow_resources role_map.
Proof.
  unfold role_map_loops, bind. intros H.
  destruct (foreach (roles iam) init_role [] st) as [[rm1|e1] st1] eqn:H1; [|discriminate].
  destruct (foreach (ec2_instances res) map_ec2_to_role rm1 st1) as [[rm2|e2] st2] eqn:H2;
    [|discriminate].
  assert (P1 : sets_follow_resources rm1).
  { eapply (foreach_inv sets_follow_resources); [| |exact H1].
    - intros r s0 st0 s0' st0' _ Hs Hb. unfold init_role in Hb.
      destruct (role_arn r) as [a|]; [|discriminate].
      unfold ret in Hb. injection Hb as <- <-.
      intros k e Hin. apply In_dict_set in Hin. destruct Hin as [Heq|Hin].
      + injection Heq as Hk He. subst e. reflexivity.
      + eapply Hs; eassumption.
    - intros k e []. }
  assert (P2 : sets_follow_resources rm2).
  { eapply (foreach_inv sets_follow_resources); [|exact P1|exact H2].
    intros i s0 st0 s0' st0' _ Hs Hb. unfold map_ec2_to_role in Hb.
    destruct (iam_instance_profile i) as [prof|];
      [|unfold ret in Hb; injection Hb as <- <-; exact Hs].
    destruct (negb (prof =? EmptyString)%string && dict_mem prof s0);
      [|unfold ret in Hb; injection Hb as <- <-; exact Hs].
    unfold bind, lift, emit, ret in Hb.
    destruct (hash_keys (ec2_security_groups i)) as [sgs|] eqn:Hk; [|discriminate].
    injection Hb as <- <-. apply hash_keys_ok in Hk.
    intros k e Hin. apply In_dict_modify in Hin.
    destruct Hin as [Hin|[e0 [Hin ->]]]; [eapply Hs; eassumption|].
    simpl. rewrite flat_map_app. simpl. rewrite app_nil_r.
    rewrite (Hs _ _ Hin). now subst sgs. }
  eapply (foreach_inv sets_follow_resources); [|exact P2|exact H].
  intros f s0 st0 s0' st0' _ Hs Hb. unfold map_lambda_to_role in Hb.
  destruct (lambda_role f) as [arn|];
    [|unfold ret in Hb; injection Hb as <- <-; exact Hs].
  destruct (negb (arn =? EmptyString)%string);
    [|unfold ret in Hb; injection Hb as <- <-; exact Hs].
  destruct (dict_mem (role_name_of_arn arn) s0);
    [|unfold ret in Hb; injection Hb as <- <-; exact Hs].
  unfold bind, emit, ret in Hb. injection Hb as <- <-.
  intros k e Hin. apply In_dict_modify in Hin.
  destruct Hin as [Hin|[e0 [Hin ->]]]; [eapply Hs; eassumption|].
  simpl. rewrite flat_map_app. simpl. rewrite app_nil_r.
  now rewrite (Hs _ _ Hin).
Qed.

(** *** [build_relationships], step by step *)

Lemma build_relationships_eq set_order iam res st :
  build_relationships set_order iam res st
  = match role_map_loops iam res st with
    | (Raise e, st1) => (Raise e, st1)
    | (Ok role_map, st1) =>
        match _build_security_group_map res st1 with
        | (Raise e, st2) => (Raise e, st2)
        | (Ok sg_map, st2) => (Ok (assemble set_order res role_map sg_map st2), st2)
        end
    end.
Proof.
  unfold build_relationships, bind. rewrite build_role_resource_map_loops.
  destruct (role_map_loops iam res st) as [[role_map|e] st1]; [|reflexivity].
  destruct (_build_security_group_map res st1) as [[sg_map|e] st2]; reflexivity.
Qed.

(** *** What a successful [build_relationships] returns *)

Lemma build_relationships_ok set_order iam res st out st' :
  build_relationships set_order iam res st = (Ok out, st') ->
  exists role_map st1 sg_map,
    role_map_loops iam res st = (Ok role_map, st1)
    /\ _build_security_group_map res st1 = (Ok sg_map, st')
    /\ out = assemble set_order res role_map sg_map st'.
Proof.
  rewrite build_relationships_eq.
  destruct (role_map_loops iam res st) as [[role_map|e] st1] eqn:Hloops; [|discriminate].
  destruct (_build_security_group_map res st1) as [[sg_map|e] st2] eqn:Hsg;
    [|discriminate].
  intros H. injection H as <- <-. exists role_map, st1, sg_map. auto.
Qed.

(** *** The graph: node ids and edges *)

Lemma fold_left_preserves (A B : Type) (P : A -> Prop) (f : A -> B -> A) (l : list B) :
  (forall a b, P a -> P (f a b)) -> forall a, P a -> P (fold_left f l a).
Proof.
  intros Hf. induction l as [|b l IH]; intros a Ha; simpl; auto.
Qed.

Lemma fold_left_over_map (A B C : Type) (f : A -> B -> A) (g : C -> B) (l : list C) (a : A) :
  fold_left f (map g l) a = fold_left (fun a x => f a (g x)) l a.
Proof.
  revert a. induction l as [|x l IH]; intros a; simpl; [reflexivity | apply IH].
Qed.

Lemma add_node_agree (n : node) (acc : node_acc) :
  ids_agree acc -> ids_agree (add_node n acc).
Proof.
  unfold ids_agree, add_node. intros H.
  destruct (negb (str_in (id n) (snd acc))); [|exact H].
  intros x. simpl. rewrite map_app, in_app_iff, H. simpl. tauto.
Qed.

Lemma graph_nodes_agree role_mappings sg_mappings res :
  ids_agree (graph_nodes role_mappings sg_mappings res).
Proof.
  unfold graph_nodes.
  match goal with
  | |- ids_agree (fst ?acc ++ _, _ :: snd ?acc) => assert (H : ids_agree acc)
  end.
  { repeat (apply fold_left_preserves;
            [intros a b Ha; try apply add_node_agree; try exact Ha;
             match goal with
             | |- ids_agree (if ?c then _ else _) =>
                 destruct c; [apply add_node_agree|]; exact Ha
             end|]).
    intros x. simpl. tauto. }
  intros x. simpl. rewrite map_app, in_app_iff, (H x). simpl. tauto.
Qed.

Lemma graph_nodes_internet role_mappings sg_mappings res :
  In internet_node_id (snd (graph_nodes role_mappings sg_mappings res)).
Proof. unfold graph_nodes. simpl. now left. Qed.

Lemma build_graph_data_nodes role_mappings sg_mappings res rels :
  nodes (_build_graph_data role_mappings sg_mappings res rels)
  = fst (graph_nodes role_mappings sg_mappings res).
Proof.
  unfold _build_graph_data.
  destruct (graph_nodes role_mappings sg_mappings res) as [ns ids]. reflexivity.
Qed.

Lemma build_graph_data_edges role_mappings sg_mappings res rels :
  edges (_build_graph_data role_mappings sg_mappings res rels)
  = flat_map (relationship_edge (snd (graph_nodes role_mappings sg_mappings res))) rels
    ++ flat_map (internet_edge (snd (graph_nodes role_mappings sg_mappings res)))
         sg_mappings.
Proof.
  unfold _build_graph_data.
  destruct (graph_nodes role_mappings sg_mappings res) as [ns ids]. reflexivity.
Qed.

Lemma graph_edges_closed role_mappings sg_mappings res rels e :
  let g := _build_graph_data role_mappings sg_mappings res rels in
  In e (edges g) ->
  In (e_source e) (map id (nodes g)) /\ In (e_target e) (map id (nodes g)).
Proof.
  intros g. subst g. rewrite build_graph_data_edges, build_graph_data_nodes.
  pose proof (graph_nodes_agree role_mappings sg_mappings res) as Hagree.
  pose proof (graph_nodes_internet role_mappings sg_mappings res) as Hnet.
  set (acc := graph_nodes role_mappings sg_mappings res) in *.
  rewrite in_app_iff, !in_flat_map.
  intros [[rel [_ He]]|[kv [_ He]]].
  - unfold relationship_edge in He.
    destruct (str_in _ (snd acc)) eqn:E1; [|contradiction].
    destruct (str_in (_normalize_node_id (target_type rel) (target rel)) (snd acc)) eqn:E2;
      [|contradiction].
    destruct He as [<-|[]]. simpl. apply str_in_In in E1, E2.
    split; apply Hagree; assumption.
  - unfold internet_edge in He.
    destruct (se_has_internet_access (snd kv)); [|contradiction].
    destruct (str_in _ (snd acc)) eqn:E1; [|contradiction].
    destruct He as [<-|[]]. simpl. apply str_in_In in E1.
    split; apply Hagree; assumption.
Qed.

(** A relationship contributes its edge exactly when both of its
    normalized endpoints are node ids; otherwise it contributes nothing. *)
Lemma relationship_edge_kept_or_dropped role_mappings sg_mappings res rel :
  let acc := graph_nodes role_mappings sg_mappings res in
  (In (e_source (edge_of rel)) (map id (fst acc))
   /\ In (e_target (edge_of rel)) (map id (fst acc))
   /\ relationship_edge (snd acc) rel = [edge_of rel])
  \/ ((~ In (e_source (edge_of rel)) (map id (fst acc))
       \/ ~ In (e_target (edge_of rel)) (map id (fst acc)))
      /\ relationship_edge (snd acc) rel = []).
Proof.
  intros acc. pose proof (graph_nodes_agree role_mappings sg_mappings res) as Hagree.
  fold acc in Hagree. clearbody acc. unfold relationship_edge, edge_of.
  cbn [e_source e_target].
  destruct (str_in (_normalize_node_id (source_type rel) (source rel)) (snd acc)) eqn:E1;
    destruct (str_in (_normalize_node_id (target_type rel) (target rel)) (snd acc)) eqn:E2;
    simpl.
  - left. apply str_in_In in E1, E2. split; [|split]; try (apply Hagree; assumption).
    reflexivity.
  - right. apply str_in_not_In in E2. split; [right; intros H; apply E2, Hagree, H | reflexivity].
  - right. apply str_in_not_In in E1. split; [left; intros H; apply E1, Hagree, H | reflexivity].
  - right. apply str_in_not_In in E1. split; [left; intros H; apply E1, Hagree, H | reflexivity].
Qed.

(** *** Independence from the set iteration order *)

Lemma graph_nodes_finalize set_order role_map sg_mappings res :
  graph_nodes (finalize_map set_order role_map) sg_mappings res
  = graph_nodes role_map sg_mappings res.
Proof.
  unfold graph_nodes, finalize_map. rewrite fold_left_over_map. reflexivity.
Qed.

Lemma build_graph_data_finalize set_order role_map sg_mappings res rels :
  _build_graph_data (finalize_map set_order role_map) sg_mappings res rels
  = _build_graph_data role_map sg_mappings res rels.
Proof.
  unfold _build_graph_data. now rewrite graph_nodes_finalize.
Qed.

Lemma len_finalize set_order (role_map : dict role_entry) :
  len (finalize_map set_order role_map) = len role_map.
Proof. unfold len, finalize_map. now rewrite length_map. Qed.

Lemma with_resources_finalize set_order (role_map : dict role_entry) :
  count_if (fun e => negb (is_empty (re_resources e)))
           (dict_values (finalize_map set_order role_map))
  = count_if (fun e => negb (is_empty (re_resources e))) (dict_values role_map).
Proof.
  unfold count_if, len, dict_values, finalize_map. f_equal.
  induction role_map as [|[k e] l IH]; simpl; [reflexivity|].
  destruct (negb (is_empty (re_resources e))); simpl; now rewrite IH.
Qed.

(** *** The risk rank *)

Lemma fold_left_add (A : Type) (p : A -> bool) (c : Z) (l : list A) (a : Z) :
  fold_left (fun acc x => if p x then acc + c else acc) l a = a + c * count_if p l.
Proof.
  unfold count_if, len. revert a. induction l as [|x l IH]; intros a; simpl; [lia|].
  rewrite IH. destruct (p x); simpl List.length; lia.
Qed.

Lemma calculate_role_risk_formula (role_data : role_entry) (sg_mappings : dict sg_entry) :
  _calculate_role_risk role_data sg_mappings
  = Z.min 100 ((if re_is_admin role_data then 50 else 0)
               + 20 * count_if ri_is_public (re_resources role_data)
               + 15 * count_if (sg_has_internet sg_mappings)
                        (re_security_groups role_data)).
Proof.
  unfold _calculate_role_risk. rewrite !fold_left_add.
  destruct (re_is_admin role_data); reflexivity.
Qed.

Lemma count_if_perm (A : Type) (p : A -> bool) (l l' : list A) :
  Permutation l l' -> count_if p l = count_if p l'.
Proof.
  intros H. unfold count_if, len. f_equal.
  induction H as [|x l l' H IH|x y l|l l' l'' H1 IH1 H2 IH2]; simpl.
  - reflexivity.
  - destruct (p x); simpl; congruence.
  - destruct (p x), (p y); reflexivity.
  - congruence.
Qed.

Lemma role_views_In role_mappings sg_mappings row :
  In row (role_views role_mappings sg_mappings) ->
  exists k e, In (k, e) role_mappings /\ re_resources e <> []
              /\ row = build_role_view k e sg_mappings.
Proof.
  unfold role_views. rewrite in_flat_map. intros [[k e] [Hin Hrow]]. simpl in Hrow.
  destruct (re_resources e) eqn:E; simpl in Hrow; [contradiction|].
  destruct Hrow as [<-|[]]. exists k, e. rewrite E. repeat split; [assumption | discriminate].
Qed.

End BuilderFacts.

Module BuilderClaims.
Import RelationshipBuilder BuilderSpec BuilderFacts.

(** C3 (counterexample).  Calling the same builder twice on the same
    inputs gives two different edge lists: the relationships of the first
    call are still in [self.relationships] during the second.  Likewise the
    second [analyze_all] on one analyzer reports other bucket counts. *)
Lemma C3_reused_instance_counterexample :
  (exists out1 st1 out2 st2,
      build_relationships Examples.insertion_order Examples.one_admin
                          Examples.ops_resources init = (Ok out1, st1)
      /\ build_relationships Examples.insertion_order Examples.one_admin
                             Examples.ops_resources st1 = (Ok out2, st2)
      /\ edges (graph out1) <> edges (graph out2))
  /\ (exists out1 st1 out2 st2,
         RiskAnalyzer.analyze_all default_settings "t" Examples.one_admin
                                  Examples.no_resources RiskAnalyzer.init
         = (Ok out1, st1)
         /\ RiskAnalyzer.analyze_all default_settings "t" Examples.one_admin
                                     Examples.no_resources st1
            = (Ok out2, st2)
         /\ RiskAnalyzer.r_risk_summary out1 <> RiskAnalyzer.r_risk_summary out2).
Proof.
  split.
  - eexists. eexists. eexists. eexists.
    split; [vm_compute; reflexivity|]. split; [vm_compute; reflexivity|].
    simpl. intros H. apply (f_equal (@List.length edge)) in H. vm_compute in H.
    discriminate.
  - eexists. eexists. eexists. eexists.
    split; [vm_compute; reflexivity|]. split; [vm_compute; reflexivity|].
    simpl. intros H. discriminate.
Qed.

(** C3 (amended).  With the same inputs and the same accumulator contents
    on the instance, [build_relationships] returns the same graph (nodes,
    edges, statistics), the same security-group map and the same summary
    counts whatever order the interpreter lists sets in, and raises the
    same exception when it raises; [analyze_all] returns the same findings
    in the same order, the same counts and the same top list whatever the
    clock reads.  Both leave the same accumulators behind. *)
Theorem C3_same_inputs_same_output :
  (forall set_order1 set_order2 iam res st,
      let r1 := build_relationships set_order1 iam res st in
      let r2 := build_relationships set_order2 iam res st in
      snd r1 = snd r2
      /\ match fst r1, fst r2 with
         | Ok out1, Ok out2 =>
             graph out1 = graph out2
             /\ security_group_mappings out1 = security_group_mappings out2
             /\ build_summary out1 = build_summary out2
         | Raise e1, Raise e2 => e1 = e2
         | _, _ => False
         end)
  /\ (forall cfg now1 now2 iam res st,
        let r1 := RiskAnalyzer.analyze_all cfg now1 iam res st in
        let r2 := RiskAnalyzer.analyze_all cfg now2 iam res st in
        snd r1 = snd r2
        /\ match fst r1, fst r2 with
           | Ok out1, Ok out2 =>
               RiskAnalyzer.r_risks out1 = RiskAnalyzer.r_risks out2
               /\ RiskAnalyzer.r_risk_summary out1 = RiskAnalyzer.r_risk_summary out2
               /\ RiskAnalyzer.top_risks out1 = RiskAnalyzer.top_risks out2
           | Raise e1, Raise e2 => e1 = e2
           | _, _ => False
           end).
Proof.
  split.
  - intros h1 h2 iam res st. cbv zeta. rewrite !build_relationships_eq.
    destruct (role_map_loops iam res st) as [[role_map|e] st1];
      [|simpl; split; reflexivity].
    destruct (_build_security_group_map res st1) as [[sg_map|e] st2];
      [|simpl; split; reflexivity].
    unfold assemble. simpl.
    rewrite !build_graph_data_finalize, !len_finalize, !with_resources_finalize.
    repeat split; reflexivity.
  - intros cfg now1 now2 iam res st. cbv zeta. unfold RiskAnalyzer.analyze_all.
    destruct (RiskAnalyzer.analyze_resource_risks res); simpl; repeat split; reflexivity.
Qed.

(** C6.  In the graph that [_build_graph_data] assembles from any role
    map, security-group map, resources and relationship list, and so in
    the graph of every result of [build_relationships], both endpoints of
    every edge are ids of emitted nodes.  A relationship yields its edge
    when both normalized endpoints are node ids and yields nothing
    otherwise; assembling the graph has no failing case. *)
Theorem C6_edges_join_emitted_nodes :
  (forall role_mappings sg_mappings res rels e,
      let g := _build_graph_data role_mappings sg_mappings res rels in
      In e (edges g) ->
      In (e_source e) (map id (nodes g)) /\ In (e_target e) (map id (nodes g)))
  /\ (forall role_mappings sg_mappings res rel,
        let acc := graph_nodes role_mappings sg_mappings res in
        (In (e_source (edge_of rel)) (map id (fst acc))
         /\ In (e_target (edge_of rel)) (map id (fst acc))
         /\ relationship_edge (snd acc) rel = [edge_of rel])
        \/ ((~ In (e_source (edge_of rel)) (map id (fst acc))
             \/ ~ In (e_target (edge_of rel)) (map id (fst acc)))
            /\ relationship_edge (snd acc) rel = []))
  /\ (forall set_order iam res st out st',
        build_relationships set_order iam res st = (Ok out, st') ->
        forall e, In e (edges (graph out)) ->
          In (e_source e) (map id (nodes (graph out)))
          /\ In (e_target e) (map id (nodes (graph out)))).
Proof.
  split; [|split].
  - intros. now apply graph_edges_closed.
  - intros. apply relationship_edge_kept_or_dropped.
  - intros set_order iam res st out st' Hrun e He.
    destruct (build_relationships_ok _ _ _ _ Hrun)
      as [role_map [st1 [sg_map [_ [_ ->]]]]].
    exact (@graph_edges_closed (finalize_map set_order role_map) sg_map res st' e He).
Qed.

Lemma C6_edges_join_emitted_nodes_witness :
  exists out st',
    build_relationships Examples.insertion_order Examples.one_admin
                        Examples.ops_resources init = (Ok out, st')
    /\ edges (graph out) <> []
    /\ forall e, In e (edges (graph out)) ->
         In (e_source e) (map id (nodes (graph out)))
         /\ In (e_target e) (map id (nodes (graph out))).
Proof.
  eexists. eexists. split; [vm_compute; reflexivity|].
  split; [discriminate|].
  eapply (proj2 (proj2 C6_edges_join_emitted_nodes) Examples.insertion_order
                Examples.one_admin Examples.ops_resources init).
  vm_compute. reflexivity.
Defined.

(** C7 (evaluation at the failing input).  An instance record as the
    resource discoverer emits it, referring to the group [sg-999] that is
    not enumerated: [build_relationships] raises TypeError, because the
    group dict is used as a dict key.  No security-group map is returned. *)
Theorem C7_discovered_instance_reference_raises (set_order : list string -> list string) :
  build_relationships set_order Examples.no_iam Examples.orphan_reference init
  = (Raise (TypeError "unhashable type: 'dict'"), []).
Proof. reflexivity. Qed.

(** C8.  The risk rank of every row of the consolidated view is the sum
    of 50 if the role is admin, 20 for each public resource of the role
    and 15 for each distinct security group, among those its resources
    refer to, that has Internet access, cut at 100; it lies in [0, 100]. *)
Theorem C8_risk_rank_formula set_order iam res st out st' :
  (forall l, Permutation (set_order l) (nodup string_dec l)) ->
  build_relationships set_order iam res st = (Ok out, st') ->
  forall row, In row (iam_roles (consolidated out)) ->
    exists role_data,
      In (rv_role_name row, role_data) (role_mappings out)
      /\ rv_is_admin row = re_is_admin role_data
      /\ rv_risk_level row
         = Z.min 100
             ((if re_is_admin role_data then 50 else 0)
              + 20 * count_if ri_is_public (re_resources role_data)
              + 15 * count_if (sg_has_internet (security_group_mappings out))
                       (nodup string_dec
                          (flat_map ri_sg_ids (re_resources role_data))))
      /\ 0 <= rv_risk_level row <= 100.
Proof.
  intros Hperm Hrun row Hrow.
  destruct (build_relationships_ok _ _ _ _ Hrun)
    as [role_map [st1 [sg_map [Hloops [_ ->]]]]].
  simpl in Hrow. apply sort_desc_In in Hrow.
  apply role_views_In in Hrow. destruct Hrow as [k [e [Hin [_ ->]]]].
  exists e. simpl. split; [assumption|]. split; [reflexivity|].
  assert (Hrisk : _calculate_role_risk e sg_map
                  = Z.min 100
                      ((if re_is_admin e then 50 else 0)
                       + 20 * count_if ri_is_public (re_resources e)
                       + 15 * count_if (sg_has_internet sg_map)
                                (nodup string_dec (flat_map ri_sg_ids (re_resources e))))).
  { rewrite calculate_role_risk_formula. do 3 f_equal.
    unfold finalize_map in Hin. apply in_map_iff in Hin.
    destruct Hin as [[k0 e0] [Heq Hin0]]. simpl in Heq. injection Heq as _ <-.
    simpl. rewrite (role_map_loops_sets _ _ _ Hloops _ _ Hin0).
    apply count_if_perm, Hperm. }
  split; [exact Hrisk|]. rewrite Hrisk.
  pose proof (count_if_bounds ri_is_public (re_resources e)).
  pose proof (count_if_bounds (sg_has_internet sg_map)
                (nodup string_dec (flat_map ri_sg_ids (re_resources e)))).
  destruct (re_is_admin e); lia.
Qed.

Lemma C8_risk_rank_formula_witness :
  exists out st',
    build_relationships Examples.insertion_order Examples.one_admin
                        Examples.ops_resources init = (Ok out, st')
    /\ map rv_risk_level (iam_roles (consolidated out)) = [85]
    /\ forall row, In row (iam_roles (consolidated out)) ->
         exists role_data,
           In (rv_role_name row, role_data) (role_mappings out)
           /\ rv_is_admin row = re_is_admin role_data
           /\ rv_risk_level row
              = Z.min 100
                  ((if re_is_admin role_data then 50 else 0)
                   + 20 * count_if ri_is_public (re_resources role_data)
                   + 15 * count_if (sg_has_internet (security_group_mappings out))
                            (nodup string_dec
                               (flat_map ri_sg_ids (re_resources role_data))))
           /\ 0 <= rv_risk_level row <= 100.
Proof.
  eexists. eexists. split; [vm_compute; reflexivity|].
  split; [reflexivity|].
  eapply (@C8_risk_rank_formula Examples.insertion_order Examples.one_admin
            Examples.ops_resources init).
  - intros l. apply Permutation_refl.
  - vm_compute. reflexivity.
Defined.

End BuilderClaims.

(** ** The security-group map on references given as ids *)

Module SgMapFacts.
Import RelationshipBuilder BuilderSpec BuilderFacts.

Lemma foreach_collect (A S T : Type) (inv : list T -> S -> Prop)
      (items : A -> list T) (body : A -> S -> M S) (l : list A) :
  (forall K K' s, incl K' K -> inv K s -> inv K' s) ->
  (forall a s st s' st' K,
      In a l -> inv K s -> body a s st = (Ok s', st') -> inv (items a ++ K) s') ->
  forall s st s' st' K,
    inv K s -> foreach l body s st = (Ok s', st') -> inv (flat_map items l ++ K) s'.
Proof.
  intros Hmono. induction l as [|a l IH]; intros Hbody s st s' st' K Hs Hrun;
    simpl in Hrun.
  - unfold ret in Hrun. injection Hrun as <- <-. exact Hs.
  - unfold bind in Hrun. destruct (body a s st) as [[s1|e] st1] eqn:Hb; [|discriminate].
    pose proof (Hbody _ _ _ _ _ K (or_introl eq_refl) Hs Hb) as H1.
    assert (Hbody' : forall a0 s0 st0 s0' st0' K0,
               In a0 l -> inv K0 s0 -> body a0 s0 st0 = (Ok s0', st0') ->
               inv (items a0 ++ K0) s0').
    { intros a0 s0 st0 s0' st0' K0 Hin. apply Hbody. now right. }
    pose proof (IH Hbody' _ _ _ _ _ H1 Hrun) as H2.
    eapply Hmono; [|exact H2].
    intros x Hx. simpl in Hx. rewrite !in_app_iff in *. tauto.
Qed.

Section SgMap.
(** The ids of the enumerated security groups. *)
Variable enumerated : list string.

Lemma sg_inv_mono K K' sg_map : incl K' K -> sg_inv enumerated K sg_map -> sg_inv enumerated K' sg_map.
Proof. intros Hincl [Hwf Hatt]. split; [assumption|]. intros rg Hrg. auto. Qed.

Lemma attach_inv r rtype g sg_map st sg_map' st' K :
  sg_inv enumerated K sg_map ->
  attach r rtype g sg_map st = (Ok sg_map', st') ->
  sg_inv enumerated ([(r, g)] ++ K) sg_map'.
Proof.
  intros [Hwf Hatt] Hrun. unfold attach, bind, emit, ret in Hrun.
  injection Hrun as <- _.
  set (m1 := if negb (dict_mem g sg_map)
             then dict_set g (synthesized_sg g) sg_map else sg_map).
  assert (Hother : forall k, k <> g -> dict_get k m1 = dict_get k sg_map).
  { intros k Hk. unfold m1. destruct (negb (dict_mem g sg_map)); [|reflexivity].
    now apply dict_get_set_neq. }
  assert (Hg : exists e0, dict_get g m1 = Some e0 /\ se_group_id e0 = g
                          /\ (~ In g enumerated ->
                              se_group_name e0 = g /\ se_has_internet_access e0 = false)
                          /\ forall r0, attached (r0, g) sg_map -> In r0 (se_resources e0)).
  { unfold m1, dict_mem. destruct (dict_get g sg_map) as [e0|] eqn:E; simpl.
    - exists e0. destruct (Hwf _ _ E) as [H1 H2]. repeat split; auto.
      + now apply H2.
      + now apply H2.
      + intros r0 [e1 [He1 Hin]]. simpl in He1, Hin. rewrite E in He1.
        injection He1 as <-. exact Hin.
    - exists (synthesized_sg g). rewrite dict_get_set_eq. repeat split.
      intros r0 [e1 [He1 _]]. simpl in He1. congruence. }
  destruct Hg as [e0 [Hg0 [Hid [Hdef Hold]]]].
  split.
  - intros k e Hk. destruct (String.eqb_spec k g) as [->|Hne].
    + rewrite dict_get_modify_eq, Hg0 in Hk. simpl in Hk. injection Hk as <-.
      simpl. split; assumption.
    + rewrite dict_get_modify_neq, Hother in Hk by assumption. now apply Hwf.
  - intros [r0 g0] Hin. unfold attached. simpl.
    destruct (String.eqb_spec g0 g) as [->|Hne].
    + rewrite dict_get_modify_eq, Hg0. simpl. eexists. split; [reflexivity|].
      simpl. apply in_app_iff. destruct Hin as [Heq|Hin].
      * injection Heq as <-. right. now left.
      * left. apply Hold. now apply Hatt.
    + rewrite dict_get_modify_neq, Hother by assumption.
      destruct Hin as [Heq|Hin]; [congruence|]. exact (Hatt _ Hin).
Qed.

Lemma ec2_loop_inv (l : list ec2_instance) sg_map st sg_map' st' K :
  sg_inv enumerated K sg_map ->
  foreach l (fun i => foreach (ec2_security_groups i) (attach_ec2 i)) sg_map st
  = (Ok sg_map', st') ->
  sg_inv enumerated (flat_map ec2_pairs l ++ K) sg_map'.
Proof.
  apply (foreach_collect (sg_inv enumerated) ec2_pairs); [apply sg_inv_mono|].
  intros i s0 st0 s0' st0' K0 _. unfold ec2_pairs.
  apply (foreach_collect (sg_inv enumerated)
           (fun sg => match sg with
                      | SgId g => [(ec2_resource i, g)]
                      | SgRecord _ _ => []
                      end)); [apply sg_inv_mono|].
  intros [g|g n] s1 st1 s1' st1' K1 _ Hinv Hrun; unfold attach_ec2, bind, lift in Hrun;
    simpl in Hrun; [|discriminate].
  eapply attach_inv; eassumption.
Qed.

Lemma lambda_loop_inv (l : list lambda_function) sg_map st sg_map' st' K :
  sg_inv enumerated K sg_map ->
  foreach l (fun f => foreach (lambda_security_groups f) (attach_lambda f)) sg_map st
  = (Ok sg_map', st') ->
  sg_inv enumerated (flat_map lambda_pairs l ++ K) sg_map'.
Proof.
  apply (foreach_collect (sg_inv enumerated) lambda_pairs); [apply sg_inv_mono|].
  intros f s0 st0 s0' st0' K0 _. unfold lambda_pairs.
  apply (foreach_collect (sg_inv enumerated) (fun g => [(lambda_resource f, g)]));
    [apply sg_inv_mono|].
  intros g s1 st1 s1' st1' K1 _ Hinv Hrun. unfold attach_lambda in Hrun.
  eapply attach_inv; eassumption.
Qed.

Lemma rds_loop_inv (l : list rds_instance) sg_map st sg_map' st' K :
  sg_inv enumerated K sg_map ->
  foreach l (fun d => foreach (rds_security_groups d) (attach_rds d)) sg_map st
  = (Ok sg_map', st') ->
  sg_inv enumerated (flat_map rds_pairs l ++ K) sg_map'.
Proof.
  apply (foreach_collect (sg_inv enumerated) rds_pairs); [apply sg_inv_mono|].
  intros d s0 st0 s0' st0' K0 _. unfold rds_pairs.
  apply (foreach_collect (sg_inv enumerated) (fun g => [(rds_resource d, g)]));
    [apply sg_inv_mono|].
  intros g s1 st1 s1' st1' K1 _ Hinv Hrun. unfold attach_rds in Hrun.
  eapply attach_inv; eassumption.
Qed.

Lemma seeded_well_formed (sgs : list security_group) (sg_map : dict sg_entry) :
  (forall sg, In sg sgs -> In (sg_group_id sg) enumerated) ->
  (forall g e, dict_get g sg_map = Some e -> se_group_id e = g /\ In g enumerated) ->
  forall g e, dict_get g (fold_left (fun m sg => seed_sg sg m) sgs sg_map) = Some e ->
    se_group_id e = g /\ In g enumerated.
Proof.
  revert sg_map. induction sgs as [|sg sgs IH]; intros sg_map Hin Hm; simpl; [exact Hm|].
  apply IH; [intros sg0 H0; apply Hin; now right|].
  intros g e. unfold seed_sg. destruct (String.eqb_spec g (sg_group_id sg)) as [->|Hne].
  - rewrite dict_get_set_eq. intros H. injection H as <-. simpl.
    split; [reflexivity | apply Hin; now left].
  - rewrite dict_get_set_neq by assumption. apply Hm.
Qed.

End SgMap.

Lemma build_security_group_map_inv res st sg_map st' :
  _build_security_group_map res st = (Ok sg_map, st') ->
  sg_inv (map sg_group_id (security_groups res)) (references res) sg_map.
Proof.
  unfold _build_security_group_map, bind. intros H.
  set (E := map sg_group_id (security_groups res)) in *.
  set (m0 := fold_left (fun m sg => seed_sg sg m) (security_groups res) []) in *.
  assert (H0 : sg_inv E [] m0).
  { split; [|intros rg []].
    intros g e Hget.
    destruct (@seeded_well_formed E (security_groups res) []) with (g := g) (e := e)
      as [Hid Hin].
    - intros sg Hsg. unfold E. now apply in_map.
    - intros g0 e0 H0. discriminate.
    - exact Hget.
    - split; [assumption | tauto]. }
  destruct (foreach (ec2_instances res) _ m0 st) as [[m1|e1] st1] eqn:H1; [|discriminate].
  destruct (foreach (lambda_functions res) _ m1 st1) as [[m2|e2] st2] eqn:H2;
    [|discriminate].
  pose proof (ec2_loop_inv _ _ H0 H1) as I1.
  pose proof (lambda_loop_inv _ _ I1 H2) as I2.
  pose proof (rds_loop_inv _ _ I2 H) as I3.
  eapply sg_inv_mono; [|exact I3].
  unfold references. intros x Hx. rewrite !in_app_iff in *. tauto.
Qed.

(** *** When the builder returns *)

Lemma hash_keys_ids (refs : list sg_ref) :
  (forall sg, In sg refs -> exists g, sg = SgId g) -> exists gs, hash_keys refs = Ok gs.
Proof.
  induction refs as [|sg refs IH]; intros H; simpl; [now exists []|].
  destruct (H sg (or_introl eq_refl)) as [g ->]. simpl.
  destruct IH as [gs ->]; [intros sg Hsg; apply H; now right|]. now eexists.
Qed.

Lemma attach_total r rtype g sg_map st :
  exists sg_map' st', attach r rtype g sg_map st = (Ok sg_map', st').
Proof. unfold attach, bind, emit, ret. now eexists; eexists. Qed.

Lemma build_relationships_total set_order iam res st :
  roles_have_arn iam -> refs_are_ids res ->
  exists out st', build_relationships set_order iam res st = (Ok out, st').
Proof.
  intros Harn Hids. rewrite build_relationships_eq.
  assert (Hloops : exists role_map st1, role_map_loops iam res st = (Ok role_map, st1)).
  { unfold role_map_loops, bind.
    destruct (@foreach_total _ _ init_role (roles iam)) with (s := @nil (string * role_entry)) (st := st)
      as [rm1 [st1 ->]].
    { intros r s0 st0 Hr. unfold init_role.
      destruct (role_arn r) eqn:E; [|exfalso; now apply (Harn r Hr)].
      unfold ret. now eexists; eexists. }
    destruct (@foreach_total _ _ map_ec2_to_role (ec2_instances res)) with (s := rm1) (st := st1)
      as [rm2 [st2 ->]].
    { intros i s0 st0 Hi. unfold map_ec2_to_role.
      destruct (iam_instance_profile i) as [prof|]; [|unfold ret; now eexists; eexists].
      destruct (negb (prof =? EmptyString)%string && dict_mem prof s0);
        [|unfold ret; now eexists; eexists].
      destruct (@hash_keys_ids (ec2_security_groups i) (Hids i Hi)) as [gs Hgs].
      unfold bind, lift, emit, ret. rewrite Hgs. now eexists; eexists. }
    apply foreach_total. intros f s0 st0 _. unfold map_lambda_to_role.
    destruct (lambda_role f) as [arn|]; [|unfold ret; now eexists; eexists].
    destruct (negb (arn =? EmptyString)%string); [|unfold ret; now eexists; eexists].
    destruct (dict_mem (role_name_of_arn arn) s0); [|unfold ret; now eexists; eexists].
    unfold bind, emit, ret. now eexists; eexists. }
  destruct Hloops as [role_map [st1 ->]].
  assert (Hsg : exists sg_map st2, _build_security_group_map res st1 = (Ok sg_map, st2)).
  { unfold _build_security_group_map, bind.
    match goal with
    | |- context [foreach (ec2_instances res) ?b ?m st1] =>
        destruct (@foreach_total _ _ b (ec2_instances res)) with (s := m) (st := st1)
          as [m1 [st2 ->]]
    end.
    { intros i s0 st0 Hi. apply foreach_total. intros sg s1 st3 Hsg.
      destruct (Hids i Hi sg Hsg) as [g ->]. unfold attach_ec2, bind, lift. simpl.
      apply attach_total. }
    match goal with
    | |- context [foreach (lambda_functions res) ?b m1 st2] =>
        destruct (@foreach_total _ _ b (lambda_functions res)) with (s := m1) (st := st2)
          as [m2 [st3 ->]]
    end.
    { intros f s0 st0 _. apply foreach_total. intros g s1 st4 _. apply attach_total. }
    apply foreach_total. intros d s0 st0 _. apply foreach_total.
    intros g s1 st4 _. apply attach_total. }
  destruct Hsg as [sg_map [st2 ->]]. now eexists; eexists.
Qed.

(** When the instance records give their groups as ids (the shape the
    builder reads), a resource referring to a group id that is not
    enumerated ends up attached to an entry made for that id, named after
    the id and without Internet access. *)
Lemma referenced_group_is_synthesized set_order iam res st :
  roles_have_arn iam -> refs_are_ids res ->
  exists out st',
    build_relationships set_order iam res st = (Ok out, st')
    /\ forall r g,
        In (r, g) (references res) ->
        ~ In g (map sg_group_id (security_groups res)) ->
        exists e,
          dict_get g (security_group_mappings out) = Some e
          /\ se_group_id e = g /\ se_group_name e = g
          /\ se_has_internet_access e = false
          /\ In r (se_resources e).
Proof.
  intros Harn Hids.
  destruct (build_relationships_total set_order st Harn Hids) as [out [st' Hrun]].
  exists out, st'. split; [assumption|].
  destruct (build_relationships_ok _ _ _ _ Hrun) as [role_map [st1 [sg_map [_ [Hsg ->]]]]].
  simpl. destruct (build_security_group_map_inv _ _ Hsg) as [Hwf Hatt].
  intros r g Hin Hne. destruct (Hatt _ Hin) as [e [Hget Hr]]. simpl in *.
  exists e. destruct (Hwf _ _ Hget) as [Hid Hdef]. destruct (Hdef Hne). auto.
Qed.

(** The orphaned-reference scenario on a Lambda function. *)
Example orphan_reference_on_lambda :
  exists out st' e,
    build_relationships Examples.insertion_order Examples.no_iam
                        Examples.orphan_reference_lambda init = (Ok out, st')
    /\ dict_get "sg-999" (security_group_mappings out) = Some e
    /\ se_group_name e = "sg-999" /\ se_has_internet_access e = false
    /\ se_resources e = [SgLambda "job" "job" None].
Proof.
  do 3 eexists. split; [vm_compute; reflexivity|].
  split; [vm_compute; reflexivity|]. repeat split; reflexivity.
Qed.

End SgMapFacts.

(** * Further properties *)

(** ** Sorting by descending key *)

Section SortMore.
Variable A : Type.
Variable key : A -> Z.

Lemma insert_desc_sorted (x : A) (l : list A) :
  StronglySorted (fun a b => key b <= key a) l ->
  StronglySorted (fun a b => key b <= key a) (insert_desc key x l).
Proof.
  induction 1 as [|y l Hs IH Hall]; simpl.
  - repeat constructor.
  - destruct (key y <=? key x) eqn:E.
    + apply Z.leb_le in E. constructor; [now constructor|].
      constructor; [exact E|]. rewrite Forall_forall in *. intros z Hz.
      specialize (Hall z Hz). simpl in Hall. lia.
    + apply Z.leb_gt in E. constructor; [assumption|].
      rewrite Forall_forall in *. intros z Hz.
      apply (Permutation_in _ (insert_desc_perm key x l)) in Hz.
      destruct Hz as [<-|Hz]; [lia | auto].
Qed.

Lemma sort_desc_sorted (l : list A) :
  StronglySorted (fun a b => key b <= key a) (sort_desc key l).
Proof.
  induction l as [|x l IH]; simpl; [constructor | now apply insert_desc_sorted].
Qed.

(** Elements with the same key keep their order. *)
Lemma insert_desc_stable (k : Z) (x : A) (l : list A) :
  filter (fun a => key a =? k) (insert_desc key x l)
  = filter (fun a => key a =? k) (x :: l).
Proof.
  induction l as [|y l IH]; [reflexivity|]. cbn [insert_desc].
  destruct (key y <=? key x) eqn:E; [reflexivity|].
  apply Z.leb_gt in E. cbn [filter] in *. rewrite IH.
  destruct (key x =? k) eqn:Ex; destruct (key y =? k) eqn:Ey; try reflexivity.
  apply Z.eqb_eq in Ex, Ey. lia.
Qed.

Lemma sort_desc_stable (k : Z) (l : list A) :
  filter (fun a => key a =? k) (sort_desc key l) = filter (fun a => key a =? k) l.
Proof.
  induction l as [|x l IH]; [reflexivity|]. simpl sort_desc.
  rewrite insert_desc_stable. cbn [filter]. now rewrite IH.
Qed.

Lemma sorted_app_inv (R : A -> A -> Prop) (l1 l2 : list A) :
  StronglySorted R (l1 ++ l2) ->
  StronglySorted R l1 /\ StronglySorted R l2
  /\ forall a b, In a l1 -> In b l2 -> R a b.
Proof.
  induction l1 as [|x l1 IH]; simpl; intros H.
  - repeat split; [constructor | assumption | contradiction].
  - apply StronglySorted_inv in H. destruct H as [Hs Hall].
    destruct (IH Hs) as [H1 [H2 H3]]. rewrite Forall_forall in Hall.
    repeat split; [|assumption|].
    + constructor; [assumption|]. rewrite Forall_forall. intros z Hz.
      apply Hall, in_app_iff. now left.
    + intros a b [<-|Ha] Hb; [apply Hall, in_app_iff; now right | auto].
Qed.
End SortMore.

Module AnalyzerExtras.
Import RiskAnalyzer AnalyzerSpec RiskAnalyzerFacts.

(** X1.  The headline list of a successful [analyze_all] is made of the
    highest-scored findings: it has min(10, total) entries, in descending
    score order, and no finding left out of it scores higher than one in
    it. *)
Theorem top_risks_are_the_highest cfg now iam res st out st' :
  analyze_all cfg now iam res st = (Ok out, st') ->
  len (top_risks out) = Z.min 10 (total_risks (r_risk_summary out))
  /\ StronglySorted (fun f g => risk_score g <= risk_score f) (top_risks out)
  /\ exists rest,
      Permutation (all_findings out) (top_risks out ++ rest)
      /\ forall f g, In f (top_risks out) -> In g rest ->
           risk_score g <= risk_score f.
Proof.
  intros Hrun.
  destruct (analyze_all_ok _ _ _ _ _ Hrun) as [resr [_ [_ [_ [Htop Hsum]]]]].
  rewrite Htop, Hsum. cbn [total_risks].
  set (srt := sort_desc risk_score (all_findings out)).
  pose proof (sort_desc_sorted risk_score (all_findings out)) as Hs. fold srt in Hs.
  rewrite <- (firstn_skipn 10 srt) in Hs. apply sorted_app_inv in Hs.
  destruct Hs as [H1 [_ H3]].
  split; [|split].
  - unfold len. rewrite length_firstn. lia.
  - exact H1.
  - exists (skipn 10 srt). split; [|exact H3].
    rewrite firstn_skipn. apply Permutation_sym, sort_desc_perm.
Qed.

Lemma top_risks_are_the_highest_witness :
  exists out st',
    analyze_all default_settings "t" Examples.role_and_users
                Examples.public_behind_closed_sg init = (Ok out, st')
    /\ map risk_score (top_risks out) = [90; 80; 75]
    /\ StronglySorted (fun f g => risk_score g <= risk_score f) (top_risks out).
Proof.
  eexists. eexists. split; [reflexivity|].
  destruct (@top_risks_are_the_highest default_settings "t" Examples.role_and_users
              Examples.public_behind_closed_sg init _ _ eq_refl) as [_ [Hs _]].
  split; [reflexivity | exact Hs].
Defined.

(** X2.  Sorting never reorders findings of equal score: among findings
    with one score, the sorted list (and so the bucket lists and the
    headline list) keeps the order identity, resource, network in which
    the rules emitted them. *)
Theorem equal_scores_keep_rule_order cfg now iam res st out st' (k : Z) :
  analyze_all cfg now iam res st = (Ok out, st') ->
  exists sorted,
    top_risks out = firstn 10 sorted
    /\ Permutation sorted (all_findings out)
    /\ StronglySorted (fun f g => risk_score g <= risk_score f) sorted
    /\ filter (fun f => risk_score f =? k) sorted
       = filter (fun f => risk_score f =? k) (all_findings out).
Proof.
  intros Hrun.
  destruct (analyze_all_ok _ _ _ _ _ Hrun) as [resr [_ [_ [_ [Htop _]]]]].
  exists (sort_desc risk_score (all_findings out)).
  split; [assumption|]. split; [apply sort_desc_perm|].
  split; [apply sort_desc_sorted | apply sort_desc_stable].
Qed.

Lemma equal_scores_keep_rule_order_witness :
  exists out st',
    analyze_all default_settings "t" Examples.role_and_users
                Examples.public_behind_closed_sg init = (Ok out, st')
    /\ exists sorted,
        top_risks out = firstn 10 sorted
        /\ Permutation sorted (all_findings out)
        /\ StronglySorted (fun f g => risk_score g <= risk_score f) sorted
        /\ filter (fun f => risk_score f =? 75) sorted
           = filter (fun f => risk_score f =? 75) (all_findings out).
Proof.
  eexists. eexists. split; [reflexivity|].
  exact (@equal_scores_keep_rule_order default_settings "t" Examples.role_and_users
           Examples.public_behind_closed_sg init _ _ 75 eq_refl).
Defined.

(** X3.  The summary of a call counts, per bucket, the findings that the
    instance has accumulated: the four bucket counts add up to the total
    of this call plus what the accumulators held before it.  On a fresh
    analyzer they add up to [total_risks], which is the number of findings
    of the call. *)
Theorem summary_counts_add_up cfg now iam res st out st' :
  analyze_all cfg now iam res st = (Ok out, st') ->
  let s := r_risk_summary out in
  total_risks s = len (all_findings out)
  /\ n_critical s + n_high s + n_medium s + n_low s
     = total_risks s + len (rs_critical st) + len (rs_high st)
       + len (rs_medium st) + len (rs_low st)
  /\ (st = init -> n_critical s + n_high s + n_medium s + n_low s = total_risks s).
Proof.
  intros Hrun.
  destruct (analyze_all_ok _ _ _ _ _ Hrun) as [resr [_ [_ [Hst [_ Hsum]]]]].
  rewrite Hsum. cbv zeta. simpl.
  set (srt := sort_desc risk_score (all_findings out)) in *.
  assert (Hlen : len srt = len (all_findings out)).
  { unfold len. f_equal. apply Permutation_length, sort_desc_perm. }
  assert (Hsumeq : len (rs_critical st') + len (rs_high st') + len (rs_medium st')
                   + len (rs_low st')
                   = len srt + len (rs_critical st) + len (rs_high st)
                     + len (rs_medium st) + len (rs_low st)).
  { rewrite Hst, categorize_filter. simpl.
    pose proof (Permutation_length (bucket_partition cfg srt)) as Hp.
    unfold len. rewrite !length_app in *. lia. }
  split; [assumption|]. split; [exact Hsumeq|].
  intros ->. rewrite Hsumeq. unfold len. simpl. lia.
Qed.

Lemma summary_counts_add_up_witness :
  exists out st',
    analyze_all default_settings "t" Examples.role_and_users
                Examples.public_behind_closed_sg init = (Ok out, st')
    /\ n_critical (r_risk_summary out) + n_high (r_risk_summary out)
       + n_medium (r_risk_summary out) + n_low (r_risk_summary out)
       = total_risks (r_risk_summary out).
Proof.
  eexists. eexists. split; [reflexivity|].
  destruct (@summary_counts_add_up default_settings "t" Examples.role_and_users
              Examples.public_behind_closed_sg init _ _ eq_refl) as [_ [_ H]].
  exact (H eq_refl).
Defined.

End AnalyzerExtras.

Module AnalyzerErrors.
Import RiskAnalyzer AnalyzerSpec RiskAnalyzerFacts.

Lemma ref_group_ids_cases (refs : list sg_ref) :
  (exists gs, ref_group_ids refs = Ok gs
              /\ forall r, In r refs -> exists g n, r = SgRecord g n)
  \/ (ref_group_ids refs = Raise (TypeError "string indices must be integers, not 'str'")
      /\ exists g, In (SgId g) refs).
Proof.
  induction refs as [|r refs IH]; simpl.
  - left. exists []. split; [reflexivity | contradiction].
  - destruct r as [g|g n]; simpl.
    + right. split; [reflexivity|]. exists g. now left.
    + destruct IH as [[gs [-> Hall]]|[-> [g' Hg']]].
      * left. eexists. split; [reflexivity|].
        intros r [<-|Hr]; [now exists g, n | auto].
      * right. split; [reflexivity|]. exists g'. now right.
Qed.

Lemma ec2_public_findings_cases (l : list ec2_instance) :
  (exists fs, ec2_public_findings l = Ok fs
     /\ forall i r, In i l -> ec2_is_public i = true ->
          In r (ec2_security_groups i) -> exists g n, r = SgRecord g n)
  \/ (ec2_public_findings l = Raise (TypeError "string indices must be integers, not 'str'")
      /\ exists i g, In i l /\ ec2_is_public i = true
                     /\ In (SgId g) (ec2_security_groups i)).
Proof.
  induction l as [|i l IH]; simpl.
  - left. exists []. split; [reflexivity | contradiction].
  - destruct (ec2_is_public i) eqn:Hpub.
    + unfold ec2_public_finding.
      destruct (ref_group_ids_cases (ec2_security_groups i))
        as [[gs [-> Hall]]|[-> [g Hg]]].
      * destruct IH as [[fs [-> Hfs]]|[-> [j [g [Hj [Hp Hg]]]]]].
        -- left. eexists. split; [reflexivity|].
           intros j r [<-|Hj] Hp Hr; [now apply Hall | eapply Hfs; eassumption].
        -- right. split; [reflexivity|]. exists j, g. auto.
      * right. split; [reflexivity|]. exists i, g. auto.
    + destruct IH as [[fs [-> Hfs]]|[-> [j [g [Hj [Hp Hg]]]]]].
      * left. eexists. split; [reflexivity|].
        intros j r [<-|Hj] Hp Hr; [congruence | eapply Hfs; eassumption].
      * right. split; [reflexivity|]. exists j, g. auto.
Qed.

(** X4.  [analyze_all] fails exactly when some public EC2 instance lists a
    security group as a bare id instead of a record: it then raises the
    TypeError of the subscript [sg['group_id']] and leaves the
    accumulators of the instance as they were.  On every other input it
    returns a result; no other rule can fail. *)
Theorem analyze_all_fails_exactly cfg now iam res st :
  ((exists out st', analyze_all cfg now iam res st = (Ok out, st'))
   <-> forall i r, In i (ec2_instances res) -> ec2_is_public i = true ->
         In r (ec2_security_groups i) -> exists g n, r = SgRecord g n)
  /\ (analyze_all cfg now iam res st
        = (Raise (TypeError "string indices must be integers, not 'str'"), st)
      <-> exists i g, In i (ec2_instances res) /\ ec2_is_public i = true
                      /\ In (SgId g) (ec2_security_groups i)).
Proof.
  unfold analyze_all, analyze_resource_risks.
  destruct (ec2_public_findings_cases (ec2_instances res))
    as [[fs [-> Hall]]|[-> [i [g [Hi [Hp Hg]]]]]].
  - split; split.
    + intros _. exact Hall.
    + intros _. eexists. eexists. reflexivity.
    + discriminate.
    + intros [i [g [Hi [Hp Hg]]]].
      destruct (Hall i _ Hi Hp Hg) as [g' [n Heq]]. discriminate.
  - split; split.
    + intros [out [st' H]]. discriminate.
    + intros Hall. destruct (Hall i _ Hi Hp Hg) as [g' [n Heq]]. discriminate.
    + intros _. exists i, g. auto.
    + reflexivity.
Qed.

(** X5.  The identity rules report nothing exactly for a clean account
    (every user has MFA, is active and has at most one active access key,
    and no role is administrative), and they never report more than three
    findings per user and one per role.  Every finding is about a user or
    a role of the input that meets the rule it was raised by. *)
Theorem identity_findings_sound (iam : iam_data) :
  (analyze_identity_risks iam = [] <->
     (forall u, In u (users iam) ->
        mfa_enabled u = true /\ is_inactive u = false
        /\ len (active_keys u) <= 1)
     /\ (forall r, In r (roles iam) -> role_is_admin r = false))
  /\ len (analyze_identity_risks iam) <= 3 * len (users iam) + len (roles iam)
  /\ forall f, In f (analyze_identity_risks iam) ->
       (exists u, In u (users iam) /\ resource_id f = username u
                  /\ resource_type f = "iam_user"
                  /\ ((risk_score f = 75 /\ mfa_enabled u = false)
                      \/ (risk_score f = 60 /\ is_inactive u = true)
                      \/ (risk_score f = 55 /\ 1 < len (active_keys u))))
       \/ (exists r, In r (roles iam) /\ resource_id f = role_name r
                     /\ resource_type f = "iam_role"
                     /\ risk_score f = 80 /\ role_is_admin r = true).
Proof.
  unfold analyze_identity_risks.
  assert (Hnil : forall (A : Type) (g : A -> finding) (p : A -> bool) (l : list A),
             map g (filter p l) = [] <-> forall a, In a l -> p a = false).
  { intros A g p l. induction l as [|a l IH]; simpl.
    - split; [intros _ b [] | reflexivity].
    - destruct (p a) eqn:E; simpl.
      + split; [discriminate|]. intros H. specialize (H a (or_introl eq_refl)). congruence.
      + rewrite IH. split.
        * intros H b [<-|Hb]; auto.
        * intros H b Hb. apply H. now right. }
  split; [|split].
  - split.
    + intros H.
      apply app_eq_nil in H. destruct H as [H1 H].
      apply app_eq_nil in H. destruct H as [H2 H].
      apply app_eq_nil in H. destruct H as [H3 H4].
      rewrite Hnil in H1, H2, H3, H4. split.
      * intros u Hu. specialize (H1 u Hu). specialize (H2 u Hu). specialize (H4 u Hu).
        apply negb_false_iff in H1. apply Z.ltb_ge in H4. auto.
      * exact H3.
    + intros [Hu Hr].
      assert (E1 : map mfa_finding (filter (fun u => negb (mfa_enabled u)) (users iam)) = []).
      { apply Hnil. intros u H. destruct (Hu u H) as [-> _]. reflexivity. }
      assert (E2 : map inactive_finding (filter is_inactive (users iam)) = []).
      { apply Hnil. intros u H. now destruct (Hu u H) as [_ [-> _]]. }
      assert (E3 : map admin_finding (filter role_is_admin (roles iam)) = []).
      { apply Hnil. exact Hr. }
      assert (E4 : map multikey_finding
                     (filter (fun u => 1 <? len (active_keys u)) (users iam)) = []).
      { apply Hnil. intros u H. apply Z.ltb_ge. now destruct (Hu u H) as [_ [_ Hk]]. }
      rewrite E1, E2, E3, E4. reflexivity.
  - set (p1 := fun u => negb (mfa_enabled u)).
    set (p4 := fun u => 1 <? len (active_keys u)).
    unfold len. rewrite !length_app, !length_map.
    pose proof (filter_length_le p1 (users iam)).
    pose proof (filter_length_le is_inactive (users iam)).
    pose proof (filter_length_le role_is_admin (roles iam)).
    pose proof (filter_length_le p4 (users iam)).
    lia.
  - intros f. rewrite !in_app_iff, !in_map_iff.
    intros [[u [<- Hu]]|[[u [<- Hu]]|[[r [<- Hr]]|[u [<- Hu]]]]];
      apply filter_In in Hu || apply filter_In in Hr.
    + destruct Hu as [Hu Hp]. apply negb_true_iff in Hp.
      left. exists u. simpl. auto 10.
    + destruct Hu as [Hu Hp]. left. exists u. simpl. auto 10.
    + destruct Hr as [Hr Hp]. right. exists r. simpl. auto 10.
    + destruct Hu as [Hu Hp]. apply Z.ltb_lt in Hp. left. exists u. simpl. auto 10.
Qed.

End AnalyzerErrors.

Module BuilderErrors.
Import RelationshipBuilder BuilderSpec BuilderVocabulary BuilderFacts SgMapFacts.

(** A loop whose bodies can only fail with [e] fails with [e] as soon as
    one element makes its body fail whatever the state. *)
Lemma foreach_raises (A S : Type) (e : py_exn) (body : A -> S -> M S) (l : list A) :
  (forall a s st, In a l ->
     (exists s' st', body a s st = (Ok s', st'))
     \/ (exists st', body a s st = (Raise e, st'))) ->
  (exists a, In a l /\ forall s st, exists st', body a s st = (Raise e, st')) ->
  forall s st, exists st', foreach l body s st = (Raise e, st').
Proof.
  induction l as [|a l IH]; intros Hbody [b [Hb Hraise]] s st.
  - contradiction.
  - simpl. unfold bind.
    destruct (Hbody a s st (or_introl eq_refl)) as [[s1 [st1 E]]|[st1 E]]; rewrite E.
    + destruct Hb as [<-|Hb].
      * destruct (Hraise s st) as [st2 E2]. congruence.
      * apply IH; [|now exists b]. intros a0 s0 st0 H0. apply Hbody. now right.
    + now exists st1.
Qed.

Lemma foreach_ok_or_raises (A S : Type) (e : py_exn) (body : A -> S -> M S) (l : list A) :
  (forall a s st, In a l ->
     (exists s' st', body a s st = (Ok s', st'))
     \/ (exists st', body a s st = (Raise e, st'))) ->
  forall s st,
    (exists s' st', foreach l body s st = (Ok s', st'))
    \/ (exists st', foreach l body s st = (Raise e, st')).
Proof.
  induction l as [|a l IH]; intros Hbody s st.
  - left. now exists s, st.
  - simpl. unfold bind.
    destruct (Hbody a s st (or_introl eq_refl)) as [[s1 [st1 E]]|[st1 E]]; rewrite E.
    + apply IH. intros a0 s0 st0 H0. apply Hbody. now right.
    + right. now exists st1.
Qed.

(** The first loop of [_build_role_resource_map] appends nothing; it stops
    at the first role record without an [arn] key. *)
Lemma init_loop_cases (l : list role) (role_map : dict role_entry)
      (st : list relationship) :
  (exists role_map', foreach l init_role role_map st = (Ok role_map', st)
                     /\ forall r, In r l -> role_arn r <> None)
  \/ (foreach l init_role role_map st = (Raise (KeyError "arn"), st)
      /\ exists r, In r l /\ role_arn r = None).
Proof.
  revert role_map. induction l as [|r l IH]; intros role_map; simpl.
  - left. exists role_map. split; [reflexivity | contradiction].
  - unfold bind.
    destruct (init_role r role_map st) as [[m|e] st1] eqn:Hbody;
      unfold init_role in Hbody; destruct (role_arn r) as [a|] eqn:E;
      unfold ret, raise in Hbody; try discriminate.
    + injection Hbody as <- <-.
      match goal with |- context [foreach l init_role ?m st] =>
        destruct (IH m) as [[rm' [-> Hall]]|[-> [r' [Hr' Hn]]]] end.
      * left. exists rm'. split; [reflexivity|].
        intros r0 [<-|H0]; [congruence | auto].
      * right. split; [reflexivity|]. exists r'. auto.
    + injection Hbody as <- <-.
      right. split; [reflexivity|]. exists r. auto.
Qed.

Lemma hash_keys_cases (refs : list sg_ref) :
  (exists gs, hash_keys refs = Ok gs /\ forall sg, In sg refs -> exists g, sg = SgId g)
  \/ (hash_keys refs = Raise unhashable /\ exists g n, In (SgRecord g n) refs).
Proof.
  induction refs as [|sg refs IH]; simpl.
  - left. exists []. split; [reflexivity | contradiction].
  - destruct sg as [g|g n]; simpl.
    + destruct IH as [[gs [-> Hall]]|[-> [g' [n' H]]]].
      * left. eexists. split; [reflexivity|].
        intros sg [<-|Hsg]; [now exists g | auto].
      * right. split; [reflexivity|]. exists g', n'. now right.
    + right. split; [reflexivity|]. exists g, n. now left.
Qed.

Lemma map_ec2_to_role_cases i role_map st :
  (exists s' st', map_ec2_to_role i role_map st = (Ok s', st'))
  \/ (exists st', map_ec2_to_role i role_map st = (Raise unhashable, st')).
Proof.
  unfold map_ec2_to_role.
  destruct (iam_instance_profile i) as [p|]; [|left; unfold ret; now eexists; eexists].
  destruct (negb (p =? EmptyString)%string && dict_mem p role_map);
    [|left; unfold ret; now eexists; eexists].
  unfold bind, lift, emit, ret.
  destruct (hash_keys_cases (ec2_security_groups i)) as [[gs [-> _]]|[-> _]].
  - left. now eexists; eexists.
  - right. now eexists.
Qed.

Lemma map_lambda_to_role_ok f role_map st :
  exists s' st', map_lambda_to_role f role_map st = (Ok s', st').
Proof.
  unfold map_lambda_to_role.
  destruct (lambda_role f) as [arn|]; [|unfold ret; now eexists; eexists].
  destruct (negb (arn =? EmptyString)%string); [|unfold ret; now eexists; eexists].
  destruct (dict_mem (role_name_of_arn arn) role_map); [|unfold ret; now eexists; eexists].
  unfold bind, emit, ret. now eexists; eexists.
Qed.

Lemma role_map_loops_cases iam res st :
  (exists r, In r (roles iam) /\ role_arn r = None)
  /\ role_map_loops iam res st = (Raise (KeyError "arn"), st)
  \/ roles_have_arn iam
     /\ ((exists role_map st', role_map_loops iam res st = (Ok role_map, st'))
         \/ (exists st', role_map_loops iam res st = (Raise unhashable, st'))).
Proof.
  unfold role_map_loops, bind.
  destruct (init_loop_cases (roles iam) [] st) as [[rm [-> Hall]]|[-> Hex]].
  - right. split; [exact Hall|].
    destruct (@foreach_ok_or_raises _ _ unhashable map_ec2_to_role (ec2_instances res))
      with (s := rm) (st := st) as [[rm2 [st2 ->]]|[st2 ->]].
    { intros i s0 st0 _. apply map_ec2_to_role_cases. }
    + left. apply foreach_total. intros f s0 st0 _. apply map_lambda_to_role_ok.
    + right. now exists st2.
  - left. split; [exact Hex | reflexivity].
Qed.

Lemma attach_ec2_cases i sg sg_map st :
  (exists s' st', attach_ec2 i sg sg_map st = (Ok s', st'))
  \/ (exists st', attach_ec2 i sg sg_map st = (Raise unhashable, st')).
Proof.
  unfold attach_ec2, bind, lift. destruct sg as [g|g n]; simpl.
  - left. apply attach_total.
  - right. now exists st.
Qed.

Lemma sg_map_raises res st :
  (exists i g n, In i (ec2_instances res) /\ In (SgRecord g n) (ec2_security_groups i)) ->
  exists st', _build_security_group_map res st = (Raise unhashable, st').
Proof.
  intros [i [g [n [Hi Hsg]]]].
  unfold _build_security_group_map, bind.
  match goal with
  | |- context [foreach (ec2_instances res) ?b ?m st] =>
      destruct (@foreach_raises _ _ unhashable b (ec2_instances res)) with (s := m) (st := st)
        as [st1 ->]
  end.
  - intros j s0 st0 _. apply foreach_ok_or_raises.
    intros sg s1 st1 _. apply attach_ec2_cases.
  - exists i. split; [assumption|]. intros s0 st0. apply foreach_raises.
    + intros sg s1 st1 _. apply attach_ec2_cases.
    + exists (SgRecord g n). split; [assumption|]. intros s1 st1.
      exists st1. reflexivity.
  - now exists st1.
Qed.

Lemma refs_decide (l : list ec2_instance) :
  (forall i, In i l -> forall sg, In sg (ec2_security_groups i) -> exists g, sg = SgId g)
  \/ exists i g n, In i l /\ In (SgRecord g n) (ec2_security_groups i).
Proof.
  induction l as [|i l IH].
  - left. intros i [].
  - destruct (hash_keys_cases (ec2_security_groups i)) as [[gs [_ Hall]]|[_ [g [n H]]]].
    + destruct IH as [IH|[j [g [n [Hj H]]]]].
      * left. intros j [<-|Hj]; [exact Hall | now apply IH].
      * right. exists j, g, n. split; [now right | assumption].
    + right. exists i, g, n. split; [now left | assumption].
Qed.

(** X6.  [build_relationships] has exactly two ways to fail.  It raises
    KeyError('arn'), with nothing recorded, exactly when a role record
    lacks its [arn]; otherwise it raises TypeError (unhashable dict)
    exactly when an EC2 instance gives a security group as a record
    instead of an id; and it returns a result exactly when neither
    happens. *)
Theorem build_relationships_fails_exactly set_order iam res st :
  ((exists out st', build_relationships set_order iam res st = (Ok out, st'))
   <-> roles_have_arn iam /\ refs_are_ids res)
  /\ (build_relationships set_order iam res st = (Raise (KeyError "arn"), st)
      <-> exists r, In r (roles iam) /\ role_arn r = None)
  /\ ((exists st', build_relationships set_order iam res st
                   = (Raise (TypeError "unhashable type: 'dict'"), st'))
      <-> roles_have_arn iam
          /\ exists i g n, In i (ec2_instances res)
                           /\ In (SgRecord g n) (ec2_security_groups i)).
Proof.
  assert (Hkey : (exists r, In r (roles iam) /\ role_arn r = None) ->
                 build_relationships set_order iam res st = (Raise (KeyError "arn"), st)).
  { intros Hex. rewrite build_relationships_eq.
    destruct (role_map_loops_cases iam res st) as [[_ ->]|[Harn _]]; [reflexivity|].
    destruct Hex as [r [Hr Hn]]. exfalso. exact (Harn r Hr Hn). }
  assert (Htype : roles_have_arn iam ->
                  (exists i g n, In i (ec2_instances res)
                                 /\ In (SgRecord g n) (ec2_security_groups i)) ->
                  exists st', build_relationships set_order iam res st
                              = (Raise unhashable, st')).
  { intros Harn Hex. rewrite build_relationships_eq.
    destruct (role_map_loops_cases iam res st)
      as [[[r [Hr Hn]] _]|[_ [[rm [st1 ->]]|[st1 ->]]]].
    - exfalso. exact (Harn r Hr Hn).
    - destruct (@sg_map_raises res st1 Hex) as [st2 ->]. now exists st2.
    - now exists st1. }
  assert (Hok : roles_have_arn iam -> refs_are_ids res ->
                exists out st', build_relationships set_order iam res st = (Ok out, st')).
  { apply build_relationships_total. }
  assert (Harn_of : (forall e st', build_relationships set_order iam res st
                                   <> (Raise (KeyError e), st')) ->
                    roles_have_arn iam).
  { intros Hno r Hr Hn. apply (Hno "arn" st). apply Hkey. now exists r. }
  split; [|split].
  - split; [|intros [Ha Hi]; now apply Hok].
    intros [out [st' Hrun]].
    assert (Harn : roles_have_arn iam).
    { apply Harn_of. intros e st0. rewrite Hrun. discriminate. }
    split; [exact Harn|].
    intros i Hi sg Hsg. destruct sg as [g|g n]; [now exists g|].
    destruct Htype as [st0 H0]; [exact Harn | now exists i, g, n |].
    rewrite Hrun in H0. discriminate.
  - split; [|exact Hkey].
    intros Hrun. rewrite build_relationships_eq in Hrun.
    destruct (role_map_loops_cases iam res st)
      as [[Hex _]|[_ [[rm [st1 E]]|[st1 E]]]]; [exact Hex| |].
    + rewrite E in Hrun.
      unfold _build_security_group_map, bind in Hrun.
      exfalso.
      match type of Hrun with
      | context [foreach (ec2_instances res) ?b ?m st1] =>
          destruct (@foreach_ok_or_raises _ _ unhashable b (ec2_instances res))
            with (s := m) (st := st1) as [[m1 [st2 E1]]|[st2 E1]]
      end.
      { intros j s0 st0 _. apply foreach_ok_or_raises.
        intros sg s1 st2 _. apply attach_ec2_cases. }
      * rewrite E1 in Hrun.
        match type of Hrun with
        | context [foreach (lambda_functions res) ?b m1 st2] =>
            destruct (@foreach_total _ _ b (lambda_functions res)) with (s := m1) (st := st2)
              as [m2 [st3 E2]]
        end.
        { intros f s0 st0 _. apply foreach_total. intros g s1 st4 _. apply attach_total. }
        rewrite E2 in Hrun.
        match type of Hrun with
        | context [foreach (rds_instances res) ?b m2 st3] =>
            destruct (@foreach_total _ _ b (rds_instances res)) with (s := m2) (st := st3)
              as [m3 [st4 E3]]
        end.
        { intros d s0 st0 _. apply foreach_total. intros g s1 st5 _. apply attach_total. }
        rewrite E3 in Hrun. discriminate.
      * rewrite E1 in Hrun. discriminate.
    + rewrite E in Hrun. discriminate.
  - split.
    + intros [st' Hrun].
      assert (Harn : roles_have_arn iam).
      { apply Harn_of. intros e st0. rewrite Hrun. discriminate. }
      split; [exact Harn|].
      destruct (refs_decide (ec2_instances res)) as [Hids|Hex]; [|exact Hex].
      destruct (Hok Harn Hids) as [out [st0 H0]]. rewrite Hrun in H0. discriminate.
    + intros [Harn Hex]. now apply Htype.
Qed.

End BuilderErrors.

(** ** What the two maps hold *)

Section DictMore.
Variable V : Type.
Implicit Types (d : dict V) (k : string).

Lemma dict_set_keys k (v : V) d :
  map fst (dict_set k v d)
  = if dict_mem k d then map fst d else map fst d ++ [k].
Proof.
  unfold dict_mem. induction d as [|[k' v'] d IH]; simpl; [reflexivity|].
  destruct (k' =? k)%string eqn:E; simpl.
  - apply String.eqb_eq in E. now subst.
  - rewrite IH. now destruct (dict_get k d).
Qed.

Lemma dict_modify_keys k (f : V -> V) d : map fst (dict_modify k f d) = map fst d.
Proof.
  induction d as [|[k' v'] d IH]; simpl; [reflexivity|].
  destruct (k' =? k)%string; simpl; now rewrite ?IH.
Qed.

Lemma dict_get_None k d : dict_get k d = None <-> ~ In k (map fst d).
Proof.
  induction d as [|[k' v'] d IH]; simpl; [tauto|].
  destruct (k' =? k)%string eqn:E.
  - apply String.eqb_eq in E. split; [discriminate | tauto].
  - apply String.eqb_neq in E. rewrite IH. tauto.
Qed.

Lemma dict_set_nodup k (v : V) d : NoDup (map fst d) -> NoDup (map fst (dict_set k v d)).
Proof.
  intros H. rewrite dict_set_keys. unfold dict_mem.
  destruct (dict_get k d) eqn:E; [assumption|].
  apply dict_get_None in E.
  apply NoDup_app; [assumption | repeat constructor; intros [] |].
  intros x Hx [<-|[]]. contradiction.
Qed.

Lemma dict_get_In k (v : V) d : dict_get k d = Some v -> In (k, v) d.
Proof.
  induction d as [|[k' v'] d IH]; simpl; [discriminate|].
  destruct (k' =? k)%string eqn:E.
  - apply String.eqb_eq in E. intros [= ->]. left. now subst.
  - intros H. right. auto.
Qed.

Lemma In_dict_get k (v : V) d : NoDup (map fst d) -> In (k, v) d -> dict_get k d = Some v.
Proof.
  induction d as [|[k' v'] d IH]; simpl; [contradiction|].
  intros Hnd [Heq|Hin].
  - injection Heq as -> ->. now rewrite String.eqb_refl.
  - apply NoDup_cons_iff in Hnd. destruct Hnd as [Hk Hnd].
    destruct (k' =? k)%string eqn:E; [|auto].
    apply String.eqb_eq in E. subst k'. exfalso. apply Hk.
    apply in_map_iff. now exists (k, v).
Qed.

Lemma dict_get_map (W : Type) (f : V -> W) k d :
  dict_get k (map (fun kv => (fst kv, f (snd kv))) d) = option_map f (dict_get k d).
Proof.
  induction d as [|[k' v'] d IH]; simpl; [reflexivity|].
  destruct (k' =? k)%string; auto.
Qed.
End DictMore.

Module MapFacts.
Import RelationshipBuilder BuilderSpec BuilderVocabulary MapSpec BuilderFacts SgMapFacts.

(** A loop that accumulates, in order, what each element contributes. *)
Lemma foreach_acc (A S T : Type) (inv : list T -> S -> list relationship -> Prop)
      (items : A -> list T) (body : A -> S -> M S) (l : list A) :
  (forall a s st s' st' K,
      In a l -> inv K s st -> body a s st = (Ok s', st') -> inv (K ++ items a) s' st') ->
  forall s st s' st' K,
    inv K s st -> foreach l body s st = (Ok s', st') ->
    inv (K ++ flat_map items l) s' st'.
Proof.
  induction l as [|a l IH]; intros Hbody s st s' st' K Hs Hrun; simpl in Hrun.
  - unfold ret in Hrun. injection Hrun as <- <-. simpl. now rewrite app_nil_r.
  - unfold bind in Hrun. destruct (body a s st) as [[s1|e] st1] eqn:Hb; [|discriminate].
    simpl. rewrite app_assoc. eapply IH; [| |exact Hrun].
    + intros a0 s0 st0 s0' st0' K0 Hin. apply Hbody. now right.
    + eapply Hbody; [now left | exact Hs | exact Hb].
Qed.

Lemma grown_refl e : grown [] e e.
Proof. unfold grown. rewrite app_nil_r. tauto. Qed.

Lemma grown_trans rs1 rs2 e1 e2 e3 :
  grown rs1 e1 e2 -> grown rs2 e2 e3 -> grown (rs1 ++ rs2) e1 e3.
Proof.
  unfold grown. intros [A1 [A2 [A3 [A4 [A5 A6]]]]] [B1 [B2 [B3 [B4 [B5 B6]]]]].
  rewrite B1, B2, B3, B4, B5, B6, A6, app_assoc. tauto.
Qed.

Lemma tracks_refl rm : tracks (fun _ => []) rm rm.
Proof.
  intros k. destruct (dict_get k rm) as [e|]; [|reflexivity].
  exists e. split; [reflexivity | apply grown_refl].
Qed.

Lemma tracks_trans r1 r2 rm1 rm2 rm3 :
  tracks r1 rm1 rm2 -> tracks r2 rm2 rm3 -> tracks (fun k => r1 k ++ r2 k) rm1 rm3.
Proof.
  intros H1 H2 k. specialize (H1 k). specialize (H2 k).
  destruct (dict_get k rm1) as [e1|].
  - destruct H1 as [e2 [E2 G1]]. rewrite E2 in H2. destruct H2 as [e3 [E3 G2]].
    exists e3. split; [assumption | eapply grown_trans; eassumption].
  - now rewrite H1 in H2.
Qed.

Lemma tracks_ext r r' rm1 rm2 :
  (forall k, r k = r' k) -> tracks r rm1 rm2 -> tracks r' rm1 rm2.
Proof.
  intros Hext H k. specialize (H k). rewrite <- Hext. exact H.
Qed.

Lemma tracks_mem r rm1 rm2 k : tracks r rm1 rm2 -> dict_mem k rm2 = dict_mem k rm1.
Proof.
  intros H. specialize (H k). unfold dict_mem.
  destruct (dict_get k rm1); [destruct H as [e' [-> _]]; reflexivity | now rewrite H].
Qed.

Lemma map_ec2_to_role_spec names i rm st rm' st' :
  (forall k, dict_mem k rm = str_in k names) ->
  map_ec2_to_role i rm st = (Ok rm', st') ->
  st' = st ++ assumes_ec2 names i
  /\ tracks (fun k => if profile_is k i then [ec2_info i] else []) rm rm'.
Proof.
  intros Hmem. unfold map_ec2_to_role, assumes_ec2, profile_is.
  destruct (iam_instance_profile i) as [p|].
  2:{ unfold ret. intros [= <- <-]. rewrite app_nil_r. split; [reflexivity | apply tracks_refl]. }
  rewrite <- Hmem.
  destruct (negb (p =? EmptyString)%string) eqn:Hp; simpl.
  2:{ unfold ret. intros [= <- <-]. rewrite app_nil_r. split; [reflexivity | apply tracks_refl]. }
  destruct (dict_mem p rm) eqn:Hin.
  - unfold bind, lift, emit, ret.
    destruct (hash_keys (ec2_security_groups i)) as [sgs|]; [|discriminate].
    intros [= <- <-]. split; [reflexivity|].
    intros k. destruct (String.eqb_spec p k) as [<-|Hne].
    + rewrite dict_get_modify_eq. unfold dict_mem in Hin.
      destruct (dict_get p rm) as [e|]; [|discriminate].
      eexists. split; [reflexivity|]. unfold grown, ec2_info. simpl. tauto.
    + rewrite dict_get_modify_neq by congruence.
      destruct (dict_get k rm) as [e|]; [|reflexivity].
      exists e. split; [reflexivity | apply grown_refl].
  - unfold ret. intros [= <- <-]. rewrite app_nil_r. split; [reflexivity|].
    intros k. destruct (String.eqb_spec p k) as [<-|Hne].
    + unfold dict_mem in Hin. destruct (dict_get p rm); [discriminate | reflexivity].
    + destruct (dict_get k rm) as [e|]; [|reflexivity].
      exists e. split; [reflexivity | apply grown_refl].
Qed.

Lemma map_lambda_to_role_spec names f rm st rm' st' :
  (forall k, dict_mem k rm = str_in k names) ->
  map_lambda_to_role f rm st = (Ok rm', st') ->
  st' = st ++ assumes_lambda names f
  /\ tracks (fun k => if function_role_is k f then [lambda_info f] else []) rm rm'.
Proof.
  intros Hmem. unfold map_lambda_to_role, assumes_lambda, function_role_is.
  destruct (lambda_role f) as [arn|].
  2:{ unfold ret. intros [= <- <-]. rewrite app_nil_r. split; [reflexivity | apply tracks_refl]. }
  rewrite <- Hmem.
  destruct (negb (arn =? EmptyString)%string) eqn:Hp; simpl.
  2:{ unfold ret. intros [= <- <-]. rewrite app_nil_r. split; [reflexivity | apply tracks_refl]. }
  set (p := role_name_of_arn arn).
  destruct (dict_mem p rm) eqn:Hin.
  - unfold bind, emit, ret. intros [= <- <-]. split; [reflexivity|].
    intros k. destruct (String.eqb_spec p k) as [<-|Hne].
    + rewrite dict_get_modify_eq. unfold dict_mem in Hin.
      destruct (dict_get p rm) as [e|]; [|discriminate].
      eexists. split; [reflexivity|]. unfold grown, lambda_info. simpl. tauto.
    + rewrite dict_get_modify_neq by congruence.
      destruct (dict_get k rm) as [e|]; [|reflexivity].
      exists e. split; [reflexivity | apply grown_refl].
  - unfold ret. intros [= <- <-]. rewrite app_nil_r. split; [reflexivity|].
    intros k. destruct (String.eqb_spec p k) as [<-|Hne].
    + unfold dict_mem in Hin. destruct (dict_get p rm); [discriminate | reflexivity].
    + destruct (dict_get k rm) as [e|]; [|reflexivity].
      exists e. split; [reflexivity | apply grown_refl].
Qed.

Lemma filter_snoc (A : Type) (p : A -> bool) (l : list A) (a : A) :
  filter p (l ++ [a]) = filter p l ++ (if p a then [a] else []).
Proof. rewrite filter_app. simpl. now destruct (p a). Qed.

(** The loop over the instances. *)
Lemma ec2_role_loop names l rm st rm' st' :
  (forall k, dict_mem k rm = str_in k names) ->
  foreach l map_ec2_to_role rm st = (Ok rm', st') ->
  st' = st ++ flat_map (assumes_ec2 names) l
  /\ tracks (fun k => map ec2_info (filter (profile_is k) l)) rm rm'.
Proof.
  intros Hmem Hrun.
  pose (inv := fun (K : list ec2_instance) (s : dict role_entry) (st0 : list relationship) =>
                 st0 = st ++ flat_map (assumes_ec2 names) K
                 /\ tracks (fun k => map ec2_info (filter (profile_is k) K)) rm s).
  assert (H : inv ([] ++ flat_map (fun i => [i]) l) rm' st').
  { eapply (@foreach_acc _ _ _ inv (fun i => [i])); [| |exact Hrun].
    - intros i s st0 s' st0' K _ [Hst Htr] Hb.
      apply (@map_ec2_to_role_spec names) in Hb.
      2:{ intros k. rewrite (tracks_mem k Htr). apply Hmem. }
      destruct Hb as [-> Htr']. split.
      + rewrite Hst, flat_map_app. simpl. now rewrite app_nil_r, app_assoc.
      + eapply tracks_ext; [|eapply tracks_trans; [exact Htr | exact Htr']].
        intros k. simpl. rewrite filter_snoc, map_app. now destruct (profile_is k i).
    - split; [simpl; now rewrite app_nil_r | apply tracks_refl]. }
  assert (E : flat_map (fun i : ec2_instance => [i]) l = l).
  { clear. induction l; simpl; congruence. }
  simpl in H. rewrite E in H. exact H.
Qed.

Lemma lambda_role_loop names l rm st rm' st' :
  (forall k, dict_mem k rm = str_in k names) ->
  foreach l map_lambda_to_role rm st = (Ok rm', st') ->
  st' = st ++ flat_map (assumes_lambda names) l
  /\ tracks (fun k => map lambda_info (filter (function_role_is k) l)) rm rm'.
Proof.
  intros Hmem Hrun.
  pose (inv := fun (K : list lambda_function) (s : dict role_entry)
                   (st0 : list relationship) =>
                 st0 = st ++ flat_map (assumes_lambda names) K
                 /\ tracks (fun k => map lambda_info (filter (function_role_is k) K)) rm s).
  assert (H : inv ([] ++ flat_map (fun f => [f]) l) rm' st').
  { eapply (@foreach_acc _ _ _ inv (fun f => [f])); [| |exact Hrun].
    - intros f s st0 s' st0' K _ [Hst Htr] Hb.
      apply (@map_lambda_to_role_spec names) in Hb.
      2:{ intros k. rewrite (tracks_mem k Htr). apply Hmem. }
      destruct Hb as [-> Htr']. split.
      + rewrite Hst, flat_map_app. simpl. now rewrite app_nil_r, app_assoc.
      + eapply tracks_ext; [|eapply tracks_trans; [exact Htr | exact Htr']].
        intros k. simpl. rewrite filter_snoc, map_app. now destruct (function_role_is k f).
    - split; [simpl; now rewrite app_nil_r | apply tracks_refl]. }
  assert (E : flat_map (fun f : lambda_function => [f]) l = l).
  { clear. induction l; simpl; congruence. }
  simpl in H. rewrite E in H. exact H.
Qed.

(** The loop over the role records. *)
Lemma init_loop_spec (l : list role) rm st rm' st' :
  foreach l init_role rm st = (Ok rm', st') ->
  st' = st
  /\ (NoDup (map fst rm) -> NoDup (map fst rm'))
  /\ (forall k, dict_mem k rm' = dict_mem k rm || str_in k (map role_name l))
  /\ forall k e, dict_get k rm' = Some e ->
       dict_get k rm = Some e
       \/ exists r, In r l /\ role_name r = k /\ entry_from r e /\ re_resources e = [].
Proof.
  revert rm st. induction l as [|r l IH]; intros rm st; simpl.
  - unfold ret. intros [= <- <-].
    repeat split; [auto | intros k; now rewrite orb_false_r | auto].
  - unfold bind.
    destruct (init_role r rm st) as [[m|e] st1] eqn:Hb; [|discriminate].
    unfold init_role in Hb. destruct (role_arn r) as [a|] eqn:Ha; [|discriminate].
    unfold ret in Hb. injection Hb as <- <-.
    intros Hrun. destruct (IH _ _ Hrun) as [-> [Hnd [Hmem Hget]]].
    split; [reflexivity|]. split; [|split].
    + intros H. apply Hnd. now apply dict_set_nodup.
    + intros k. rewrite Hmem. unfold dict_mem, str_in. simpl.
      destruct (String.eqb_spec k (role_name r)) as [->|Hne].
      * rewrite dict_get_set_eq. simpl. now rewrite orb_true_r.
      * rewrite dict_get_set_neq by congruence. simpl.
        now destruct (dict_get k rm).
    + intros k e He. destruct (Hget k e He) as [H|[r' [Hr' H]]].
      * destruct (String.eqb_spec k (role_name r)) as [->|Hne].
        -- rewrite dict_get_set_eq in H. injection H as <-.
           right. exists r. unfold entry_from. simpl. rewrite Ha. tauto.
        -- rewrite dict_get_set_neq in H by congruence. now left.
      * right. exists r'. tauto.
Qed.

Lemma tracks_keys r rm1 rm2 :
  tracks r rm1 rm2 -> forall k, dict_get k rm2 = None <-> dict_get k rm1 = None.
Proof.
  intros H k. specialize (H k). destruct (dict_get k rm1).
  - destruct H as [e' [-> _]]. split; discriminate.
  - rewrite H. tauto.
Qed.

Lemma role_loop_keys (A : Type) (body : A -> dict role_entry -> M (dict role_entry))
      (l : list A) :
  (forall a s st s' st', body a s st = (Ok s', st') -> map fst s' = map fst s) ->
  forall s st s' st', foreach l body s st = (Ok s', st') -> map fst s' = map fst s.
Proof.
  intros Hbody s st s' st' Hrun.
  apply (@foreach_inv _ _ (fun m => map fst m = map fst s) body l) with (s := s) (st := st) (st' := st');
    [|reflexivity|exact Hrun].
  intros a s0 st0 s0' st0' _ Hs Hb. rewrite <- Hs. eapply Hbody; eassumption.
Qed.

Lemma map_ec2_to_role_keys i s st s' st' :
  map_ec2_to_role i s st = (Ok s', st') -> map fst s' = map fst s.
Proof.
  unfold map_ec2_to_role.
  destruct (iam_instance_profile i) as [p|]; [|unfold ret; now intros [= <- <-]].
  destruct (negb (p =? EmptyString)%string && dict_mem p s); [|unfold ret; now intros [= <- <-]].
  unfold bind, lift, emit, ret.
  destruct (hash_keys (ec2_security_groups i)); [|discriminate].
  intros [= <- <-]. apply dict_modify_keys.
Qed.

Lemma map_lambda_to_role_keys f s st s' st' :
  map_lambda_to_role f s st = (Ok s', st') -> map fst s' = map fst s.
Proof.
  unfold map_lambda_to_role.
  destruct (lambda_role f) as [arn|]; [|unfold ret; now intros [= <- <-]].
  destruct (negb (arn =? EmptyString)%string); [|unfold ret; now intros [= <- <-]].
  destruct (dict_mem (role_name_of_arn arn) s); [|unfold ret; now intros [= <- <-]].
  unfold bind, emit, ret. intros [= <- <-]. apply dict_modify_keys.
Qed.

(** The three loops of [_build_role_resource_map] together. *)
Lemma role_map_loops_spec iam res st role_map st' :
  role_map_loops iam res st = (Ok role_map, st') ->
  st' = st ++ flat_map (assumes_ec2 (map role_name (roles iam))) (ec2_instances res)
           ++ flat_map (assumes_lambda (map role_name (roles iam))) (lambda_functions res)
  /\ NoDup (map fst role_map)
  /\ (forall k, dict_get k role_map = None <-> ~ In k (map role_name (roles iam)))
  /\ forall k e, dict_get k role_map = Some e ->
       re_resources e = resources_of_role k res
       /\ exists r, In r (roles iam) /\ role_name r = k /\ entry_from r e.
Proof.
  unfold role_map_loops, bind. intros H.
  destruct (foreach (roles iam) init_role [] st) as [[rm1|e1] st1] eqn:H1; [|discriminate].
  destruct (foreach (ec2_instances res) map_ec2_to_role rm1 st1) as [[rm2|e2] st2] eqn:H2;
    [|discriminate].
  destruct (@init_loop_spec _ _ _ _ _ H1) as [-> [Hnd [Hmem Hget]]].
  assert (Hmem1 : forall k, dict_mem k rm1 = str_in k (map role_name (roles iam))).
  { intros k. rewrite Hmem. reflexivity. }
  destruct (@ec2_role_loop _ _ _ _ _ _ Hmem1 H2) as [-> Htr2].
  assert (Hmem2 : forall k, dict_mem k rm2 = str_in k (map role_name (roles iam))).
  { intros k. rewrite (tracks_mem k Htr2). apply Hmem1. }
  destruct (@lambda_role_loop _ _ _ _ _ _ Hmem2 H) as [-> Htr3].
  pose proof (tracks_trans Htr2 Htr3) as Htr.
  split; [now rewrite app_assoc|]. split; [|split].
  - rewrite (@role_loop_keys _ _ _ map_lambda_to_role_keys _ _ _ _ H).
    rewrite (@role_loop_keys _ _ _ map_ec2_to_role_keys _ _ _ _ H2).
    apply Hnd. constructor.
  - intros k. rewrite (tracks_keys Htr). rewrite <- str_in_not_In, <- Hmem1.
    unfold dict_mem. destruct (dict_get k rm1); split; congruence.
  - intros k e He. specialize (Htr k). simpl in Htr.
    destruct (dict_get k rm1) as [e0|] eqn:E0; [|congruence].
    destruct Htr as [e' [He' G]]. rewrite He in He'. injection He' as <-.
    destruct (Hget k e0 E0) as [Hnil|[r [Hr [Hk [Hfrom Hres]]]]]; [discriminate|].
    destruct G as [G1 [G2 [G3 [G4 [G5 G6]]]]].
    split.
    + rewrite G6, Hres. reflexivity.
    + exists r. split; [assumption|]. split; [assumption|].
      unfold entry_from in *. rewrite G1, G2, G3, G4, G5. exact Hfrom.
Qed.

(** *** The security-group map *)

Lemma sg_with_nil e : sg_with e [] = e.
Proof. destruct e. unfold sg_with. simpl. now rewrite app_nil_r. Qed.

Lemma attach_spec r rtype g0 sm st sm' st' :
  attach r rtype g0 sm st = (Ok sm', st') ->
  st' = st ++ [{| source := sr_resource_id r; source_type := rtype;
                  target := g0; target_type := "security_group";
                  relationship_type := "protected_by" |}]
  /\ (NoDup (map fst sm) -> NoDup (map fst sm'))
  /\ forall g, dict_get g sm'
               = if (g =? g0)%string
                 then Some (sg_add_resource r (base_entry sm g0))
                 else dict_get g sm.
Proof.
  unfold attach, bind, emit, ret. intros [= <- <-].
  split; [reflexivity|]. split.
  - intros Hnd. rewrite dict_modify_keys.
    destruct (negb (dict_mem g0 sm)); [now apply dict_set_nodup | assumption].
  - intros g. unfold base_entry, dict_mem.
    destruct (String.eqb_spec g g0) as [->|Hne].
    + rewrite dict_get_modify_eq.
      destruct (dict_get g0 sm) as [e|] eqn:E; simpl.
      * now rewrite E.
      * now rewrite dict_get_set_eq.
    + rewrite dict_get_modify_neq by assumption.
      destruct (dict_get g0 sm); simpl; [reflexivity|].
      now rewrite dict_get_set_neq by assumption.
Qed.

Lemma refs_to_snoc g K r g0 :
  refs_to g (K ++ [(r, g0)]) = refs_to g K ++ (if (g0 =? g)%string then [r] else []).
Proof.
  unfold refs_to. rewrite filter_snoc, map_app. simpl.
  now destruct (g0 =? g)%string.
Qed.

Lemma sg_lookup_snoc sm0 K r g0 g :
  sg_lookup sm0 (K ++ [(r, g0)]) g
  = if (g =? g0)%string
    then Some (sg_add_resource r
                 (match sg_lookup sm0 K g0 with
                  | Some e => e
                  | None => synthesized_sg g0
                  end))
    else sg_lookup sm0 K g.
Proof.
  unfold sg_lookup. rewrite refs_to_snoc.
  destruct (String.eqb_spec g g0) as [->|Hne].
  - rewrite String.eqb_refl. unfold base_entry.
    destruct (dict_get g0 sm0) as [e0|]; destruct (refs_to g0 K) as [|r0 rs]; simpl;
      first [ reflexivity
            | now rewrite sg_with_nil
            | unfold sg_add_resource, sg_with; simpl; now rewrite <- app_assoc ].
  - destruct (String.eqb_spec g0 g) as [->|_]; [congruence|]. now rewrite app_nil_r.
Qed.

(** The state of the resource loops after the pairs [K]. *)
Lemma attach_step sm0 st1 K r rtype g0 s st s' st' :
  rtype = sr_type r ->
  (st = st1 ++ map protected_by K
   /\ NoDup (map fst s)
   /\ forall g, dict_get g s = sg_lookup sm0 K g) ->
  attach r rtype g0 s st = (Ok s', st') ->
  st' = st1 ++ map protected_by (K ++ [(r, g0)])
  /\ NoDup (map fst s')
  /\ forall g, dict_get g s' = sg_lookup sm0 (K ++ [(r, g0)]) g.
Proof.
  intros -> [Hst [Hnd Hget]] Hb.
  destruct (attach_spec Hb) as [-> [Hnd' Hget']].
  split; [|split].
  - rewrite Hst, map_app, <- app_assoc. reflexivity.
  - auto.
  - intros g. rewrite Hget', sg_lookup_snoc. unfold base_entry. now rewrite !Hget.
Qed.

Lemma flat_map_singleton (A B : Type) (f : A -> B) (l : list A) :
  flat_map (fun a => [f a]) l = map f l.
Proof. induction l; simpl; congruence. Qed.

Lemma sg_map_loops sm0 res st sm st' :
  NoDup (map fst sm0) ->
  (sg_map <- foreach (ec2_instances res)
               (fun i => foreach (ec2_security_groups i) (attach_ec2 i)) sm0 ;;
   sg_map <- foreach (lambda_functions res)
               (fun f => foreach (lambda_security_groups f) (attach_lambda f)) sg_map ;;
   foreach (rds_instances res)
     (fun d => foreach (rds_security_groups d) (attach_rds d)) sg_map) st
  = (Ok sm, st') ->
  st' = st ++ map protected_by (references res)
  /\ NoDup (map fst sm)
  /\ forall g, dict_get g sm = sg_lookup sm0 (references res) g.
Proof.
  intros Hnd0. unfold bind. intros H.
  pose (inv := fun (K : list (sg_resource * string)) (s : dict sg_entry)
                   (st0 : list relationship) =>
                 st0 = st ++ map protected_by K
                 /\ NoDup (map fst s)
                 /\ forall g, dict_get g s = sg_lookup sm0 K g).
  assert (H0 : inv [] sm0 st).
  { split; [simpl; now rewrite app_nil_r|]. split; [assumption|].
    intros g. unfold sg_lookup, refs_to, base_entry. simpl.
    destruct (dict_get g sm0); [now rewrite sg_with_nil | reflexivity]. }
  match type of H with
  | context [foreach (ec2_instances res) ?b sm0 st] =>
      destruct (foreach (ec2_instances res) b sm0 st) as [[m1|e1] st1] eqn:H1;
        [|discriminate]
  end.
  match type of H with
  | context [foreach (lambda_functions res) ?b m1 st1] =>
      destruct (foreach (lambda_functions res) b m1 st1) as [[m2|e2] st2] eqn:H2;
        [|discriminate]
  end.
  assert (I1 : inv ([] ++ flat_map ec2_pairs (ec2_instances res)) m1 st1).
  { eapply (@foreach_acc _ _ _ inv ec2_pairs); [|exact H0|exact H1].
    intros i s st0 s' st0' K _ HK Hb.
    eapply (@foreach_acc _ _ _ inv
              (fun sg => match sg with
                         | SgId g => [(ec2_resource i, g)]
                         | SgRecord _ _ => []
                         end)); [|exact HK|exact Hb].
    intros sg s1 st3 s1' st3' K1 _ HK1 Hb1.
    unfold attach_ec2, bind, lift in Hb1. destruct sg as [g|g n]; simpl in Hb1;
      [|discriminate].
    eapply attach_step; [|exact HK1|exact Hb1]. reflexivity. }
  assert (I2 : inv (([] ++ flat_map ec2_pairs (ec2_instances res))
                    ++ flat_map lambda_pairs (lambda_functions res)) m2 st2).
  { eapply (@foreach_acc _ _ _ inv lambda_pairs); [|exact I1|exact H2].
    intros f s st0 s' st0' K _ HK Hb.
    eapply (@foreach_acc _ _ _ inv (fun g => [(lambda_resource f, g)]));
      [|exact HK|exact Hb].
    intros g s1 st3 s1' st3' K1 _ HK1 Hb1.
    eapply attach_step; [|exact HK1|exact Hb1]. reflexivity. }
  assert (I3 : inv ((([] ++ flat_map ec2_pairs (ec2_instances res))
                     ++ flat_map lambda_pairs (lambda_functions res))
                    ++ flat_map rds_pairs (rds_instances res)) sm st').
  { eapply (@foreach_acc _ _ _ inv rds_pairs); [|exact I2|exact H].
    intros d s st0 s' st0' K _ HK Hb.
    eapply (@foreach_acc _ _ _ inv (fun g => [(rds_resource d, g)]));
      [|exact HK|exact Hb].
    intros g s1 st3 s1' st3' K1 _ HK1 Hb1.
    eapply attach_step; [|exact HK1|exact Hb1]. reflexivity. }
  simpl in I3. rewrite <- app_assoc in I3. exact I3.
Qed.

Lemma seeded_fold (l : list security_group) (m0 : dict sg_entry) :
  let m := fold_left (fun m sg => seed_sg sg m) l m0 in
  (NoDup (map fst m0) -> NoDup (map fst m))
  /\ forall g,
      match dict_get g m with
      | None => dict_get g m0 = None /\ ~ In g (map sg_group_id l)
      | Some e =>
          (dict_get g m0 = Some e /\ ~ In g (map sg_group_id l))
          \/ exists sg, In sg l /\ sg_group_id sg = g /\ seeded_from sg e
                        /\ se_resources e = []
      end.
Proof.
  revert m0. induction l as [|sg l IH]; intros m0; simpl.
  - split; [auto|]. intros g. destruct (dict_get g m0); [left|]; tauto.
  - destruct (IH (seed_sg sg m0)) as [Hnd Hget]. split.
    + intros H. apply Hnd. unfold seed_sg. now apply dict_set_nodup.
    + intros g. specialize (Hget g).
      destruct (dict_get g (fold_left (fun m sg0 => seed_sg sg0 m) l (seed_sg sg m0)))
        as [e|].
      * destruct Hget as [[Hg Hn]|[sg' [Hin H]]].
        -- unfold seed_sg in Hg.
           destruct (String.eqb_spec g (sg_group_id sg)) as [->|Hne].
           ++ rewrite dict_get_set_eq in Hg. injection Hg as <-.
              right. exists sg. unfold seeded_from. simpl. tauto.
           ++ rewrite dict_get_set_neq in Hg by assumption.
              left. split; [assumption|]. intros [H|H]; [congruence | contradiction].
        -- right. exists sg'. tauto.
      * destruct Hget as [Hg Hn]. unfold seed_sg in Hg.
        destruct (String.eqb_spec g (sg_group_id sg)) as [->|Hne].
        -- rewrite dict_get_set_eq in Hg. discriminate.
        -- rewrite dict_get_set_neq in Hg by assumption.
           split; [assumption|]. intros [H|H]; [congruence | contradiction].
Qed.

Lemma sg_map_spec res st sm st' :
  _build_security_group_map res st = (Ok sm, st') ->
  st' = st ++ map protected_by (references res)
  /\ NoDup (map fst sm)
  /\ forall g, dict_get g sm = sg_lookup (seeded res) (references res) g.
Proof.
  intros H. apply sg_map_loops; [|exact H].
  apply (proj1 (seeded_fold (security_groups res) [])). constructor.
Qed.

Lemma seeded_lookup res g :
  match dict_get g (seeded res) with
  | None => ~ In g (map sg_group_id (security_groups res))
  | Some e => exists sg, In sg (security_groups res) /\ sg_group_id sg = g
                         /\ seeded_from sg e /\ se_resources e = []
  end.
Proof.
  pose proof (proj2 (seeded_fold (security_groups res) []) g) as H.
  unfold seeded. cbv zeta in H.
  destruct (dict_get g (fold_left (fun m sg => seed_sg sg m) (security_groups res) [])).
  - destruct H as [[H _]|H]; [discriminate | exact H].
  - tauto.
Qed.

Lemma finalize_map_keys set_order (role_map : dict role_entry) :
  map fst (finalize_map set_order role_map) = map fst role_map.
Proof. unfold finalize_map. rewrite map_map. reflexivity. Qed.

End MapFacts.

Module MapContents.
Import RelationshipBuilder BuilderSpec BuilderVocabulary MapSpec BuilderFacts MapFacts.

(** X7.  The role map of a successful build has one entry per role name
    of the input and no other key.  The entry under a name carries the
    fields of a role record with that name, and its resources are exactly
    the instances whose instance profile is that name followed by the
    functions whose role arn ends in that name, in input order. *)
Theorem role_map_holds_the_roles set_order iam res st out st' :
  build_relationships set_order iam res st = (Ok out, st') ->
  NoDup (map fst (role_mappings out))
  /\ (forall k, dict_get k (role_mappings out) = None
                <-> ~ In k (map role_name (roles iam)))
  /\ forall k e, In (k, e) (role_mappings out) ->
       dict_get k (role_mappings out) = Some e
       /\ re_resources e = resources_of_role k res
       /\ exists r, In r (roles iam) /\ role_name r = k /\ entry_from r e.
Proof.
  intros Hrun.
  destruct (build_relationships_ok _ _ _ _ Hrun) as [rm [st1 [sm [Hloops [_ ->]]]]].
  destruct (role_map_loops_spec _ _ _ Hloops) as [_ [Hnd [Hkeys Hget]]].
  cbn [role_mappings assemble].
  assert (Hnd' : NoDup (map fst (finalize_map set_order rm))).
  { now rewrite finalize_map_keys. }
  split; [exact Hnd'|]. split.
  - intros k. rewrite <- Hkeys. unfold finalize_map. rewrite dict_get_map.
    destruct (dict_get k rm); simpl; split; congruence.
  - intros k e Hin. pose proof (@In_dict_get _ _ _ _ Hnd' Hin) as He.
    split; [exact He|]. unfold finalize_map in He. rewrite dict_get_map in He.
    destruct (dict_get k rm) as [e0|] eqn:E0; [|discriminate].
    simpl in He. injection He as <-.
    destruct (Hget k e0 E0) as [Hres [r [Hr [Hk Hfrom]]]].
    split; [exact Hres|]. exists r. split; [assumption|]. split; [assumption|].
    exact Hfrom.
Qed.

Lemma role_map_holds_the_roles_witness :
  exists out st',
    build_relationships Examples.insertion_order Examples.one_admin
                        Examples.ops_resources init = (Ok out, st')
    /\ map fst (role_mappings out) = ["ops"]
    /\ forall k e, In (k, e) (role_mappings out) ->
         dict_get k (role_mappings out) = Some e
         /\ re_resources e = resources_of_role k Examples.ops_resources
         /\ exists r, In r (roles Examples.one_admin) /\ role_name r = k /\ entry_from r e.
Proof.
  eexists. eexists. split; [vm_compute; reflexivity|]. split; [reflexivity|].
  exact (proj2 (proj2 (@role_map_holds_the_roles Examples.insertion_order
                         Examples.one_admin Examples.ops_resources init _ _ eq_refl))).
Defined.

(** X8.  A successful build appends to the recorded relationships, in
    this order: one [assumes] per instance whose profile names a role of
    the input, one [assumes] per function whose role does, and one
    [protected_by] per (resource, group id) reference of the instances,
    functions and databases.  The summary's [total_relationships] counts
    the whole record, what earlier calls on the instance left included. *)
Theorem relationships_recorded set_order iam res st out st' :
  build_relationships set_order iam res st = (Ok out, st') ->
  st' = st
        ++ flat_map (assumes_ec2 (map role_name (roles iam))) (ec2_instances res)
        ++ flat_map (assumes_lambda (map role_name (roles iam))) (lambda_functions res)
        ++ map protected_by (references res)
  /\ total_relationships (build_summary out) = len st'.
Proof.
  intros Hrun.
  destruct (build_relationships_ok _ _ _ _ Hrun) as [rm [st1 [sm [Hloops [Hsg ->]]]]].
  destruct (role_map_loops_spec _ _ _ Hloops) as [-> _].
  destruct (sg_map_spec _ _ Hsg) as [-> _].
  split; [|reflexivity]. now rewrite <- !app_assoc.
Qed.

Lemma relationships_recorded_witness :
  exists out st',
    build_relationships Examples.insertion_order Examples.one_admin
                        Examples.ops_resources init = (Ok out, st')
    /\ map relationship_type st'
       = ["assumes"; "assumes"; "protected_by"; "protected_by"; "protected_by"]
    /\ total_relationships (build_summary out) = 5.
Proof.
  eexists. eexists. split; [vm_compute; reflexivity|].
  destruct (@relationships_recorded Examples.insertion_order Examples.one_admin
              Examples.ops_resources init _ _ eq_refl) as [_ H].
  split; [reflexivity | exact H].
Defined.

(** X9.  The security-group map of a successful build has an entry for a
    group id exactly when the id is enumerated or some resource lists it.
    The entry's resources are exactly the resources that list the id
    (instances, then functions, then databases, in input order, once per
    listing); its other fields come from an enumerated record with that
    id, or are the defaults (name = id, no VPC, no Internet access) when
    the id is only referenced. *)
Theorem sg_map_holds_the_groups set_order iam res st out st' :
  build_relationships set_order iam res st = (Ok out, st') ->
  NoDup (map fst (security_group_mappings out))
  /\ (forall g, dict_get g (security_group_mappings out) = None
                <-> ~ In g (map sg_group_id (security_groups res))
                    /\ refs_to g (references res) = [])
  /\ forall g e, In (g, e) (security_group_mappings out) ->
       dict_get g (security_group_mappings out) = Some e
       /\ se_group_id e = g
       /\ se_resources e = refs_to g (references res)
       /\ ((exists sg, In sg (security_groups res) /\ sg_group_id sg = g
                       /\ seeded_from sg e)
           \/ (~ In g (map sg_group_id (security_groups res))
               /\ se_group_name e = g /\ se_vpc_id e = None
               /\ se_has_internet_access e = false
               /\ se_allows_all_traffic e = false)).
Proof.
  intros Hrun.
  destruct (build_relationships_ok _ _ _ _ Hrun) as [rm [st1 [sm [_ [Hsg ->]]]]].
  destruct (sg_map_spec _ _ Hsg) as [_ [Hnd Hget]].
  cbn [security_group_mappings assemble].
  split; [exact Hnd|]. split.
  - intros g. rewrite Hget. unfold sg_lookup.
    pose proof (seeded_lookup res g) as Hs.
    destruct (dict_get g (seeded res)) as [e0|].
    + destruct Hs as [sg [Hin [Hid _]]]. split; [discriminate|].
      intros [Hn _]. exfalso. apply Hn. apply in_map_iff. now exists sg.
    + destruct (refs_to g (references res)); split; try tauto; try discriminate.
      intros [_ H]. discriminate.
  - intros g e Hin. pose proof (@In_dict_get _ _ _ _ Hnd Hin) as He.
    split; [exact He|]. rewrite Hget in He. unfold sg_lookup, base_entry in He.
    pose proof (seeded_lookup res g) as Hs.
    destruct (dict_get g (seeded res)) as [e0|].
    + destruct Hs as [sg [Hsgin [Hid [Hfrom Hres]]]].
      injection He as <-. unfold sg_with, seeded_from in *. simpl. rewrite Hres.
      split; [now rewrite (proj1 Hfrom)|]. split; [reflexivity|].
      left. exists sg. tauto.
    + destruct (refs_to g (references res)) as [|r0 rs] eqn:Hr; [discriminate|].
      injection He as <-. simpl. rewrite <- Hr. tauto.
Qed.

Lemma sg_map_holds_the_groups_witness :
  exists out st',
    build_relationships Examples.insertion_order Examples.one_admin
                        Examples.ops_resources init = (Ok out, st')
    /\ map fst (security_group_mappings out) = ["sg-1"; "sg-2"]
    /\ (forall g, dict_get g (security_group_mappings out) = None
                  <-> ~ In g (map sg_group_id (security_groups Examples.ops_resources))
                      /\ refs_to g (references Examples.ops_resources) = []).
Proof.
  eexists. eexists. split; [vm_compute; reflexivity|]. split; [reflexivity|].
  exact (proj1 (proj2 (@sg_map_holds_the_groups Examples.insertion_order
                         Examples.one_admin Examples.ops_resources init _ _ eq_refl))).
Defined.

End MapContents.

(** ** The nodes of the graph *)

Module GraphFacts.
Import RelationshipBuilder BuilderSpec GraphSpec BuilderFacts.

Lemma graph_nodes_eq rm sm res :
  graph_nodes rm sm res
  = (fst (entity_nodes rm sm res) ++ [internet_node],
     internet_node_id :: snd (entity_nodes rm sm res)).
Proof. reflexivity. Qed.

Lemma add_node_spec (n : node) (acc : node_acc) :
  NoDup (map id (fst acc)) -> ids_agree acc ->
  NoDup (map id (fst (add_node n acc)))
  /\ ids_agree (add_node n acc)
  /\ (forall m, In m (fst acc) -> In m (fst (add_node n acc)))
  /\ In (id n) (map id (fst (add_node n acc)))
  /\ (forall m, In m (fst (add_node n acc)) -> In m (fst acc) \/ m = n).
Proof.
  intros Hnd Hag. split; [|split; [now apply add_node_agree|]].
  - unfold add_node. destruct (str_in (id n) (snd acc)) eqn:E; simpl; [assumption|].
    apply str_in_not_In in E. rewrite map_app. simpl.
    apply NoDup_app; [assumption | repeat constructor; intros [] |].
    intros x Hx [<-|[]]. apply E. apply Hag. exact Hx.
  - unfold add_node. destruct (str_in (id n) (snd acc)) eqn:E; simpl.
    + apply str_in_In in E. apply Hag in E. repeat split; auto.
    + repeat split.
      * intros m Hm. apply in_app_iff. now left.
      * rewrite map_app, in_app_iff. right. now left.
      * intros m Hm. apply in_app_iff in Hm. destruct Hm as [Hm|[<-|[]]]; auto.
Qed.

(** A loop that adds the node of each element that passes a test. *)
Lemma fold_add_node (A : Type) (mk : A -> node) (guard : A -> bool) (l : list A) :
  forall acc : node_acc,
  NoDup (map id (fst acc)) -> ids_agree acc ->
  let acc' := fold_left (fun acc a => if guard a then add_node (mk a) acc else acc) l acc in
  NoDup (map id (fst acc')) /\ ids_agree acc'
  /\ (forall n, In n (fst acc) -> In n (fst acc'))
  /\ (forall a, In a l -> guard a = true -> In (id (mk a)) (map id (fst acc')))
  /\ (forall n, In n (fst acc') ->
        In n (fst acc) \/ exists a, In a l /\ guard a = true /\ n = mk a).
Proof.
  induction l as [|a l IH]; intros acc Hnd Hag; cbn [fold_left].
  - split; [assumption|]. split; [assumption|]. split; [auto|].
    split; [intros a0 [] | auto].
  - destruct (guard a) eqn:G.
    + destruct (add_node_spec (mk a) Hnd Hag) as [Hnd1 [Hag1 [Hmono [Hin Horig]]]].
      destruct (IH _ Hnd1 Hag1) as [Hnd2 [Hag2 [Hmono2 [Hcov2 Horig2]]]].
      split; [assumption|]. split; [assumption|]. split; [auto|]. split.
      * intros a0 [<-|H0] G0; [|now apply Hcov2].
        apply in_map_iff in Hin. destruct Hin as [m [Hid Hm]].
        apply in_map_iff. exists m. auto.
      * intros n Hn. destruct (Horig2 n Hn) as [H|[a0 [H0 [G0 En]]]].
        -- destruct (Horig n H) as [H' | ->]; [now left|].
           right. exists a. repeat split; simpl; auto.
        -- right. exists a0. repeat split; simpl; auto.
    + destruct (IH _ Hnd Hag) as [Hnd2 [Hag2 [Hmono2 [Hcov2 Horig2]]]].
      split; [assumption|]. split; [assumption|]. split; [auto|]. split.
      * intros a0 [<-|H0] G0; [congruence | now apply Hcov2].
      * intros n Hn. destruct (Horig2 n Hn) as [H|[a0 [H0 [G0 En]]]]; [now left|].
        right. exists a0. repeat split; simpl; auto.
Qed.

Lemma is_empty_false (A : Type) (l : list A) : negb (is_empty l) = true <-> l <> [].
Proof. destruct l; simpl; split; congruence. Qed.

Lemma entity_nodes_spec rm sm res :
  let acc := entity_nodes rm sm res in
  NoDup (map id (fst acc)) /\ ids_agree acc
  /\ (forall n, In n (fst acc) -> entity_node rm sm res n)
  /\ (forall k e, In (k, e) rm -> re_resources e <> [] ->
        In (id (role_node k e)) (map id (fst acc)))
  /\ (forall k e, In (k, e) sm -> se_resources e <> [] ->
        In (id (sg_node k e)) (map id (fst acc)))
  /\ (forall i, In i (ec2_instances res) -> In (id (ec2_node i)) (map id (fst acc)))
  /\ (forall f, In f (lambda_functions res) -> In (id (lambda_node f)) (map id (fst acc)))
  /\ (forall b, In b (s3_buckets res) -> In (id (s3_node b)) (map id (fst acc)))
  /\ (forall d, In d (rds_instances res) -> In (id (rds_node d)) (map id (fst acc))).
Proof.
  unfold entity_nodes. cbv zeta.
  assert (H0n : NoDup (map id (fst (([], []) : node_acc)))) by constructor.
  assert (H0a : ids_agree (([], []) : node_acc)) by (intros x; simpl; tauto).
  pose proof (@fold_add_node _ (fun kv : string * role_entry => role_node (fst kv) (snd kv))
                (fun kv => negb (is_empty (re_resources (snd kv)))) rm _ H0n H0a) as H1.
  cbv beta zeta in H1.
  set (a1 := fold_left _ rm _) in *.
  destruct H1 as [N1 [A1 [M1 [C1 O1]]]].
  pose proof (@fold_add_node _ (fun kv : string * sg_entry => sg_node (fst kv) (snd kv))
                (fun kv => negb (is_empty (se_resources (snd kv)))) sm _ N1 A1) as H2.
  cbv beta zeta in H2.
  set (a2 := fold_left _ sm a1) in *.
  destruct H2 as [N2 [A2 [M2 [C2 O2]]]].
  pose proof (@fold_add_node _ ec2_node (fun _ => true) (ec2_instances res) _ N2 A2) as H3.
  cbv beta iota zeta in H3.
  set (a3 := fold_left _ (ec2_instances res) a2) in *.
  destruct H3 as [N3 [A3 [M3 [C3 O3]]]].
  pose proof (@fold_add_node _ lambda_node (fun _ => true) (lambda_functions res) _ N3 A3) as H4.
  cbv beta iota zeta in H4.
  set (a4 := fold_left _ (lambda_functions res) a3) in *.
  destruct H4 as [N4 [A4 [M4 [C4 O4]]]].
  pose proof (@fold_add_node _ s3_node (fun _ => true) (s3_buckets res) _ N4 A4) as H5.
  cbv beta iota zeta in H5.
  set (a5 := fold_left _ (s3_buckets res) a4) in *.
  destruct H5 as [N5 [A5 [M5 [C5 O5]]]].
  pose proof (@fold_add_node _ rds_node (fun _ => true) (rds_instances res) _ N5 A5) as H6.
  cbv beta iota zeta in H6.
  set (a6 := fold_left _ (rds_instances res) a5) in *.
  destruct H6 as [N6 [A6 [M6 [C6 O6]]]].
  assert (Hup : forall x, In x (map id (fst a1)) -> In x (map id (fst a6))).
  { intros x Hx. apply in_map_iff in Hx. destruct Hx as [m [<- Hm]].
    apply in_map. auto 10. }
  assert (Hup2 : forall x, In x (map id (fst a2)) -> In x (map id (fst a6))).
  { intros x Hx. apply in_map_iff in Hx. destruct Hx as [m [<- Hm]].
    apply in_map. auto 10. }
  assert (Hup3 : forall x, In x (map id (fst a3)) -> In x (map id (fst a6))).
  { intros x Hx. apply in_map_iff in Hx. destruct Hx as [m [<- Hm]].
    apply in_map. auto 10. }
  assert (Hup4 : forall x, In x (map id (fst a4)) -> In x (map id (fst a6))).
  { intros x Hx. apply in_map_iff in Hx. destruct Hx as [m [<- Hm]].
    apply in_map. auto 10. }
  assert (Hup5 : forall x, In x (map id (fst a5)) -> In x (map id (fst a6))).
  { intros x Hx. apply in_map_iff in Hx. destruct Hx as [m [<- Hm]].
    apply in_map. auto 10. }
  split; [exact N6|]. split; [exact A6|]. split.
  { intros n Hn. unfold entity_node.
    destruct (O6 n Hn) as [H|[d [Hd [_ ->]]]]; [|do 5 right; now exists d].
    destruct (O5 n H) as [H'|[b [Hb [_ ->]]]]; [|do 4 right; left; now exists b].
    destruct (O4 n H') as [H''|[f [Hf [_ ->]]]]; [|do 3 right; left; now exists f].
    destruct (O3 n H'') as [H3|[i [Hi [_ ->]]]]; [|do 2 right; left; now exists i].
    destruct (O2 n H3) as [H2|[[k e] [Hke [G ->]]]].
    2:{ right; left. exists k, e. simpl in *. apply is_empty_false in G. auto. }
    destruct (O1 n H2) as [[]|[[k e] [Hke [G ->]]]].
    left. exists k, e. simpl in *. apply is_empty_false in G. auto. }
  split.
  { intros k e Hke Hne. apply Hup. apply (C1 (k, e) Hke). simpl.
    now apply is_empty_false. }
  split.
  { intros k e Hke Hne. apply Hup2. apply (C2 (k, e) Hke). simpl.
    now apply is_empty_false. }
  split; [intros i Hi; apply Hup3; now apply C3|].
  split; [intros f Hf; apply Hup4; now apply C4|].
  split; [intros b Hb; apply Hup5; now apply C5|].
  intros d Hd. now apply C6.
Qed.

Lemma id_role_node k e : id (role_node k e) = ("role-" ++ k)%string.
Proof. reflexivity. Qed.
Lemma id_sg_node k e : id (sg_node k e) = ("sg-" ++ k)%string.
Proof. reflexivity. Qed.
Lemma id_ec2_node i : id (ec2_node i) = ("ec2-" ++ instance_id i)%string.
Proof. reflexivity. Qed.
Lemma id_lambda_node f : id (lambda_node f) = ("lambda-" ++ function_name f)%string.
Proof. reflexivity. Qed.
Lemma id_s3_node b : id (s3_node b) = ("s3-" ++ bucket_name b)%string.
Proof. reflexivity. Qed.
Lemma id_rds_node d : id (rds_node d) = ("rds-" ++ db_instance_identifier d)%string.
Proof. reflexivity. Qed.

Ltac node_ids H :=
  rewrite ?id_role_node, ?id_sg_node, ?id_ec2_node, ?id_lambda_node,
    ?id_s3_node, ?id_rds_node in H;
  simpl in H; first [discriminate H | injection H as H].

Lemma entity_node_not_internet rm sm res n :
  entity_node rm sm res n -> id n <> internet_node_id.
Proof.
  unfold entity_node, internet_node_id.
  intros [[k [e [_ [_ ->]]]]|[[k [e [_ [_ ->]]]]|[[i [_ ->]]|[[f [_ ->]]|[[b [_ ->]]
          |[d [_ ->]]]]]]] H; node_ids H.
Qed.

Lemma entity_node_ntype rm sm res n :
  entity_node rm sm res n ->
  In (ntype n) [Some "iam_role"; Some "security_group"; Some "ec2_instance";
                Some "lambda_function"; Some "s3_bucket"; Some "rds_instance"].
Proof.
  unfold entity_node.
  intros [[k [e [_ [_ ->]]]]|[[k [e [_ [_ ->]]]]|[[i [_ ->]]|[[f [_ ->]]|[[b [_ ->]]
          |[d [_ ->]]]]]]]; simpl; tauto.
Qed.

Lemma typed_count (l : list node) :
  (forall n, In n l ->
     In (ntype n) [Some "iam_role"; Some "security_group"; Some "ec2_instance";
                   Some "lambda_function"; Some "s3_bucket"; Some "rds_instance"]) ->
  count_if (ntype_is "iam_role") l + count_if (ntype_is "security_group") l
  + count_if (ntype_is "ec2_instance") l + count_if (ntype_is "lambda_function") l
  + count_if (ntype_is "s3_bucket") l + count_if (ntype_is "rds_instance") l
  = len l.
Proof.
  induction l as [|n l IH]; intros H; [reflexivity|].
  specialize (IH (fun m Hm => H m (or_intror Hm))).
  pose proof (H n (or_introl eq_refl)) as Hn.
  assert (Hcons : forall p, count_if p (n :: l)
                            = (if p n then 1 else 0) + count_if p l).
  { intros p. unfold count_if, len. cbn [filter].
    destruct (p n); cbn [List.length]; lia. }
  assert (Hhead : (if ntype_is "iam_role" n then 1 else 0)
                  + (if ntype_is "security_group" n then 1 else 0)
                  + (if ntype_is "ec2_instance" n then 1 else 0)
                  + (if ntype_is "lambda_function" n then 1 else 0)
                  + (if ntype_is "s3_bucket" n then 1 else 0)
                  + (if ntype_is "rds_instance" n then 1 else 0) = 1).
  { unfold ntype_is. simpl in Hn.
    destruct Hn as [E|[E|[E|[E|[E|[E|[]]]]]]]; rewrite <- E; reflexivity. }
  assert (Hl : len (n :: l) = 1 + len l).
  { unfold len. cbn [List.length]. lia. }
  rewrite !Hcons, Hl. lia.
Qed.

End GraphFacts.

(** ** Which record a node is made from *)

Module GraphOrderFacts.
Import RelationshipBuilder BuilderSpec GraphSpec GraphOrderSpec BuilderFacts GraphFacts.

Lemma fold_guard_nodes (A : Type) (mk : A -> node) (guard : A -> bool) (l : list A)
      (acc : node_acc) :
  fold_left (fun acc a => if guard a then add_node (mk a) acc else acc) l acc
  = fold_left (fun acc n => add_node n acc) (map mk (filter guard l)) acc.
Proof.
  revert acc. induction l as [|a l IH]; intros acc; [reflexivity|].
  cbn [fold_left filter]. destruct (guard a); cbn [map fold_left]; apply IH.
Qed.

Lemma fold_map_nodes (A : Type) (mk : A -> node) (l : list A) (acc : node_acc) :
  fold_left (fun acc a => add_node (mk a) acc) l acc
  = fold_left (fun acc n => add_node n acc) (map mk l) acc.
Proof.
  revert acc. induction l as [|a l IH]; intros acc; [reflexivity|].
  cbn [fold_left map]. apply IH.
Qed.

Lemma entity_nodes_candidates rm sm res :
  entity_nodes rm sm res
  = fold_left (fun acc n => add_node n acc) (candidates rm sm res) ([], []).
Proof.
  unfold entity_nodes, candidates. cbv zeta.
  rewrite !fold_left_app.
  rewrite <- (@fold_guard_nodes _ (fun kv => role_node (fst kv) (snd kv))
                (fun kv => negb (is_empty (re_resources (snd kv))))).
  rewrite <- (@fold_guard_nodes _ (fun kv => sg_node (fst kv) (snd kv))
                (fun kv => negb (is_empty (se_resources (snd kv))))).
  rewrite <- !fold_map_nodes.
  reflexivity.
Qed.

(** A node is kept exactly when no earlier candidate, and no node already
    there, has its id. *)
Lemma fold_first_occurrence (l : list node) (acc : node_acc) :
  ids_agree acc ->
  let acc' := fold_left (fun acc n => add_node n acc) l acc in
  ids_agree acc'
  /\ forall n, In n (fst acc')
       <-> In n (fst acc)
           \/ (~ In (id n) (map id (fst acc))
               /\ exists pre post, l = pre ++ n :: post
                                   /\ forall m, In m pre -> id m <> id n).
Proof.
  cbv zeta. revert acc. induction l as [|c l IH]; intros acc Hag.
  - cbn [fold_left]. split; [assumption|]. intros n. split; [auto|].
    intros [H|[_ [pre [post [H _]]]]]; [assumption|].
    destruct pre; discriminate.
  - cbn [fold_left].
    destruct (IH (add_node c acc) (add_node_agree c Hag)) as [Hag' Hin].
    split; [exact Hag'|]. intros n. rewrite Hin. clear Hin IH.
    unfold add_node. destruct (str_in (id c) (snd acc)) eqn:E; cbn [fst snd negb].
    + apply str_in_In in E. apply Hag in E. split.
      * intros [H|[Hn [pre [post [-> Hpre]]]]]; [now left|].
        right. split; [assumption|]. exists (c :: pre), post. split; [reflexivity|].
        intros m [<-|Hm]; [|now apply Hpre]. intros Heq. apply Hn. now rewrite <- Heq.
      * intros [H|[Hn [pre [post [Heq Hpre]]]]]; [now left|].
        right. split; [assumption|]. destruct pre as [|c0 pre].
        -- injection Heq as -> ->. contradiction.
        -- injection Heq as <- ->. exists pre, post. split; [reflexivity|].
           intros m Hm. apply Hpre. now right.
    + apply str_in_not_In in E.
      assert (Hc : ~ In (id c) (map id (fst acc))) by (intros H; apply E; now apply Hag).
      rewrite map_app, !in_app_iff. cbn [map In]. split.
      * intros [[H|[<-|[]]]|[Hn [pre [post [-> Hpre]]]]].
        -- now left.
        -- right. split; [assumption|]. exists [], l. split; [reflexivity|].
           intros m [].
        -- right. split; [tauto|]. exists (c :: pre), post. split; [reflexivity|].
           intros m [<-|Hm]; [|now apply Hpre]. intros Heq. apply Hn. right. left.
           exact Heq.
      * intros [H|[Hn [pre [post [Heq Hpre]]]]]; [now left; left|].
        destruct pre as [|c0 pre].
        -- injection Heq as -> ->. left. right. now left.
        -- injection Heq as <- ->. right. split.
           ++ intros [H|[H|[]]]; [contradiction|].
              apply (Hpre c (or_introl eq_refl)). exact H.
           ++ exists pre, post. split; [reflexivity|]. intros m Hm. apply Hpre. now right.
Qed.

Lemma nodes_first_occurrence rm sm res (n : node) :
  In n (fst (entity_nodes rm sm res))
  <-> exists pre post, candidates rm sm res = pre ++ n :: post
                       /\ forall m, In m pre -> id m <> id n.
Proof.
  rewrite entity_nodes_candidates.
  assert (Hag : ids_agree (([], []) : node_acc)).
  { unfold ids_agree. simpl. tauto. }
  destruct (@fold_first_occurrence (candidates rm sm res) ([], []) Hag) as [_ H].
  rewrite H. cbn [fst map In]. split.
  - intros [[]|[_ Hn]]. exact Hn.
  - intros Hn. right. split; [tauto | exact Hn].
Qed.

End GraphOrderFacts.

Module GraphNodes.
Import RelationshipBuilder BuilderSpec GraphSpec GraphOrderSpec BuilderFacts GraphFacts.
Import GraphOrderFacts.

(** X10.  The nodes of the graph are the Internet node, which comes last,
    and one node for each role that has resources, each security group
    that has resources and each instance, function, bucket and database of
    the input; no two nodes share an id.  A second record with the id of
    an earlier one adds nothing, the node of the first one stands for
    both: of the nodes that the loops try to add, in their order, the
    graph has exactly those that no earlier one shares its id with. *)
Theorem graph_nodes_are_the_entities rm sm res rels :
  let g := _build_graph_data rm sm res rels in
  NoDup (map id (nodes g))
  /\ (exists body, nodes g = body ++ [internet_node]
                   /\ (forall n, In n body -> entity_node rm sm res n)
                   /\ forall n, In n body
                        <-> exists pre post,
                              candidates rm sm res = pre ++ n :: post
                              /\ forall m, In m pre -> id m <> id n)
  /\ (forall k e, In (k, e) rm -> re_resources e <> [] ->
        exists e', In (k, e') rm /\ In (role_node k e') (nodes g))
  /\ (forall k e, In (k, e) sm -> se_resources e <> [] ->
        exists e', In (k, e') sm /\ In (sg_node k e') (nodes g))
  /\ (forall i, In i (ec2_instances res) ->
        exists i', In i' (ec2_instances res) /\ instance_id i' = instance_id i
                   /\ In (ec2_node i') (nodes g))
  /\ (forall f, In f (lambda_functions res) ->
        exists f', In f' (lambda_functions res) /\ function_name f' = function_name f
                   /\ In (lambda_node f') (nodes g))
  /\ (forall b, In b (s3_buckets res) ->
        exists b', In b' (s3_buckets res) /\ bucket_name b' = bucket_name b
                   /\ In (s3_node b') (nodes g))
  /\ (forall d, In d (rds_instances res) ->
        exists d', In d' (rds_instances res)
                   /\ db_instance_identifier d' = db_instance_identifier d
                   /\ In (rds_node d') (nodes g)).
Proof.
  cbv zeta. rewrite build_graph_data_nodes, graph_nodes_eq. cbn [fst].
  destruct (entity_nodes_spec rm sm res)
    as [Hnd [_ [Horig [Crole [Csg [Cec2 [Clam [Cs3 Crds]]]]]]]].
  set (body := fst (entity_nodes rm sm res)) in *.
  assert (Hfind : forall x, In x (map id body) ->
                    exists n, In n body /\ id n = x /\ entity_node rm sm res n).
  { intros x Hx. apply in_map_iff in Hx. destruct Hx as [n [Hid Hn]].
    exists n. auto. }
  split.
  { rewrite map_app. apply NoDup_app; [assumption | repeat constructor; intros [] |].
    intros x Hx [<-|[]]. destruct (Hfind _ Hx) as [n [_ [Hid Hent]]].
    exact (entity_node_not_internet Hent Hid). }
  split.
  { exists body. split; [reflexivity|]. split; [exact Horig|].
    intros n. exact (nodes_first_occurrence rm sm res n). }
  split.
  { intros k e Hke Hne. destruct (Hfind _ (Crole k e Hke Hne)) as [n [Hn [Hid Hent]]].
    destruct Hent as [[k' [e' [Hin [_ ->]]]]|[[k' [e' [_ [_ ->]]]]|[[i [_ ->]]|[[f [_ ->]]
                      |[[b [_ ->]]|[d [_ ->]]]]]]]; node_ids Hid.
    subst k'. exists e'. split; [assumption|]. apply in_app_iff. now left. }
  split.
  { intros k e Hke Hne. destruct (Hfind _ (Csg k e Hke Hne)) as [n [Hn [Hid Hent]]].
    destruct Hent as [[k' [e' [_ [_ ->]]]]|[[k' [e' [Hin [_ ->]]]]|[[i [_ ->]]|[[f [_ ->]]
                      |[[b [_ ->]]|[d [_ ->]]]]]]]; node_ids Hid.
    subst k'. exists e'. split; [assumption|]. apply in_app_iff. now left. }
  split.
  { intros i Hi. destruct (Hfind _ (Cec2 i Hi)) as [n [Hn [Hid Hent]]].
    destruct Hent as [[k' [e' [_ [_ ->]]]]|[[k' [e' [_ [_ ->]]]]|[[i' [Hin ->]]|[[f [_ ->]]
                      |[[b [_ ->]]|[d [_ ->]]]]]]]; node_ids Hid.
    exists i'. split; [assumption|]. split; [assumption|]. apply in_app_iff. now left. }
  split.
  { intros f Hf. destruct (Hfind _ (Clam f Hf)) as [n [Hn [Hid Hent]]].
    destruct Hent as [[k' [e' [_ [_ ->]]]]|[[k' [e' [_ [_ ->]]]]|[[i' [_ ->]]|[[f' [Hin ->]]
                      |[[b [_ ->]]|[d [_ ->]]]]]]]; node_ids Hid.
    exists f'. split; [assumption|]. split; [assumption|]. apply in_app_iff. now left. }
  split.
  { intros b Hb. destruct (Hfind _ (Cs3 b Hb)) as [n [Hn [Hid Hent]]].
    destruct Hent as [[k' [e' [_ [_ ->]]]]|[[k' [e' [_ [_ ->]]]]|[[i' [_ ->]]|[[f' [_ ->]]
                      |[[b' [Hin ->]]|[d [_ ->]]]]]]]; node_ids Hid.
    exists b'. split; [assumption|]. split; [assumption|]. apply in_app_iff. now left. }
  intros d Hd. destruct (Hfind _ (Crds d Hd)) as [n [Hn [Hid Hent]]].
  destruct Hent as [[k' [e' [_ [_ ->]]]]|[[k' [e' [_ [_ ->]]]]|[[i' [_ ->]]|[[f' [_ ->]]
                    |[[b' [_ ->]]|[d' [Hin ->]]]]]]]; node_ids Hid.
  exists d'. split; [assumption|]. split; [assumption|]. apply in_app_iff. now left.
Qed.

Lemma graph_nodes_are_the_entities_witness :
  let g := _build_graph_data [] [] repeated_id [] in
  In (ec2_node first_record) (nodes g)
  /\ ~ In (ec2_node second_record) (nodes g)
  /\ map label (nodes g) = ["first"; "Internet (0.0.0.0/0)"].
Proof.
  destruct (graph_nodes_are_the_entities [] [] repeated_id [])
    as [_ [[body [Hn [_ Hfirst]]] _]].
  cbv zeta. rewrite Hn. split; [|split].
  - apply in_app_iff. left. apply Hfirst.
    exists [], [ec2_node second_record]. split; [reflexivity | intros m []].
  - intros H. apply in_app_iff in H. destruct H as [H|[H|[]]]; [|discriminate].
    apply Hfirst in H. destruct H as [pre [post [Heq Hpre]]].
    change (candidates [] [] repeated_id)
      with [ec2_node first_record; ec2_node second_record] in Heq.
    destruct pre as [|a pre]; [discriminate|].
    injection Heq as <- _. apply (Hpre _ (or_introl eq_refl)). reflexivity.
  - rewrite <- Hn. reflexivity.
Defined.

(** X11.  The statistics of the graph count every node and every edge;
    the six per-type counters cover every node but the Internet node, so
    they add up to [total_nodes - 1]. *)
Theorem graph_stats_add_up rm sm res rels :
  let g := _build_graph_data rm sm res rels in
  total_nodes (stats g) = len (nodes g)
  /\ total_edges (stats g) = len (edges g)
  /\ typed_nodes (stats_node_types (stats g)) + 1 = total_nodes (stats g)
  /\ 1 <= total_nodes (stats g).
Proof.
  cbv zeta. unfold _build_graph_data. rewrite graph_nodes_eq.
  cbn [nodes edges stats total_nodes total_edges stats_node_types].
  destruct (entity_nodes_spec rm sm res) as [_ [_ [Horig _]]].
  set (body := fst (entity_nodes rm sm res)) in *.
  split; [reflexivity|]. split; [reflexivity|].
  assert (Hlen : len (body ++ [internet_node]) = len body + 1).
  { unfold len. rewrite length_app. cbn [List.length]. lia. }
  assert (Hc : forall t, ntype_is t internet_node = false ->
                 count_if (ntype_is t) (body ++ [internet_node])
                 = count_if (ntype_is t) body).
  { intros t Ht. unfold count_if, len. rewrite filter_app. simpl. rewrite Ht.
    now rewrite app_nil_r. }
  unfold typed_nodes.
  cbn [nt_iam_roles nt_security_groups nt_ec2_instances nt_lambda_functions
       nt_s3_buckets nt_rds_instances].
  rewrite !Hc by reflexivity. rewrite Hlen.
  rewrite typed_count.
  - split; [reflexivity|]. pose proof (len_nonneg body). lia.
  - intros n Hn. eapply entity_node_ntype. eauto.
Qed.

(** X12.  [_normalize_node_id] is injective on the seven resource types
    that have a prefix of their own: equal node ids mean the same type and
    the same natural id.  For other types the type itself is the prefix,
    and ids can collide with those of a known type. *)
Theorem normalize_node_id_injective (t1 a t2 b : string) :
  In t1 known_types -> In t2 known_types ->
  _normalize_node_id t1 a = _normalize_node_id t2 b -> t1 = t2 /\ a = b.
Proof.
  unfold known_types. simpl.
  intros H1 H2.
  repeat (destruct H1 as [<-|H1]); try contradiction;
    repeat (destruct H2 as [<-|H2]); try contradiction;
    cbv [_normalize_node_id type_prefix_map dict_get]; simpl;
    intros H; first [discriminate H | injection H as H; now split].
Qed.

Lemma normalize_node_id_injective_witness :
  ("ec2_instance" = "ec2_instance" /\ "i-1" = "i-1")
  /\ _normalize_node_id "role" "a" = _normalize_node_id "iam_role" "a".
Proof.
  split; [|reflexivity].
  apply (@normalize_node_id_injective "ec2_instance" "i-1" "ec2_instance" "i-1");
    [simpl; tauto | simpl; tauto | reflexivity].
Defined.

End GraphNodes.

(** ** The consolidated view *)

Module ViewFacts.
Import RelationshipBuilder BuilderSpec BuilderVocabulary MapSpec ViewSpec.
Import BuilderFacts MapFacts.

Lemma nonempty_snoc (A : Type) (l : list A) (a : A) : nonempty (l ++ [a]) = Some (l ++ [a]).
Proof. destruct l; reflexivity. Qed.

Lemma group_by_type_fold (rs done : list resource_info)
      (d : dict (list resource_info)) :
  (forall t, dict_get t d = nonempty (filter (of_type t) done)) ->
  forall t,
    dict_get t
      (fold_left
         (fun by_type r =>
            let t := ri_resource_type r in
            let by_type1 := if negb (dict_mem t by_type)
                            then dict_set t [] by_type else by_type in
            dict_modify t (fun l => l ++ [r]) by_type1)
         rs d)
    = nonempty (filter (of_type t) (done ++ rs)).
Proof.
  revert done d. induction rs as [|r rs IH]; intros done d Hd t; cbn [fold_left].
  - rewrite app_nil_r. apply Hd.
  - replace (done ++ r :: rs) with ((done ++ [r]) ++ rs) by now rewrite <- app_assoc.
    apply IH. clear t. intros t. cbv zeta.
    rewrite filter_snoc. unfold of_type at 2.
    destruct (String.eqb_spec (ri_resource_type r) t) as [<-|Hne].
    + rewrite dict_get_modify_eq. unfold dict_mem. rewrite Hd.
      destruct (filter (of_type (ri_resource_type r)) done) as [|x l] eqn:E; simpl.
      * rewrite dict_get_set_eq. reflexivity.
      * rewrite Hd, E. reflexivity.
    + rewrite dict_get_modify_neq by congruence. rewrite app_nil_r.
      destruct (negb (dict_mem (ri_resource_type r) d)); [|apply Hd].
      rewrite dict_get_set_neq by congruence. apply Hd.
Qed.

(** [resources_by_type[t]] holds the resources of type [t], in order; a
    type without resources has no key. *)
Lemma group_by_type_lookup (rs : list resource_info) (t : string) :
  dict_get t (group_by_type rs) = nonempty (filter (of_type t) rs).
Proof.
  unfold group_by_type. apply (@group_by_type_fold rs [] []). reflexivity.
Qed.

Lemma sg_details_length (ids : list string) (sm : dict sg_entry) :
  (forall g, In g ids -> dict_get g sm <> None) ->
  len (sg_details ids sm) = len ids.
Proof.
  unfold len, sg_details. intros H. f_equal.
  induction ids as [|g ids IH]; [reflexivity|]. cbn [flat_map].
  rewrite length_app, IH by (intros g0 H0; apply H; now right).
  destruct (dict_get g sm) eqn:E; [reflexivity|].
  exfalso. exact (H g (or_introl eq_refl) E).
Qed.

Lemma refs_to_In (r : sg_resource) (g : string) (K : list (sg_resource * string)) :
  In (r, g) K -> In r (refs_to g K).
Proof.
  intros H. unfold refs_to. apply in_map_iff. exists (r, g). split; [reflexivity|].
  apply filter_In. split; [assumption|]. simpl. apply String.eqb_refl.
Qed.

Lemma sg_lookup_referenced sm0 K r g : In (r, g) K -> sg_lookup sm0 K g <> None.
Proof.
  intros H. apply refs_to_In in H. unfold sg_lookup.
  destruct (dict_get g sm0); destruct (refs_to g K); try discriminate.
  contradiction.
Qed.

(** The group ids of a role's resources are all referenced. *)
Lemma role_groups_referenced k res g :
  In g (flat_map ri_sg_ids (resources_of_role k res)) ->
  exists r, In (r, g) (references res).
Proof.
  unfold resources_of_role. rewrite flat_map_app, in_app_iff, !in_flat_map.
  intros [[r [Hr Hg]]|[r [Hr Hg]]]; apply in_map_iff in Hr.
  - destruct Hr as [i [<- Hi]]. apply filter_In in Hi. destruct Hi as [Hi _].
    unfold ec2_info, ri_sg_ids in Hg. apply in_flat_map in Hg.
    destruct Hg as [sg [Hsg Hg]]. destruct sg as [g0|g0 n]; simpl in Hg; [|contradiction].
    destruct Hg as [<-|[]]. exists (ec2_resource i).
    unfold references. apply in_app_iff. left. apply in_flat_map. exists i.
    split; [assumption|]. unfold ec2_pairs. apply in_flat_map.
    exists (SgId g0). split; [assumption | now left].
  - destruct Hr as [f [<- Hf]]. apply filter_In in Hf. destruct Hf as [Hf _].
    unfold lambda_info, ri_sg_ids in Hg. exists (lambda_resource f).
    unfold references. apply in_app_iff. right. apply in_app_iff. left.
    apply in_flat_map. exists f. split; [assumption|]. unfold lambda_pairs.
    apply in_flat_map. exists g. split; [assumption | now left].
Qed.

Lemma role_views_complete rm sm k e :
  In (k, e) rm -> re_resources e <> [] -> In (build_role_view k e sm) (role_views rm sm).
Proof.
  intros Hin Hne. unfold role_views. apply in_flat_map. exists (k, e).
  split; [assumption|]. simpl. destruct (re_resources e); [congruence|]. now left.
Qed.

End ViewFacts.

Module ConsolidatedView.
Import RelationshipBuilder BuilderSpec BuilderVocabulary MapSpec ViewSpec.
Import BuilderFacts MapFacts ViewFacts.

(** X13.  The consolidated view of a successful build lists exactly the
    roles of the input that have at least one resource, by descending
    risk level; [orphaned_resources] is always empty.  In each row
    [resource_count] is the number of the role's resources,
    [resources_by_type] maps each type that occurs to the role's
    resources of that type in order, and [security_groups] has one entry
    for each of the role's group ids, [security_group_count] of them. *)
Theorem consolidated_view_is_consistent set_order iam res st out st' :
  (forall l, Permutation (set_order l) (nodup string_dec l)) ->
  build_relationships set_order iam res st = (Ok out, st') ->
  orphaned_resources (consolidated out) = []
  /\ StronglySorted (fun a b => rv_risk_level b <= rv_risk_level a)
       (iam_roles (consolidated out))
  /\ (forall k, (exists row, In row (iam_roles (consolidated out))
                             /\ rv_role_name row = k)
                <-> In k (map role_name (roles iam)) /\ resources_of_role k res <> [])
  /\ forall row, In row (iam_roles (consolidated out)) ->
       rv_resource_count row = len (resources_of_role (rv_role_name row) res)
       /\ 0 < rv_resource_count row
       /\ (forall t, dict_get t (rv_resources_by_type row)
                     = nonempty (filter (of_type t)
                                   (resources_of_role (rv_role_name row) res)))
       /\ len (rv_security_groups row) = rv_security_group_count row.
Proof.
  intros Hperm Hrun.
  destruct (build_relationships_ok _ _ _ _ Hrun) as [rm [st1 [sm [Hloops [Hsg ->]]]]].
  destruct (role_map_loops_spec _ _ _ Hloops) as [_ [Hnd [Hkeys Hget]]].
  pose proof (role_map_loops_sets _ _ _ Hloops) as Hsets.
  destruct (sg_map_spec _ _ Hsg) as [_ [_ Hsm]].
  cbn [consolidated assemble _build_consolidated_view iam_roles orphaned_resources].
  assert (Hrows : forall row,
             In row (sort_desc rv_risk_level (role_views (finalize_map set_order rm) sm))
             <-> exists k e, dict_get k rm = Some e /\ re_resources e <> []
                   /\ row = build_role_view k (finalize_role set_order e) sm).
  { intros row. rewrite sort_desc_In. split.
    - intros H. apply role_views_In in H. destruct H as [k [e' [Hin [Hne ->]]]].
      unfold finalize_map in Hin. apply in_map_iff in Hin.
      destruct Hin as [[k0 e0] [Heq Hin0]]. simpl in Heq. injection Heq as -> <-.
      exists k, e0. split; [now apply In_dict_get|]. split; [exact Hne | reflexivity].
    - intros [k [e [He [Hne ->]]]]. apply role_views_complete; [|exact Hne].
      unfold finalize_map. apply in_map_iff. exists (k, e). split; [reflexivity|].
      now apply dict_get_In. }
  split; [reflexivity|]. split; [apply sort_desc_sorted|]. split.
  - intros k. split.
    + intros [row [Hrow Hk]]. apply Hrows in Hrow.
      destruct Hrow as [k0 [e [He [Hne ->]]]]. simpl in Hk. subst k0.
      destruct (Hget k e He) as [Hres _]. split; [|now rewrite <- Hres].
      destruct (in_dec string_dec k (map role_name (roles iam))) as [H|H]; [exact H|].
      apply Hkeys in H. congruence.
    + intros [Hk Hne]. destruct (dict_get k rm) as [e|] eqn:He.
      * destruct (Hget k e He) as [Hres _].
        exists (build_role_view k (finalize_role set_order e) sm).
        split; [|reflexivity]. apply Hrows. exists k, e.
        split; [assumption|]. split; [now rewrite Hres | reflexivity].
      * apply Hkeys in He. contradiction.
  - intros row Hrow. apply Hrows in Hrow. destruct Hrow as [k [e [He [Hne ->]]]].
    destruct (Hget k e He) as [Hres _].
    cbn [build_role_view rv_role_name rv_resource_count rv_resources_by_type
         rv_security_groups rv_security_group_count finalize_role re_resources
         re_security_groups].
    split; [now rewrite Hres|]. split.
    { unfold len. destruct (re_resources e); [congruence|]. cbn [List.length]. lia. }
    split; [intros t; rewrite <- Hres; apply group_by_type_lookup|].
    apply sg_details_length. intros g Hg.
    apply (Permutation_in _ (Hperm _)) in Hg. apply nodup_In in Hg.
    rewrite (Hsets k e (dict_get_In _ _ He)), Hres in Hg.
    destruct (role_groups_referenced _ _ _ Hg) as [r Hr].
    rewrite Hsm. eapply sg_lookup_referenced. exact Hr.
Qed.

Lemma consolidated_view_is_consistent_witness :
  exists out st',
    build_relationships Examples.insertion_order Examples.one_admin
                        Examples.ops_resources init = (Ok out, st')
    /\ map rv_role_name (iam_roles (consolidated out)) = ["ops"]
    /\ forall row, In row (iam_roles (consolidated out)) ->
         rv_resource_count row
         = len (resources_of_role (rv_role_name row) Examples.ops_resources)
         /\ 0 < rv_resource_count row
         /\ (forall t, dict_get t (rv_resources_by_type row)
                       = nonempty (filter (of_type t)
                                     (resources_of_role (rv_role_name row)
                                        Examples.ops_resources)))
         /\ len (rv_security_groups row) = rv_security_group_count row.
Proof.
  eexists. eexists. split; [vm_compute; reflexivity|]. split; [reflexivity|].
  refine (proj2 (proj2 (proj2 (@consolidated_view_is_consistent
                                 Examples.insertion_order Examples.one_admin
                                 Examples.ops_resources init _ _ _ eq_refl)))).
  intros l. apply Permutation_refl.
Defined.

End ConsolidatedView.

(** ** Further properties of the path query *)

Module PathFacts.
Import AccessPath PathSpec PathVocabulary AccessPathFacts BfsFacts.

(** The two answers of the query, with what the search established. *)
Lemma access_path_cases (g : graph_data) (s t : string) :
  (exists p refs store,
      walk (edges g) s t p /\ NoDup p
      /\ (forall q, walk (edges g) s t q -> path_le (edges g) p q)
      /\ path_details (edges g) p (nodes g) = (refs, store)
      /\ get_access_path g s t
         = (PathFound s t (len p - 1) (map (deref store) refs), with_nodes g store))
  \/ (get_access_path g s t
      = (NoPathFound s t "No path found between source and target", g)
      /\ forall q, ~ walk (edges g) s t q).
Proof.
  unfold get_access_path.
  pose proof (bfs_correct (bfs_fuel (edges g)) (bfs_inv_init (edges g) s t)) as Hcorrect.
  pose proof (@bfs_fuel_enough (edges g) t (bfs_fuel (edges g)) [(s, [s])] [s]) as Hfuel.
  destruct (bfs (bfs_fuel (edges g)) (build_adjacency (edges g)) t [(s, [s])] [s])
    as [path| |].
  - destruct Hcorrect as [Hwalk [Hnd Hmin]].
    destruct (path_details (edges g) path (nodes g)) as [refs store] eqn:Hpd.
    left. exists path, refs, store. auto.
  - right. auto.
  - exfalso. apply Hfuel; [|reflexivity].
    pose proof (unvisited_le (edges g) [s]). unfold bfs_fuel. simpl. lia.
Qed.

Lemma walk_shape (es : list edge) (s v : string) (p : list string) :
  walk es s v p -> exists tl, p = s :: tl /\ incl tl (map e_target es).
Proof.
  induction 1 as [|u v p Hw [tl [-> Htl]] He].
  - exists []. split; [reflexivity | intros x []].
  - exists (tl ++ [v]). split; [reflexivity|].
    intros x Hx. apply in_app_iff in Hx. destruct Hx as [Hx|[<-|[]]]; [auto|].
    eapply successors_targets. exact He.
Qed.

Lemma same_but_edge_refl n : same_but_edge n n.
Proof. unfold same_but_edge. tauto. Qed.

Lemma same_but_edge_trans n1 n2 n3 :
  same_but_edge n1 n2 -> same_but_edge n2 n3 -> same_but_edge n1 n3.
Proof.
  unfold same_but_edge. intros [A1 [A2 [A3 [A4 A5]]]] [B1 [B2 [B3 [B4 B5]]]].
  repeat split; congruence.
Qed.

Lemma Forall2_same_refl (l : list node) : Forall2 same_but_edge l l.
Proof. induction l; constructor; [apply same_but_edge_refl | assumption]. Qed.

Lemma Forall2_same_trans (l1 l2 l3 : list node) :
  Forall2 same_but_edge l1 l2 -> Forall2 same_but_edge l2 l3 ->
  Forall2 same_but_edge l1 l3.
Proof.
  intros H. revert l3. induction H as [|a b l1 l2 Hab H IH]; intros l3 H3;
    inversion H3; subst; constructor.
  - eapply same_but_edge_trans; eassumption.
  - now apply IH.
Qed.

Lemma update_nth_same (i : nat) (ty : string) (l : list node) :
  Forall2 same_but_edge l (update_nth i (set_edge_to_next ty) l).
Proof.
  revert i. induction l as [|n l IH]; intros i; [destruct i; simpl; constructor|].
  destruct i as [|i]; simpl; constructor.
  - unfold same_but_edge. simpl. tauto.
  - apply Forall2_same_refl.
  - apply same_but_edge_refl.
  - apply IH.
Qed.

(** The loop that builds [path_details] changes nothing but annotations. *)
Lemma path_details_same (es : list edge) (path : list string) :
  forall store refs store',
    path_details es path store = (refs, store') ->
    Forall2 same_but_edge store store'.
Proof.
  induction path as [|a rest IH]; intros store refs store' H; simpl in H.
  - injection H as _ <-. apply Forall2_same_refl.
  - destruct rest as [|b rest'].
    + injection H as _ <-. apply Forall2_same_refl.
    + destruct (annotate_ref (edge_type_between es a b) (node_info store a) store)
        as [r' store1] eqn:Ha.
      destruct (path_details es (b :: rest') store1) as [rs store2] eqn:Hp.
      injection H as _ <-.
      eapply Forall2_same_trans; [|eapply IH; exact Hp].
      unfold annotate_ref in Ha. destruct (node_info store a).
      * injection Ha as _ <-. apply update_nth_same.
      * injection Ha as _ <-. apply Forall2_same_refl.
Qed.

Lemma last_default (A : Type) (d d' : A) (l : list A) :
  l <> [] -> last l d = last l d'.
Proof.
  induction l as [|a l IH]; [congruence|]. intros _.
  destruct l as [|b l]; [reflexivity|]. cbn [last] in *. apply IH. discriminate.
Qed.

Lemma walk_head_last (es : list edge) (s v : string) (p : list string) :
  walk es s v p -> hd EmptyString p = s /\ last p EmptyString = v.
Proof.
  intros H. split; [|exact (proj2 (walk_last H))].
  destruct (walk_shape H) as [tl [-> _]]. reflexivity.
Qed.

End PathFacts.

Module PathExtras.
Import AccessPath PathSpec PathVocabulary AccessPathFacts BfsFacts PathFacts.

(** X14.  A found path starts at the source, ends at the target and
    visits no node twice; its [path_length] is the number of its nodes
    minus one and never exceeds the number of edges of the graph. *)
Theorem found_path_is_simple (g : graph_data) (source target : string) :
  match fst (get_access_path g source target) with
  | PathFound _ _ path_length path =>
      NoDup (map id path)
      /\ hd EmptyString (map id path) = source
      /\ last (map id path) EmptyString = target
      /\ path_length = len path - 1
      /\ 0 <= path_length <= len (edges g)
  | NoPathFound _ _ _ => True
  | DidNotTerminate => False
  end.
Proof.
  destruct (access_path_cases g source target)
    as [[p [refs [store [Hwalk [Hnd [_ [Hpd ->]]]]]]]|[-> _]]; [|exact I].
  cbn [fst].
  destruct (@path_details_spec (edges g) p Hnd _ _ _ Hpd) as [_ [_ [_ Hexp]]].
  rewrite Hexp, expected_ids.
  destruct (walk_head_last Hwalk) as [Hhd Hlast].
  split; [assumption|]. split; [assumption|]. split; [assumption|].
  assert (Hlen : len (expected (edges g) (nodes g) p) = len p).
  { unfold len. rewrite <- (length_map id), expected_ids. reflexivity. }
  rewrite Hlen. split; [reflexivity|].
  destruct (walk_shape Hwalk) as [tl [-> Htl]].
  apply NoDup_cons_iff in Hnd. destruct Hnd as [_ Hnd].
  pose proof (NoDup_incl_length Hnd Htl) as Hle. rewrite length_map in Hle.
  unfold len. cbn [List.length]. lia.
Qed.

(** X15.  The query never changes the edges, the statistics, the number
    or the order of the stored nodes, nor any field of a stored node other
    than [edge_to_next]; when no path is found it changes nothing at all.
    After a found path, looking up the target or any id that is not on the
    path gives the node it gave before. *)
Theorem access_path_frame (g : graph_data) (source target : string) :
  let g' := snd (get_access_path g source target) in
  edges g' = edges g /\ stats g' = stats g
  /\ Forall2 same_but_edge (nodes g) (nodes g')
  /\ match fst (get_access_path g source target) with
     | PathFound _ _ _ path =>
         forall c, ~ In c (map id path) \/ c = target ->
                   lookup (nodes g') c = lookup (nodes g) c
     | NoPathFound _ _ _ => g' = g
     | DidNotTerminate => False
     end.
Proof.
  cbv zeta.
  destruct (access_path_cases g source target)
    as [[p [refs [store [Hwalk [Hnd [_ [Hpd ->]]]]]]]|[-> _]]; cbn [fst snd].
  - destruct (@path_details_spec (edges g) p Hnd _ _ _ Hpd) as [_ [Hoff [Hlast Hexp]]].
    split; [reflexivity|]. split; [reflexivity|].
    split; [eapply path_details_same; exact Hpd|].
    rewrite Hexp, expected_ids. cbn [with_nodes nodes].
    intros c [Hc | ->]; [now apply Hoff|].
    apply Hlast. destruct (walk_last Hwalk) as [Hne Hl].
    rewrite (last_default target EmptyString Hne). exact Hl.
  - split; [reflexivity|]. split; [reflexivity|].
    split; [apply Forall2_same_refl | reflexivity].
Qed.

End PathExtras.

(** ** Paths in a built graph *)

Module LayerFacts.
Import RelationshipBuilder BuilderSpec BuilderVocabulary MapSpec GraphSpec LayerSpec.
Import AccessPath PathSpec PathVocabulary.
Import BuilderFacts MapFacts GraphFacts AccessPathFacts BfsFacts PathFacts.

Lemma tier_le (x : string) : (tier x <= 3)%nat.
Proof.
  unfold tier. destruct (starts_with "role-" x); [lia|].
  destruct (starts_with "sg-" x); [lia|]. destruct (x =? "internet")%string; lia.
Qed.

Lemma has_edge_In (es : list edge) (u v : string) :
  has_edge es u v <-> exists e, In e es /\ e_source e = u /\ e_target e = v.
Proof.
  unfold has_edge, successors. rewrite in_map_iff. split.
  - intros [e [Ht He]]. apply filter_In in He. destruct He as [He Hs].
    apply String.eqb_eq in Hs. now exists e.
  - intros [e [He [Hs Ht]]]. exists e. split; [assumption|].
    apply filter_In. split; [assumption|]. now apply String.eqb_eq.
Qed.

(** Along a walk in a layered graph, every hop goes one layer up. *)
Lemma walk_tier (es : list edge) (s v : string) (p : list string) :
  (forall e, In e es -> tier (e_target e) = S (tier (e_source e))) ->
  walk es s v p -> tier v = (tier s + hops p)%nat.
Proof.
  intros Hes. induction 1 as [|u v p Hw IH He].
  - unfold hops. simpl. lia.
  - apply has_edge_In in He. destruct He as [e [He [<- <-]]].
    rewrite (Hes e He), IH. pose proof (walk_length Hw) as Hl.
    unfold hops. rewrite length_app. simpl. lia.
Qed.

Lemma relationship_edge_In ids rel e :
  In e (relationship_edge ids rel) -> e = edge_of rel.
Proof.
  unfold relationship_edge, edge_of.
  destruct (str_in _ ids && str_in _ ids); [intros [<-|[]]; reflexivity | intros []].
Qed.

Lemma internet_edge_In ids kv e :
  In e (internet_edge ids kv) ->
  e = {| e_source := _normalize_node_id "security_group" (fst kv);
         e_target := internet_node_id; e_type := "allows_traffic_from" |}
  /\ se_has_internet_access (snd kv) = true.
Proof.
  unfold internet_edge. destruct (se_has_internet_access (snd kv)); [|intros []].
  destruct (str_in _ ids); [intros [<-|[]]; auto | intros []].
Qed.

(** The relationships a fresh builder records are of three shapes. *)
Lemma recorded_shapes names res rel :
  In rel (flat_map (assumes_ec2 names) (ec2_instances res)
          ++ flat_map (assumes_lambda names) (lambda_functions res)
          ++ map protected_by (references res)) ->
  (exists p x, edge_of rel = {| e_source := ("role-" ++ p)%string;
                                e_target := ("ec2-" ++ x)%string;
                                e_type := "assumes" |})
  \/ (exists p x, edge_of rel = {| e_source := ("role-" ++ p)%string;
                                   e_target := ("lambda-" ++ x)%string;
                                   e_type := "assumes" |})
  \/ (exists r g, In (r, g) (references res)
                  /\ edge_of rel
                     = {| e_source := _normalize_node_id (sr_type r) (sr_resource_id r);
                          e_target := ("sg-" ++ g)%string;
                          e_type := "protected_by" |}).
Proof.
  rewrite !in_app_iff, !in_flat_map, in_map_iff.
  intros [[i [_ H]]|[[f [_ H]]|[[r g] [<- H]]]].
  - left. unfold assumes_ec2 in H. destruct (iam_instance_profile i) as [p|]; [|destruct H].
    destruct (negb (p =? EmptyString)%string && str_in p names); [|destruct H].
    destruct H as [<-|[]]. exists p, (instance_id i). reflexivity.
  - right; left. unfold assumes_lambda in H.
    destruct (lambda_role f) as [arn|]; [|destruct H].
    destruct (negb (arn =? EmptyString)%string && str_in (role_name_of_arn arn) names);
      [|destruct H].
    destruct H as [<-|[]]. exists (role_name_of_arn arn), (function_name f). reflexivity.
  - right; right. exists r, g. split; [assumption | reflexivity].
Qed.

Lemma tier_resource (r : sg_resource) :
  tier (_normalize_node_id (sr_type r) (sr_resource_id r)) = 1%nat.
Proof. destruct r; reflexivity. Qed.

(** What a successful build on a fresh builder hands to the path query. *)
Lemma fresh_build_graph set_order iam res out st' :
  build_relationships set_order iam res init = (Ok out, st') ->
  exists rm sm,
    graph out = _build_graph_data rm sm res st'
    /\ security_group_mappings out = sm
    /\ st' = flat_map (assumes_ec2 (map role_name (roles iam))) (ec2_instances res)
             ++ flat_map (assumes_lambda (map role_name (roles iam))) (lambda_functions res)
             ++ map protected_by (references res)
    /\ forall g, dict_get g sm = sg_lookup (seeded res) (references res) g.
Proof.
  intros Hrun.
  destruct (build_relationships_ok _ _ _ _ Hrun) as [rm [st1 [sm [Hloops [Hsg ->]]]]].
  destruct (role_map_loops_spec _ _ _ Hloops) as [-> _].
  destruct (sg_map_spec _ _ Hsg) as [-> [_ Hget]].
  exists rm, sm. cbn [graph security_group_mappings assemble].
  split; [apply build_graph_data_finalize|]. split; [reflexivity|].
  split; [|exact Hget]. unfold init. simpl. now rewrite <- !app_assoc.
Qed.

Lemma fresh_build_edges set_order iam res out st' e :
  build_relationships set_order iam res init = (Ok out, st') ->
  In e (edges (graph out)) ->
  tier (e_target e) = S (tier (e_source e))
  /\ In (e_type e) ["assumes"; "protected_by"; "allows_traffic_from"].
Proof.
  intros Hrun He.
  destruct (@fresh_build_graph _ _ _ _ _ Hrun) as [rm [sm [Hg [_ [Hst _]]]]].
  rewrite Hg, build_graph_data_edges in He. apply in_app_iff in He.
  destruct He as [He|He]; apply in_flat_map in He.
  - destruct He as [rel [Hrel He]]. apply relationship_edge_In in He. subst e.
    rewrite Hst in Hrel.
    destruct (recorded_shapes _ _ _ Hrel)
      as [[p [x ->]]|[[p [x ->]]|[r [g [_ ->]]]]]; cbn [e_source e_target e_type].
    + split; [reflexivity | simpl; tauto].
    + split; [reflexivity | simpl; tauto].
    + rewrite tier_resource. split; [reflexivity | simpl; tauto].
  - destruct He as [kv [_ He]]. apply internet_edge_In in He. destruct He as [-> _].
    split; [reflexivity | simpl; tauto].
Qed.

End LayerFacts.

Module BuiltGraphPaths.
Import RelationshipBuilder BuilderSpec BuilderVocabulary MapSpec GraphSpec LayerSpec.
Import AccessPath PathSpec PathVocabulary.
Import BuilderFacts MapFacts GraphFacts ViewFacts AccessPathFacts BfsFacts PathFacts.
Import LayerFacts.

(** X16.  The graph of a successful build on a fresh builder is layered:
    every edge is an [assumes] edge from a role to an instance or
    function, a [protected_by] edge from a resource to a security group,
    or an [allows_traffic_from] edge from a security group to the
    Internet node.  So every path the query finds in it has at most three
    hops, as many as the layers of target and source are apart; nothing
    is reachable from the Internet node and no role from anything else. *)
Theorem built_graph_is_layered set_order iam res out st' :
  build_relationships set_order iam res init = (Ok out, st') ->
  (forall e, In e (edges (graph out)) ->
     tier (e_target e) = S (tier (e_source e))
     /\ In (e_type e) ["assumes"; "protected_by"; "allows_traffic_from"])
  /\ forall source target,
       match fst (get_access_path (graph out) source target) with
       | PathFound _ _ path_length _ =>
           0 <= path_length <= 3
           /\ Z.of_nat (tier target) = Z.of_nat (tier source) + path_length
       | NoPathFound _ _ _ => True
       | DidNotTerminate => False
       end.
Proof.
  intros Hrun. split; [intros e; now apply (@fresh_build_edges _ _ _ _ _ e Hrun)|].
  intros s t.
  destruct (access_path_cases (graph out) s t)
    as [[p [refs [store [Hwalk [_ [_ [_ ->]]]]]]]|[-> _]]; [|exact I].
  cbn [fst].
  assert (Htier : tier t = (tier s + hops p)%nat).
  { eapply walk_tier; [|exact Hwalk]. intros e He. now apply (@fresh_build_edges _ _ _ _ _ e Hrun). }
  pose proof (tier_le t). pose proof (walk_length Hwalk).
  unfold len, hops in *. lia.
Qed.

Lemma built_graph_is_layered_witness :
  exists out st',
    build_relationships Examples.insertion_order Examples.one_admin
                        Examples.ops_resources init = (Ok out, st')
    /\ edges (graph out) <> []
    /\ forall e, In e (edges (graph out)) ->
         tier (e_target e) = S (tier (e_source e))
         /\ In (e_type e) ["assumes"; "protected_by"; "allows_traffic_from"].
Proof.
  eexists. eexists. split; [vm_compute; reflexivity|]. split; [discriminate|].
  exact (proj1 (@built_graph_is_layered Examples.insertion_order Examples.one_admin
                  Examples.ops_resources _ _ eq_refl)).
Defined.

(** X17.  In the graph of a successful build on a fresh builder, a
    resource that lists a security group whose entry has Internet access
    reaches the Internet node: the query from the resource's node to
    [internet] finds a path of exactly two hops. *)
Theorem exposed_resource_reaches_internet set_order iam res out st' r g e :
  build_relationships set_order iam res init = (Ok out, st') ->
  In (r, g) (references res) ->
  dict_get g (security_group_mappings out) = Some e ->
  se_has_internet_access e = true ->
  exists path,
    fst (get_access_path (graph out)
           (_normalize_node_id (sr_type r) (sr_resource_id r)) internet_node_id)
    = PathFound (_normalize_node_id (sr_type r) (sr_resource_id r))
                internet_node_id 2 path
    /\ len path = 3.
Proof.
  intros Hrun Href Hget Hnet.
  destruct (@fresh_build_graph _ _ _ _ _ Hrun) as [rm [sm [Hg [Hsm [Hst Hlook]]]]].
  rewrite Hsm in Hget.
  set (src := _normalize_node_id (sr_type r) (sr_resource_id r)).
  set (mid := _normalize_node_id "security_group" g).
  destruct (entity_nodes_spec rm sm res)
    as [_ [Hag [_ [_ [Csg [Cec2 [Clam [_ Crds]]]]]]]].
  pose proof (graph_nodes_agree rm sm res) as Hagree.
  assert (Hids : forall x, In x (map id (fst (entity_nodes rm sm res))) ->
                   str_in x (snd (graph_nodes rm sm res)) = true).
  { intros x Hx. apply str_in_In. rewrite graph_nodes_eq. right. now apply Hag. }
  assert (Hsrc : str_in src (snd (graph_nodes rm sm res)) = true).
  { apply Hids. unfold references in Href. rewrite !in_app_iff, !in_flat_map in Href.
    destruct Href as [[i [Hi H]]|[[f [Hf H]]|[d [Hd H]]]].
    - unfold ec2_pairs in H. apply in_flat_map in H. destruct H as [sg [_ H]].
      destruct sg; [|destruct H]. destruct H as [H|[]]. injection H as <- _.
      exact (Cec2 i Hi).
    - unfold lambda_pairs in H. apply in_flat_map in H. destruct H as [g0 [_ H]].
      destruct H as [H|[]]. injection H as <- _. exact (Clam f Hf).
    - unfold rds_pairs in H. apply in_flat_map in H. destruct H as [g0 [_ H]].
      destruct H as [H|[]]. injection H as <- _. exact (Crds d Hd). }
  assert (Hres : se_resources e <> []).
  { rewrite Hlook in Hget. unfold sg_lookup in Hget.
    pose proof (refs_to_In _ _ _ Href) as Hin.
    destruct (dict_get g (seeded res)); destruct (refs_to g (references res)) eqn:E;
      try contradiction; injection Hget as <-; simpl;
      intros H; apply app_eq_nil in H; destruct H; discriminate. }
  assert (Hmid : str_in mid (snd (graph_nodes rm sm res)) = true).
  { apply Hids. exact (Csg g e (dict_get_In _ _ Hget) Hres). }
  assert (E1 : In {| e_source := src; e_target := mid; e_type := "protected_by" |}
                  (edges (graph out))).
  { rewrite Hg, build_graph_data_edges. apply in_app_iff. left.
    apply in_flat_map. exists (protected_by (r, g)). split.
    - rewrite Hst. rewrite !in_app_iff. right; right. now apply in_map.
    - unfold relationship_edge. cbn [protected_by source source_type target target_type
                                     relationship_type fst snd].
      fold src. fold mid. rewrite Hsrc, Hmid. now left. }
  assert (E2 : In {| e_source := mid; e_target := internet_node_id;
                     e_type := "allows_traffic_from" |} (edges (graph out))).
  { rewrite Hg, build_graph_data_edges. apply in_app_iff. right.
    apply in_flat_map. exists (g, e). split; [now apply dict_get_In|].
    unfold internet_edge. cbn [fst snd]. rewrite Hnet. fold mid. rewrite Hmid.
    now left. }
  assert (Hwalk : walk (edges (graph out)) src internet_node_id
                    (([src] ++ [mid]) ++ [internet_node_id])).
  { apply walk_step with (u := mid).
    - apply walk_step with (u := src); [constructor|].
      apply has_edge_In. eexists. split; [exact E1|]. split; reflexivity.
    - apply has_edge_In. eexists. split; [exact E2|]. split; reflexivity. }
  destruct (access_path_cases (graph out) src internet_node_id)
    as [[p [refs [store [Hw [Hnd [_ [Hpd ->]]]]]]]|[_ Hno]];
    [|exfalso; exact (Hno _ Hwalk)].
  cbn [fst].
  assert (Htier : tier internet_node_id = (tier src + hops p)%nat).
  { eapply walk_tier; [|exact Hw]. intros e0 He0. now apply (@fresh_build_edges _ _ _ _ _ e0 Hrun). }
  unfold src in Htier. rewrite tier_resource in Htier.
  change (tier internet_node_id) with 3%nat in Htier.
  pose proof (walk_length Hw) as Hl. unfold hops in Htier.
  destruct (@path_details_spec (edges (graph out)) p Hnd _ _ _ Hpd) as [_ [_ [_ Hexp]]].
  assert (Hlen : len (map (deref store) refs) = len p).
  { rewrite Hexp. unfold len. rewrite <- (length_map id), expected_ids. reflexivity. }
  eexists. split.
  - f_equal. unfold len. lia.
  - rewrite Hlen. unfold len. lia.
Qed.

Lemma exposed_resource_reaches_internet_witness :
  exists out st' path,
    build_relationships Examples.insertion_order Examples.one_admin
                        Examples.ops_resources init = (Ok out, st')
    /\ fst (get_access_path (graph out) "lambda-report" "internet")
       = PathFound "lambda-report" "internet" 2 path
    /\ len path = 3.
Proof.
  eexists. eexists.
  destruct (@exposed_resource_reaches_internet Examples.insertion_order
              Examples.one_admin Examples.ops_resources _ _
              (lambda_resource Examples.ops_function) "sg-1"
              {| se_group_id := "sg-1"; se_group_name := "web";
                 se_vpc_id := Some "vpc-1"; se_has_internet_access := true;
                 se_allows_all_traffic := false;
                 se_resources := [ec2_resource Examples.ops_instance;
                                  lambda_resource Examples.ops_function] |}
              eq_refl) as [path [H1 H2]].
  - vm_compute. tauto.
  - vm_compute. reflexivity.
  - reflexivity.
  - exists path. split; [vm_compute; reflexivity|]. split; [exact H1 | exact H2].
Defined.

End BuiltGraphPaths.

(** ** The resource discoverer and its consumers *)

Module DiscovererFacts.
Import ResourceDiscoverer DiscovererSpec.
Import RelationshipBuilder BuilderSpec BuilderVocabulary MapSpec.
Import BuilderFacts SgMapFacts BuilderErrors MapFacts.

Lemma scan_ranges_spec rule open_cidr ranges acc :
  scan_ranges rule open_cidr ranges acc
  = (fst acc || existsb (fun r => get_is r open_cidr) ranges,
     snd acc ++ map (fun _ => risky_rule rule open_cidr)
                    (filter (fun r => get_is r open_cidr) ranges)).
Proof.
  unfold scan_ranges. revert acc. induction ranges as [|r ranges IH]; intros [b l]; simpl.
  - now rewrite orb_false_r, app_nil_r.
  - rewrite IH. destruct (get_is r open_cidr); simpl.
    + now rewrite orb_true_r, <- app_assoc.
    + reflexivity.
Qed.

Lemma get_is_In (s : string) (ranges : list (option string)) :
  existsb (fun r => get_is r s) ranges = true <-> In (Some s) ranges.
Proof.
  rewrite existsb_exists. split.
  - intros [[v|] [Hin H]]; simpl in H; [|discriminate].
    apply String.eqb_eq in H. now subst.
  - intros H. exists (Some s). split; [assumption|]. simpl. apply String.eqb_refl.
Qed.

Lemma details_fold (perms : list ip_permission) (acc : bool * list sg_rule) :
  fold_left
    (fun acc rule =>
       let acc := scan_ranges rule "0.0.0.0/0" (IpRanges rule) acc in
       scan_ranges rule "::/0" (Ipv6Ranges rule) acc)
    perms acc
  = (fst acc
     || existsb (fun rule => existsb (fun r => get_is r "0.0.0.0/0") (IpRanges rule)
                             || existsb (fun r => get_is r "::/0") (Ipv6Ranges rule))
                perms,
     snd acc ++ flat_map rules_of perms).
Proof.
  revert acc. induction perms as [|rule perms IH]; intros [b l]; cbn [fold_left].
  - simpl. now rewrite orb_false_r, app_nil_r.
  - cbv zeta. rewrite IH, !scan_ranges_spec. cbn [fst snd existsb flat_map].
    unfold rules_of. rewrite !orb_assoc, <- !app_assoc. reflexivity.
Qed.

Lemma map_filter_nil (A B : Type) (f : A -> B) (p : A -> bool) (l : list A) :
  map f (filter p l) = [] <-> existsb p l = false.
Proof.
  induction l as [|a l IH]; simpl; [tauto|].
  destruct (p a); simpl; [split; discriminate | exact IH].
Qed.

Lemma rules_of_nil rule : rules_of rule = [] <-> ~ open_to_world rule.
Proof.
  unfold rules_of, open_to_world. rewrite <- !get_is_In.
  split.
  - intros H. apply app_eq_nil in H. destruct H as [H4 H6].
    apply map_filter_nil in H4, H6. rewrite H4, H6. intros [H|H]; discriminate.
  - intros H.
    destruct (existsb (fun r => get_is r "0.0.0.0/0") (IpRanges rule)) eqn:E4; [tauto|].
    destruct (existsb (fun r => get_is r "::/0") (Ipv6Ranges rule)) eqn:E6; [tauto|].
    rewrite (proj2 (@map_filter_nil _ _ (fun _ => risky_rule rule "0.0.0.0/0") _ _) E4).
    rewrite (proj2 (@map_filter_nil _ _ (fun _ => risky_rule rule "::/0") _ _) E6).
    reflexivity.
Qed.

Lemma rules_of_open rule : rules_of rule <> [] <-> open_to_world rule.
Proof.
  split.
  - intros H. unfold open_to_world. rewrite <- !get_is_In.
    destruct (existsb (fun r => get_is r "0.0.0.0/0") (IpRanges rule)) eqn:E4; [now left|].
    destruct (existsb (fun r => get_is r "::/0") (Ipv6Ranges rule)) eqn:E6; [now right|].
    exfalso. apply H. apply rules_of_nil. unfold open_to_world.
    rewrite <- !get_is_In, E4, E6. intros [F|F]; discriminate.
  - intros H E. apply rules_of_nil in E. contradiction.
Qed.

Lemma rules_of_In rule r :
  In r (rules_of rule) -> from_port r = FromPort rule /\ open_to_world rule.
Proof.
  intros H. split.
  - unfold rules_of in H. apply in_app_iff in H.
    destruct H as [H|H]; apply in_map_iff in H; destruct H as [x [<- _]]; reflexivity.
  - apply rules_of_open. intros E. rewrite E in H. destruct H.
Qed.

Lemma flat_map_not_nil (A B : Type) (f : A -> list B) (l : list A) :
  flat_map f l <> [] <-> exists a, In a l /\ f a <> [].
Proof.
  induction l as [|a l IH]; simpl.
  - split; [congruence | intros [a [[] _]]].
  - split.
    + intros H. destruct (f a) as [|b bs] eqn:E.
      * simpl in H. apply IH in H. destruct H as [a0 [H0 H1]]. exists a0. auto.
      * exists a. split; [now left|]. rewrite E. discriminate.
    + intros [a0 [[<-|H0] H1]] E; apply app_eq_nil in E; destruct E as [E1 E2].
      * contradiction.
      * apply IH in E2; [assumption|]. now exists a0.
Qed.

Lemma split_slash_last (p n : string) :
  has_slash n = false ->
  exists seg segs, split_slash (p ++ String "/" n) = seg :: segs
                   /\ segs <> [] /\ forall d, last segs d = n.
Proof.
  intros Hn.
  assert (Hnn : split_slash n = [n]).
  { clear p. induction n as [|c n IH]; [reflexivity|]. simpl in Hn |- *.
    apply orb_false_iff in Hn. destruct Hn as [Hc Hn]. rewrite Hc, (IH Hn). reflexivity. }
  induction p as [|c p IH]; simpl.
  - exists EmptyString, [n]. rewrite Hnn.
    split; [reflexivity|]. split; [discriminate | reflexivity].
  - destruct IH as [seg [segs [E [Hne Hl]]]]. rewrite E.
    destruct (Ascii.eqb c "/").
    + exists EmptyString, (seg :: segs). split; [reflexivity|].
      split; [discriminate|]. intros d. destruct segs; [congruence|]. apply Hl.
    + exists (String c seg), segs. auto.
Qed.

Lemma has_slash_app (p n : string) : has_slash (p ++ String "/" n) = true.
Proof. induction p as [|c p IH]; simpl; [reflexivity|]. rewrite IH. apply orb_true_r. Qed.

Lemma last_segment_app (p n : string) :
  has_slash n = false -> last_segment (p ++ String "/" n) = n.
Proof.
  intros Hn. unfold last_segment.
  destruct (@split_slash_last p n Hn) as [seg [segs [-> [Hne Hl]]]].
  destruct segs; [congruence|]. apply Hl.
Qed.

Lemma split_slash_plain (n : string) : has_slash n = false -> split_slash n = [n].
Proof.
  induction n as [|c n IH]; [reflexivity|]. simpl. intros Hn.
  apply orb_false_iff in Hn. destruct Hn as [Hc Hn]. rewrite Hc, (IH Hn). reflexivity.
Qed.

Lemma last_segment_plain (n : string) : has_slash n = false -> last_segment n = n.
Proof. intros Hn. unfold last_segment. now rewrite split_slash_plain. Qed.

(** [build_relationships] on instance records whose groups are dicts. *)
Lemma build_raises_on_records set_order iam res st :
  roles_have_arn iam ->
  (exists i g n, In i (ec2_instances res) /\ In (SgRecord g n) (ec2_security_groups i)) ->
  exists st', build_relationships set_order iam res st = (Raise unhashable, st').
Proof.
  intros Harn Hex. rewrite build_relationships_eq.
  destruct (role_map_loops_cases iam res st)
    as [[[r [Hr Hn]] _]|[_ [[rm [st1 ->]]|[st1 ->]]]].
  - exfalso. exact (Harn r Hr Hn).
  - destruct (@sg_map_raises res st1 Hex) as [st2 ->]. now exists st2.
  - now exists st1.
Qed.

End DiscovererFacts.

Module DiscoveredData.
Import ResourceDiscoverer DiscovererSpec.
Import RelationshipBuilder BuilderSpec BuilderVocabulary MapSpec.
Import BuilderFacts SgMapFacts BuilderErrors MapFacts DiscovererFacts.

(** X18.  In the record made for a security group, [risky_rules] has one
    rule per ingress range equal to 0.0.0.0/0 or ::/0, in order, and
    [has_internet_access] is set exactly when there is such a range, that
    is exactly when [risky_rules] is not empty.  The network rule of the
    analyzer rates the group critical exactly when a permission with such
    a range has its [FromPort] among the critical ports; a permission
    without [FromPort] (all traffic) or a port range that merely contains
    a critical port does not count. *)
Theorem discovered_group_exposure (sg : raw_security_group) :
  let d := _get_security_group_details sg in
  risky_rules d = flat_map rules_of (IpPermissions sg)
  /\ (sg_has_internet_access d = true <-> risky_rules d <> [])
  /\ (sg_has_internet_access d = true
      <-> exists rule, In rule (IpPermissions sg) /\ open_to_world rule)
  /\ (RiskAnalyzer.sg_escalated d = true
      <-> exists rule p, In rule (IpPermissions sg) /\ open_to_world rule
                         /\ FromPort rule = Some p
                         /\ In p RiskAnalyzer.critical_ports)
  /\ sg_allows_all_traffic d = false.
Proof.
  cbv zeta. unfold _get_security_group_details, RiskAnalyzer.sg_escalated.
  cbn [risky_rules sg_has_internet_access sg_allows_all_traffic].
  rewrite details_fold. cbn [fst snd app orb].
  assert (Hflag : existsb
                    (fun rule =>
                       existsb (fun r => get_is r "0.0.0.0/0") (IpRanges rule)
                       || existsb (fun r => get_is r "::/0") (Ipv6Ranges rule))
                    (IpPermissions sg) = true
                  <-> exists rule, In rule (IpPermissions sg) /\ open_to_world rule).
  { rewrite existsb_exists. unfold open_to_world. split.
    - intros [rule [Hin H]]. exists rule. split; [assumption|].
      apply orb_true_iff in H. now rewrite <- !get_is_In.
    - intros [rule [Hin H]]. exists rule. split; [assumption|].
      apply orb_true_iff. now rewrite !get_is_In. }
  split; [reflexivity|]. split; [|split; [exact Hflag|split; [|reflexivity]]].
  - rewrite Hflag, flat_map_not_nil. split.
    + intros [rule [Hin H]]. exists rule. split; [assumption | now apply rules_of_open].
    + intros [rule [Hin H]]. exists rule. split; [assumption | now apply rules_of_open].
  - rewrite existsb_exists. split.
    + intros [r [Hin Hc]]. apply in_flat_map in Hin. destruct Hin as [rule [Hrule Hr]].
      destruct (rules_of_In _ _ Hr) as [Hport Hopen].
      unfold RiskAnalyzer.port_is_critical in Hc. rewrite Hport in Hc.
      destruct (FromPort rule) as [p|] eqn:Hp; [|discriminate].
      exists rule, p. split; [assumption|]. split; [assumption|].
      split; [first [assumption | reflexivity]|].
      apply existsb_exists in Hc. destruct Hc as [q [Hq Heq]].
      apply Z.eqb_eq in Heq. now subst.
    + intros [rule [p [Hin [Hopen [Hp Hcrit]]]]].
      apply rules_of_open in Hopen.
      destruct (rules_of rule) as [|r rs] eqn:E; [congruence|].
      exists r. assert (Hr : In r (rules_of rule)) by (rewrite E; now left).
      split; [apply in_flat_map; now exists rule|].
      destruct (rules_of_In _ _ Hr) as [Hport _].
      unfold RiskAnalyzer.port_is_critical. rewrite Hport, Hp.
      apply existsb_exists. exists p. split; [assumption | apply Z.eqb_refl].
Qed.

(** X19.  On instance records as [_get_ec2_details] makes them, the risk
    analyzer never fails; the relationship builder, given roles with an
    arn, fails with TypeError (unhashable dict) as soon as one instance
    has a security group, and succeeds when no instance has any. *)
Theorem discovered_instances_and_their_consumers
        cfg now set_order iam res rst st (raws : list raw_instance) :
  ec2_instances res = map _get_ec2_details raws ->
  (exists out rst', RiskAnalyzer.analyze_all cfg now iam res rst = (Ok out, rst'))
  /\ (roles_have_arn iam ->
      ((exists raw, In raw raws /\ SecurityGroups raw <> []) ->
       exists st', build_relationships set_order iam res st
                   = (Raise (TypeError "unhashable type: 'dict'"), st'))
      /\ ((forall raw, In raw raws -> SecurityGroups raw = []) ->
          exists out st', build_relationships set_order iam res st = (Ok out, st'))).
Proof.
  intros Hres. split.
  - unfold RiskAnalyzer.analyze_all, RiskAnalyzer.analyze_resource_risks.
    destruct (AnalyzerErrors.ec2_public_findings_cases (ec2_instances res))
      as [[fs [-> _]]|[_ [i [g [Hi [_ Hg]]]]]].
    + eexists. eexists. reflexivity.
    + exfalso. rewrite Hres in Hi. apply in_map_iff in Hi. destruct Hi as [raw [<- _]].
      simpl in Hg. apply in_map_iff in Hg. destruct Hg as [x [Hx _]]. discriminate.
  - intros Harn. split.
    + intros [raw [Hraw Hne]]. apply build_raises_on_records; [assumption|].
      destruct (SecurityGroups raw) as [|[g n] l] eqn:E; [congruence|].
      exists (_get_ec2_details raw), g, n. split.
      * rewrite Hres. now apply in_map.
      * simpl. rewrite E. now left.
    + intros Hnone. apply build_relationships_total; [assumption|].
      intros i Hi sg Hsg. rewrite Hres in Hi. apply in_map_iff in Hi.
      destruct Hi as [raw [<- Hraw]]. simpl in Hsg. rewrite (Hnone raw Hraw) in Hsg.
      destruct Hsg.
Qed.

Lemma discovered_instances_and_their_consumers_witness :
  exists st',
    build_relationships Examples.insertion_order Examples.one_admin
                        discovered_inventory init
    = (Raise (TypeError "unhashable type: 'dict'"), st').
Proof.
  refine (proj1 (proj2 (@discovered_instances_and_their_consumers default_settings "t"
            Examples.insertion_order Examples.one_admin discovered_inventory
            RiskAnalyzer.init init [raw_worker] eq_refl) _) _).
  - intros r [<-|[]]. discriminate.
  - exists raw_worker. split; [now left | discriminate].
Defined.

(** X20.  The discoverer keeps the last [/]-separated segment of a
    function's role arn and of an instance's profile arn; for an arn
    [prefix/NAME] with a non-empty, slash-free NAME this is NAME, and the
    builder, which takes the last segment once more, files the function
    or instance under the role named NAME and under no other. *)
Theorem discovered_role_names (p n : string) :
  has_slash n = false -> n <> EmptyString ->
  last_segment (p ++ String "/" n)%string = n
  /\ role_name_of_arn (p ++ String "/" n)%string = n
  /\ role_name_of_arn n = n
  /\ (forall function k,
        Role function = Some (p ++ String "/" n)%string ->
        function_role_is k (_get_lambda_details function) = (n =? k)%string)
  /\ (forall instance k,
        IamInstanceProfile instance = Some (Some (p ++ String "/" n)%string) ->
        profile_is k (_get_ec2_details instance) = (n =? k)%string).
Proof.
  intros Hn Hne.
  assert (Hrole : role_name_of_arn n = n).
  { unfold role_name_of_arn. now rewrite Hn. }
  assert (Hnonempty : negb (n =? EmptyString)%string = true).
  { apply negb_true_iff. now apply String.eqb_neq. }
  split; [now apply last_segment_app|]. split; [|split; [exact Hrole|split]].
  - unfold role_name_of_arn. rewrite has_slash_app.
    destruct (@split_slash_last p n Hn) as [seg [segs [-> [Hs Hl]]]].
    destruct segs; [congruence|]. apply Hl.
  - intros function k HR. unfold function_role_is, _get_lambda_details.
    cbn [lambda_role]. rewrite HR, (@last_segment_app p n Hn), Hrole, Hnonempty.
    reflexivity.
  - intros instance k HP. unfold profile_is, _get_ec2_details.
    cbn [iam_instance_profile]. rewrite HP, (@last_segment_app p n Hn), Hnonempty.
    reflexivity.
Qed.

Lemma discovered_role_names_witness :
  role_name_of_arn "arn:aws:iam::1:role/service-role/ops" = "ops"
  /\ last_segment "arn:aws:iam::1:role/service-role/ops" = "ops".
Proof.
  destruct (@discovered_role_names "arn:aws:iam::1:role/service-role" "ops"
              eq_refl) as [H1 [H2 _]].
  - discriminate.
  - split; [exact H2 | exact H1].
Defined.

End DiscoveredData.

(** ** The scan routes *)

Section DictDel.
Variable V : Type.
Implicit Types (d : dict V) (k : string).

Lemma dict_get_del_eq k d : dict_get k (dict_del k d) = None.
Proof.
  induction d as [|[k' v] d IH]; simpl; [reflexivity|].
  destruct (k' =? k)%string eqn:E; simpl; [assumption|]. now rewrite E.
Qed.

Lemma dict_get_del_neq k k' d : k' <> k -> dict_get k' (dict_del k d) = dict_get k' d.
Proof.
  intros Hne. induction d as [|[k0 v] d IH]; simpl; [reflexivity|].
  destruct (k0 =? k)%string eqn:E; simpl.
  - apply String.eqb_eq in E. subst k0.
    destruct (String.eqb_spec k k'); [congruence | assumption].
  - now rewrite IH.
Qed.
End DictDel.

Module ScanFacts.
Import Scan ScanSpec.

Lemma keeps_refl e : keeps e e.
Proof. unfold keeps. tauto. Qed.

Lemma keeps_trans e1 e2 e3 : keeps e1 e2 -> keeps e2 e3 -> keeps e1 e3.
Proof.
  unfold keeps. intros [A1 [A2 [A3 [A4 A5]]]] [B1 [B2 [B3 [B4 B5]]]].
  repeat split; congruence.
Qed.

Lemma upd_refl scan_id (R : status_entry -> status_entry -> Prop) st :
  (forall e, R e e) -> upd scan_id R st st.
Proof.
  intros HR. split; [reflexivity|].
  destruct (dict_get scan_id st) as [e|]; [|reflexivity]. exists e. auto.
Qed.

Lemma upd_trans scan_id (R1 R2 R3 : status_entry -> status_entry -> Prop) st1 st2 st3 :
  (forall a b c, R1 a b -> R2 b c -> R3 a c) ->
  upd scan_id R1 st1 st2 -> upd scan_id R2 st2 st3 -> upd scan_id R3 st1 st3.
Proof.
  intros HR [F1 G1] [F2 G2]. split.
  - intros other Hne. now rewrite F2, F1.
  - destruct (dict_get scan_id st1) as [e1|].
    + destruct G1 as [e2 [E2 H12]]. rewrite E2 in G2.
      destruct G2 as [e3 [E3 H23]]. exists e3. split; [assumption|]. eauto.
    + now rewrite G1 in G2.
Qed.

Lemma upd_modify scan_id (f : status_entry -> status_entry) st :
  upd scan_id (fun e e' => e' = f e) st (dict_modify scan_id f st).
Proof.
  split.
  - intros other Hne. now apply dict_get_modify_neq.
  - rewrite dict_get_modify_eq. destruct (dict_get scan_id st) as [e|]; simpl; eauto.
Qed.

Lemma upd_weaken scan_id (R R' : status_entry -> status_entry -> Prop) st st' :
  (forall a b, R a b -> R' a b) -> upd scan_id R st st' -> upd scan_id R' st st'.
Proof.
  intros HR [F G]. split; [assumption|].
  destruct (dict_get scan_id st); [|assumption].
  destruct G as [e' [E H]]. exists e'. auto.
Qed.

Lemma upd_keeps_step scan_id step p st :
  upd scan_id keeps st (dict_modify scan_id (set_step step p) st).
Proof.
  eapply upd_weaken; [|apply upd_modify]. intros a b ->. unfold keeps. simpl. tauto.
Qed.

Lemma upd_keeps_progress scan_id p st :
  upd scan_id keeps st (dict_modify scan_id (set_progress p) st).
Proof.
  eapply upd_weaken; [|apply upd_modify]. intros a b ->. unfold keeps. simpl. tauto.
Qed.

Lemma when_state (A : Type) (flag : bool) (o : outcome A) st r st' :
  when flag o st = (r, st') ->
  st' = st
  /\ match r with
     | Done x => (flag = true /\ exists a, o = Done a /\ x = Some a)
                 \/ (flag = false /\ x = None)
     | Failed m => flag = true /\ o = Failed m
     end.
Proof.
  unfold when, bind, io, ret. destruct flag.
  - destruct o as [a|m]; intros [= <- <-]; split; try reflexivity.
    + left. split; [reflexivity|]. now exists a.
    + auto.
  - intros [= <- <-]. split; [reflexivity|]. now right.
Qed.

Section World.
Variable w : world.

(** Discovering one region touches no status entry. *)
Lemma discover_region_state config region st r st' :
  discover_region w config region st = (r, st') -> st' = st.
Proof.
  unfold discover_region, bind, io.
  destruct (new_resource_discoverer w region); [|now intros [= _ <-]].
  repeat match goal with
         | |- context [when ?f ?o st] =>
             let H := fresh "H" in
             destruct (when f o st) as [[?|?] ?] eqn:H;
             apply when_state in H; destruct H as [-> _];
             [|now intros [= _ <-]]
         end.
  unfold ret. now intros [= _ <-].
Qed.

Lemma discover_regions_state scan_id config n idx regions by_region st r st' :
  discover_regions w scan_id config n idx regions by_region st = (r, st') ->
  upd scan_id keeps st st'.
Proof.
  revert idx by_region st. induction regions as [|region rest IH];
    intros idx by_region st; simpl.
  - unfold ret. intros [= _ <-]. apply upd_refl, keeps_refl.
  - unfold bind at 1.
    destruct (discover_region w config region st) as [[rd|m] st1] eqn:H1;
      apply discover_region_state in H1; subst st1.
    + unfold bind at 1, update at 1. intros H.
      eapply upd_trans; [exact keeps_trans | apply upd_keeps_progress | eapply IH; exact H].
    + intros [= _ <-]. apply upd_refl, keeps_refl.
Qed.

(** The [try] body: what it leaves in [scan_status]. *)
Lemma scan_body_state scan_id regions config st r st' :
  scan_body w scan_id regions config st = (r, st') ->
  match r with
  | Done all_results =>
      upd scan_id
          (fun e e' => status e' = "completed" /\ progress e' = 100
                       /\ current_step e' = "Completed"
                       /\ completed_at e' = Some (now_completed w)
                       /\ started_at e' = started_at e /\ error e' = error e
                       /\ failed_at e' = failed_at e) st st'
      /\ sd_scan_id all_results = scan_id /\ sd_regions all_results = regions
  | Failed _ => upd scan_id keeps st st'
  end.
Proof.
  unfold scan_body. unfold bind at 1.
  set (first := if scan_iam config then _ else _).
  destruct (first st) as [[iam|m] st1] eqn:H1.
  2:{ intros [= <- <-]. subst first. destruct (scan_iam config).
      - unfold bind, update, io in H1. destruct (iam_discover_all w); [discriminate|].
        injection H1 as _ <-. apply upd_keeps_step.
      - discriminate. }
  assert (U1 : upd scan_id keeps st st1).
  { subst first. destruct (scan_iam config).
    - unfold bind, update, io, ret in H1. destruct (iam_discover_all w); [|discriminate].
      injection H1 as _ <-. apply upd_keeps_step.
    - unfold ret in H1. injection H1 as _ <-. apply upd_refl, keeps_refl. }
  clear H1. unfold bind at 1, update at 1. unfold bind at 1.
  match goal with
  | |- context [discover_regions w scan_id config ?n ?i regions ?acc ?s] =>
      destruct (discover_regions w scan_id config n i regions acc s)
        as [[by_region|m] st2] eqn:H2; apply discover_regions_state in H2
  end.
  2:{ intros [= <- <-].
      eapply upd_trans; [exact keeps_trans | exact U1 |].
      eapply upd_trans; [exact keeps_trans | apply upd_keeps_step | exact H2]. }
  assert (U2 : upd scan_id keeps st st2).
  { eapply upd_trans; [exact keeps_trans | exact U1 |].
    eapply upd_trans; [exact keeps_trans | apply upd_keeps_step | exact H2]. }
  clear U1 H2. unfold bind at 1, update at 1. cbv zeta. unfold bind at 1, io at 1.
  assert (U3 : upd scan_id keeps st
                 (dict_modify scan_id (set_step "Analyzing Risks" 70) st2)).
  { eapply upd_trans; [exact keeps_trans | exact U2 | apply upd_keeps_step]. }
  destruct (run_risk_analysis w iam (combine by_region)) as [risk|m];
    [|intros [= <- <-]; exact U3].
  unfold bind at 1, update at 1. unfold bind at 1, io at 1.
  assert (U4 : upd scan_id keeps st
                 (dict_modify scan_id (set_step "Building Relationships" 85)
                    (dict_modify scan_id (set_step "Analyzing Risks" 70) st2))).
  { eapply upd_trans; [exact keeps_trans | exact U3 | apply upd_keeps_step]. }
  destruct (run_relationships w iam (combine by_region)) as [rel|m];
    [|intros [= <- <-]; exact U4].
  unfold bind, update, ret. intros [= <- <-].
  split; [|split; reflexivity].
  eapply upd_trans; [|exact U4|apply upd_modify].
  intros a b c [K1 [K2 [K3 [K4 K5]]]] ->. simpl. repeat split; assumption.
Qed.

(** What one region's discovery returns does not depend on the status
    entries. *)
Lemma discover_region_done config region st rd st' :
  discover_region w config region st = (Done rd, st') ->
  new_resource_discoverer w region = Done tt
  /\ (scan_ec2 config = true ->
      exists l, discover_ec2_instances w region = Done l
                /\ rd_ec2_instances rd = Some l)
  /\ (scan_ec2 config = false -> rd_ec2_instances rd = None)
  /\ (rd_s3_buckets rd <> None -> scan_s3 config = true /\ region = "us-east-1").
Proof.
  unfold discover_region, bind, io.
  destruct (new_resource_discoverer w region) as [[]|m0]; [|discriminate].
  destruct (when (scan_ec2 config) (discover_ec2_instances w region) st)
    as [[x1|m1] st1] eqn:H1; apply when_state in H1; destruct H1 as [-> H1];
    [|discriminate].
  destruct (when (scan_lambda config) (discover_lambda_functions w region) st)
    as [[x2|m2] st2] eqn:H2; apply when_state in H2; destruct H2 as [-> H2];
    [|discriminate].
  destruct (when (scan_s3 config && (region =? "us-east-1")%string)
                 (discover_s3_buckets w region) st)
    as [[x3|m3] st3] eqn:H3; apply when_state in H3; destruct H3 as [-> H3];
    [|discriminate].
  destruct (when (scan_rds config) (discover_rds_instances w region) st)
    as [[x4|m4] st4] eqn:H4; apply when_state in H4; destruct H4 as [-> H4];
    [|discriminate].
  destruct (when (scan_security_groups config) (discover_security_groups w region) st)
    as [[x5|m5] st5] eqn:H5; apply when_state in H5; destruct H5 as [-> H5];
    [|discriminate].
  unfold ret. intros [= <- <-]. cbn [rd_ec2_instances rd_s3_buckets].
  split; [reflexivity|]. split; [|split].
  - intros Hf. destruct H1 as [[_ [l [Ho ->]]]|[Hf' _]]; [|congruence]. now exists l.
  - intros Hf. destruct H1 as [[Hf' _]|[_ ->]]; [congruence | reflexivity].
  - intros Hs3. destruct H3 as [[Hf _]|[_ ->]]; [|congruence].
    apply andb_true_iff in Hf. destruct Hf as [Hf E]. apply String.eqb_eq in E. auto.
Qed.

Lemma discover_region_failed config region st m st' :
  discover_region w config region st = (Failed m, st') ->
  discovery_failed w config region m.
Proof.
  unfold discover_region, bind, io, discovery_failed.
  destruct (new_resource_discoverer w region) as [[]|m0]; [|intros [= <- _]; now left].
  destruct (when (scan_ec2 config) (discover_ec2_instances w region) st)
    as [[x1|m1] st1] eqn:H1; apply when_state in H1; destruct H1 as [-> H1].
  2:{ intros [= <- _]. right; left. exact H1. }
  destruct (when (scan_lambda config) (discover_lambda_functions w region) st)
    as [[x2|m2] st2] eqn:H2; apply when_state in H2; destruct H2 as [-> H2].
  2:{ intros [= <- _]. do 2 right; left. exact H2. }
  destruct (when (scan_s3 config && (region =? "us-east-1")%string)
                 (discover_s3_buckets w region) st)
    as [[x3|m3] st3] eqn:H3; apply when_state in H3; destruct H3 as [-> H3].
  2:{ intros [= <- _]. do 3 right; left. destruct H3 as [Hf Ho].
      apply andb_true_iff in Hf. destruct Hf as [Hf E]. apply String.eqb_eq in E. auto. }
  destruct (when (scan_rds config) (discover_rds_instances w region) st)
    as [[x4|m4] st4] eqn:H4; apply when_state in H4; destruct H4 as [-> H4].
  2:{ intros [= <- _]. do 4 right; left. exact H4. }
  destruct (when (scan_security_groups config) (discover_security_groups w region) st)
    as [[x5|m5] st5] eqn:H5; apply when_state in H5; destruct H5 as [-> H5].
  2:{ intros [= <- _]. do 5 right. exact H5. }
  unfold ret. discriminate.
Qed.

Lemma discover_regions_failed scan_id config n idx regions by_region st m st' :
  discover_regions w scan_id config n idx regions by_region st = (Failed m, st') ->
  exists region, In region regions /\ discovery_failed w config region m.
Proof.
  revert idx by_region st. induction regions as [|region rest IH];
    intros idx by_region st; simpl.
  - discriminate.
  - unfold bind at 1.
    destruct (discover_region w config region st) as [[rd|m0] st1] eqn:H1.
    + unfold bind at 1, update at 1. intros H. apply IH in H.
      destruct H as [r [Hr Hf]]. exists r. auto.
    + intros [= <- _]. exists region. split; [now left|].
      eapply discover_region_failed. exact H1.
Qed.

(** The entries of [resource_data] after the loop over the regions. *)
Lemma discover_regions_done scan_id config n idx regions by_region st out st' :
  discover_regions w scan_id config n idx regions by_region st = (Done out, st') ->
  (forall k rd, In (k, rd) out ->
     In (k, rd) by_region
     \/ (In k regions /\ exists st1 st2, discover_region w config k st1 = (Done rd, st2)))
  /\ forall region, In region regions ->
       exists rd st1 st2, In (region, rd) out
                          /\ discover_region w config region st1 = (Done rd, st2).
Proof.
  revert idx by_region st. induction regions as [|region rest IH];
    intros idx by_region st; simpl.
  - unfold ret. intros [= <- _]. split; [auto | intros r []].
  - unfold bind at 1.
    destruct (discover_region w config region st) as [[rd|m0] st1] eqn:H1; [|discriminate].
    unfold bind at 1, update at 1. intros H. destruct (IH _ _ _ H) as [Hin Hall].
    split.
    + intros k rd0 Hk. destruct (Hin k rd0 Hk) as [Hacc|[Hr Hd]].
      * apply BuilderFacts.In_dict_set in Hacc. destruct Hacc as [Heq|Hacc]; [|now left].
        injection Heq as -> ->. right. split; [now left|]. eauto.
      * right. split; [now right | exact Hd].
    + intros r [<-|Hr]; [|now apply Hall].
      destruct (in_dec string_dec region rest) as [Hin'|Hnot]; [now apply Hall|].
      exists rd, st, st1. split; [|exact H1].
      assert (Hkeep : forall regions0 idx0 acc st0 out0 st0',
                 discover_regions w scan_id config n idx0 regions0 acc st0
                 = (Done out0, st0') ->
                 ~ In region regions0 -> dict_get region out0 = dict_get region acc).
      { clear. induction regions0 as [|r0 rest0 IH0]; intros idx0 acc st0 out0 st0'; simpl.
        - unfold ret. now intros [= <- _].
        - unfold bind at 1.
          destruct (discover_region w config r0 st0) as [[rd0|m0] st1]; [|discriminate].
          unfold bind at 1, update at 1. intros H Hn.
          rewrite (IH0 _ _ _ _ _ H) by tauto.
          apply dict_get_set_neq. intros ->. apply Hn. now left. }
      apply dict_get_In. rewrite (Hkeep _ _ _ _ _ _ H Hnot). apply dict_get_set_eq.
Qed.

(** The [try] body: how it ends. *)
Lemma scan_body_cases scan_id regions config st r st' :
  scan_body w scan_id regions config st = (r, st') ->
  exists iam,
    ((scan_iam config = false /\ iam = None)
     \/ (scan_iam config = true
         /\ match iam with
            | Some d => iam_discover_all w = Done d
            | None => exists m, iam_discover_all w = Failed m /\ r = Failed m
            end))
    /\ ((exists m, r = Failed m /\ iam = None /\ scan_iam config = true)
        \/ (exists m region, r = Failed m /\ In region regions
                             /\ discovery_failed w config region m)
        \/ exists by_region st1 st2,
            discover_regions w scan_id config (List.length regions) 0 regions [] st1
            = (Done by_region, st2)
            /\ match r with
               | Done all_results =>
                   sd_iam_data all_results = iam
                   /\ sd_resource_data all_results = by_region
                   /\ run_risk_analysis w iam (combine by_region)
                      = Done (sd_risk_analysis all_results)
                   /\ run_relationships w iam (combine by_region)
                      = Done (sd_relationships all_results)
               | Failed m =>
                   run_risk_analysis w iam (combine by_region) = Failed m
                   \/ ((exists ra, run_risk_analysis w iam (combine by_region) = Done ra)
                       /\ run_relationships w iam (combine by_region) = Failed m
                       /\ exists stx,
                           st' = dict_modify scan_id
                                   (set_step "Building Relationships" 85) stx)
               end).
Proof.
  unfold scan_body. unfold bind at 1.
  set (first := if scan_iam config then _ else _).
  destruct (first st) as [[iam|m] st1] eqn:H1.
  2:{ intros [= <- <-]. subst first. destruct (scan_iam config) eqn:Ei.
      - unfold bind, update, io in H1.
        destruct (iam_discover_all w) as [d|m0] eqn:Ed; [discriminate|].
        injection H1 as <- _. exists None. split.
        + right. split; [reflexivity|]. now exists m0.
        + left. now exists m0.
      - discriminate. }
  intros Hrun. exists iam.
  assert (Hiam : (scan_iam config = false /\ iam = None)
                 \/ (scan_iam config = true
                     /\ match iam with
                        | Some d => iam_discover_all w = Done d
                        | None => exists m, iam_discover_all w = Failed m /\ r = Failed m
                        end)).
  { subst first. destruct (scan_iam config) eqn:Ei.
    - unfold bind, update, io, ret in H1.
      destruct (iam_discover_all w) as [d|m0] eqn:Ed; [|discriminate].
      injection H1 as <- _. right. auto.
    - unfold ret in H1. injection H1 as <- _. now left. }
  split; [exact Hiam|]. clear H1 Hiam first.
  unfold bind at 1, update at 1 in Hrun. unfold bind at 1 in Hrun.
  match type of Hrun with
  | context [discover_regions w scan_id config ?n ?i regions ?acc ?s] =>
      destruct (discover_regions w scan_id config n i regions acc s)
        as [[by_region|m] st2] eqn:H2
  end.
  2:{ injection Hrun as <- <-. right; left.
      apply discover_regions_failed in H2. destruct H2 as [region [Hr Hf]].
      now exists m, region. }
  right; right. do 3 eexists. split; [exact H2|]. clear H2.
  unfold bind at 1, update at 1 in Hrun. cbv zeta in Hrun.
  unfold bind at 1, io at 1 in Hrun.
  destruct (run_risk_analysis w iam (combine by_region)) as [risk|m] eqn:Hrisk.
  2:{ injection Hrun as <- <-. now left. }
  unfold bind at 1, update at 1 in Hrun. unfold bind at 1, io at 1 in Hrun.
  destruct (run_relationships w iam (combine by_region)) as [rel|m] eqn:Hrel.
  2:{ injection Hrun as <- <-. right.
      split; [now exists risk|]. split; [reflexivity|]. eexists. reflexivity. }
  unfold bind, update, ret in Hrun. injection Hrun as <- <-. simpl. auto.
Qed.

End World.

Lemma extend_all_In (A : Type) (key : region_data -> option (list A))
      (by_region : dict region_data) (a : A) :
  In a (extend_all key by_region)
  <-> exists k rd l, In (k, rd) by_region /\ key rd = Some l /\ In a l.
Proof.
  unfold extend_all. rewrite in_flat_map. split.
  - intros [[k rd] [Hin Ha]]. simpl in Ha. destruct (key rd) as [l|] eqn:E; [|destruct Ha].
    now exists k, rd, l.
  - intros [k [rd [l [Hin [Hk Ha]]]]]. exists (k, rd). split; [assumption|].
    simpl. now rewrite Hk.
Qed.

(** The analyzer on instance records made by the discoverer. *)
Lemma analyze_all_on_records cfg now iam res st :
  (forall i, In i (ec2_instances res) ->
     exists raw, i = ResourceDiscoverer._get_ec2_details raw) ->
  exists out st', RiskAnalyzer.analyze_all cfg now iam res st = (Ok out, st').
Proof.
  intros Hrec. unfold RiskAnalyzer.analyze_all, RiskAnalyzer.analyze_resource_risks.
  destruct (AnalyzerErrors.ec2_public_findings_cases (ec2_instances res))
    as [[fs [-> _]]|[_ [i [g [Hi [_ Hg]]]]]].
  - eexists. eexists. reflexivity.
  - exfalso. destruct (Hrec i Hi) as [raw ->]. simpl in Hg.
    apply in_map_iff in Hg. destruct Hg as [x [Hx _]]. discriminate.
Qed.

(** No bucket, no finding about a bucket. *)
Lemma bucket_findings_need_buckets cfg now iam res st out st' :
  RiskAnalyzer.analyze_all cfg now iam res st = (Ok out, st') ->
  s3_buckets res = [] ->
  forall f, In f (RiskAnalyzer.all_findings out) -> resource_type f <> "s3_bucket".
Proof.
  intros Hrun Hs3 f Hf.
  destruct (RiskAnalyzerFacts.analyze_all_ok _ _ _ _ _ Hrun) as [resr [Hres [Hall _]]].
  rewrite Hall in Hf. rewrite !in_app_iff in Hf.
  destruct Hf as [Hf|[Hf|[Hf|[]]]].
  - unfold RiskAnalyzer.analyze_identity_risks in Hf. rewrite !in_app_iff in Hf.
    destruct Hf as [Hf|[Hf|[Hf|Hf]]]; apply in_map_iff in Hf;
      destruct Hf as [x [<- _]]; discriminate.
  - unfold RiskAnalyzer.analyze_resource_risks in Hres.
    destruct (RiskAnalyzer.ec2_public_findings (ec2_instances res)) as [ec2|] eqn:Hec2;
      [|discriminate].
    injection Hres as <-. rewrite Hs3 in Hf. simpl in Hf. rewrite !in_app_iff in Hf.
    destruct Hf as [Hf|[Hf|Hf]].
    + destruct (RiskAnalyzerFacts.ec2_public_findings_inv _ Hec2 _ Hf) as [i [_ [_ Hfi]]].
      unfold RiskAnalyzer.ec2_public_finding in Hfi.
      destruct (RiskAnalyzer.ref_group_ids (ec2_security_groups i)); [|discriminate].
      injection Hfi as <-. discriminate.
    + apply in_map_iff in Hf. destruct Hf as [x [<- _]]. discriminate.
    + apply in_map_iff in Hf. destruct Hf as [x [<- _]]. discriminate.
  - unfold RiskAnalyzer.analyze_network_risks in Hf. apply in_map_iff in Hf.
    destruct Hf as [x [<- _]]. discriminate.
Qed.

End ScanFacts.

Module ScanProtocol.
Import Scan ScanSpec ScanFacts.

(** X21.  [perform_scan] leaves the entries of all other scans alone and
    ends in one of two ways.  Either the scan is marked completed with
    progress 100 and no error, its results are stored under its id, and
    the results route returns them; or it is marked failed with the
    message of the exception, nothing is stored, and the results route
    answers 500 with that message (for an id that had no results).  A
    finished scan is never reported as still running. *)
Theorem perform_scan_ends_one_of_two_ways (w : world) (scan_id : string)
        (regions : list string) (config : ScanConfig) (s : store) :
  let s' := perform_scan w scan_id regions config s in
  (forall other, other <> scan_id ->
     dict_get other (scan_results s') = dict_get other (scan_results s)
     /\ dict_get other (scan_status s') = dict_get other (scan_status s))
  /\ ((exists all_results e,
         dict_get scan_id (scan_results s') = Some all_results
         /\ sd_scan_id all_results = scan_id /\ sd_regions all_results = regions
         /\ dict_get scan_id (scan_status s') = Some e
         /\ status e = "completed" /\ progress e = 100 /\ error e = None
         /\ started_at e = now_status w
         /\ get_scan_results s' scan_id = Respond all_results)
      \/ (exists e m,
            scan_results s' = scan_results s
            /\ dict_get scan_id (scan_status s') = Some e
            /\ status e = "failed" /\ error e = Some m
            /\ failed_at e = Some (now_failed w) /\ completed_at e = None
            /\ (dict_get scan_id (scan_results s) = None ->
                get_scan_results s' scan_id
                = HTTPException 500 ("Scan failed: " ++ m)))).
Proof.
  cbv zeta. unfold perform_scan.
  set (running := {| status := "running"; progress := 0; current_step := "Initializing";
                     started_at := now_status w; completed_at := None; error := None;
                     failed_at := None |}).
  set (st0 := dict_set scan_id running (scan_status s)).
  assert (H0 : dict_get scan_id st0 = Some running) by apply dict_get_set_eq.
  destruct (scan_body w scan_id regions config st0) as [[r|m] st1] eqn:Hbody;
    apply scan_body_state in Hbody.
  - destruct Hbody as [[Hother Hid] [Hsid Hreg]]. rewrite H0 in Hid.
    destruct Hid as [e [He [E1 [E2 [E3 [E4 [E5 [E6 E7]]]]]]]].
    cbn [scan_results scan_status]. split.
    + intros other Hne. split.
      * now apply dict_get_set_neq.
      * rewrite (Hother other Hne). now apply dict_get_set_neq.
    + left. exists r, e. rewrite dict_get_set_eq.
      repeat split; try assumption.
      unfold get_scan_results. cbn [scan_results]. now rewrite dict_get_set_eq.
  - destruct Hbody as [Hother Hid]. rewrite H0 in Hid.
    destruct Hid as [e [He [K1 [K2 [K3 [K4 K5]]]]]].
    cbn [scan_results scan_status]. split.
    + intros other Hne. split; [reflexivity|].
      rewrite dict_get_modify_neq by assumption.
      rewrite (Hother other Hne). now apply dict_get_set_neq.
    + right. exists (set_failed m (now_failed w) e), m.
      split; [reflexivity|]. rewrite dict_get_modify_eq, He.
      split; [reflexivity|]. split; [reflexivity|]. split; [reflexivity|].
      split; [reflexivity|]. split; [exact K3|].
      intros Hnone. unfold get_scan_results. cbn [scan_results scan_status].
      rewrite Hnone, dict_get_modify_eq, He. reflexivity.
Qed.

(** X22.  [delete_scan] answers 404 and changes nothing for an id without
    a status entry.  Otherwise it removes the id from both dicts: the
    status route and the results route answer 404 for it afterwards, and
    they answer as before for every other id. *)
Theorem delete_scan_forgets (s : store) (scan_id : string) :
  let s' := snd (delete_scan s scan_id) in
  if dict_mem scan_id (scan_status s) then
    fst (delete_scan s scan_id) = Respond "Scan deleted successfully"
    /\ get_scan_status s' scan_id = HTTPException 404 "Scan not found"
    /\ get_scan_results s' scan_id = HTTPException 404 "Scan results not found"
    /\ forall other, other <> scan_id ->
         get_scan_status s' other = get_scan_status s other
         /\ get_scan_results s' other = get_scan_results s other
  else
    delete_scan s scan_id = (HTTPException 404 "Scan not found", s).
Proof.
  cbv zeta. unfold delete_scan.
  destruct (dict_mem scan_id (scan_status s)) eqn:Hmem; [|reflexivity].
  cbn [negb fst snd].
  assert (Hres : forall k,
             dict_get k (if dict_mem scan_id (scan_results s)
                         then dict_del scan_id (scan_results s)
                         else scan_results s)
             = if (k =? scan_id)%string then None else dict_get k (scan_results s)).
  { intros k. destruct (String.eqb_spec k scan_id) as [->|Hne].
    - unfold dict_mem. destruct (dict_get scan_id (scan_results s)) eqn:E.
      + apply dict_get_del_eq.
      + exact E.
    - destruct (dict_mem scan_id (scan_results s)); [|reflexivity].
      now apply dict_get_del_neq. }
  split; [reflexivity|]. split; [|split].
  - unfold get_scan_status. cbn [scan_status]. now rewrite dict_get_del_eq.
  - unfold get_scan_results. cbn [scan_results scan_status].
    rewrite Hres, String.eqb_refl, dict_get_del_eq. reflexivity.
  - intros other Hne. unfold get_scan_status, get_scan_results.
    cbn [scan_results scan_status]. rewrite Hres.
    destruct (String.eqb_spec other scan_id); [congruence|].
    rewrite dict_get_del_neq by assumption. split; reflexivity.
Qed.

(** X23.  A scan asked not to discover IAM never completes: nothing is
    stored, and the scan is marked failed, with the AttributeError that
    the analyzer raises on the missing IAM data unless a discovery of
    some region failed before. *)
Theorem scan_without_iam_fails (w : world) (scan_id : string)
        (regions : list string) (config : ScanConfig) (s : store) :
  scan_iam config = false ->
  let s' := perform_scan w scan_id regions config s in
  scan_results s' = scan_results s
  /\ exists e m,
       dict_get scan_id (scan_status s') = Some e
       /\ status e = "failed" /\ error e = Some m
       /\ (m = "'NoneType' object has no attribute 'get'"
           \/ exists region, In region regions
                             /\ discovery_failed w config region m).
Proof.
  intros Hiam. cbv zeta. unfold perform_scan.
  set (running := {| status := "running"; progress := 0; current_step := "Initializing";
                     started_at := now_status w; completed_at := None; error := None;
                     failed_at := None |}).
  set (st0 := dict_set scan_id running (scan_status s)).
  assert (H0 : dict_get scan_id st0 = Some running) by apply dict_get_set_eq.
  destruct (scan_body w scan_id regions config st0) as [[r|m] st1] eqn:Hbody.
  - exfalso. destruct (@scan_body_cases _ _ _ _ _ _ _ Hbody) as [iam [Hi Hc]].
    destruct Hi as [[_ ->]|[Ht _]]; [|congruence].
    destruct Hc as [[m [Hm _]]|[[m [region [Hm _]]]|[br [s1 [s2 [_ [_ [_ [Hrisk _]]]]]]]]];
      try discriminate.
  - pose proof (@scan_body_state _ _ _ _ _ _ _ Hbody) as [_ Hid]. rewrite H0 in Hid.
    destruct Hid as [e [He _]]. cbn [scan_results scan_status].
    split; [reflexivity|]. exists (set_failed m (now_failed w) e), m.
    rewrite dict_get_modify_eq, He. split; [reflexivity|].
    split; [reflexivity|]. split; [reflexivity|].
    destruct (@scan_body_cases _ _ _ _ _ _ _ Hbody) as [iam [Hi Hc]].
    destruct Hi as [[_ ->]|[Ht _]]; [|congruence].
    destruct Hc as [[m0 [_ [_ Ht]]]|[[m0 [region [Hm [Hr Hf]]]]
                    |[br [s1 [s2 [_ [Hrisk|[[ra Hra] _]]]]]]]].
    + congruence.
    + injection Hm as ->. right. now exists region.
    + left. simpl in Hrisk. congruence.
    + simpl in Hra. discriminate.
Qed.

Lemma scan_without_iam_fails_witness :
  exists e,
    dict_get "scan-1"
      (scan_status (perform_scan (world_with []) "scan-1" ["eu-west-1"]
                                 scan_without_iam empty_store)) = Some e
    /\ status e = "failed"
    /\ error e = Some "'NoneType' object has no attribute 'get'".
Proof.
  destruct (@scan_without_iam_fails (world_with []) "scan-1" ["eu-west-1"]
              scan_without_iam empty_store eq_refl) as [_ [e [m [He [Hs [Hm _]]]]]].
  exists e. split; [exact He|]. split; [exact Hs|].
  vm_compute in He. injection He as <-. reflexivity.
Defined.

(** X24.  A scan of an account in which some instance is in a security
    group always fails: when IAM and every region are discovered without
    error, the roles have an arn and the instance records are those of
    [_get_ec2_details], the scan stops in the step "Building
    Relationships" at progress 85 with the error [unhashable type:
    'dict'], and nothing is stored. *)
Theorem scan_of_instances_in_groups_fails (w : world) (scan_id : string)
        (regions : list string) (config : ScanConfig) (s : store) (iam : iam_data)
        (raws : string -> list ResourceDiscoverer.raw_instance) :
  scan_iam config = true -> scan_ec2 config = true ->
  iam_discover_all w = Done iam -> BuilderSpec.roles_have_arn iam ->
  (forall region, In region regions -> discovery_returned w region (raws region)) ->
  (exists region raw, In region regions /\ In raw (raws region)
                      /\ ResourceDiscoverer.SecurityGroups raw <> []) ->
  let s' := perform_scan w scan_id regions config s in
  scan_results s' = scan_results s
  /\ exists e,
       dict_get scan_id (scan_status s') = Some e
       /\ status e = "failed" /\ error e = Some "unhashable type: 'dict'"
       /\ current_step e = "Building Relationships" /\ progress e = 85.
Proof.
  intros Hiam Hec2 Hdisc Harn Hret [region [raw [Hregion [Hraw Hsg]]]].
  cbv zeta. unfold perform_scan.
  set (running := {| status := "running"; progress := 0; current_step := "Initializing";
                     started_at := now_status w; completed_at := None; error := None;
                     failed_at := None |}).
  set (st0 := dict_set scan_id running (scan_status s)).
  assert (H0 : dict_get scan_id st0 = Some running) by apply dict_get_set_eq.
  destruct (scan_body w scan_id regions config st0) as [r st1] eqn:Hbody.
  pose proof (@scan_body_state _ _ _ _ _ _ _ Hbody) as Hstate.
  destruct (@scan_body_cases _ _ _ _ _ _ _ Hbody) as [iam' [Hi Hc]].
  destruct Hi as [[Hf _]|[_ Hi]]; [congruence|].
  destruct iam' as [d|]; [|destruct Hi as [m [Hm _]]; congruence].
  rewrite Hdisc in Hi. injection Hi as <-.
  destruct Hc as [[m [_ [Hn _]]]|[[m [reg [_ [Hreg Hfail]]]]|[br [s1 [s2 [Hbr Hr]]]]]].
  - discriminate.
  - exfalso. destruct (Hret reg Hreg) as [R1 [R2 [[l3 R3] [[l4 R4] [[l5 R5] [l6 R6]]]]]].
    unfold discovery_failed in Hfail.
    destruct Hfail as [F|[[_ F]|[[_ F]|[[_ [_ F]]|[[_ F]|[_ F]]]]]]; congruence.
  - destruct (@discover_regions_done _ _ _ _ _ _ _ _ _ _ Hbr) as [Hentries Hall].
    assert (Hrec : forall k rd, In (k, rd) br ->
               In k regions
               /\ rd_ec2_instances rd
                  = Some (map ResourceDiscoverer._get_ec2_details (raws k))).
    { intros k rd Hin. destruct (Hentries k rd Hin) as [[]|[Hk [sa [sb Hd]]]].
      split; [assumption|].
      destruct (@discover_region_done _ _ _ _ _ _ Hd) as [_ [Hsome _]].
      destruct (Hsome Hec2) as [l [Hl ->]].
      destruct (Hret k Hk) as [_ [R2 _]]. congruence. }
    assert (Hok : exists ra, run_risk_analysis w (Some iam) (combine br) = Done ra).
    { unfold run_risk_analysis.
      destruct (@analyze_all_on_records (settings w) (now_analysis w) iam (combine br)
                  RiskAnalyzer.init) as [out [rst' ->]]; [|now exists out].
      intros i Hi. cbn [combine ec2_instances] in Hi. apply extend_all_In in Hi.
      destruct Hi as [k [rd [l [Hin [Hk Hl]]]]].
      destruct (Hrec k rd Hin) as [_ Hsome]. rewrite Hsome in Hk. injection Hk as <-.
      apply in_map_iff in Hl. destruct Hl as [raw0 [<- _]]. now exists raw0. }
    assert (Hbad : run_relationships w (Some iam) (combine br)
                   = Failed "unhashable type: 'dict'").
    { unfold run_relationships.
      destruct (@DiscovererFacts.build_raises_on_records (set_order w) iam (combine br)
                  RelationshipBuilder.init Harn) as [bst' ->]; [|reflexivity].
      destruct (ResourceDiscoverer.SecurityGroups raw) as [|[g n] l] eqn:E; [congruence|].
      exists (ResourceDiscoverer._get_ec2_details raw), g, n. split.
      - cbn [combine ec2_instances]. apply extend_all_In.
        destruct (Hall region Hregion) as [rd [sa [sb [Hin _]]]].
        destruct (Hrec region rd Hin) as [_ Hsome].
        exists region, rd. eexists. split; [exact Hin|]. split; [exact Hsome|].
        now apply in_map.
      - simpl. rewrite E. now left. }
    destruct r as [r|m].
    + destruct Hr as [_ [_ [_ Hrel]]]. congruence.
    + destruct Hok as [ra Hra].
      destruct Hr as [Hrisk|[_ [Hrel [stx ->]]]]; [congruence|].
      rewrite Hbad in Hrel. injection Hrel as <-.
      destruct Hstate as [_ Hid]. rewrite H0 in Hid. destruct Hid as [e [He _]].
      rewrite dict_get_modify_eq in He.
      destruct (dict_get scan_id stx) as [e0|] eqn:E0; [|discriminate].
      cbn [scan_results scan_status]. split; [reflexivity|].
      rewrite !dict_get_modify_eq, E0. simpl. eexists.
      split; [reflexivity|]. repeat split; reflexivity.
Qed.

Lemma scan_of_instances_in_groups_fails_witness :
  exists e,
    dict_get "scan-1"
      (scan_status (perform_scan (world_with [DiscovererSpec.raw_worker]) "scan-1"
                                 ["eu-west-1"] scan_everything empty_store)) = Some e
    /\ status e = "failed" /\ error e = Some "unhashable type: 'dict'"
    /\ current_step e = "Building Relationships" /\ progress e = 85.
Proof.
  refine (proj2 (@scan_of_instances_in_groups_fails
                   (world_with [DiscovererSpec.raw_worker]) "scan-1" ["eu-west-1"]
                   scan_everything empty_store Examples.one_admin
                   (fun _ => [DiscovererSpec.raw_worker])
                   eq_refl eq_refl eq_refl _ _ _)).
  - intros r [<-|[]]. discriminate.
  - intros region _. unfold discovery_returned. simpl.
    repeat split; try reflexivity; now exists [].
  - exists "eu-west-1", DiscovererSpec.raw_worker.
    split; [now left|]. split; [now left | discriminate].
Defined.

(** X25.  S3 buckets are listed only while the region [us-east-1] is
    scanned: the results of a scan that leaves S3 out or does not include
    [us-east-1] hold no bucket, and its risk analysis no finding about a
    bucket. *)
Theorem buckets_need_us_east_1 (w : world) (scan_id : string)
        (regions : list string) (config : ScanConfig) (s : store)
        (all_results : scan_data) :
  dict_get scan_id (scan_results s) = None ->
  dict_get scan_id (scan_results (perform_scan w scan_id regions config s))
  = Some all_results ->
  scan_s3 config = false \/ ~ In "us-east-1" regions ->
  s3_buckets (combine (sd_resource_data all_results)) = []
  /\ forall f, In f (RiskAnalyzer.all_findings (sd_risk_analysis all_results)) ->
       resource_type f <> "s3_bucket".
Proof.
  intros Hnone Hstored Hcond. unfold perform_scan in Hstored.
  match type of Hstored with
  | context [scan_body w scan_id regions config ?st] =>
      destruct (scan_body w scan_id regions config st) as [[r|m] st1] eqn:Hbody
  end; cbn [scan_results] in Hstored.
  2:{ congruence. }
  rewrite dict_get_set_eq in Hstored. injection Hstored as ->.
  destruct (@scan_body_cases _ _ _ _ _ _ _ Hbody) as [iam [_ Hc]].
  destruct Hc as [[m [Hm _]]|[[m [reg [Hm _]]]|[br [s1 [s2 [Hbr Hr]]]]]];
    try discriminate.
  destruct Hr as [Hiam [Hdata [Hrisk _]]].
  destruct (@discover_regions_done _ _ _ _ _ _ _ _ _ _ Hbr) as [Hentries _].
  assert (Hs3 : s3_buckets (combine br) = []).
  { cbn [combine s3_buckets].
    destruct (extend_all rd_s3_buckets br) as [|b l] eqn:E; [reflexivity|].
    exfalso. assert (Hb : In b (extend_all rd_s3_buckets br)) by (rewrite E; now left).
    apply extend_all_In in Hb. destruct Hb as [k [rd [l0 [Hin [Hk _]]]]].
    destruct (Hentries k rd Hin) as [[]|[Hreg [sa [sb Hd]]]].
    destruct (@discover_region_done _ _ _ _ _ _ Hd) as [_ [_ [_ Hus]]].
    destruct Hus as [Hflag ->]; [congruence|].
    destruct Hcond as [Hoff|Hnot]; [congruence | contradiction]. }
  rewrite Hdata. split; [exact Hs3|].
  unfold run_risk_analysis in Hrisk. destruct iam as [d|]; [|discriminate].
  destruct (RiskAnalyzer.analyze_all (settings w) (now_analysis w) d (combine br)
              RiskAnalyzer.init) as [[out|e] rst'] eqn:Hrun; [|discriminate].
  simpl in Hrisk. injection Hrisk as <-.
  eapply bucket_findings_need_buckets; eassumption.
Qed.

Lemma buckets_need_us_east_1_witness :
  exists all_results,
    dict_get "scan-1"
      (scan_results (perform_scan (world_with []) "scan-1" ["eu-west-1"]
                                  scan_everything empty_store)) = Some all_results
    /\ s3_buckets (combine (sd_resource_data all_results)) = []
    /\ forall f, In f (RiskAnalyzer.all_findings (sd_risk_analysis all_results)) ->
         resource_type f <> "s3_bucket".
Proof.
  eexists. split; [vm_compute; reflexivity|].
  eapply (@buckets_need_us_east_1 (world_with []) "scan-1" ["eu-west-1"]
            scan_everything empty_store).
  - reflexivity.
  - vm_compute. reflexivity.
  - right. intros [H|[]]. discriminate.
Defined.

End ScanProtocol.

(** ** Facts used by the route properties *)

Module RouteFacts.
Import RelationshipBuilder BuilderSpec BuilderVocabulary MapSpec.
Import BuilderFacts MapFacts.
Import RelationshipRoutes RouteSpec.

(** *** The entries of the built group map, read off the input *)

Lemma seeded_get res g :
  dict_get g (seeded res) = option_map seed_entry (group_record res g).
Proof.
  unfold seeded, group_record.
  induction (security_groups res) as [|sg l IH] using rev_ind; [reflexivity|].
  rewrite fold_left_app, rev_app_distr. cbn [fold_left rev app find].
  unfold seed_sg at 1. fold (seed_entry sg).
  destruct (String.eqb_spec (sg_group_id sg) g) as [->|Hne].
  - now rewrite dict_get_set_eq.
  - rewrite dict_get_set_neq by congruence. exact IH.
Qed.

Lemma group_record_In res g sg :
  group_record res g = Some sg -> In sg (security_groups res) /\ sg_group_id sg = g.
Proof.
  unfold group_record. intros H. apply find_some in H. destruct H as [Hin Heq].
  apply String.eqb_eq in Heq. split; [now apply in_rev|assumption].
Qed.

(** The entry stored under [g] in a built map. *)
Lemma built_sg_entry set_order iam res st out st' :
  build_relationships set_order iam res st = (Ok out, st') ->
  NoDup (map fst (security_group_mappings out))
  /\ (forall rg, In rg (references res) ->
        In (snd rg) (map fst (security_group_mappings out)))
  /\ forall g e, In (g, e) (security_group_mappings out) ->
       se_resources e = refs_to g (references res)
       /\ se_has_internet_access e
          = match group_record res g with
            | Some sg => sg_has_internet_access sg
            | None => false
            end
       /\ se_group_name e
          = match group_record res g with
            | Some sg => sg_group_name sg
            | None => g
            end.
Proof.
  intros Hrun.
  destruct (build_relationships_ok _ _ _ _ Hrun) as [rm [st1 [sm [_ [Hsg ->]]]]].
  destruct (sg_map_spec _ _ Hsg) as [_ [Hnd Hget]].
  cbn [security_group_mappings assemble].
  split; [exact Hnd|]. split.
  - intros [r g] Hin. cbn [snd].
    destruct (dict_get g sm) as [e|] eqn:E.
    + apply dict_get_In in E. apply in_map_iff. now exists (g, e).
    + exfalso. rewrite Hget in E. unfold sg_lookup in E.
      assert (Hr : In r (refs_to g (references res))).
      { unfold refs_to. apply in_map_iff. exists (r, g). split; [reflexivity|].
        apply filter_In. split; [assumption|]. cbn [snd]. apply String.eqb_refl. }
      destruct (dict_get g (seeded res)); [discriminate|].
      destruct (refs_to g (references res)); [contradiction | discriminate].
  - intros g e Hin. pose proof (@In_dict_get _ _ _ _ Hnd Hin) as He.
    rewrite Hget in He. unfold sg_lookup, base_entry in He.
    rewrite seeded_get in He.
    destruct (group_record res g) as [sg|]; cbn [option_map] in He.
    + injection He as <-. unfold sg_with, seed_entry. simpl. tauto.
    + destruct (refs_to g (references res)) as [|r0 rs] eqn:Hr; [discriminate|].
      injection He as <-. simpl. rewrite <- Hr. tauto.
Qed.

(** *** Grouping a list of references by key *)

Lemma flat_map_pick (A : Type) (k0 : string) (x : A) (F : string -> list A)
      (keys : list string) :
  NoDup keys -> In k0 keys ->
  Permutation
    (flat_map (fun k => if (k0 =? k)%string then x :: F k else F k) keys)
    (x :: flat_map F keys).
Proof.
  induction keys as [|k keys IH]; [contradiction|].
  intros Hnd Hin. inversion Hnd as [|? ? Hk Hnd']; subst.
  cbn [flat_map]. destruct (String.eqb_spec k0 k) as [->|Hne].
  - simpl. apply perm_skip. apply Permutation_app_head.
    assert (Hsame : forall l, ~ In k l ->
              flat_map (fun k1 => if (k =? k1)%string then x :: F k1 else F k1) l
              = flat_map F l).
    { induction l as [|k1 l IHl]; [reflexivity|]. intros Hn. cbn [flat_map].
      destruct (String.eqb_spec k k1) as [->|_].
      - exfalso. apply Hn. now left.
      - rewrite IHl; [reflexivity|]. intros H. apply Hn. now right. }
    now rewrite Hsame.
  - destruct Hin as [->|Hin]; [congruence|].
    eapply Permutation_trans.
    + apply Permutation_app_head. apply IH; assumption.
    + apply Permutation_sym. apply Permutation_middle.
Qed.

Lemma group_by_key_perm (A : Type) (K : list (A * string)) (keys : list string) :
  NoDup keys -> (forall rg, In rg K -> In (snd rg) keys) ->
  Permutation (flat_map (fun k => filter (fun rg => (snd rg =? k)%string) K) keys) K.
Proof.
  intros Hnd. induction K as [|rg K IH]; intros Hin.
  - cbn [filter]. induction keys as [|k keys IHk]; [constructor|]. simpl.
    apply IHk; [now inversion Hnd | intros ? []].
  - eapply Permutation_trans.
    2:{ apply perm_skip. apply IH. intros rg' H. apply Hin. now right. }
    cbn [filter].
    apply (@flat_map_pick _ (snd rg) rg
             (fun k => filter (fun rg0 => (snd rg0 =? k)%string) K) keys Hnd).
    apply Hin. now left.
Qed.

Lemma flat_map_flat_map (A B C : Type) (f : A -> list B) (g : B -> list C)
      (l : list A) :
  flat_map g (flat_map f l) = flat_map (fun a => flat_map g (f a)) l.
Proof.
  induction l as [|a l IH]; [reflexivity|]. simpl.
  now rewrite flat_map_app, IH.
Qed.

Lemma flat_map_ext_In (A B : Type) (f g : A -> list B) (l : list A) :
  (forall a, In a l -> f a = g a) -> flat_map f l = flat_map g l.
Proof.
  induction l as [|a l IH]; [reflexivity|]. intros H. simpl.
  rewrite (H a) by (now left). rewrite IH; [reflexivity|].
  intros b Hb. apply H. now right.
Qed.

Lemma flat_map_keys (A B : Type) (G : string -> list B) (d : list (string * A)) :
  flat_map (fun kv => G (fst kv)) d = flat_map G (map fst d).
Proof. induction d as [|kv d IH]; [reflexivity|]. simpl. now rewrite IH. Qed.

(** What the route appends for the group [g], through its references. *)
Lemma exposed_of_group res g e :
  se_resources e = refs_to g (references res) ->
  se_has_internet_access e
  = match group_record res g with
    | Some sg => sg_has_internet_access sg
    | None => false
    end ->
  se_group_name e
  = match group_record res g with
    | Some sg => sg_group_name sg
    | None => g
    end ->
  (if se_has_internet_access e
   then map (exposed_entry g e) (se_resources e) else [])
  = flat_map (exposed_through res)
      (filter (fun rg => (snd rg =? g)%string) (references res)).
Proof.
  intros Hres Hflag Hname. rewrite Hres. clear Hres. unfold refs_to.
  induction (references res) as [|[r g'] K IH]; cbn [filter snd].
  - simpl. now destruct (se_has_internet_access e).
  - destruct (String.eqb_spec g' g) as [->|Hne]; [|exact IH].
    cbn [map flat_map fst]. rewrite <- IH.
    unfold exposed_through at 1, exposed_entry. cbn [fst snd].
    rewrite Hflag, Hname.
    destruct (group_record res g) as [sg|]; [|reflexivity].
    destruct (sg_has_internet_access sg); reflexivity.
Qed.

Lemma exposed_through_In res rg x :
  In x (exposed_through res rg) ->
  er_risky_rules x = []
  /\ er_security_group_id x = snd rg
  /\ er_resource_id x = sr_resource_id (fst rg)
  /\ exists sg, In sg (security_groups res) /\ sg_group_id sg = snd rg
                /\ sg_has_internet_access sg = true.
Proof.
  unfold exposed_through.
  destruct (group_record res (snd rg)) as [sg|] eqn:E; [|contradiction].
  destruct (sg_has_internet_access sg) eqn:Hf; [|contradiction].
  intros [<-|[]]. cbn. destruct (group_record_In _ _ E) as [Hin Hid].
  repeat split; try reflexivity. exists sg. auto.
Qed.

(** *** The two loops of the resource route *)

Lemma find_in_roles_inner (rid : string) (kv : string * role_entry)
      (l : list resource_info) (acc : list role_ref * option resource_info) :
  let step := fun (acc : list role_ref * option resource_info) resource =>
                if (ri_resource_id resource =? rid)%string
                then (fst acc ++ [{| rr_role_name := fst kv;
                                     rr_role_arn := re_role_arn (snd kv);
                                     rr_role_type := re_role_type (snd kv) |}],
                      Some resource)
                else acc in
  let matching := filter (fun r => (ri_resource_id r =? rid)%string) l in
  fst (fold_left step l acc)
  = fst acc ++ map (fun _ => {| rr_role_name := fst kv;
                                rr_role_arn := re_role_arn (snd kv);
                                rr_role_type := re_role_type (snd kv) |}) matching
  /\ ((matching = [] /\ snd (fold_left step l acc) = snd acc)
      \/ exists r, In r matching /\ snd (fold_left step l acc) = Some r).
Proof.
  cbv zeta. revert acc. induction l as [|r l IH]; intros acc.
  - simpl. rewrite app_nil_r. auto.
  - cbn [fold_left filter].
    destruct (ri_resource_id r =? rid)%string eqn:E.
    + match goal with |- context [fold_left ?f l ?a] =>
        destruct (IH a) as [Hf Hs] end.
      cbn [fst snd] in Hf, Hs. split.
      * rewrite Hf. cbn [map]. now rewrite <- app_assoc.
      * right. destruct Hs as [[Hnil Hs]|[r' [Hin Hs]]].
        -- exists r. split; [now left|]. exact Hs.
        -- exists r'. split; [now right|]. exact Hs.
    + apply IH.
Qed.

Lemma find_in_roles_spec (rid : string) (rm : dict role_entry) :
  let matching := fun kv : string * role_entry =>
                    filter (fun r => (ri_resource_id r =? rid)%string)
                           (re_resources (snd kv)) in
  fst (find_in_roles rid rm)
  = flat_map (fun kv => map (fun _ => {| rr_role_name := fst kv;
                                         rr_role_arn := re_role_arn (snd kv);
                                         rr_role_type := re_role_type (snd kv) |})
                            (matching kv)) rm
  /\ ((snd (find_in_roles rid rm) = None
       /\ forall kv, In kv rm -> matching kv = [])
      \/ exists kv r, In kv rm /\ In r (matching kv)
                      /\ snd (find_in_roles rid rm) = Some r).
Proof.
  cbv zeta. unfold find_in_roles.
  set (step := fun (acc : list role_ref * option resource_info)
                   (kv : string * role_entry) => fold_left _ (re_resources (snd kv)) acc).
  assert (H : forall acc,
    fst (fold_left step rm acc)
    = fst acc ++ flat_map (fun kv => map (fun _ => {| rr_role_name := fst kv;
                                         rr_role_arn := re_role_arn (snd kv);
                                         rr_role_type := re_role_type (snd kv) |})
                    (filter (fun r => (ri_resource_id r =? rid)%string)
                            (re_resources (snd kv)))) rm
    /\ ((snd (fold_left step rm acc) = snd acc
         /\ forall kv, In kv rm ->
              filter (fun r => (ri_resource_id r =? rid)%string)
                     (re_resources (snd kv)) = [])
        \/ exists kv r, In kv rm
             /\ In r (filter (fun r => (ri_resource_id r =? rid)%string)
                             (re_resources (snd kv)))
             /\ snd (fold_left step rm acc) = Some r)).
  { induction rm as [|kv rm IH]; intros acc.
    - simpl. rewrite app_nil_r. split; [reflexivity|]. left. split; [reflexivity|].
      intros kv [].
    - cbn [fold_left flat_map].
      destruct (IH (step acc kv)) as [Hf Hs].
      destruct (find_in_roles_inner rid kv (re_resources (snd kv)) acc) as [Hf1 Hs1].
      fold (step acc kv) in Hf1, Hs1. split.
      + rewrite Hf, Hf1. now rewrite <- app_assoc.
      + destruct Hs as [[Hs Hnone]|[kv' [r [Hin [Hr Hs]]]]].
        * destruct Hs1 as [[Hnil Hs1]|[r [Hr Hs1]]].
          -- left. split; [congruence|]. intros kv' [<-|Hin]; auto.
          -- right. exists kv, r. split; [now left|]. split; [assumption|]. congruence.
        * right. exists kv', r. split; [now right|]. auto. }
  destruct (H ([], None)) as [Hf Hs]. split; [exact Hf|]. exact Hs.
Qed.

Lemma find_in_groups_spec (rid : string) (sm : dict sg_entry) :
  find_in_groups rid sm
  = flat_map (fun kv => map (fun _ => {| gr_group_id := fst kv;
                                         gr_group_name := se_group_name (snd kv);
                                         gr_has_internet_access :=
                                           se_has_internet_access (snd kv) |})
                            (filter (fun r => (sr_resource_id r =? rid)%string)
                                    (se_resources (snd kv)))) sm.
Proof.
  unfold find_in_groups.
  set (inner := fun (kv : string * sg_entry) (acc : list group_ref) resource =>
                  if (sr_resource_id resource =? rid)%string
                  then acc ++ [{| gr_group_id := fst kv;
                                  gr_group_name := se_group_name (snd kv);
                                  gr_has_internet_access :=
                                    se_has_internet_access (snd kv) |}]
                  else acc).
  assert (Hin : forall kv l acc,
            fold_left (inner kv) l acc
            = acc ++ map (fun _ => {| gr_group_id := fst kv;
                                      gr_group_name := se_group_name (snd kv);
                                      gr_has_internet_access :=
                                        se_has_internet_access (snd kv) |})
                         (filter (fun r => (sr_resource_id r =? rid)%string) l)).
  { intros kv l. induction l as [|r l IH]; intros acc.
    - simpl. now rewrite app_nil_r.
    - cbn [fold_left filter]. unfold inner at 2.
      destruct (sr_resource_id r =? rid)%string.
      + rewrite IH. cbn [map]. now rewrite <- app_assoc.
      + apply IH. }
  change (fold_left (fun acc kv => fold_left (inner kv) (se_resources (snd kv)) acc) sm []
          = flat_map (fun kv => map (fun _ => {| gr_group_id := fst kv;
                                         gr_group_name := se_group_name (snd kv);
                                         gr_has_internet_access :=
                                           se_has_internet_access (snd kv) |})
                            (filter (fun r => (sr_resource_id r =? rid)%string)
                                    (se_resources (snd kv)))) sm).
  assert (H : forall acc,
            fold_left (fun acc kv => fold_left (inner kv) (se_resources (snd kv)) acc) sm acc
            = acc ++ flat_map (fun kv => map (fun _ => {| gr_group_id := fst kv;
                                         gr_group_name := se_group_name (snd kv);
                                         gr_has_internet_access :=
                                           se_has_internet_access (snd kv) |})
                            (filter (fun r => (sr_resource_id r =? rid)%string)
                                    (se_resources (snd kv)))) sm).
  { induction sm as [|kv sm IH]; intros acc.
    - simpl. now rewrite app_nil_r.
    - cbn [fold_left flat_map]. rewrite IH, Hin. now rewrite <- app_assoc. }
  rewrite H. reflexivity.
Qed.

Lemma built_role_entries set_order iam res st out st' :
  build_relationships set_order iam res st = (Ok out, st') ->
  (forall k e, In (k, e) (role_mappings out) ->
     In k (map role_name (roles iam)) /\ re_resources e = resources_of_role k res)
  /\ forall k, In k (map role_name (roles iam)) ->
       exists e, In (k, e) (role_mappings out).
Proof.
  intros Hrun.
  destruct (build_relationships_ok _ _ _ _ Hrun) as [rm [st1 [sm [Hloops [_ ->]]]]].
  destruct (role_map_loops_spec _ _ _ Hloops) as [_ [Hnd [Hkeys Hget]]].
  cbn [role_mappings assemble].
  assert (Hnd' : NoDup (map fst (finalize_map set_order rm))).
  { now rewrite finalize_map_keys. }
  split.
  - intros k e Hin. pose proof (@In_dict_get _ _ _ _ Hnd' Hin) as He.
    unfold finalize_map in He. rewrite dict_get_map in He.
    destruct (dict_get k rm) as [e0|] eqn:E0; [|discriminate].
    simpl in He. injection He as <-.
    destruct (Hget k e0 E0) as [Hres [r [Hr [Hk _]]]].
    split; [|exact Hres]. apply in_map_iff. now exists r.
  - intros k Hk. destruct (dict_get k rm) as [e0|] eqn:E0.
    + exists (finalize_role set_order e0). apply dict_get_In.
      unfold finalize_map. rewrite dict_get_map, E0. reflexivity.
    + apply Hkeys in E0. contradiction.
Qed.

Lemma resources_of_role_ids k res r :
  In r (resources_of_role k res) ->
  (exists i, In i (ec2_instances res) /\ ri_resource_id r = instance_id i)
  \/ exists f, In f (lambda_functions res) /\ ri_resource_id r = function_name f.
Proof.
  unfold resources_of_role. rewrite in_app_iff, !in_map_iff.
  intros [[i [<- Hi]]|[f [<- Hf]]]; apply filter_In in Hi || apply filter_In in Hf.
  - left. exists i. split; [tauto | reflexivity].
  - right. exists f. split; [tauto | reflexivity].
Qed.

End RouteFacts.

(** ** The answers of the routes on a built scan *)

Module RouteAnswers.
Import RelationshipBuilder BuilderSpec BuilderVocabulary MapSpec.
Import BuilderFacts MapFacts.
Import RelationshipRoutes RouteSpec RouteFacts.

(** X26 ([get_internet_exposed_resources] on the output of
    [build_relationships]).  The answer lists, up to order, one item for
    every (resource, group id) reference of the input whose group id names
    an enumerated group with [has_internet_access] (of several records with
    one id the last counts); a resource behind two such groups is listed
    twice, and [total_exposed] counts the items.  Every item has an empty
    [risky_rules] list, whatever rules the group record has, and a group
    that is only referenced never exposes a resource. *)
Theorem exposed_route_lists_flagged_references
        set_order iam res st out st' (s : Scan.store) scan_id sd :
  build_relationships set_order iam res st = (Ok out, st') ->
  dict_get scan_id (Scan.scan_results s) = Some sd ->
  Scan.sd_relationships sd = out ->
  exists a,
    get_internet_exposed_resources s scan_id = Scan.Respond a
    /\ Permutation (resources a) (flat_map (exposed_through res) (references res))
    /\ total_exposed a = len (flat_map (exposed_through res) (references res))
    /\ forall x, In x (resources a) ->
         er_risky_rules x = []
         /\ (exists r, In (r, er_security_group_id x) (references res)
                       /\ er_resource_id x = sr_resource_id r)
         /\ exists sg, In sg (security_groups res)
                       /\ sg_group_id sg = er_security_group_id x
                       /\ sg_has_internet_access sg = true.
Proof.
  intros Hrun Hs Hsd.
  destruct (built_sg_entry _ _ _ _ Hrun) as [Hnd [Hkeys Hent]].
  unfold get_internet_exposed_resources. rewrite Hs, Hsd.
  eexists. split; [reflexivity|]. cbn [resources total_exposed].
  assert (Hperm : Permutation
            (flat_map
               (fun kv : string * sg_entry =>
                  if se_has_internet_access (snd kv)
                  then map (exposed_entry (fst kv) (snd kv)) (se_resources (snd kv))
                  else [])
               (security_group_mappings out))
            (flat_map (exposed_through res) (references res))).
  { rewrite (@flat_map_ext_In _ _ _
               (fun kv => flat_map (exposed_through res)
                            (filter (fun rg => (snd rg =? fst kv)%string)
                                    (references res)))).
    2:{ intros [g e] Hin. cbn [fst snd].
        destruct (Hent g e Hin) as [Hr [Hf Hn]]. now apply exposed_of_group. }
    rewrite (@flat_map_keys _ _
               (fun g => flat_map (exposed_through res)
                           (filter (fun rg => (snd rg =? g)%string) (references res)))).
    rewrite <- flat_map_flat_map.
    apply Permutation_flat_map. apply group_by_key_perm; assumption. }
  split; [exact Hperm|]. split.
  - unfold len. f_equal. now apply Permutation_length.
  - intros x Hx. apply (Permutation_in _ Hperm) in Hx.
    apply in_flat_map in Hx. destruct Hx as [[r g] [Hin Hx]].
    destruct (exposed_through_In _ _ _ Hx) as [Hrr [Hg [Hid Hsg]]].
    cbn [fst snd] in *. split; [assumption|]. rewrite Hg. split.
    + exists r. auto.
    + exact Hsg.
Qed.

Lemma exposed_route_lists_flagged_references_witness :
  exists a,
    get_internet_exposed_resources db_store "scan-1" = Scan.Respond a
    /\ Permutation (resources a)
         (flat_map (exposed_through db_resources) (references db_resources))
    /\ total_exposed a = 2
    /\ map er_resource_id (resources a) = ["report"; "billing"].
Proof.
  destruct (@exposed_route_lists_flagged_references
              Examples.insertion_order Examples.one_admin db_resources init
              _ _ db_store "scan-1" _ eq_refl eq_refl eq_refl)
    as [a [Ha [Hperm [Htotal _]]]].
  exists a. split; [exact Ha|]. split; [exact Hperm|]. split; [exact Htotal|].
  vm_compute in Ha. injection Ha as <-. reflexivity.
Defined.

(** X27 ([get_resource_relationships] on the output of
    [build_relationships]).  A resource is found only through the role
    map: the route answers 404 "Resource not found" exactly when no
    instance or function that runs under a role of the account has the id,
    so a database is never found (unless an instance or a function shares
    its id), whatever groups protect it.  When it answers, the details are
    those of a role's resource with that id, the roles listed are the
    roles with such a resource and the groups listed are the groups that a
    resource with that id refers to. *)
Theorem resource_route_needs_a_role
        set_order iam res st out st' (s : Scan.store) scan_id sd rid :
  build_relationships set_order iam res st = (Ok out, st') ->
  dict_get scan_id (Scan.scan_results s) = Some sd ->
  Scan.sd_relationships sd = out ->
  (get_resource_relationships s rid scan_id
   = Scan.HTTPException 404 "Resource not found"
   <-> forall k, In k (map role_name (roles iam)) ->
         forall r, In r (resources_of_role k res) -> ri_resource_id r <> rid)
  /\ (forall d, In d (rds_instances res) -> db_instance_identifier d = rid ->
        (forall i, In i (ec2_instances res) -> instance_id i <> rid) ->
        (forall f, In f (lambda_functions res) -> function_name f <> rid) ->
        get_resource_relationships s rid scan_id
        = Scan.HTTPException 404 "Resource not found")
  /\ forall a, get_resource_relationships s rid scan_id = Scan.Respond a ->
       ra_resource_id a = rid
       /\ ri_resource_id (ra_resource_details a) = rid
       /\ (exists k, In k (map role_name (roles iam))
                     /\ In (ra_resource_details a) (resources_of_role k res))
       /\ (forall k, In k (map rr_role_name (ra_iam_roles a))
                     <-> In k (map role_name (roles iam))
                         /\ exists r, In r (resources_of_role k res)
                                      /\ ri_resource_id r = rid)
       /\ forall g, In g (map gr_group_id (ra_security_groups a))
                    <-> exists r, In (r, g) (references res)
                                  /\ sr_resource_id r = rid.
Proof.
  intros Hrun Hs Hsd.
  destruct (built_role_entries _ _ _ _ Hrun) as [Hent Hnames].
  destruct (built_sg_entry _ _ _ _ Hrun) as [Hnd [Hkeys Hsg]].
  pose proof (find_in_roles_spec rid (role_mappings out)) as Hroles.
  cbv zeta in Hroles. destruct Hroles as [Hfst Hsnd].
  pose proof (find_in_groups_spec rid (security_group_mappings out)) as Hgroups.
  unfold get_resource_relationships. rewrite Hs, Hsd.
  destruct (find_in_roles rid (role_mappings out)) as [iam_roles det] eqn:E.
  cbn [fst snd] in Hfst, Hsnd.
  assert (Hnone : det = None
                  <-> forall k, In k (map role_name (roles iam)) ->
                        forall r, In r (resources_of_role k res) ->
                                  ri_resource_id r <> rid).
  { split.
    - intros -> k Hk r Hr Hid.
      destruct Hsnd as [[_ Hall]|[kv [r' [_ [_ Hd]]]]]; [|discriminate].
      destruct (Hnames k Hk) as [e He]. specialize (Hall (k, e) He).
      cbn [snd] in Hall. rewrite (proj2 (Hent k e He)) in Hall.
      assert (Hin : In r (filter (fun r0 => (ri_resource_id r0 =? rid)%string)
                                 (resources_of_role k res))).
      { apply filter_In. split; [assumption|]. now apply String.eqb_eq. }
      rewrite Hall in Hin. contradiction.
    - intros Hall. destruct Hsnd as [[Hd _]|[[k e] [r [Hkv [Hr Hd]]]]]; [assumption|].
      exfalso. cbn [snd] in Hr. apply filter_In in Hr. destruct Hr as [Hr Hid].
      apply String.eqb_eq in Hid. destruct (Hent k e Hkv) as [Hk Hres].
      rewrite Hres in Hr. exact (Hall k Hk r Hr Hid). }
  split; [|split].
  - rewrite <- Hnone. destruct det; split; congruence.
  - intros d Hd Hdid Hec2 Hlam.
    assert (Hdn : det = None).
    { apply Hnone. intros k Hk r Hr Hid.
      destruct (resources_of_role_ids _ _ _ Hr) as [[i [Hi Hri]]|[f [Hf Hrf]]].
      - apply (Hec2 i Hi). congruence.
      - apply (Hlam f Hf). congruence. }
    now rewrite Hdn.
  - intros a Ha. destruct det as [details|]; [|discriminate].
    injection Ha as <-. cbn.
    destruct Hsnd as [[Hd _]|[[k e] [r [Hkv [Hr Hd]]]]]; [discriminate|].
    injection Hd as <-. cbn [snd] in Hr. apply filter_In in Hr.
    destruct Hr as [Hr Hid]. apply String.eqb_eq in Hid.
    destruct (Hent k e Hkv) as [Hk Hres]. rewrite Hres in Hr.
    split; [reflexivity|]. split; [assumption|]. split; [now exists k|]. split.
    + intros k'. rewrite Hfst. rewrite in_map_iff. split.
      * intros [rr [Hname Hin]]. apply in_flat_map in Hin.
        destruct Hin as [[k1 e1] [Hkv1 Hin]]. cbn [fst snd] in Hin.
        apply in_map_iff in Hin. destruct Hin as [r1 [<- Hr1]].
        cbn in Hname. subst k1. apply filter_In in Hr1. destruct Hr1 as [Hr1 Hid1].
        apply String.eqb_eq in Hid1. destruct (Hent k' e1 Hkv1) as [Hk1 Hres1].
        rewrite Hres1 in Hr1. split; [assumption|]. now exists r1.
      * intros [Hk' [r1 [Hr1 Hid1]]]. destruct (Hnames k' Hk') as [e1 He1].
        exists {| rr_role_name := k'; rr_role_arn := re_role_arn e1;
                  rr_role_type := re_role_type e1 |}.
        split; [reflexivity|]. apply in_flat_map. exists (k', e1).
        split; [assumption|]. cbn [fst snd]. apply in_map_iff. exists r1.
        split; [reflexivity|]. apply filter_In.
        rewrite (proj2 (Hent k' e1 He1)). split; [assumption|].
        now apply String.eqb_eq.
    + intros g. rewrite Hgroups. rewrite in_map_iff. split.
      * intros [gr [Hg Hin]]. apply in_flat_map in Hin.
        destruct Hin as [[g1 e1] [Hkv1 Hin]]. cbn [fst snd] in Hin.
        apply in_map_iff in Hin. destruct Hin as [r1 [<- Hr1]].
        cbn in Hg. subst g1. apply filter_In in Hr1. destruct Hr1 as [Hr1 Hid1].
        apply String.eqb_eq in Hid1.
        rewrite (proj1 (Hsg g e1 Hkv1)) in Hr1. unfold refs_to in Hr1.
        apply in_map_iff in Hr1. destruct Hr1 as [[r2 g2] [Hfst2 Hin2]].
        apply filter_In in Hin2. destruct Hin2 as [Hin2 Hg2].
        cbn [fst snd] in *. apply String.eqb_eq in Hg2. subst.
        exists r1. auto.
      * intros [r1 [Hin1 Hid1]].
        pose proof (Hkeys (r1, g) Hin1) as Hkey. cbn [snd] in Hkey.
        apply in_map_iff in Hkey. destruct Hkey as [[g1 e1] [Hg1 Hkv1]].
        cbn [fst] in Hg1. subst g1.
        exists {| gr_group_id := g; gr_group_name := se_group_name e1;
                  gr_has_internet_access := se_has_internet_access e1 |}.
        split; [reflexivity|]. apply in_flat_map. exists (g, e1).
        split; [assumption|]. cbn [fst snd]. apply in_map_iff. exists r1.
        split; [reflexivity|]. apply filter_In.
        rewrite (proj1 (Hsg g e1 Hkv1)). split; [|now apply String.eqb_eq].
        unfold refs_to. apply in_map_iff. exists (r1, g). split; [reflexivity|].
        apply filter_In. split; [assumption|]. cbn [snd]. apply String.eqb_refl.
Qed.

Lemma resource_route_needs_a_role_witness :
  get_resource_relationships db_store "billing" "scan-1"
  = Scan.HTTPException 404 "Resource not found"
  /\ In (rds_resource billing_db, "sg-1") (references db_resources)
  /\ forall a, get_resource_relationships db_store "report" "scan-1" = Scan.Respond a ->
       forall g, In g (map gr_group_id (ra_security_groups a))
                 <-> exists r, In (r, g) (references db_resources)
                               /\ sr_resource_id r = "report".
Proof.
  split; [|split].
  - refine (proj1 (proj2 (@resource_route_needs_a_role
              Examples.insertion_order Examples.one_admin db_resources init
              _ _ db_store "scan-1" _ "billing" eq_refl eq_refl eq_refl))
              billing_db _ eq_refl _ _).
    + simpl. auto.
    + simpl. intros i [].
    + simpl. intros f [<-|[]]. discriminate.
  - simpl. auto.
  - intros a Ha.
    exact (proj2 (proj2 (proj2 (proj2 (proj2 (proj2
             (@resource_route_needs_a_role
                Examples.insertion_order Examples.one_admin db_resources init
                _ _ db_store "scan-1" _ "report" eq_refl eq_refl eq_refl)) a Ha))))).
Defined.

End RouteAnswers.

(** ** Facts used by the risk route properties *)

Module RiskRouteFacts.
Import RiskAnalyzer AnalyzerSpec RiskAnalyzerFacts.
Import RiskRoutes RiskRouteSpec.

(** *** The tally of the statistics loop *)

Lemma count_risk_fold (l : list finding) (stats : statistics) :
  let out := fold_left count_risk l stats in
  st_total_risks out = st_total_risks stats + len l
  /\ bs_critical (st_by_severity out)
     = bs_critical (st_by_severity stats)
       + count_if (fun f => severity_eqb (f_severity f) critical) l
  /\ bs_high (st_by_severity out)
     = bs_high (st_by_severity stats)
       + count_if (fun f => severity_eqb (f_severity f) high) l
  /\ bs_medium (st_by_severity out)
     = bs_medium (st_by_severity stats)
       + count_if (fun f => severity_eqb (f_severity f) medium) l
  /\ bs_low (st_by_severity out)
     = bs_low (st_by_severity stats)
       + count_if (fun f => severity_eqb (f_severity f) low) l.
Proof.
  cbv zeta. revert stats. induction l as [|f l IH]; intros stats.
  - unfold count_if, len. simpl. lia.
  - cbn [fold_left]. destruct (IH (count_risk stats f)) as [Ht [Hc [Hh [Hm Hl]]]].
    rewrite Ht, Hc, Hh, Hm, Hl. unfold count_if, len. cbn [filter count_risk
      st_total_risks st_by_severity].
    destruct (f_severity f); cbn [severity_eqb bump_severity bs_critical bs_high
      bs_medium bs_low List.length]; lia.
Qed.

Lemma count_type_fold (l : list finding) (stats : statistics) :
  let out := fold_left count_risk l stats in
  bt_identity (st_by_type out)
  = bt_identity (st_by_type stats)
    + count_if (fun f => risk_type_eqb (f_risk_type f) identity) l
  /\ bt_resource (st_by_type out)
     = bt_resource (st_by_type stats)
       + count_if (fun f => risk_type_eqb (f_risk_type f) resource) l
  /\ bt_network (st_by_type out)
     = bt_network (st_by_type stats)
       + count_if (fun f => risk_type_eqb (f_risk_type f) network) l
  /\ bt_compliance (st_by_type out)
     = bt_compliance (st_by_type stats)
       + count_if (fun f => risk_type_eqb (f_risk_type f) compliance) l.
Proof.
  cbv zeta. revert stats. induction l as [|f l IH]; intros stats.
  - unfold count_if, len. simpl. lia.
  - cbn [fold_left]. destruct (IH (count_risk stats f)) as [Hi [Hr [Hn Hc]]].
    rewrite Hi, Hr, Hn, Hc. unfold count_if, len. cbn [filter count_risk st_by_type].
    destruct (f_risk_type f); cbn [risk_type_eqb bump_type bt_identity bt_resource
      bt_network bt_compliance List.length]; lia.
Qed.

Lemma count_if_all (A : Type) (p : A -> bool) (l : list A) :
  (forall a, In a l -> p a = true) -> count_if p l = len l.
Proof.
  intros H. unfold count_if. f_equal.
  induction l as [|a l IH]; [reflexivity|]. cbn [filter].
  rewrite (H a) by (now left). f_equal.
  apply IH. intros b Hb. apply H. now right.
Qed.

Lemma count_if_none (A : Type) (p : A -> bool) (l : list A) :
  (forall a, In a l -> p a = false) -> count_if p l = 0.
Proof.
  intros H. unfold count_if, len.
  induction l as [|a l IH]; [reflexivity|]. cbn [filter].
  rewrite (H a) by (now left). apply IH. intros b Hb. apply H. now right.
Qed.

Lemma count_if_app (A : Type) (p : A -> bool) (l l' : list A) :
  count_if p (l ++ l') = count_if p l + count_if p l'.
Proof. unfold count_if, len. rewrite filter_app, length_app. lia. Qed.

Lemma tally_perm (A : Type) (p : A -> bool) (l l' : list A) :
  Permutation l l' -> count_if p l = count_if p l'.
Proof.
  intros H. unfold count_if, len. f_equal. apply Permutation_length.
  induction H as [|x l1 l2 H IH|x y l1|l1 l2 l3 H1 IH1 H2 IH2]; cbn [filter].
  - constructor.
  - destruct (p x); [now apply perm_skip | assumption].
  - destruct (p x), (p y); try apply Permutation_refl; apply perm_swap.
  - eapply Permutation_trans; eassumption.
Qed.

Lemma count_if_ext (A : Type) (p q : A -> bool) (l : list A) :
  (forall a, In a l -> p a = q a) -> count_if p l = count_if q l.
Proof.
  intros H. unfold count_if. f_equal.
  induction l as [|a l IH]; [reflexivity|]. cbn [filter].
  rewrite (H a) by (now left). rewrite IH; [reflexivity|].
  intros b Hb. apply H. now right.
Qed.

(** The tally of the resource types. *)
Lemma bump_fold (t : string) (l : list finding) (stats : statistics) :
  let c := count_if (fun f => (resource_type f =? t)%string) l in
  dict_get t (by_resource_type (fold_left count_risk l stats))
  = match dict_get t (by_resource_type stats) with
    | Some n => Some (n + c)
    | None => if c =? 0 then None else Some c
    end.
Proof.
  cbv zeta. revert stats. induction l as [|f l IH]; intros stats.
  - unfold count_if, len. simpl.
    destruct (dict_get t (by_resource_type stats)); [f_equal; lia | reflexivity].
  - cbn [fold_left]. rewrite IH.
    assert (Hpos : forall l0, 0 <= count_if (fun f0 => (resource_type f0 =? t)%string) l0).
    { intros l0. unfold count_if, len. lia. }
    pose proof (Hpos l) as Hl.
    unfold count_if, len in *. cbn [filter count_risk by_resource_type]. unfold bump.
    destruct (String.eqb_spec (resource_type f) t) as [->|Hne].
    + rewrite dict_get_set_eq. cbn [List.length].
      destruct (dict_get t (by_resource_type stats)) as [n|].
      * f_equal. lia.
      * match goal with |- _ = (if ?c then _ else _) => destruct c eqn:E end.
        -- apply Z.eqb_eq in E. lia.
        -- f_equal. lia.
    + rewrite dict_get_set_neq by congruence. reflexivity.
Qed.

(** *** The findings of a successful analysis *)

Lemma analyze_all_risks cfg now iam res st out st' :
  analyze_all cfg now iam res st = (Ok out, st') ->
  exists resr,
    analyze_resource_risks res = Ok resr
    /\ r_risks out = {| identity_risks := analyze_identity_risks iam;
                        resource_risks := resr;
                        network_risks := analyze_network_risks res;
                        compliance_risks := [] |}.
Proof.
  unfold analyze_all.
  destruct (analyze_resource_risks res) as [resr|] eqn:Hres; [|discriminate].
  intros H. injection H as <- <-. exists resr. simpl.
  now rewrite compliance_risks_nil.
Qed.

Lemma identity_risks_type (iam : iam_data) (f : finding) :
  In f (analyze_identity_risks iam) -> f_risk_type f = identity.
Proof.
  unfold analyze_identity_risks. rewrite !in_app_iff, !in_map_iff.
  intros [[a [<- _]]|[[a [<- _]]|[[a [<- _]]|[a [<- _]]]]]; reflexivity.
Qed.

Lemma resource_risks_type (res : resource_data) (fs : list finding) (f : finding) :
  analyze_resource_risks res = Ok fs -> In f fs -> f_risk_type f = resource.
Proof.
  unfold analyze_resource_risks.
  destruct (ec2_public_findings (ec2_instances res)) as [ec2|] eqn:Hec2; [|discriminate].
  intros H. injection H as <-. rewrite !in_app_iff, !in_map_iff.
  intros [H|[[a [<- _]]|[[a [<- _]]|[[a [<- _]]|[a [<- _]]]]]]; try reflexivity.
  destruct (ec2_public_findings_inv _ Hec2 _ H) as [i [_ [_ Hf]]].
  unfold ec2_public_finding in Hf.
  destruct (ref_group_ids (ec2_security_groups i)); [|discriminate].
  injection Hf as <-. reflexivity.
Qed.

Lemma network_risks_type (res : resource_data) (f : finding) :
  In f (analyze_network_risks res) -> f_risk_type f = network.
Proof.
  unfold analyze_network_risks. rewrite in_map_iff. intros [a [<- _]]. reflexivity.
Qed.

(** Under the thresholds every rule lands in the bucket of its label. *)
Lemma label_is_bucket cfg (f : finding) (b : severity) :
  labels_match_buckets cfg -> in_table f ->
  in_bucket cfg b f = severity_eqb (f_severity f) b.
Proof.
  unfold labels_match_buckets, in_table, rule_table, in_bucket, bucket_of.
  intros [Hc [Hh Hm]] Hin. simpl in Hin.
  destruct Hin as [H|[H|[H|[H|[H|[H|[H|[H|[]]]]]]]]]; injection H as <- <-;
    repeat match goal with
           | |- context [?a <=? ?b] =>
               destruct (Z.leb_spec a b); try lia
           end; reflexivity.
Qed.

Lemma severity_partition (l : list finding) :
  count_if (fun f => severity_eqb (f_severity f) critical) l
  + count_if (fun f => severity_eqb (f_severity f) high) l
  + count_if (fun f => severity_eqb (f_severity f) medium) l
  + count_if (fun f => severity_eqb (f_severity f) low) l
  = len l.
Proof.
  unfold count_if, len. induction l as [|f l IH]; [reflexivity|].
  cbn [filter]. destruct (f_severity f); cbn [severity_eqb List.length]; lia.
Qed.

Lemma in_table_not_low (f : finding) : in_table f -> severity_eqb (f_severity f) low = false.
Proof.
  unfold in_table, rule_table. simpl.
  intros [H|[H|[H|[H|[H|[H|[H|[H|[]]]]]]]]]; injection H as _ <-; reflexivity.
Qed.

End RiskRouteFacts.

(** ** Facts used by the blast-radius property *)

Module BlastFacts.
Import RiskAnalyzer RelationshipBuilder BuilderSpec BuilderVocabulary MapSpec.
Import BuilderFacts MapFacts.
Import RelationshipRoutes RiskRoutes RiskRouteSpec.

Lemma built_role_lookup set_order iam res st out st' k :
  build_relationships set_order iam res st = (Ok out, st') ->
  In k (map role_name (roles iam)) ->
  exists e, dict_get k (role_mappings out) = Some e
            /\ re_resources e = resources_of_role k res.
Proof.
  intros Hrun Hk.
  destruct (build_relationships_ok _ _ _ _ Hrun) as [rm [st1 [sm [Hloops [_ ->]]]]].
  destruct (role_map_loops_spec _ _ _ Hloops) as [_ [_ [Hkeys Hget]]].
  cbn [role_mappings assemble]. unfold finalize_map. rewrite dict_get_map.
  destruct (dict_get k rm) as [e0|] eqn:E0.
  - exists (finalize_role set_order e0). split; [reflexivity|].
    exact (proj1 (Hget k e0 E0)).
  - apply Hkeys in E0. contradiction.
Qed.

Lemma role_name_of_arn_plain (n : string) :
  has_slash n = false -> role_name_of_arn n = n.
Proof. intros Hn. unfold role_name_of_arn. now rewrite Hn. Qed.

(** No segment of [s.split("/")] contains a "/". *)
Lemma split_slash_segments (s : string) :
  Forall (fun seg => has_slash seg = false) (split_slash s).
Proof.
  induction s as [|c s IH]; cbn [split_slash].
  - repeat constructor.
  - destruct (Ascii.eqb c "/") eqn:E.
    + constructor; [reflexivity | exact IH].
    + destruct (split_slash s) as [|seg segs].
      * repeat constructor. cbn [has_slash]. now rewrite E.
      * inversion IH as [|? ? Hseg Hsegs]; subst. constructor; [|assumption].
        cbn [has_slash]. now rewrite E, Hseg.
Qed.

Lemma last_segment_no_slash (s : string) :
  has_slash (ResourceDiscoverer.last_segment s) = false.
Proof.
  unfold ResourceDiscoverer.last_segment.
  pose proof (split_slash_segments s) as H.
  induction (split_slash s) as [|seg segs IH]; [reflexivity|].
  inversion H as [|? ? Hseg Hsegs]; subst.
  destruct segs as [|seg' segs]; [exact Hseg|]. apply IH. assumption.
Qed.

(** The two tests that pick the resources of the role named [name] agree
    when [name] is not empty. *)
Lemma profile_test_agrees (name : string) (i : ec2_instance) :
  name <> EmptyString ->
  profile_is name i
  = match iam_instance_profile i with
    | Some p => (p =? name)%string
    | None => false
    end.
Proof.
  intros Hne. unfold profile_is. destruct (iam_instance_profile i) as [p|]; [|reflexivity].
  destruct (String.eqb_spec p name) as [->|_]; [|apply andb_false_r].
  apply String.eqb_neq in Hne. now rewrite Hne.
Qed.

Lemma role_test_agrees (name : string) (f : lambda_function) :
  name <> EmptyString ->
  (forall a, lambda_role f = Some a -> has_slash a = false) ->
  function_role_is name f
  = match lambda_role f with
    | Some p => (p =? name)%string
    | None => false
    end.
Proof.
  intros Hne Hplain. unfold function_role_is.
  destruct (lambda_role f) as [a|]; [|reflexivity].
  rewrite (role_name_of_arn_plain _ (Hplain a eq_refl)).
  destruct (String.eqb_spec a name) as [->|_]; [|apply andb_false_r].
  apply String.eqb_neq in Hne. now rewrite Hne.
Qed.

Lemma filter_agree (A : Type) (p q : A -> bool) (l : list A) :
  (forall a, In a l -> p a = q a) -> filter p l = filter q l.
Proof.
  induction l as [|a l IH]; [reflexivity|]. intros H. cbn [filter].
  rewrite (H a) by (now left). rewrite IH; [reflexivity|].
  intros b Hb. apply H. now right.
Qed.

End BlastFacts.

(** ** The answers of the risk routes on a stored scan *)

Module RiskRouteAnswers.
Import RiskAnalyzer AnalyzerSpec RiskAnalyzerFacts.
Import RiskRoutes RiskRouteSpec RiskRouteFacts.

(** X28 ([get_risk_statistics] for one scan, on the output of
    [analyze_all] of a new analyzer).  The total equals the summary's
    [total_risks]; [by_type] counts the three non-empty categories and has
    0 for compliance; no finding is counted as low; [by_resource_type] has
    a key exactly for the resource types that occur, with their counts;
    and under thresholds that put every rule's score into the bucket of
    its label (the defaults do) [by_severity] equals the four counters of
    the summary. *)
Theorem statistics_agree_with_summary
        cfg now iam res out st' (s : Scan.store) scan_id sd :
  analyze_all cfg now iam res init = (Ok out, st') ->
  dict_get scan_id (Scan.scan_results s) = Some sd ->
  Scan.sd_risk_analysis sd = out ->
  scan_id <> EmptyString ->
  exists stats,
    get_risk_statistics s (Some scan_id) = Scan.Respond stats
    /\ st_total_risks stats = total_risks (r_risk_summary out)
    /\ bt_identity (st_by_type stats) = len (identity_risks (r_risks out))
    /\ bt_resource (st_by_type stats) = len (resource_risks (r_risks out))
    /\ bt_network (st_by_type stats) = len (network_risks (r_risks out))
    /\ bt_compliance (st_by_type stats) = 0
    /\ bs_low (st_by_severity stats) = 0
    /\ bs_critical (st_by_severity stats) + bs_high (st_by_severity stats)
       + bs_medium (st_by_severity stats) = st_total_risks stats
    /\ (forall t,
          dict_get t (by_resource_type stats)
          = let c := count_if (fun f => (resource_type f =? t)%string)
                              (all_findings out) in
            if c =? 0 then None else Some c)
    /\ (labels_match_buckets cfg ->
        bs_critical (st_by_severity stats) = n_critical (r_risk_summary out)
        /\ bs_high (st_by_severity stats) = n_high (r_risk_summary out)
        /\ bs_medium (st_by_severity stats) = n_medium (r_risk_summary out)
        /\ bs_low (st_by_severity stats) = n_low (r_risk_summary out)).
Proof.
  intros Hrun Hs Hsd Hid.
  unfold get_risk_statistics.
  assert (Hne : (scan_id =? EmptyString)%string = false) by now apply String.eqb_neq.
  rewrite Hne. cbn [negb]. rewrite Hs. cbn [fold_left snd]. rewrite Hsd.
  eexists. split; [reflexivity|].
  fold (all_findings out).
  destruct (count_risk_fold (all_findings out) no_statistics) as [Ht [Hc [Hh [Hm Hl]]]].
  destruct (count_type_fold (all_findings out) no_statistics) as [Hti [Htr [Htn Htc]]].
  cbv zeta in *.
  cbn [no_statistics st_total_risks st_by_severity st_by_type bs_critical bs_high
       bs_medium bs_low bt_identity bt_resource bt_network bt_compliance]
    in Ht, Hc, Hh, Hm, Hl, Hti, Htr, Htn, Htc.
  destruct (analyze_all_ok _ _ _ _ _ Hrun) as [resr0 [_ [_ [Hst [_ Hsum]]]]].
  destruct (analyze_all_risks _ _ _ _ _ Hrun) as [resr [Hres Hrisks]].
  pose proof (all_findings_table _ _ _ _ _ Hrun) as Htable.
  assert (Hall : all_findings out
                 = analyze_identity_risks iam ++ resr ++ analyze_network_risks res ++ []).
  { unfold all_findings, compile_all. rewrite Hrisks. reflexivity. }
  assert (Hlen : len (sort_desc risk_score (all_findings out)) = len (all_findings out)).
  { unfold len. f_equal. apply Permutation_length. apply sort_desc_perm. }
  assert (Hlow : count_if (fun f => severity_eqb (f_severity f) low) (all_findings out) = 0).
  { apply count_if_none. intros f Hf. apply in_table_not_low. now apply Htable. }
  split; [|split; [|split; [|split; [|split; [|split; [|split; [|split]]]]]]].
  - rewrite Ht, Hsum. cbn [total_risks]. rewrite Hlen. lia.
  - rewrite Hti, Hall, Hrisks. cbn [identity_risks]. rewrite !count_if_app.
    rewrite (@count_if_all _ _ (analyze_identity_risks iam)).
    2:{ intros f Hf. now rewrite (@identity_risks_type _ _ Hf). }
    rewrite (@count_if_none _ _ resr).
    2:{ intros f Hf. now rewrite (@resource_risks_type _ _ _ Hres Hf). }
    rewrite (@count_if_none _ _ (analyze_network_risks res)).
    2:{ intros f Hf. now rewrite (@network_risks_type _ _ Hf). }
    unfold count_if, len. simpl. lia.
  - rewrite Htr, Hall, Hrisks. cbn [resource_risks]. rewrite !count_if_app.
    rewrite (@count_if_none _ _ (analyze_identity_risks iam)).
    2:{ intros f Hf. now rewrite (@identity_risks_type _ _ Hf). }
    rewrite (@count_if_all _ _ resr).
    2:{ intros f Hf. now rewrite (@resource_risks_type _ _ _ Hres Hf). }
    rewrite (@count_if_none _ _ (analyze_network_risks res)).
    2:{ intros f Hf. now rewrite (@network_risks_type _ _ Hf). }
    unfold count_if, len. simpl. lia.
  - rewrite Htn, Hall, Hrisks. cbn [network_risks]. rewrite !count_if_app.
    rewrite (@count_if_none _ _ (analyze_identity_risks iam)).
    2:{ intros f Hf. now rewrite (@identity_risks_type _ _ Hf). }
    rewrite (@count_if_none _ _ resr).
    2:{ intros f Hf. now rewrite (@resource_risks_type _ _ _ Hres Hf). }
    rewrite (@count_if_all _ _ (analyze_network_risks res)).
    2:{ intros f Hf. now rewrite (@network_risks_type _ _ Hf). }
    unfold count_if, len. simpl. lia.
  - rewrite Htc, Hall. rewrite !count_if_app.
    rewrite (@count_if_none _ _ (analyze_identity_risks iam)).
    2:{ intros f Hf. now rewrite (@identity_risks_type _ _ Hf). }
    rewrite (@count_if_none _ _ resr).
    2:{ intros f Hf. now rewrite (@resource_risks_type _ _ _ Hres Hf). }
    rewrite (@count_if_none _ _ (analyze_network_risks res)).
    2:{ intros f Hf. now rewrite (@network_risks_type _ _ Hf). }
    unfold count_if, len. simpl. lia.
  - rewrite Hl, Hlow. lia.
  - rewrite Hc, Hh, Hm, Ht.
    pose proof (severity_partition (all_findings out)) as Hp. lia.
  - intros t. rewrite bump_fold. reflexivity.
  - intros Hthr.
    assert (Hbucket : forall b,
              len (filter (in_bucket cfg b) (sort_desc risk_score (all_findings out)))
              = count_if (fun f => severity_eqb (f_severity f) b) (all_findings out)).
    { intros b. change (count_if (in_bucket cfg b) (sort_desc risk_score (all_findings out))
                        = count_if (fun f => severity_eqb (f_severity f) b)
                                   (all_findings out)).
      rewrite (tally_perm _ (sort_desc_perm risk_score (all_findings out))).
      apply count_if_ext. intros f Hf. apply label_is_bucket; [assumption|].
      now apply Htable. }
    rewrite Hsum, Hst, categorize_filter.
    cbn [n_critical n_high n_medium n_low rs_critical rs_high rs_medium rs_low init app].
    rewrite !Hbucket. lia.
Qed.

Lemma statistics_agree_with_summary_witness :
  exists stats,
    get_risk_statistics RouteSpec.db_store (Some "scan-1") = Scan.Respond stats
    /\ st_total_risks stats = 3
    /\ st_by_severity stats
       = {| bs_critical := 2; bs_high := 1; bs_medium := 0; bs_low := 0 |}
    /\ by_resource_type stats
       = [("iam_role", 1); ("rds_instance", 1); ("security_group", 1)].
Proof.
  destruct (@statistics_agree_with_summary
              default_settings "t2" Examples.one_admin RouteSpec.db_resources _ _
              RouteSpec.db_store "scan-1" _ eq_refl eq_refl eq_refl)
    as [stats [Ha [Htotal _]]].
  - discriminate.
  - exists stats. split; [exact Ha|]. split; [exact Htotal|].
    vm_compute in Ha. injection Ha as <-. split; reflexivity.
Defined.

End RiskRouteAnswers.

Module BlastRadiusAnswers.
Import RiskAnalyzer RelationshipBuilder BuilderSpec BuilderVocabulary MapSpec.
Import BuilderFacts MapFacts.
Import RelationshipRoutes RiskRoutes RiskRouteSpec BlastFacts.

(** X29 (the blast-radius route against the role map of the same scan).
    When the functions of the scan are [_get_lambda_details] records,
    whose role is the last segment of the function's role ARN, the blast
    radius of a role found by its arn (and named) lists the same resources
    as the role's entry in the role map: the same ids and types in the
    same order, and as many public ones.  In particular a discovered
    function is in the blast radius of the role that the last segment of
    its role ARN names. *)
Theorem blast_radius_agrees_with_role_map
        set_order (s : Scan.store) scan_id sd iam st st' arn r :
  dict_get scan_id (Scan.scan_results s) = Some sd ->
  Scan.sd_iam_data sd = Some iam ->
  build_relationships set_order iam (Scan.combine (Scan.sd_resource_data sd)) st
  = (Ok (Scan.sd_relationships sd), st') ->
  find_identity arn iam = Some (IsRole r) ->
  role_name r <> EmptyString ->
  (forall f, In f (lambda_functions (Scan.combine (Scan.sd_resource_data sd))) ->
     exists function, f = ResourceDiscoverer._get_lambda_details function) ->
  exists br e,
    RiskRoutes.calculate_blast_radius s arn scan_id = Scan.Respond br
    /\ dict_get (role_name r) (role_mappings (Scan.sd_relationships sd)) = Some e
    /\ map (fun a => (affected_type a, affected_id a)) (affected_resources br)
       = map (fun ri => (ri_resource_type ri, ri_resource_id ri)) (re_resources e)
    /\ count_if affected_is_public (affected_resources br)
       = count_if ri_is_public (re_resources e)
    /\ forall function,
         In (ResourceDiscoverer._get_lambda_details function)
            (lambda_functions (Scan.combine (Scan.sd_resource_data sd))) ->
         ResourceDiscoverer.last_segment
           (match ResourceDiscoverer.Role function with
            | Some a => a
            | None => EmptyString
            end) = role_name r ->
         In (AffectedLambda (ResourceDiscoverer.FunctionName function)
                            (ResourceDiscoverer.truthy
                               (ResourceDiscoverer.VpcConfigVpcId function)))
            (affected_resources br)
         /\ In (lambda_info (ResourceDiscoverer._get_lambda_details function))
               (re_resources e).
Proof.
  intros Hs Hiam Hrun Hfind Hne Hrec.
  set (res := Scan.combine (Scan.sd_resource_data sd)) in *.
  assert (Hr : In r (roles iam)).
  { unfold find_identity in Hfind.
    destruct (find (fun r0 => arn_is arn (role_arn r0)) (roles iam)) as [r0|] eqn:E.
    - injection Hfind as ->. now apply find_some in E.
    - destruct (find (fun u => arn_is arn (user_arn u)) (users iam)); discriminate. }
  assert (Hk : In (role_name r) (map role_name (roles iam))).
  { apply in_map_iff. now exists r. }
  destruct (built_role_lookup _ _ _ _ _ Hrun Hk) as [e [He Hres]].
  exists (RiskAnalyzer.calculate_blast_radius arn iam res), e.
  split.
  { unfold RiskRoutes.calculate_blast_radius. rewrite Hs, Hiam. reflexivity. }
  split; [exact He|].
  assert (Haff : affected_resources (RiskAnalyzer.calculate_blast_radius arn iam res)
                 = role_affected (role_name r) res).
  { unfold RiskAnalyzer.calculate_blast_radius. rewrite Hfind. reflexivity. }
  assert (Hplain : forall f, In f (lambda_functions res) ->
                     forall a, lambda_role f = Some a -> has_slash a = false).
  { intros f Hf a Ha. destruct (Hrec f Hf) as [function ->].
    cbn [ResourceDiscoverer._get_lambda_details lambda_role] in Ha.
    injection Ha as <-. apply last_segment_no_slash. }
  assert (Hec2 : filter (profile_is (role_name r)) (ec2_instances res)
                 = filter (fun i => match iam_instance_profile i with
                                    | Some p => (p =? role_name r)%string
                                    | None => false
                                    end) (ec2_instances res)).
  { apply filter_agree. intros i _. now apply profile_test_agrees. }
  assert (Hlam : filter (function_role_is (role_name r)) (lambda_functions res)
                 = filter (fun f => match lambda_role f with
                                    | Some p => (p =? role_name r)%string
                                    | None => false
                                    end) (lambda_functions res)).
  { apply filter_agree. intros f Hf. apply role_test_agrees; [assumption|].
    now apply Hplain. }
  rewrite Haff, Hres. unfold role_affected, resources_of_role.
  rewrite Hec2, Hlam.
  split; [|split].
  - rewrite !map_app, !map_map. reflexivity.
  - unfold count_if, len. rewrite !filter_app, !length_app. f_equal. f_equal.
    + generalize (filter (fun i => match iam_instance_profile i with
                                   | Some p => (p =? role_name r)%string
                                   | None => false
                                   end) (ec2_instances res)).
      intros l. induction l as [|i l IH]; [reflexivity|].
      simpl. destruct (ec2_is_public i); simpl; now rewrite IH.
    + generalize (filter (fun f => match lambda_role f with
                                   | Some p => (p =? role_name r)%string
                                   | None => false
                                   end) (lambda_functions res)).
      intros l. induction l as [|f l IH]; [reflexivity|].
      simpl. exact IH.
  - intros function Hin Hlast.
    assert (Hpick : In (ResourceDiscoverer._get_lambda_details function)
                       (filter (fun f => match lambda_role f with
                                         | Some p => (p =? role_name r)%string
                                         | None => false
                                         end) (lambda_functions res))).
    { apply filter_In. split; [assumption|].
      cbn [ResourceDiscoverer._get_lambda_details lambda_role]. rewrite Hlast.
      apply String.eqb_refl. }
    split; apply in_or_app; right.
    + apply in_map_iff. exists (ResourceDiscoverer._get_lambda_details function).
      split; [reflexivity | exact Hpick].
    + apply in_map. exact Hpick.
Qed.

Lemma blast_radius_agrees_with_role_map_witness :
  exists br e,
    RiskRoutes.calculate_blast_radius discovered_store "arn:aws:iam::1:role/ops" "scan-1"
    = Scan.Respond br
    /\ map affected_id (affected_resources br) = ["i-5"; "export"]
    /\ map ri_resource_id (re_resources e) = ["i-5"; "export"]
    /\ map (fun a => (affected_type a, affected_id a)) (affected_resources br)
       = map (fun ri => (ri_resource_type ri, ri_resource_id ri)) (re_resources e)
    /\ br_risk_score br = 45.
Proof.
  destruct (@blast_radius_agrees_with_role_map
              Examples.insertion_order discovered_store "scan-1" _ Examples.one_admin
              init _ "arn:aws:iam::1:role/ops" Examples.admin_role
              eq_refl eq_refl eq_refl eq_refl)
    as [br [e [Hbr [He [Hsame _]]]]].
  - discriminate.
  - intros f [<-|[]]. now exists export_function.
  - exists br, e. split; [exact Hbr|].
    vm_compute in Hbr. injection Hbr as <-.
    vm_compute in He. injection He as <-.
    split; [reflexivity|]. split; [reflexivity|]. split; [exact Hsame | reflexivity].
Defined.

End BlastRadiusAnswers.

(** ** Facts used by the properties of the routes after a scan *)

Module ScanRouteFacts.
Import ScanSpec ScanFacts.
Import RelationshipBuilder BuilderSpec BuilderVocabulary MapSpec.
Import BuilderFacts BuilderErrors MapFacts.
Import RelationshipRoutes RouteSpec RouteFacts ScanRouteSpec.

(** What [perform_scan] has stored under a new id. *)
Lemma stored_by_scan (w : Scan.world) scan_id regions config (s : Scan.store) sd :
  dict_get scan_id (Scan.scan_results s) = None ->
  dict_get scan_id (Scan.scan_results (Scan.perform_scan w scan_id regions config s))
  = Some sd ->
  exists iam st',
    build_relationships (Scan.set_order w) iam
                        (Scan.combine (Scan.sd_resource_data sd)) init
    = (Ok (Scan.sd_relationships sd), st')
    /\ forall k rd, In (k, rd) (Scan.sd_resource_data sd) ->
         exists st1 st2, Scan.discover_region w config k st1 = (Scan.Done rd, st2).
Proof.
  intros Hnew. unfold Scan.perform_scan.
  match goal with |- context [Scan.scan_body w scan_id regions config ?st0] =>
    destruct (Scan.scan_body w scan_id regions config st0) as [r st1] eqn:Hbody end.
  destruct (@scan_body_cases _ _ _ _ _ _ _ Hbody) as [iam [_ Hc]].
  destruct r as [all_results|m]; cbn [Scan.scan_results].
  2:{ rewrite Hnew. discriminate. }
  rewrite dict_get_set_eq. intros [= <-].
  destruct Hc as [[m [Hm _]]|[[m [reg [Hm _]]]|[br [s1 [s2 [Hbr Hr]]]]]];
    try discriminate.
  destruct Hr as [_ [Hdata [_ Hrel]]].
  unfold Scan.run_relationships in Hrel. destruct iam as [d|]; [|discriminate].
  destruct (build_relationships (Scan.set_order w) d (Scan.combine br) init)
    as [[out|e] st'] eqn:Hb; cbn [fst Scan.of_result] in Hrel; [|discriminate].
  injection Hrel as <-. exists d, st'. rewrite Hdata. split; [exact Hb|].
  intros k rd Hin.
  destruct (@discover_regions_done _ _ _ _ _ _ _ _ _ _ Hbr) as [Hentries _].
  destruct (Hentries k rd Hin) as [[]|[_ H]]. exact H.
Qed.

(** A built map has no instance whose groups are given as dicts. *)
Lemma built_refs_are_ids set_order iam res st out st' i g n :
  build_relationships set_order iam res st = (Ok out, st') ->
  In i (ec2_instances res) -> ~ In (SgRecord g n) (ec2_security_groups i).
Proof.
  intros Hrun Hi Hsg.
  destruct (build_relationships_ok _ _ _ _ Hrun) as [rm [st1 [sm [_ [Hmap _]]]]].
  destruct (@sg_map_raises res st1) as [st2 Hr].
  { exists i, g, n. auto. }
  rewrite Hr in Hmap. discriminate.
Qed.

Lemma references_of_bare (res : resource_data) r g :
  (forall i, In i (ec2_instances res) -> ec2_security_groups i = []) ->
  In (r, g) (references res) -> sr_resource_type r <> "ec2_instance".
Proof.
  intros Hbare. unfold references. rewrite !in_app_iff, !in_flat_map.
  intros [[i [Hi Hin]]|[[f [_ Hin]]|[d [_ Hin]]]].
  - unfold ec2_pairs in Hin. rewrite (Hbare i Hi) in Hin. contradiction.
  - unfold lambda_pairs in Hin. apply in_flat_map in Hin.
    destruct Hin as [g' [_ [[= <- _]|[]]]]. discriminate.
  - unfold rds_pairs in Hin. apply in_flat_map in Hin.
    destruct Hin as [g' [_ [[= <- _]|[]]]]. discriminate.
Qed.

End ScanRouteFacts.

(** ** The routes after a scan *)

Module ScanRouteAnswers.
Import ScanSpec ScanFacts.
Import RelationshipBuilder BuilderSpec BuilderVocabulary MapSpec.
Import BuilderFacts MapFacts.
Import RelationshipRoutes RouteSpec RouteFacts ScanRouteSpec ScanRouteFacts.

(** X30 (a scan and the routes that read it).  When the instances come as
    [_get_ec2_details] records, results are stored under a new scan id only
    if no discovered instance has a security group; so for such a scan
    [get_internet_exposed_resources] never lists an EC2 instance, and no
    group returned by [get_security_group_relationships] has an EC2
    instance among its resources. *)
Theorem scanned_instances_are_never_exposed
        (w : Scan.world) scan_id regions config (s : Scan.store) :
  dict_get scan_id (Scan.scan_results s) = None ->
  instances_are_records w ->
  let s' := Scan.perform_scan w scan_id regions config s in
  (forall sd i, dict_get scan_id (Scan.scan_results s') = Some sd ->
     In i (ec2_instances (Scan.combine (Scan.sd_resource_data sd))) ->
     ec2_security_groups i = [])
  /\ (forall a x, get_internet_exposed_resources s' scan_id = Scan.Respond a ->
        In x (resources a) -> er_resource_type x <> "ec2_instance")
  /\ forall g e r, get_security_group_relationships s' g scan_id = Scan.Respond e ->
       In r (se_resources e) -> sr_resource_type r <> "ec2_instance".
Proof.
  intros Hnew Hrec. cbv zeta.
  set (s' := Scan.perform_scan w scan_id regions config s).
  assert (Hbare : forall sd, dict_get scan_id (Scan.scan_results s') = Some sd ->
            exists iam st',
              build_relationships (Scan.set_order w) iam
                                  (Scan.combine (Scan.sd_resource_data sd)) init
              = (Ok (Scan.sd_relationships sd), st')
              /\ forall i,
                   In i (ec2_instances (Scan.combine (Scan.sd_resource_data sd))) ->
                   ec2_security_groups i = []).
  { intros sd Hsd.
    destruct (@stored_by_scan _ _ _ _ _ _ Hnew Hsd) as [iam [st' [Hb Hregions]]].
    exists iam, st'. split; [exact Hb|]. intros i Hi.
    cbn [Scan.combine ec2_instances] in Hi. apply extend_all_In in Hi.
    destruct Hi as [k [rd [l [Hin [Hl Hil]]]]].
    destruct (Hregions k rd Hin) as [st1 [st2 Hd]].
    destruct (@discover_region_done _ _ _ _ _ _ Hd) as [_ [Hsome [Hnone _]]].
    destruct (Scan.scan_ec2 config) eqn:Hflag.
    - destruct (Hsome eq_refl) as [l' [Hdisc Hl']]. rewrite Hl' in Hl.
      injection Hl as <-. destruct (Hrec k l' Hdisc) as [raws ->].
      apply in_map_iff in Hil. destruct Hil as [raw [<- Hraw]].
      cbn [ResourceDiscoverer._get_ec2_details ec2_security_groups].
      destruct (ResourceDiscoverer.SecurityGroups raw) as [|[g n] rest] eqn:E;
        [reflexivity|].
      exfalso.
      apply (@built_refs_are_ids _ _ _ _ _ _
               (ResourceDiscoverer._get_ec2_details raw) g n Hb).
      + cbn [Scan.combine ec2_instances]. apply extend_all_In.
        exists k, rd. eexists. split; [exact Hin|]. split; [exact Hl'|].
        apply in_map_iff. exists raw. split; [reflexivity | exact Hraw].
      + cbn [ResourceDiscoverer._get_ec2_details ec2_security_groups].
        rewrite E. now left.
    - rewrite (Hnone eq_refl) in Hl. discriminate. }
  split; [|split].
  - intros sd i Hsd Hi. destruct (Hbare sd Hsd) as [_ [_ [_ H]]]. now apply H.
  - intros a x. unfold get_internet_exposed_resources.
    destruct (dict_get scan_id (Scan.scan_results s')) as [sd|] eqn:Hsd; [|discriminate].
    intros [= <-]. cbn [resources]. intros Hx.
    destruct (Hbare sd eq_refl) as [iam [st' [Hb Hnone]]].
    destruct (built_sg_entry _ _ _ _ Hb) as [_ [_ Hent]].
    apply in_flat_map in Hx. destruct Hx as [[g e] [Hin Hx]]. cbn [fst snd] in Hx.
    destruct (se_has_internet_access e); [|contradiction].
    apply in_map_iff in Hx. destruct Hx as [r [<- Hr]].
    rewrite (proj1 (Hent g e Hin)) in Hr. unfold refs_to in Hr.
    apply in_map_iff in Hr. destruct Hr as [[r' g'] [Hfst Hr]]. cbn [fst] in Hfst.
    subst r'. apply filter_In in Hr. cbn [exposed_entry er_resource_type].
    exact (@references_of_bare _ r g' Hnone (proj1 Hr)).
  - intros g e r. unfold get_security_group_relationships.
    destruct (dict_get scan_id (Scan.scan_results s')) as [sd|] eqn:Hsd; [|discriminate].
    destruct (dict_get g (security_group_mappings (Scan.sd_relationships sd)))
      as [e0|] eqn:Hg; [|discriminate].
    intros [= <-] Hr.
    destruct (Hbare sd eq_refl) as [iam [st' [Hb Hnone]]].
    destruct (built_sg_entry _ _ _ _ Hb) as [_ [_ Hent]].
    apply dict_get_In in Hg.
    rewrite (proj1 (Hent g e0 Hg)) in Hr. unfold refs_to in Hr.
    apply in_map_iff in Hr. destruct Hr as [[r' g'] [Hfst Hr]]. cbn [fst] in Hfst.
    subst r'. apply filter_In in Hr.
    exact (@references_of_bare _ r g' Hnone (proj1 Hr)).
Qed.

Lemma scanned_instances_are_never_exposed_witness :
  exists a,
    get_internet_exposed_resources mixed_store "scan-1" = Scan.Respond a
    /\ map er_resource_id (resources a) = ["report"; "billing"]
    /\ forall x, In x (resources a) -> er_resource_type x <> "ec2_instance".
Proof.
  eexists. split; [vm_compute; reflexivity|]. split; [reflexivity|].
  intros x.
  refine (proj1 (proj2 (@scanned_instances_are_never_exposed
            (world_of Examples.one_admin mixed_resources) "scan-1" ["us-east-1"]
            scan_everything empty_store eq_refl _)) _ x _).
  - intros region l H. injection H as <-. exists [bare_instance]. reflexivity.
  - vm_compute. reflexivity.
Defined.

End ScanRouteAnswers.
